(** * OS-EL deadlock module: resource allocation graph, cycle detection, recovery

    A shallow embedding of [src/rag.c], [src/cycle_detector.c],
    [src/recovery.c] and the dining-philosophers and circular-wait
    scenarios of [src/simulator.c], with the properties of the
    specification settled against it.

    Conventions.
    - A C [int] is a [Z].  Signed overflow is undefined in C, so there is
      no wrap-around to write out; the counters of the store stay between
      zero and the instance counts the caller passed in
      ([holdings_bounded]), and the lowest-priority score [100 - priority]
      stays in [0, 100] for priorities in that interval.
    - A fixed array [T a[64]] is a total function [Z -> T]; the code guards
      every index with an explicit range check, which the model repeats, and
      loops [for (i = 0; i < 64; i++)] become folds over [proc_ids] or
      [res_ids].
    - A function that mutates [*rag] returns its result paired with the new
      graph.
    - An array filled up to a counter (cycles, deadlocked ids, actions, the
      DFS path) is a list whose length is the counter; bounded pushes keep
      their bound test.
    - The [summary] text of a recovery result is a string, written as the
      [snprintf] calls write it; action descriptions and printed messages
      are not modelled.
    - [select_victim_process] reads [rag->processes[pid]] without a range
      check and computes its scores in [int]; the statements about its
      choice take the listed ids in range and bound the priorities and
      holdings so that no [int] computation overflows ([fits_int]). *)

From Stdlib Require Import ZArith Bool Lia String DecimalString.
From stdpp Require Import base tactics option list relations sorting.

Local Open Scope Z_scope.

(** ** Constants and types ([include/rag.h]) *)

Definition MAX_PROCESSES : Z := 64.
Definition MAX_RESOURCES : Z := 64.
Definition MAX_NAME_LENGTH : nat := 32.

(** The range of a 32-bit [int] ([<limits.h>]). *)
Definition INT_MIN : Z := -2147483648.
Definition INT_MAX : Z := 2147483647.
Definition fits_int (z : Z) : Prop := INT_MIN <= z <= INT_MAX.

Inductive NodeType := NODE_PROCESS | NODE_RESOURCE.

Inductive ProcessState :=
  PROCESS_RUNNING | PROCESS_WAITING | PROCESS_BLOCKED | PROCESS_TERMINATED.

Record Process := mkProcess {
  proc_id : Z;
  proc_name : string;
  proc_state : ProcessState;
  proc_priority : Z;
  proc_active : bool
}.

Record Resource := mkResource {
  res_id : Z;
  res_name : string;
  total_instances : Z;
  available_instances : Z;
  res_active : bool
}.

Record RAG := mkRAG {
  processes : Z -> Process;
  resources : Z -> Resource;
  request_matrix : Z -> Z -> Z;
  assignment_matrix : Z -> Z -> Z;
  process_count : Z;
  resource_count : Z
}.

(** Index ranges of the two slot arrays. *)
Definition proc_ids : list Z := seqZ 0 MAX_PROCESSES.
Definition res_ids : list Z := seqZ 0 MAX_RESOURCES.

(** Array and matrix stores: [a[i] = v] and [m[i][j] = v]. *)
Definition upd {A} (a : Z -> A) (i : Z) (v : A) : Z -> A :=
  fun k => if k =? i then v else a k.

Definition upd2 (m : Z -> Z -> Z) (i j : Z) (v : Z) : Z -> Z -> Z :=
  fun a b => if (a =? i) && (b =? j) then v else m a b.

(** Field stores on the graph. *)
Definition with_processes (rag : RAG) (ps : Z -> Process) : RAG :=
  mkRAG ps (resources rag) (request_matrix rag) (assignment_matrix rag)
        (process_count rag) (resource_count rag).

Definition with_resources (rag : RAG) (rs : Z -> Resource) : RAG :=
  mkRAG (processes rag) rs (request_matrix rag) (assignment_matrix rag)
        (process_count rag) (resource_count rag).

Definition with_request (rag : RAG) (m : Z -> Z -> Z) : RAG :=
  mkRAG (processes rag) (resources rag) m (assignment_matrix rag)
        (process_count rag) (resource_count rag).

Definition with_assignment (rag : RAG) (m : Z -> Z -> Z) : RAG :=
  mkRAG (processes rag) (resources rag) (request_matrix rag) m
        (process_count rag) (resource_count rag).

Definition set_state (p : Process) (s : ProcessState) : Process :=
  mkProcess (proc_id p) (proc_name p) s (proc_priority p) (proc_active p).

Definition set_available (r : Resource) (n : Z) : Resource :=
  mkResource (res_id r) (res_name r) (total_instances r) n (res_active r).

(** [p->state = s] through the pointer [&rag->processes[pid]]. *)
Definition store_state (rag : RAG) (pid : Z) (s : ProcessState) : RAG :=
  with_processes rag (upd (processes rag) pid (set_state (processes rag pid) s)).

(** [strncpy(dst, name, MAX_NAME_LENGTH - 1); dst[MAX_NAME_LENGTH - 1] = 0]. *)
Definition copy_name (name : string) : string :=
  substring 0 (MAX_NAME_LENGTH - 1) name.

(** ** Lifecycle ([rag_init], [rag_reset], [rag_destroy], [rag_copy]) *)

Definition rag_init : RAG :=
  mkRAG (fun _ => mkProcess (-1) EmptyString PROCESS_RUNNING 0 false)
        (fun _ => mkResource (-1) EmptyString 0 0 false)
        (fun _ _ => 0) (fun _ _ => 0) 0 0.

Definition rag_reset (rag : RAG) : RAG := rag_init.
Definition rag_destroy (rag : RAG) : RAG := rag_init.
Definition rag_copy (src : RAG) : RAG := src.

(** ** Process management *)

(** The scan [for (r = 0; r < MAX_RESOURCES; r++) if (m[pid][r] > 0) ...]
    that both [rag_cancel_request] and [rag_allocate_resource] run. *)
Definition has_requests (rag : RAG) (pid : Z) : bool :=
  existsb (fun r => request_matrix rag pid r >? 0) res_ids.

Definition clear_row (m : Z -> Z -> Z) (slot : Z) : Z -> Z -> Z :=
  fold_left (fun acc r => upd2 acc slot r 0) res_ids m.

Definition clear_col (m : Z -> Z -> Z) (slot : Z) : Z -> Z -> Z :=
  fold_left (fun acc p => upd2 acc p slot 0) proc_ids m.

(** [name = None] stands for a NULL name pointer. *)
Definition rag_add_process (rag : RAG) (name : option string) (priority : Z)
  : Z * RAG :=
  match name with
  | None => (-1, rag)
  | Some nm =>
    match find (fun i => negb (proc_active (processes rag i))) proc_ids with
    | None => (-1, rag)
    | Some slot =>
      let p := mkProcess slot (copy_name nm) PROCESS_RUNNING priority true in
      (slot,
       mkRAG (upd (processes rag) slot p) (resources rag)
             (clear_row (request_matrix rag) slot)
             (clear_row (assignment_matrix rag) slot)
             (process_count rag + 1) (resource_count rag))
    end
  end.

Definition rag_get_process (rag : RAG) (process_id : Z) : option Process :=
  if (process_id <? 0) || (process_id >=? MAX_PROCESSES) then None
  else if negb (proc_active (processes rag process_id)) then None
  else Some (processes rag process_id).

Definition rag_set_process_state (rag : RAG) (process_id : Z) (s : ProcessState)
  : bool * RAG :=
  match rag_get_process rag process_id with
  | None => (false, rag)
  | Some _ => (true, store_state rag process_id s)
  end.

(** ** Resource management *)

Definition rag_add_resource (rag : RAG) (name : option string) (instances : Z)
  : Z * RAG :=
  match name with
  | None => (-1, rag)
  | Some nm =>
    if instances <=? 0 then (-1, rag)
    else
      match find (fun i => negb (res_active (resources rag i))) res_ids with
      | None => (-1, rag)
      | Some slot =>
        let r := mkResource slot (copy_name nm) instances instances true in
        (slot,
         mkRAG (processes rag) (upd (resources rag) slot r)
               (clear_col (request_matrix rag) slot)
               (clear_col (assignment_matrix rag) slot)
               (process_count rag) (resource_count rag + 1))
      end
  end.

Definition rag_remove_resource (rag : RAG) (resource_id : Z) : bool * RAG :=
  if (resource_id <? 0) || (resource_id >=? MAX_RESOURCES) then (false, rag)
  else if negb (res_active (resources rag resource_id)) then (false, rag)
  else if existsb (fun p => assignment_matrix rag p resource_id >? 0) proc_ids
  then (false, rag)
  else
    let r := resources rag resource_id in
    (true,
     mkRAG (processes rag)
           (upd (resources rag) resource_id
                (mkResource (-1) (res_name r) (total_instances r)
                            (available_instances r) false))
           (clear_col (request_matrix rag) resource_id)
           (assignment_matrix rag)
           (process_count rag) (resource_count rag - 1)).

Definition rag_get_resource (rag : RAG) (resource_id : Z) : option Resource :=
  if (resource_id <? 0) || (resource_id >=? MAX_RESOURCES) then None
  else if negb (res_active (resources rag resource_id)) then None
  else Some (resources rag resource_id).

(** ** Request and assignment edges *)

Definition rag_request_resource (rag : RAG) (process_id resource_id : Z)
  : bool * RAG :=
  match rag_get_process rag process_id, rag_get_resource rag resource_id with
  | Some _, Some _ =>
    if request_matrix rag process_id resource_id >? 0 then (true, rag)
    else
      let rag1 :=
        with_request rag (upd2 (request_matrix rag) process_id resource_id 1) in
      (true, store_state rag1 process_id PROCESS_WAITING)
  | _, _ => (false, rag)
  end.

Definition rag_cancel_request (rag : RAG) (process_id resource_id : Z)
  : bool * RAG :=
  if (process_id <? 0) || (process_id >=? MAX_PROCESSES) then (false, rag)
  else if (resource_id <? 0) || (resource_id >=? MAX_RESOURCES) then (false, rag)
  else if request_matrix rag process_id resource_id =? 0 then (false, rag)
  else
    let rag1 :=
      with_request rag (upd2 (request_matrix rag) process_id resource_id 0) in
    if negb (has_requests rag1 process_id)
       && proc_active (processes rag1 process_id)
    then (true, store_state rag1 process_id PROCESS_RUNNING)
    else (true, rag1).

Definition rag_allocate_resource (rag : RAG) (process_id resource_id : Z)
  : bool * RAG :=
  match rag_get_process rag process_id, rag_get_resource rag resource_id with
  | Some _, Some r =>
    if available_instances r <=? 0 then (false, rag)
    else
      let rag1 :=
        with_request rag (upd2 (request_matrix rag) process_id resource_id 0) in
      let rag2 :=
        with_assignment rag1
          (upd2 (assignment_matrix rag1) process_id resource_id
                (assignment_matrix rag1 process_id resource_id + 1)) in
      let rag3 :=
        with_resources rag2
          (upd (resources rag2) resource_id
               (set_available (resources rag2 resource_id)
                              (available_instances (resources rag2 resource_id) - 1))) in
      if negb (has_requests rag3 process_id)
      then (true, store_state rag3 process_id PROCESS_RUNNING)
      else (true, rag3)
  | _, _ => (false, rag)
  end.

Definition rag_release_resource (rag : RAG) (process_id resource_id : Z)
  : bool * RAG :=
  if (process_id <? 0) || (process_id >=? MAX_PROCESSES) then (false, rag)
  else if (resource_id <? 0) || (resource_id >=? MAX_RESOURCES) then (false, rag)
  else if assignment_matrix rag process_id resource_id <=? 0 then (false, rag)
  else
    let rag1 :=
      with_assignment rag
        (upd2 (assignment_matrix rag) process_id resource_id
              (assignment_matrix rag process_id resource_id - 1)) in
    if res_active (resources rag1 resource_id)
    then (true,
          with_resources rag1
            (upd (resources rag1) resource_id
                 (set_available (resources rag1 resource_id)
                                (available_instances (resources rag1 resource_id) + 1))))
    else (true, rag1).

(** [while (rag->assignment_matrix[pid][r] > 0) { release; released++; }].
    The loop runs on a budget of iterations; [rag_release_all_resources]
    hands it the number of held instances, and [release_loop_exit] shows the
    loop leaves through its own test. *)
Fixpoint release_loop (budget : nat) (rag : RAG) (pid r : Z) (released : Z)
  : Z * RAG :=
  match budget with
  | O => (released, rag)
  | S n =>
    if assignment_matrix rag pid r >? 0
    then release_loop n (snd (rag_release_resource rag pid r)) pid r (released + 1)
    else (released, rag)
  end.

Definition rag_release_all_resources (rag : RAG) (process_id : Z) : Z * RAG :=
  if (process_id <? 0) || (process_id >=? MAX_PROCESSES) then (0, rag)
  else
    fold_left
      (fun acc r =>
         release_loop (Z.to_nat (assignment_matrix (snd acc) process_id r))
                      (snd acc) process_id r (fst acc))
      res_ids (0, rag).

Definition rag_remove_process (rag : RAG) (process_id : Z) : bool * RAG :=
  if (process_id <? 0) || (process_id >=? MAX_PROCESSES) then (false, rag)
  else if negb (proc_active (processes rag process_id)) then (false, rag)
  else
    let rag1 := snd (rag_release_all_resources rag process_id) in
    let req :=
      fold_left
        (fun acc r => if acc process_id r >? 0 then upd2 acc process_id r 0 else acc)
        res_ids (request_matrix rag1) in
    let p := processes rag1 process_id in
    (true,
     mkRAG (upd (processes rag1) process_id
                (mkProcess (-1) (proc_name p) (proc_state p) (proc_priority p) false))
           (resources rag1) req (assignment_matrix rag1)
           (process_count rag1 - 1) (resource_count rag1)).

(** ** Queries *)

Definition rag_is_requesting (rag : RAG) (process_id resource_id : Z) : bool :=
  if (process_id <? 0) || (process_id >=? MAX_PROCESSES) then false
  else if (resource_id <? 0) || (resource_id >=? MAX_RESOURCES) then false
  else request_matrix rag process_id resource_id >? 0.

Definition rag_is_holding (rag : RAG) (process_id resource_id : Z) : bool :=
  if (process_id <? 0) || (process_id >=? MAX_PROCESSES) then false
  else if (resource_id <? 0) || (resource_id >=? MAX_RESOURCES) then false
  else assignment_matrix rag process_id resource_id >? 0.

(** The scan [for (i = 0; i < n && count < max_size; i++)
    if (keep item i) out[count++] = ...] that the listing functions run;
    the result is the part of the output array that was written. *)
Fixpoint collect_upto {A} (keep : A -> option Z) (items : list A)
    (max_size : Z) (out : list Z) : list Z :=
  match items with
  | [] => out
  | x :: rest =>
    if Z.of_nat (length out) <? max_size
    then collect_upto keep rest max_size
           (match keep x with Some v => out ++ [v] | None => out end)
    else out
  end.

Definition keep_if (test : Z -> bool) (i : Z) : option Z :=
  if test i then Some i else None.

(** Each listing function returns its count with the entries written. *)
Definition rag_get_held_resources (rag : RAG) (process_id max_size : Z)
  : Z * list Z :=
  if max_size <=? 0 then (0, [])
  else if (process_id <? 0) || (process_id >=? MAX_PROCESSES) then (0, [])
  else
    let out :=
      collect_upto (keep_if (fun r => assignment_matrix rag process_id r >? 0))
                   res_ids max_size [] in
    (Z.of_nat (length out), out).

Definition rag_get_requested_resources (rag : RAG) (process_id max_size : Z)
  : Z * list Z :=
  if max_size <=? 0 then (0, [])
  else if (process_id <? 0) || (process_id >=? MAX_PROCESSES) then (0, [])
  else
    let out :=
      collect_upto (keep_if (fun r => request_matrix rag process_id r >? 0))
                   res_ids max_size [] in
    (Z.of_nat (length out), out).

Definition rag_get_holding_processes (rag : RAG) (resource_id max_size : Z)
  : Z * list Z :=
  if max_size <=? 0 then (0, [])
  else if (resource_id <? 0) || (resource_id >=? MAX_RESOURCES) then (0, [])
  else
    let out :=
      collect_upto (keep_if (fun p => assignment_matrix rag p resource_id >? 0))
                   proc_ids max_size [] in
    (Z.of_nat (length out), out).

(** [rag_get_stats]: the four output parameters in their order
    (processes, resources, requests, assignments). *)
Definition rag_get_stats (rag : RAG) : Z * Z * Z * Z :=
  let '(requests, assignments) :=
    fold_left
      (fun acc p =>
         fold_left
           (fun acc r =>
              (fst acc + request_matrix rag p r,
               snd acc + assignment_matrix rag p r))
           res_ids acc)
      proc_ids (0, 0) in
  (process_count rag, resource_count rag, requests, assignments).

(** ** Cycle detector types ([include/cycle_detector.h], [cycle_detector.c]) *)

Definition MAX_CYCLE_LENGTH : Z := 128.
Definition MAX_CYCLES : Z := 32.

Inductive NodeColor := COLOR_WHITE | COLOR_GRAY | COLOR_BLACK.

(** [GraphNode] and [CycleNode] are the same pair of fields in the source. *)
Record GraphNode := mkNode { node_id : Z; node_type : NodeType }.

Record Cycle := mkCycle { cyc_nodes : list GraphNode; cyc_valid : bool }.

Record DeadlockResult := mkDeadlockResult {
  deadlock_detected : bool;
  cycles : list Cycle;
  deadlocked_processes : list Z;
  deadlocked_resources : list Z
}.

Inductive DetectionAlgorithm := DETECT_DFS | DETECT_DFS_ALL_CYCLES | DETECT_BANKER.

(** The graph pointer of the C [DFSState] never changes during a search and
    is passed next to the state; [output_cycle] is the cycle the state points
    to (never NULL at the call sites). *)
Record DFSState := mkDFS {
  process_colors : Z -> NodeColor;
  resource_colors : Z -> NodeColor;
  path : list GraphNode;
  cycle_found : bool;
  output_cycle : Cycle
}.

Definition color_eqb (a b : NodeColor) : bool :=
  match a, b with
  | COLOR_WHITE, COLOR_WHITE | COLOR_GRAY, COLOR_GRAY | COLOR_BLACK, COLOR_BLACK => true
  | _, _ => false
  end.

Definition node_type_eqb (a b : NodeType) : bool :=
  match a, b with
  | NODE_PROCESS, NODE_PROCESS | NODE_RESOURCE, NODE_RESOURCE => true
  | _, _ => false
  end.

Definition init_dfs_state (output : Cycle) : DFSState :=
  mkDFS (fun _ => COLOR_WHITE) (fun _ => COLOR_WHITE) [] false output.

(** [extract_cycle]: copy [path[start .. path_length)] , at most
    [MAX_CYCLE_LENGTH] nodes, and mark the cycle valid. *)
Definition extract_cycle (st : DFSState) (cycle_start_idx : nat) : DFSState :=
  mkDFS (process_colors st) (resource_colors st) (path st) (cycle_found st)
        (mkCycle (take (Z.to_nat MAX_CYCLE_LENGTH) (drop cycle_start_idx (path st)))
                 true).

(** First index [i] with [path[i].type == ty && path[i].id == id]. *)
Fixpoint path_index (ty : NodeType) (id : Z) (p : list GraphNode) : option nat :=
  match p with
  | [] => None
  | n :: rest =>
    if node_type_eqb (node_type n) ty && (node_id n =? id) then Some O
    else option_map S (path_index ty id rest)
  end.

Definition set_found (st : DFSState) : DFSState :=
  mkDFS (process_colors st) (resource_colors st) (path st) true (output_cycle st).

Definition set_process_color (st : DFSState) (p : Z) (c : NodeColor) : DFSState :=
  mkDFS (upd (process_colors st) p c) (resource_colors st) (path st)
        (cycle_found st) (output_cycle st).

Definition set_resource_color (st : DFSState) (r : Z) (c : NodeColor) : DFSState :=
  mkDFS (process_colors st) (upd (resource_colors st) r c) (path st)
        (cycle_found st) (output_cycle st).

(** [if (path_length < MAX_CYCLE_LENGTH) path[path_length++] = n]. *)
Definition push_path (st : DFSState) (n : GraphNode) : DFSState :=
  if Z.of_nat (length (path st)) <? MAX_CYCLE_LENGTH
  then mkDFS (process_colors st) (resource_colors st) (path st ++ [n])
             (cycle_found st) (output_cycle st)
  else st.

(** [path_length--]. *)
Definition pop_path (st : DFSState) : DFSState :=
  mkDFS (process_colors st) (resource_colors st) (removelast (path st))
        (cycle_found st) (output_cycle st).

(** The successor loop of both visit functions:
    [for (i ...) if (edge i) if (visit(state, i)) return true;]. *)
Fixpoint visit_each (visit : DFSState -> Z -> option (bool * DFSState))
    (edge : Z -> bool) (ids : list Z) (st : DFSState)
  : option (bool * DFSState) :=
  match ids with
  | [] => Some (false, st)
  | i :: rest =>
    if edge i then
      match visit st i with
      | None => None
      | Some (true, st') => Some (true, st')
      | Some (false, st') => visit_each visit edge rest st'
      end
    else visit_each visit edge rest st
  end.

(** The two mutually recursive visits.  [fuel] bounds the recursion depth;
    [None] means the bound was hit. *)
Fixpoint dfs_visit_process (fuel : nat) (rag : RAG) (st : DFSState)
    (process_id : Z) {struct fuel} : option (bool * DFSState) :=
  match fuel with
  | O => None
  | S n =>
    if cycle_found st then Some (true, st)
    else if (process_id <? 0) || (process_id >=? MAX_PROCESSES) then Some (false, st)
    else if negb (proc_active (processes rag process_id)) then Some (false, st)
    else
      match (if color_eqb (process_colors st process_id) COLOR_GRAY
             then path_index NODE_PROCESS process_id (path st) else None) with
      | Some i => Some (true, set_found (extract_cycle st i))
      | None =>
        if color_eqb (process_colors st process_id) COLOR_BLACK then Some (false, st)
        else
          let st1 := set_process_color st process_id COLOR_GRAY in
          let st2 := push_path st1 (mkNode process_id NODE_PROCESS) in
          match visit_each (dfs_visit_resource n rag)
                           (fun r => request_matrix rag process_id r >? 0)
                           res_ids st2 with
          | None => None
          | Some (true, st3) => Some (true, st3)
          | Some (false, st3) =>
            Some (false, set_process_color (pop_path st3) process_id COLOR_BLACK)
          end
      end
  end
with dfs_visit_resource (fuel : nat) (rag : RAG) (st : DFSState)
    (resource_id : Z) {struct fuel} : option (bool * DFSState) :=
  match fuel with
  | O => None
  | S n =>
    if cycle_found st then Some (true, st)
    else if (resource_id <? 0) || (resource_id >=? MAX_RESOURCES) then Some (false, st)
    else if negb (res_active (resources rag resource_id)) then Some (false, st)
    else
      match (if color_eqb (resource_colors st resource_id) COLOR_GRAY
             then path_index NODE_RESOURCE resource_id (path st) else None) with
      | Some i => Some (true, set_found (extract_cycle st i))
      | None =>
        if color_eqb (resource_colors st resource_id) COLOR_BLACK then Some (false, st)
        else
          let st1 := set_resource_color st resource_id COLOR_GRAY in
          let st2 := push_path st1 (mkNode resource_id NODE_RESOURCE) in
          match visit_each (dfs_visit_process n rag)
                           (fun p => assignment_matrix rag p resource_id >? 0)
                           proc_ids st2 with
          | None => None
          | Some (true, st3) => Some (true, st3)
          | Some (false, st3) =>
            Some (false, set_resource_color (pop_path st3) resource_id COLOR_BLACK)
          end
      end
  end.

(** Recursion depth that is always enough: one frame per node plus one. *)
Definition DFS_FUEL : nat := S (Z.to_nat (MAX_PROCESSES + MAX_RESOURCES)).

Definition deadlock_result_init : DeadlockResult := mkDeadlockResult false [] [] [].

(** [result->cycles[cycle_count++] = cycle] under [cycle_count < MAX_CYCLES]. *)
Definition record_cycle (res : DeadlockResult) (c : Cycle) : DeadlockResult :=
  mkDeadlockResult true
    (if Z.of_nat (length (cycles res)) <? MAX_CYCLES
     then cycles res ++ [c] else cycles res)
    (deadlocked_processes res) (deadlocked_resources res).

(** [cycle.valid = false; state.cycle_found = false;] *)
Definition reset_for_more (st : DFSState) : DFSState :=
  mkDFS (process_colors st) (resource_colors st) (path st) false
        (mkCycle (cyc_nodes (output_cycle st)) false).

(** The root loop of [detect_deadlock_with_algorithm]. *)
Fixpoint detect_roots (rag : RAG) (algorithm : DetectionAlgorithm)
    (ps : list Z) (st : DFSState) (res : DeadlockResult)
  : option DeadlockResult :=
  match ps with
  | [] => Some res
  | p :: rest =>
    if negb (proc_active (processes rag p)) then detect_roots rag algorithm rest st res
    else if has_requests rag p && color_eqb (process_colors st p) COLOR_WHITE then
      match dfs_visit_process DFS_FUEL rag st p with
      | None => None
      | Some (true, st') =>
        let res1 := record_cycle res (output_cycle st') in
        match algorithm with
        | DETECT_DFS => Some res1
        | _ => detect_roots rag algorithm rest (reset_for_more st') res1
        end
      | Some (false, st') => detect_roots rag algorithm rest st' res
      end
    else detect_roots rag algorithm rest st res
  end.

(** The two boolean arrays [process_in_deadlock] and [resource_in_deadlock]. *)
Definition mark_node (acc : (Z -> bool) * (Z -> bool)) (n : GraphNode)
  : (Z -> bool) * (Z -> bool) :=
  match node_type n with
  | NODE_PROCESS => (upd (fst acc) (node_id n) true, snd acc)
  | NODE_RESOURCE => (fst acc, upd (snd acc) (node_id n) true)
  end.

Definition mark_cycles (cs : list Cycle) : (Z -> bool) * (Z -> bool) :=
  fold_left (fun acc c => fold_left mark_node (cyc_nodes c) acc) cs
            (fun _ => false, fun _ => false).

Definition extract_deadlocked (res : DeadlockResult) : DeadlockResult :=
  if deadlock_detected res then
    let marks := mark_cycles (cycles res) in
    mkDeadlockResult (deadlock_detected res) (cycles res)
                     (filter (fun p => Is_true (fst marks p)) proc_ids)
                     (filter (fun r => Is_true (snd marks r)) res_ids)
  else res.

Definition detect_deadlock_with_algorithm (rag : RAG)
    (algorithm : DetectionAlgorithm) : option DeadlockResult :=
  match algorithm with
  | DETECT_DFS | DETECT_DFS_ALL_CYCLES =>
    match detect_roots rag algorithm proc_ids
                       (init_dfs_state (mkCycle [] false)) deadlock_result_init with
    | None => None
    | Some res => Some (extract_deadlocked res)
    end
  | DETECT_BANKER => Some deadlock_result_init
  end.

Definition detect_deadlock (rag : RAG) : option DeadlockResult :=
  detect_deadlock_with_algorithm rag DETECT_DFS.

Definition detect_all_cycles (rag : RAG) : option (Z * DeadlockResult) :=
  match detect_deadlock_with_algorithm rag DETECT_DFS_ALL_CYCLES with
  | None => None
  | Some res => Some (Z.of_nat (length (cycles res)), res)
  end.

Definition is_process_deadlocked (rag : RAG) (process_id : Z) : option bool :=
  if (process_id <? 0) || (process_id >=? MAX_PROCESSES) then Some false
  else if negb (proc_active (processes rag process_id)) then Some false
  else
    match detect_deadlock rag with
    | None => None
    | Some result =>
      if negb (deadlock_detected result) then Some false
      else Some (existsb (fun q => q =? process_id) (deadlocked_processes result))
    end.

Definition is_resource_in_deadlock (rag : RAG) (resource_id : Z) : option bool :=
  if (resource_id <? 0) || (resource_id >=? MAX_RESOURCES) then Some false
  else if negb (res_active (resources rag resource_id)) then Some false
  else
    match detect_deadlock rag with
    | None => None
    | Some result =>
      if negb (deadlock_detected result) then Some false
      else Some (existsb (fun q => q =? resource_id) (deadlocked_resources result))
    end.

(** [dfs_from_process]: the search from one process; the cycle the caller
    passed in comes back untouched unless a cycle was written to it. *)
Definition dfs_from_process (rag : RAG) (start_process_id : Z) (cycle : Cycle)
  : option (bool * Cycle) :=
  if (start_process_id <? 0) || (start_process_id >=? MAX_PROCESSES)
  then Some (false, cycle)
  else if negb (proc_active (processes rag start_process_id)) then Some (false, cycle)
  else
    match dfs_visit_process DFS_FUEL rag (init_dfs_state cycle) start_process_id with
    | None => None
    | Some (b, st) => Some (b, output_cycle st)
    end.

(** ** Cycle analysis *)

Definition keep_type (ty : NodeType) (n : GraphNode) : option Z :=
  if node_type_eqb (node_type n) ty then Some (node_id n) else None.

Definition get_cycle_processes (cycle : Cycle) (max_size : Z) : Z * list Z :=
  if max_size <=? 0 then (0, [])
  else
    let out := collect_upto (keep_type NODE_PROCESS) (cyc_nodes cycle) max_size [] in
    (Z.of_nat (length out), out).

Definition get_cycle_resources (cycle : Cycle) (max_size : Z) : Z * list Z :=
  if max_size <=? 0 then (0, [])
  else
    let out := collect_upto (keep_type NODE_RESOURCE) (cyc_nodes cycle) max_size [] in
    (Z.of_nat (length out), out).

Definition calculate_deadlock_depth (result : DeadlockResult) : Z :=
  if negb (deadlock_detected result) then 0
  else Z.of_nat (length (deadlocked_processes result)).

(** ** Wait-for graph *)

Definition build_wait_for_graph (rag : RAG) : Z -> Z -> Z :=
  fold_left
    (fun wf p1 =>
       if negb (proc_active (processes rag p1)) then wf
       else
         fold_left
           (fun wf r =>
              if request_matrix rag p1 r >? 0 then
                fold_left
                  (fun wf p2 =>
                     if negb (p1 =? p2) && (assignment_matrix rag p2 r >? 0)
                     then upd2 wf p1 p2 1 else wf)
                  proc_ids wf
              else wf)
           res_ids wf)
    proc_ids (fun _ _ => 0).

(** Outcome of the scan [for (next = 0; next < process_count; next++)]. *)
Inductive ScanResult := ScanCycle (next : Z) | ScanPush (next : Z) | ScanDone.

Fixpoint wait_for_scan (wf : Z -> Z -> Z) (colors : Z -> NodeColor)
    (current : Z) (nexts : list Z) : ScanResult :=
  match nexts with
  | [] => ScanDone
  | next :: rest =>
    if wf current next =? 0 then wait_for_scan wf colors current rest
    else if color_eqb (colors next) COLOR_GRAY then ScanCycle next
    else if color_eqb (colors next) COLOR_WHITE then ScanPush next
    else wait_for_scan wf colors current rest
  end.

(** [while (trace != next && *cycle_length < MAX_PROCESSES)]: [room] is the
    number of free entries left in the output array. *)
Fixpoint trace_cycle (room : nat) (parent : Z -> Z) (next trace : Z)
    (cycle : list Z) : list Z :=
  match room with
  | O => cycle
  | S room' =>
    if trace =? next then cycle
    else trace_cycle room' parent next (parent trace) (cycle ++ [trace])
  end.

Record WaitForState := mkWF {
  wf_colors : Z -> NodeColor;
  wf_parent : Z -> Z;
  wf_stack : list Z   (* top of the stack first *)
}.

(** The [while (stack_size > 0)] loop; [inl cycle] is [return true]. *)
Fixpoint wait_for_while (fuel : nat) (wf : Z -> Z -> Z) (process_count : Z)
    (s : WaitForState) : option (list Z + WaitForState) :=
  match wf_stack s with
  | [] => Some (inr s)
  | current :: below =>
    match fuel with
    | O => None
    | S n =>
      let colors1 :=
        if color_eqb (wf_colors s current) COLOR_WHITE
        then upd (wf_colors s) current COLOR_GRAY else wf_colors s in
      match wait_for_scan wf colors1 current (seqZ 0 process_count) with
      | ScanCycle next =>
        Some (inl (trace_cycle (Z.to_nat (MAX_PROCESSES - 1)) (wf_parent s)
                               next current [next]))
      | ScanPush next =>
        wait_for_while n wf process_count
          (mkWF colors1 (upd (wf_parent s) next current) (next :: current :: below))
      | ScanDone =>
        wait_for_while n wf process_count
          (mkWF (upd colors1 current COLOR_BLACK) (wf_parent s) below)
      end
    end
  end.

(** Iterations that are always enough for one run of the while loop. *)
Definition wait_for_fuel (process_count : Z) : nat :=
  S (2 * Z.to_nat process_count).

Fixpoint wait_for_starts (wf : Z -> Z -> Z) (process_count : Z)
    (starts : list Z) (colors : Z -> NodeColor) (parent : Z -> Z)
  : option (bool * list Z) :=
  match starts with
  | [] => Some (false, [])
  | start :: rest =>
    if negb (color_eqb (colors start) COLOR_WHITE)
    then wait_for_starts wf process_count rest colors parent
    else
      match wait_for_while (wait_for_fuel process_count) wf process_count
                           (mkWF colors parent [start]) with
      | None => None
      | Some (inl cycle) => Some (true, cycle)
      | Some (inr s) =>
        wait_for_starts wf process_count rest (wf_colors s) (wf_parent s)
      end
  end.

(** Returns the boolean result with the cycle written to the output array. *)
Definition detect_cycle_in_wait_for (wf : Z -> Z -> Z) (process_count : Z)
  : option (bool * list Z) :=
  wait_for_starts wf process_count (seqZ 0 process_count)
                  (fun _ => COLOR_WHITE) (fun _ => -1).

(** ** Recovery ([include/recovery.h], [recovery.c]) *)

Inductive RecoveryStrategy :=
  RECOVERY_TERMINATE_ALL | RECOVERY_TERMINATE_ONE | RECOVERY_TERMINATE_LOWEST
| RECOVERY_TERMINATE_YOUNGEST | RECOVERY_TERMINATE_OLDEST
| RECOVERY_PREEMPT_RESOURCES | RECOVERY_ROLLBACK.

Inductive SelectionCriteria :=
  SELECT_LOWEST_PRIORITY | SELECT_FEWEST_RESOURCES | SELECT_MOST_RESOURCES
| SELECT_SHORTEST_RUNTIME | SELECT_LONGEST_RUNTIME | SELECT_MINIMUM_COST.

(** The [%d] rendering of an [int]. *)
Definition decimal (n : Z) : string :=
  DecimalString.NilZero.string_of_int (Z.to_int n).

Record RecoveryAction := mkAction {
  act_process_id : Z;
  act_resource_id : Z;
  act_strategy : RecoveryStrategy;
  act_success : bool
}.

Record RecoveryResult := mkRecovery {
  rec_success : bool;
  actions : list RecoveryAction;
  processes_terminated : Z;
  resources_preempted : Z;
  iterations : Z;
  summary : string
}.

Record RecoveryConfig := mkConfig {
  strategy : RecoveryStrategy;
  selection : SelectionCriteria;
  max_terminations : Z;
  preserve_critical : bool;
  critical_priority_threshold : Z;
  verbose : bool
}.

Definition recovery_result_init : RecoveryResult :=
  mkRecovery false [] 0 0 0 EmptyString.

(** [snprintf(result->summary, sizeof(result->summary), ...)] with the
    formatted text [text]: at most 511 characters are kept. *)
Definition set_summary (res : RecoveryResult) (text : string) : RecoveryResult :=
  mkRecovery (rec_success res) (actions res) (processes_terminated res)
             (resources_preempted res) (iterations res)
             (substring 0 511 text).

Definition recovery_config_init : RecoveryConfig :=
  mkConfig RECOVERY_TERMINATE_LOWEST SELECT_LOWEST_PRIORITY 0 true 90 false.

(** [if (action_count < MAX_PROCESSES) actions[action_count++] = a]. *)
Definition record_action (res : RecoveryResult) (a : RecoveryAction)
  : RecoveryResult :=
  if Z.of_nat (length (actions res)) <? MAX_PROCESSES
  then mkRecovery (rec_success res) (actions res ++ [a])
                  (processes_terminated res) (resources_preempted res)
                  (iterations res) (summary res)
  else res.

(** Sum of [f i] over the indices of [l], as the accumulating loops do. *)
Definition zsum (f : Z -> Z) (l : list Z) : Z :=
  fold_right (fun i acc => f i + acc) 0 l.

Definition held_units (rag : RAG) (pid : Z) : Z :=
  zsum (fun r => assignment_matrix rag pid r) res_ids.

Definition calculate_termination_cost (rag : RAG) (process_id : Z) : Z :=
  if (process_id <? 0) || (process_id >=? MAX_PROCESSES) then 0
  else if negb (proc_active (processes rag process_id)) then 0
  else
    proc_priority (processes rag process_id) * 10
    + zsum (fun r => assignment_matrix rag process_id r * 20) res_ids
    + zsum (fun r =>
              if assignment_matrix rag process_id r >? 0
              then zsum (fun p2 => if request_matrix rag p2 r >? 0 then 15 else 0)
                        proc_ids
              else 0)
           res_ids.

Definition victim_score (rag : RAG) (criteria : SelectionCriteria) (pid : Z) : Z :=
  match criteria with
  | SELECT_LOWEST_PRIORITY => 100 - proc_priority (processes rag pid)
  | SELECT_FEWEST_RESOURCES => MAX_RESOURCES - held_units rag pid
  | SELECT_MOST_RESOURCES => held_units rag pid
  | SELECT_SHORTEST_RUNTIME => pid
  | SELECT_LONGEST_RUNTIME => MAX_PROCESSES - pid
  | SELECT_MINIMUM_COST => 1000 - calculate_termination_cost rag pid
  end.

(** Loop state of [select_victim_process]: [victim], [best_score], [first]. *)
Definition victim_step (rag : RAG) (criteria : SelectionCriteria)
    (acc : Z * Z * bool) (pid : Z) : Z * Z * bool :=
  let '(victim, best_score, first) := acc in
  if negb (proc_active (processes rag pid)) then acc
  else
    let score := victim_score rag criteria pid in
    if first || (score >? best_score) then (pid, score, false) else acc.

Definition select_victim_process (rag : RAG) (deadlock : DeadlockResult)
    (criteria : SelectionCriteria) : Z :=
  if Z.of_nat (length (deadlocked_processes deadlock)) =? 0 then -1
  else
    fst (fst (fold_left (victim_step rag criteria)
                        (deadlocked_processes deadlock) (-1, 0, true))).

Definition is_critical_process (rag : RAG) (process_id priority_threshold : Z)
  : bool :=
  if (process_id <? 0) || (process_id >=? MAX_PROCESSES) then false
  else if negb (proc_active (processes rag process_id)) then false
  else proc_priority (processes rag process_id) >=? priority_threshold.

Definition set_rec_success (res : RecoveryResult) (b : bool) : RecoveryResult :=
  mkRecovery b (actions res) (processes_terminated res)
             (resources_preempted res) (iterations res) (summary res).

(** One round of the loop of [recovery_terminate_all]; the accumulator is
    the graph, the result and the local counter [terminated]. *)
Definition terminate_all_step (acc : RAG * RecoveryResult * Z) (pid : Z)
  : RAG * RecoveryResult * Z :=
  let '(rag, result, terminated) := acc in
  match rag_get_process rag pid with
  | None => acc
  | Some _ =>
    let result1 :=
      record_action result (mkAction pid (-1) RECOVERY_TERMINATE_ALL true) in
    let rag1 := snd (rag_release_all_resources rag pid) in
    let rag2 := snd (rag_remove_process rag1 pid) in
    (rag2, result1, terminated + 1)
  end.

Definition recovery_terminate_all (rag : RAG) (deadlock : DeadlockResult)
    (result : RecoveryResult) : bool * RAG * RecoveryResult :=
  let '(rag', result', terminated) :=
    fold_left terminate_all_step (deadlocked_processes deadlock) (rag, result, 0) in
  let success := terminated >? 0 in
  (success, rag',
   set_summary
     (mkRecovery success (actions result') terminated
                 (resources_preempted result') (iterations result')
                 (summary result'))
     ("Terminated " ++ decimal terminated ++ " deadlocked processes")%string).

Definition recovery_terminate_one (rag : RAG) (deadlock : DeadlockResult)
    (criteria : SelectionCriteria) (result : RecoveryResult)
  : bool * RAG * RecoveryResult :=
  let victim := select_victim_process rag deadlock criteria in
  if victim <? 0
  then (false, rag, set_summary result "No suitable victim process found")
  else
    match rag_get_process rag victim with
    | None => (false, rag, result)
    | Some _ =>
      let result1 :=
        record_action result (mkAction victim (-1) RECOVERY_TERMINATE_ONE true) in
      let '(released, rag1) := rag_release_all_resources rag victim in
      let rag2 := snd (rag_remove_process rag1 victim) in
      (true, rag2,
       set_summary
         (mkRecovery true (actions result1) 1 released (iterations result1)
                     (summary result1))
         ("Terminated P" ++ decimal victim
          ++ " (" ++ proc_name (processes rag2 victim) ++ "), released "
          ++ decimal released ++ " resources")%string)
    end.

(** [resource_ids = []] stands for the call with [NULL] or a zero count. *)
Definition preempt_step (process_id : Z) (acc : RAG * RecoveryResult * Z) (rid : Z)
  : RAG * RecoveryResult * Z :=
  let '(rag, result, preempted) := acc in
  match rag_release_resource rag process_id rid with
  | (true, rag1) =>
    (rag1,
     record_action result (mkAction process_id rid RECOVERY_PREEMPT_RESOURCES true),
     preempted + 1)
  | (false, rag1) => (rag1, result, preempted)
  end.

Definition recovery_preempt_resources (rag : RAG) (process_id : Z)
    (resource_ids : list Z) (result : RecoveryResult)
  : Z * RAG * RecoveryResult :=
  if (process_id <? 0) || (process_id >=? MAX_PROCESSES) then (0, rag, result)
  else
    match rag_get_process rag process_id with
    | None => (0, rag, result)
    | Some _ =>
      let '(rag1, result1, preempted) :=
        match resource_ids with
        | _ :: _ => fold_left (preempt_step process_id) resource_ids (rag, result, 0)
        | [] =>
          let '(n, rag1) := rag_release_all_resources rag process_id in
          (rag1,
           record_action result
             (mkAction process_id (-1) RECOVERY_PREEMPT_RESOURCES true),
           n)
        end in
      let result2 :=
        mkRecovery (rec_success result1) (actions result1)
                   (processes_terminated result1)
                   (resources_preempted result1 + preempted)
                   (iterations result1) (summary result1) in
      (preempted, store_state rag1 process_id PROCESS_BLOCKED, result2)
    end.

Definition recovery_rollback_process (rag : RAG) (process_id : Z)
    (result : RecoveryResult) : bool * RAG * RecoveryResult :=
  if (process_id <? 0) || (process_id >=? MAX_PROCESSES) then (false, rag, result)
  else
    match rag_get_process rag process_id with
    | None => (false, rag, result)
    | Some _ =>
      let '(released, rag1) := rag_release_all_resources rag process_id in
      let rag2 :=
        fold_left (fun g r => snd (rag_cancel_request g process_id r)) res_ids rag1 in
      let rag3 := store_state rag2 process_id PROCESS_RUNNING in
      let result1 :=
        record_action result (mkAction process_id (-1) RECOVERY_ROLLBACK true) in
      (true, rag3,
       set_summary
         (mkRecovery true (actions result1) (processes_terminated result1)
                     (resources_preempted result1 + released) (iterations result1)
                     (summary result1))
         ("Process P" ++ decimal process_id ++ " rolled back, "
          ++ decimal released ++ " resources released")%string)
    end.

Definition recover_from_deadlock (rag : RAG) (deadlock : DeadlockResult)
    (config : RecoveryConfig) : bool * RAG * RecoveryResult :=
  let result := recovery_result_init in
  if negb (deadlock_detected deadlock)
  then (true, rag,
        set_rec_success (set_summary result "No deadlock to recover from") true)
  else
    match strategy config with
    | RECOVERY_TERMINATE_ALL => recovery_terminate_all rag deadlock result
    | RECOVERY_TERMINATE_ONE | RECOVERY_TERMINATE_LOWEST
    | RECOVERY_TERMINATE_YOUNGEST | RECOVERY_TERMINATE_OLDEST =>
      recovery_terminate_one rag deadlock (selection config) result
    | RECOVERY_PREEMPT_RESOURCES =>
      let victim := select_victim_process rag deadlock (selection config) in
      if victim >=? 0 then
        let '(preempted, rag1, result1) :=
          recovery_preempt_resources rag victim [] result in
        (preempted >? 0, rag1, set_rec_success result1 (preempted >? 0))
      else (false, rag, result)
    | RECOVERY_ROLLBACK =>
      let victim := select_victim_process rag deadlock (selection config) in
      if victim >=? 0 then recovery_rollback_process rag victim result
      else (false, rag, result)
    end.

Definition recover_default (rag : RAG) (deadlock : DeadlockResult)
  : bool * RAG * RecoveryResult :=
  recover_from_deadlock rag deadlock recovery_config_init.

(** ** Dining philosophers scenario ([simulator.c]) *)

(** First loop of [setup_dining_philosophers]: create philosopher [i] and
    fork [i], recording the ids in the two local arrays. *)
Definition dining_create (acc : RAG * (Z -> Z) * (Z -> Z)) (i : Z)
  : RAG * (Z -> Z) * (Z -> Z) :=
  let '(rag, philosophers, forks) := acc in
  let '(p, rag1) :=
    rag_add_process rag (Some ("Philosopher_" ++ decimal (i + 1))%string) 50 in
  let '(f, rag2) :=
    rag_add_resource rag1 (Some ("Fork_" ++ decimal (i + 1))%string) 1 in
  (rag2, upd philosophers i p, upd forks i f).

(** Second loop: pick up the left fork, request the right one. *)
Definition dining_pickup (n : Z) (philosophers forks : Z -> Z) (rag : RAG) (i : Z)
  : RAG :=
  let left_fork := forks i in
  let right_fork := forks (Z.rem (i + 1) n) in
  let rag1 := snd (rag_allocate_resource rag (philosophers i) left_fork) in
  snd (rag_request_resource rag1 (philosophers i) right_fork).

(** The graph part of the simulation state; event logging is not modelled. *)
Definition setup_dining_philosophers (rag : RAG) (n : Z) : RAG :=
  if n <? 2 then rag
  else
    let n := if n >? MAX_PROCESSES then MAX_PROCESSES else n in
    let '(rag1, philosophers, forks) :=
      fold_left dining_create (seqZ 0 n)
                (rag_reset rag, (fun _ => 0), (fun _ => 0)) in
    fold_left (dining_pickup n philosophers forks) (seqZ 0 n) rag1.

(** ** Circular wait scenario ([simulator.c]) *)

(** The [%c] rendering of ['A' + i]. *)
Definition resource_letter (i : Z) : string :=
  String (Ascii.ascii_of_N (Z.to_N (65 + i))) EmptyString.

Definition circular_create (acc : RAG * (Z -> Z) * (Z -> Z)) (i : Z)
  : RAG * (Z -> Z) * (Z -> Z) :=
  let '(rag, procs, ress) := acc in
  let '(p, rag1) :=
    rag_add_process rag (Some ("Process_" ++ decimal (i + 1))%string) 50 in
  let '(r, rag2) :=
    rag_add_resource rag1 (Some ("Resource_" ++ resource_letter i)%string) 1 in
  (rag2, upd procs i p, upd ress i r).

(** Process [i] holds resource [i] and requests the next one. *)
Definition circular_hold (n : Z) (procs ress : Z -> Z) (rag : RAG) (i : Z) : RAG :=
  let rag1 := snd (rag_allocate_resource rag (procs i) (ress i)) in
  let next_resource := ress (Z.rem (i + 1) n) in
  snd (rag_request_resource rag1 (procs i) next_resource).

Definition setup_circular_wait (rag : RAG) (n : Z) : RAG :=
  if n <? 2 then rag
  else
    let n := if n >? MAX_PROCESSES then MAX_PROCESSES else n in
    let '(rag1, procs, ress) :=
      fold_left circular_create (seqZ 0 n)
                (rag_reset rag, (fun _ => 0), (fun _ => 0)) in
    fold_left (circular_hold n procs ress) (seqZ 0 n) rag1.

(** ** Public operations of the graph store as a command language *)

Inductive StoreOp :=
| OpInit
| OpAddProcess (name : option string) (priority : Z)
| OpRemoveProcess (process_id : Z)
| OpSetProcessState (process_id : Z) (s : ProcessState)
| OpAddResource (name : option string) (instances : Z)
| OpRemoveResource (resource_id : Z)
| OpRequest (process_id resource_id : Z)
| OpCancelRequest (process_id resource_id : Z)
| OpAllocate (process_id resource_id : Z)
| OpRelease (process_id resource_id : Z)
| OpReleaseAll (process_id : Z).

(** Runs one operation; the flag is the operation's success result
    (an id [>= 0] for the two constructors, [true] for the operations that
    cannot fail). *)
Definition exec_op (rag : RAG) (op : StoreOp) : bool * RAG :=
  match op with
  | OpInit => (true, rag_init)
  | OpAddProcess name priority =>
    let '(id, g) := rag_add_process rag name priority in (0 <=? id, g)
  | OpRemoveProcess p => rag_remove_process rag p
  | OpSetProcessState p s => rag_set_process_state rag p s
  | OpAddResource name instances =>
    let '(id, g) := rag_add_resource rag name instances in (0 <=? id, g)
  | OpRemoveResource r => rag_remove_resource rag r
  | OpRequest p r => rag_request_resource rag p r
  | OpCancelRequest p r => rag_cancel_request rag p r
  | OpAllocate p r => rag_allocate_resource rag p r
  | OpRelease p r => rag_release_resource rag p r
  | OpReleaseAll p => (true, snd (rag_release_all_resources rag p))
  end.

Definition run_ops_from (rag : RAG) (ops : list StoreOp) : RAG :=
  fold_left (fun g op => snd (exec_op g op)) ops rag.

Definition run_ops (ops : list StoreOp) : RAG := run_ops_from rag_init ops.

(** ** Specification vocabulary *)

Definition proc_slot_active (rag : RAG) (p : Z) : Prop :=
  (0 <= p < MAX_PROCESSES) /\ proc_active (processes rag p) = true.

Definition res_slot_active (rag : RAG) (r : Z) : Prop :=
  (0 <= r < MAX_RESOURCES) /\ res_active (resources rag r) = true.

(** Sum of the assignment column of resource [r] over all process slots. *)
Definition assigned_units (rag : RAG) (r : Z) : Z :=
  zsum (fun p => assignment_matrix rag p r) proc_ids.

(** The invariant of the graph store. *)
Record store_inv (rag : RAG) : Prop := mkStoreInv {
  inv_assign_nonneg : forall p r, 0 <= assignment_matrix rag p r;
  inv_assign_active : forall p r,
    0 < assignment_matrix rag p r ->
    proc_slot_active rag p /\ res_slot_active rag r;
  inv_request_bit : forall p r, 0 <= request_matrix rag p r <= 1;
  inv_request_active : forall p r,
    0 < request_matrix rag p r ->
    proc_slot_active rag p /\ res_slot_active rag r;
  inv_available_nonneg : forall r,
    res_slot_active rag r -> 0 <= available_instances (resources rag r);
  inv_accounting : forall r,
    res_slot_active rag r ->
    available_instances (resources rag r) + assigned_units rag r
    = total_instances (resources rag r)
}.

(** [rag'] has the slots of [rag]: the same process records, request edges
    and counters, and resource records that differ at most in their
    available count. *)
Definition same_slots (rag rag' : RAG) : Prop :=
  processes rag' = processes rag /\
  request_matrix rag' = request_matrix rag /\
  process_count rag' = process_count rag /\
  resource_count rag' = resource_count rag /\
  forall b, set_available (resources rag' b) 0 = set_available (resources rag b) 0.

(** The active slots, in ascending order. *)
Definition active_process_ids (rag : RAG) : list Z :=
  filter (fun p => Is_true (proc_active (processes rag p))) proc_ids.

Definition active_resource_ids (rag : RAG) : list Z :=
  filter (fun r => Is_true (res_active (resources rag r))) res_ids.

(** The two counters of the store count its active slots. *)
Definition counts_inv (rag : RAG) : Prop :=
  process_count rag = Z.of_nat (length (active_process_ids rag)) /\
  resource_count rag = Z.of_nat (length (active_resource_ids rag)).

(** The graph while a ring scenario is being built.  [created k] holds after
    [k] rounds of the first loop: the first [k] process and resource slots
    are active, each resource has one instance, available, and there is no
    edge.  [ring_held n k] holds after [k] rounds of the second loop over a
    ring of [n]: process [i < k] holds resource [i] and requests resource
    [(i + 1) % n]. *)
Definition created (k : Z) (rag : RAG) : Prop :=
  (forall i, 0 <= i < MAX_PROCESSES ->
             proc_active (processes rag i) = bool_decide (i < k)) /\
  (forall i, 0 <= i < MAX_RESOURCES ->
             res_active (resources rag i) = bool_decide (i < k)) /\
  (forall i, 0 <= i < k -> available_instances (resources rag i) = 1) /\
  (forall p r, 0 <= p < MAX_PROCESSES -> 0 <= r < MAX_RESOURCES ->
               request_matrix rag p r = 0 /\ assignment_matrix rag p r = 0).

Definition ring_held (n k : Z) (rag : RAG) : Prop :=
  (forall i, 0 <= i < MAX_PROCESSES ->
             proc_active (processes rag i) = bool_decide (i < n)) /\
  (forall i, 0 <= i < MAX_RESOURCES ->
             res_active (resources rag i) = bool_decide (i < n)) /\
  (forall i, k <= i < n -> available_instances (resources rag i) = 1) /\
  (forall p r, 0 <= p < MAX_PROCESSES -> 0 <= r < MAX_RESOURCES ->
               assignment_matrix rag p r
               = if bool_decide (p < k /\ r = p) then 1 else 0) /\
  (forall p r, 0 <= p < MAX_PROCESSES -> 0 <= r < MAX_RESOURCES ->
               request_matrix rag p r
               = if bool_decide (p < k /\ r = Z.rem (p + 1) n) then 1 else 0).

(** The finished ring of [n] processes and [n] resources. *)
Definition ring_graph (n : Z) (rag : RAG) : Prop := ring_held n n rag.

(** Nodes and edges of the bipartite graph the detector walks: only active
    slots are nodes; a request edge goes from a process to a resource, an
    assignment edge from a resource to a process holding an instance. *)
Definition PNode (p : Z) : GraphNode := mkNode p NODE_PROCESS.
Definition RNode (r : Z) : GraphNode := mkNode r NODE_RESOURCE.

Definition node_valid (rag : RAG) (n : GraphNode) : Prop :=
  match node_type n with
  | NODE_PROCESS => proc_slot_active rag (node_id n)
  | NODE_RESOURCE => res_slot_active rag (node_id n)
  end.

Definition rag_edge (rag : RAG) (u v : GraphNode) : Prop :=
  node_valid rag u /\ node_valid rag v /\
  match node_type u, node_type v with
  | NODE_PROCESS, NODE_RESOURCE => 0 < request_matrix rag (node_id u) (node_id v)
  | NODE_RESOURCE, NODE_PROCESS => 0 < assignment_matrix rag (node_id v) (node_id u)
  | _, _ => False
  end.

(** A relation has a cycle when some node reaches itself in one or more
    steps. *)
Definition has_cycle {A} (E : relation A) : Prop := exists x, tc E x x.

(** Edges of the graph that avoid the processes listed in [ps]. *)
Definition rag_edge_avoiding (rag : RAG) (ps : list Z) (u v : GraphNode) : Prop :=
  rag_edge rag u v /\ (u ∉ PNode <$> ps) /\ (v ∉ PNode <$> ps).

(** Edges of a wait-for matrix over the first [n] process slots. *)
Definition wait_for_edge (wf : Z -> Z -> Z) (n : Z) (p q : Z) : Prop :=
  (0 <= p < n) /\ (0 <= q < n) /\ wf p q <> 0.

(** No process requests a resource of which it holds an instance. *)
Definition no_self_wait (rag : RAG) : Prop :=
  forall p r, 0 < request_matrix rag p r -> assignment_matrix rag p r <= 0.

(** ** Vocabulary of the search proofs *)

Global Instance NodeType_eq_dec : EqDecision NodeType.
Proof. solve_decision. Defined.

Global Instance NodeColor_eq_dec : EqDecision NodeColor.
Proof. solve_decision. Defined.

Global Instance GraphNode_eq_dec : EqDecision GraphNode.
Proof. solve_decision. Defined.

(** The two colour arrays read and written through a node. *)
Definition node_color (st : DFSState) (n : GraphNode) : NodeColor :=
  match node_type n with
  | NODE_PROCESS => process_colors st (node_id n)
  | NODE_RESOURCE => resource_colors st (node_id n)
  end.

Definition set_node_color (st : DFSState) (n : GraphNode) (c : NodeColor)
  : DFSState :=
  match node_type n with
  | NODE_PROCESS => set_process_color st (node_id n) c
  | NODE_RESOURCE => set_resource_color st (node_id n) c
  end.

(** The two guards [id out of range] and [slot inactive] of a visit. *)
Definition node_slot_ok (rag : RAG) (n : GraphNode) : bool :=
  match node_type n with
  | NODE_PROCESS =>
    negb ((node_id n <? 0) || (node_id n >=? MAX_PROCESSES))
    && proc_active (processes rag (node_id n))
  | NODE_RESOURCE =>
    negb ((node_id n <? 0) || (node_id n >=? MAX_RESOURCES))
    && res_active (resources rag (node_id n))
  end.

(** The nodes a visit calls, in the order of its loop. *)
Definition successors (rag : RAG) (n : GraphNode) : list GraphNode :=
  match node_type n with
  | NODE_PROCESS =>
    RNode <$> List.filter (fun r => request_matrix rag (node_id n) r >? 0) res_ids
  | NODE_RESOURCE =>
    PNode <$> List.filter (fun p => assignment_matrix rag p (node_id n) >? 0) proc_ids
  end.

Fixpoint visit_nodes (visit : DFSState -> GraphNode -> option (bool * DFSState))
    (ns : list GraphNode) (st : DFSState) : option (bool * DFSState) :=
  match ns with
  | [] => Some (false, st)
  | n :: rest =>
    match visit st n with
    | None => None
    | Some (true, st') => Some (true, st')
    | Some (false, st') => visit_nodes visit rest st'
    end
  end.

(** Either visit function, selected by the type of the node. *)
Definition visit_node (fuel : nat) (rag : RAG) (st : DFSState) (n : GraphNode)
  : option (bool * DFSState) :=
  match node_type n with
  | NODE_PROCESS => dfs_visit_process fuel rag st (node_id n)
  | NODE_RESOURCE => dfs_visit_resource fuel rag st (node_id n)
  end.

(** The common body of the two visit functions ([visit_node_unfold]). *)
Definition visit_body (rag : RAG)
    (visit : DFSState -> GraphNode -> option (bool * DFSState))
    (st : DFSState) (n : GraphNode) : option (bool * DFSState) :=
  if cycle_found st then Some (true, st)
  else if negb (node_slot_ok rag n) then Some (false, st)
  else
    match (if color_eqb (node_color st n) COLOR_GRAY
           then path_index (node_type n) (node_id n) (path st) else None) with
    | Some i => Some (true, set_found (extract_cycle st i))
    | None =>
      if color_eqb (node_color st n) COLOR_BLACK then Some (false, st)
      else
        match visit_nodes visit (successors rag n)
                          (push_path (set_node_color st n COLOR_GRAY) n) with
        | None => None
        | Some (true, st3) => Some (true, st3)
        | Some (false, st3) =>
          Some (false, set_node_color (pop_path st3) n COLOR_BLACK)
        end
    end.

(** Number of white entries of a colour array over an index range. *)
Fixpoint white_count (c : Z -> NodeColor) (ids : list Z) : nat :=
  match ids with
  | [] => O
  | i :: rest =>
    ((if color_eqb (c i) COLOR_WHITE then 1 else 0) + white_count c rest)%nat
  end.

Definition white_nodes (st : DFSState) : nat :=
  (white_count (process_colors st) proc_ids
   + white_count (resource_colors st) res_ids)%nat.

Definition all_nodes : list GraphNode := (PNode <$> proc_ids) ++ (RNode <$> res_ids).

(** Invariant of the depth-first search between two calls. *)
Record dfs_inv (rag : RAG) (st : DFSState) : Prop := mkDfsInv {
  dfs_not_found : cycle_found st = false;
  dfs_gray_path : forall n, node_color st n = COLOR_GRAY -> n ∈ path st;
  dfs_path_gray : forall n,
    n ∈ path st -> node_color st n = COLOR_GRAY /\ node_valid rag n;
  dfs_path_nodup : NoDup (path st);
  dfs_path_chain : forall n top,
    n ∈ path st -> last (path st) = Some top -> rtc (rag_edge rag) n top;
  dfs_black_closed : forall u v,
    node_color st u = COLOR_BLACK -> rag_edge rag u v ->
    node_color st v = COLOR_BLACK;
  dfs_black_acyclic : forall u,
    node_color st u = COLOR_BLACK -> ~ tc (rag_edge rag) u u
}.

(** Colours only move forward, and no node becomes gray for good. *)
Definition colors_advance (st st' : DFSState) : Prop :=
  (forall m, node_color st m <> COLOR_WHITE -> node_color st' m = node_color st m) /\
  (forall m, node_color st' m = COLOR_GRAY -> node_color st m = COLOR_GRAY).

(** What a visit that returns [false] leaves behind. *)
Definition visit_done (rag : RAG) (st : DFSState) (n : GraphNode)
    (st' : DFSState) : Prop :=
  dfs_inv rag st' /\ path st' = path st /\ colors_advance st st' /\
  (node_valid rag n -> node_color st' n = COLOR_BLACK).

(** Contract of a visit function run with [fuel] frames left: started on a
    state that satisfies the invariant, at a node the top of the path points
    to, it returns; [true] comes with a cycle of the graph, [false] with
    [visit_done]. *)
Definition visit_ok (rag : RAG)
    (visit : DFSState -> GraphNode -> option (bool * DFSState)) (fuel : nat)
  : Prop :=
  forall st n,
    dfs_inv rag st ->
    (node_valid rag n -> forall top, last (path st) = Some top -> rag_edge rag top n) ->
    (white_nodes st < fuel)%nat ->
    exists b st',
      visit st n = Some (b, st') /\
      if b then has_cycle (rag_edge rag) else visit_done rag st n st'.

(** Consecutive entries of a list are joined by [E]. *)
Fixpoint linked {A} (E : relation A) (l : list A) : Prop :=
  match l with
  | x :: ((y :: _) as rest) => E x y /\ linked E rest
  | _ => True
  end.

(** A closed walk through distinct nodes: each entry is joined to the next
    and the last one to the first. *)
Definition simple_cycle {A} (E : relation A) (c : list A) : Prop :=
  NoDup c /\ linked E c /\
  exists first final, head c = Some first /\ last c = Some final /\ E final first.

(** What a visit writes to the output cycle: nothing when it returns
    [false]; when it returns [true], a closed walk of the graph whose nodes
    are on the path of the call or reachable from the visited node. *)
Definition visit_reports (rag : RAG)
    (visit : DFSState -> GraphNode -> option (bool * DFSState)) (fuel : nat)
  : Prop :=
  forall st n b st',
    dfs_inv rag st -> linked (rag_edge rag) (path st) ->
    (node_valid rag n -> forall top, last (path st) = Some top -> rag_edge rag top n) ->
    (white_nodes st < fuel)%nat ->
    visit st n = Some (b, st') ->
    if b then
      node_valid rag n /\ cycle_found st' = true /\
      exists c, output_cycle st' = mkCycle c true /\
                simple_cycle (rag_edge rag) c /\
                forall m, m ∈ c -> m ∈ path st \/ rtc (rag_edge rag) n m
    else output_cycle st' = output_cycle st.

(** [rag'] is [rag] without the processes listed in [ps]: these are no
    longer active slots, and nothing else of the graph has changed. *)
Definition graph_minus (rag rag' : RAG) (ps : list Z) : Prop :=
  (forall p, proc_slot_active rag' p <-> proc_slot_active rag p /\ p ∉ ps) /\
  (forall r, res_active (resources rag' r) = res_active (resources rag r)) /\
  (forall p r, p ∉ ps ->
     request_matrix rag' p r = request_matrix rag p r /\
     assignment_matrix rag' p r = assignment_matrix rag p r).

(** Consecutive entries of the explicit stack (top first) are joined by
    edges. *)
Fixpoint stack_chain (E : relation Z) (l : list Z) : Prop :=
  match l with
  | y :: ((x :: _) as rest) => E x y /\ stack_chain E rest
  | _ => True
  end.

(** Invariant of the iterative search over a wait-for matrix. *)
Record wf_inv (wf : Z -> Z -> Z) (n : Z) (s : WaitForState) : Prop := mkWfInv {
  wf_stack_range : forall x, x ∈ wf_stack s -> 0 <= x < n;
  wf_stack_nodup : NoDup (wf_stack s);
  wf_stack_top : forall top below,
    wf_stack s = top :: below ->
    wf_colors s top <> COLOR_BLACK /\
    forall x, x ∈ below -> wf_colors s x = COLOR_GRAY;
  wf_gray_stack : forall x, wf_colors s x = COLOR_GRAY -> x ∈ wf_stack s;
  wf_chain : stack_chain (wait_for_edge wf n) (wf_stack s);
  wf_black_closed : forall u v,
    wf_colors s u = COLOR_BLACK -> wait_for_edge wf n u v ->
    wf_colors s v = COLOR_BLACK;
  wf_black_acyclic : forall u,
    wf_colors s u = COLOR_BLACK -> ~ tc (wait_for_edge wf n) u u
}.

(** Work left for a node: two loop rounds while white (it is coloured, then
    finished), one while gray. *)
Definition color_rank (c : NodeColor) : Z :=
  match c with COLOR_WHITE => 2 | COLOR_GRAY => 1 | COLOR_BLACK => 0 end.

(** Measure of the while loop; it drops on every round. *)
Definition wf_measure (n : Z) (s : WaitForState) : Z :=
  zsum (fun i => color_rank (wf_colors s i)) (seqZ 0 n)
  + match wf_stack s with
    | top :: _ => if color_eqb (wf_colors s top) COLOR_WHITE then 0 else 1
    | [] => 0
    end.

(** Reduction behaviour: the index ranges and the loops over them are kept
    folded by [simpl]. *)
Global Arguments proc_ids : simpl never.
Global Arguments res_ids : simpl never.
Global Arguments zsum : simpl never.
Global Arguments has_requests : simpl never.
Global Arguments clear_row : simpl never.
Global Arguments clear_col : simpl never.
Global Arguments rag_release_all_resources : simpl never.
Global Arguments assigned_units : simpl never.
Global Arguments DFS_FUEL : simpl never.
Global Arguments wait_for_fuel : simpl never.
Global Arguments MAX_PROCESSES : simpl never.
Global Arguments MAX_RESOURCES : simpl never.
Global Arguments MAX_CYCLE_LENGTH : simpl never.
Global Arguments MAX_CYCLES : simpl never.

Global Arguments all_nodes : simpl never.
Global Arguments successors : simpl never.
Global Arguments white_nodes : simpl never.
Global Arguments active_process_ids : simpl never.
Global Arguments active_resource_ids : simpl never.
Global Arguments held_units : simpl never.

(** ** Proof automation *)

(** Projects record fields of a rebuilt graph without unfolding the loops. *)
Ltac rsimpl :=
  cbn [processes resources request_matrix assignment_matrix process_count
       resource_count proc_active proc_state proc_priority proc_name proc_id
       res_active res_name res_id total_instances available_instances
       fst snd] in *.

(** Case analysis on every index comparison of an array store. *)
Ltac upd_cases :=
  unfold upd, upd2 in *;
  repeat match goal with
         | |- context [Z.eqb ?a ?b] => destruct (Z.eqb_spec a b); simpl
         | H : context [Z.eqb ?a ?b] |- _ =>
           destruct (Z.eqb_spec a b); simpl in H
         end; subst.


(** * Properties *)



(** ** Array stores *)

Lemma upd_eq {A} (a : Z -> A) i v : upd a i v i = v.
Proof. unfold upd. by rewrite Z.eqb_refl. Qed.

Lemma upd_ne {A} (a : Z -> A) i j v : j <> i -> upd a i v j = a j.
Proof. unfold upd. intros H. by apply Z.eqb_neq in H as ->. Qed.

Lemma upd2_eq m i j v : upd2 m i j v i j = v.
Proof. unfold upd2. by rewrite !Z.eqb_refl. Qed.

Lemma upd2_ne m i j v a b : a <> i \/ b <> j -> upd2 m i j v a b = m a b.
Proof.
  unfold upd2. intros [H|H]; apply Z.eqb_neq in H; rewrite H; [done|].
  by rewrite andb_false_r.
Qed.

Lemma elem_of_proc_ids p : p ∈ proc_ids <-> 0 <= p < MAX_PROCESSES.
Proof. unfold proc_ids. rewrite elem_of_seqZ. lia. Qed.

Lemma elem_of_res_ids r : r ∈ res_ids <-> 0 <= r < MAX_RESOURCES.
Proof. unfold res_ids. rewrite elem_of_seqZ. lia. Qed.

Lemma fold_clear_row l m slot a b :
  fold_left (fun acc r => upd2 acc slot r 0) l m a b
  = if bool_decide (a = slot /\ b ∈ l) then 0 else m a b.
Proof.
  revert m. induction l as [|x l IH]; intros m; simpl.
  - rewrite bool_decide_eq_false_2; [done|]. intros [_ H]. by inversion H.
  - rewrite IH. unfold upd2.
    destruct (Z.eqb_spec a slot) as [->|Ha], (Z.eqb_spec b x) as [->|Hb]; simpl;
      repeat case_bool_decide; try done; exfalso;
      repeat match goal with
             | H : _ /\ _ |- _ => destruct H
             | H : _ ∈ _ :: _ |- _ => apply elem_of_cons in H as [?|?]
             | H : ¬ (_ /\ _) |- _ => apply H; split; [done|]
             end; try done; try (apply elem_of_cons; tauto).
Qed.

Lemma fold_clear_col l m slot a b :
  fold_left (fun acc p => upd2 acc p slot 0) l m a b
  = if bool_decide (b = slot /\ a ∈ l) then 0 else m a b.
Proof.
  revert m. induction l as [|x l IH]; intros m; simpl.
  - rewrite bool_decide_eq_false_2; [done|]. intros [_ H]. by inversion H.
  - rewrite IH. unfold upd2.
    destruct (Z.eqb_spec a x) as [->|Ha], (Z.eqb_spec b slot) as [->|Hb]; simpl;
      repeat case_bool_decide; try done; exfalso;
      repeat match goal with
             | H : _ /\ _ |- _ => destruct H
             | H : _ ∈ _ :: _ |- _ => apply elem_of_cons in H as [?|?]
             | H : ¬ (_ /\ _) |- _ => apply H; split; [done|]
             end; try done; try (apply elem_of_cons; tauto).
Qed.

Lemma clear_row_spec m slot a b :
  clear_row m slot a b
  = if bool_decide (a = slot /\ 0 <= b < MAX_RESOURCES) then 0 else m a b.
Proof.
  unfold clear_row. rewrite fold_clear_row.
  apply (f_equal (fun c : bool => if c then 0 else m a b)), bool_decide_ext.
  by rewrite elem_of_res_ids.
Qed.

Lemma clear_col_spec m slot a b :
  clear_col m slot a b
  = if bool_decide (b = slot /\ 0 <= a < MAX_PROCESSES) then 0 else m a b.
Proof.
  unfold clear_col. rewrite fold_clear_col.
  apply (f_equal (fun c : bool => if c then 0 else m a b)), bool_decide_ext.
  by rewrite elem_of_proc_ids.
Qed.


(** ** Failure paths of the mutators *)

Lemma find_free_slot_nonneg (f : Z -> bool) l slot :
  find f l = Some slot -> (forall i, i ∈ l -> 0 <= i) -> 0 <= slot.
Proof.
  intros H Hl. apply find_some in H as [H _]. apply Hl. by apply list_elem_of_In.
Qed.

Lemma rag_get_process_Some rag p :
  is_Some (rag_get_process rag p) <-> proc_slot_active rag p.
Proof.
  unfold rag_get_process, proc_slot_active.
  destruct (Z.ltb_spec p 0), (Z.geb_spec p MAX_PROCESSES); simpl;
    try (split; [intros [? [=]] | lia]).
  destruct (proc_active (processes rag p)); simpl.
  - split; [intros _; split; [lia|done] | by eexists].
  - split; [intros [? [=]] | intros [_ [=]]].
Qed.

Lemma rag_get_resource_Some rag r :
  is_Some (rag_get_resource rag r) <-> res_slot_active rag r.
Proof.
  unfold rag_get_resource, res_slot_active.
  destruct (Z.ltb_spec r 0), (Z.geb_spec r MAX_RESOURCES); simpl;
    try (split; [intros [? [=]] | lia]).
  destruct (res_active (resources rag r)); simpl.
  - split; [intros _; split; [lia|done] | by eexists].
  - split; [intros [? [=]] | intros [_ [=]]].
Qed.

Lemma rag_get_process_val rag p x :
  rag_get_process rag p = Some x -> x = processes rag p.
Proof.
  unfold rag_get_process. repeat case_match; congruence.
Qed.

Lemma rag_get_resource_val rag r x :
  rag_get_resource rag r = Some x -> x = resources rag r.
Proof.
  unfold rag_get_resource. repeat case_match; congruence.
Qed.

(** C6. A mutator of the graph store that reports failure returns the
    store it was given. *)
Theorem failed_mutator_leaves_store_unchanged (rag : RAG) (op : StoreOp) :
  fst (exec_op rag op) = false -> snd (exec_op rag op) = rag.
Proof.
  destruct op; simpl; try discriminate.
  - unfold rag_add_process. destruct name; [|done].
    destruct (find _ _) eqn:Hf; [|done]. simpl. intros H.
    apply find_free_slot_nonneg in Hf; [lia|].
    intros i Hi. apply elem_of_proc_ids in Hi. lia.
  - unfold rag_remove_process.
    destruct (_ || _); [done|]. destruct (negb _); [done|]. discriminate.
  - unfold rag_set_process_state. case_match; simpl; done.
  - unfold rag_add_resource. destruct name; [|done].
    destruct (instances <=? 0); [done|].
    destruct (find _ _) eqn:Hf; [|done]. simpl. intros H.
    apply find_free_slot_nonneg in Hf; [lia|].
    intros i Hi. apply elem_of_res_ids in Hi. lia.
  - unfold rag_remove_resource.
    destruct (_ || _); [done|]. destruct (negb _); [done|].
    destruct (existsb _ _); [done|]. discriminate.
  - unfold rag_request_resource.
    destruct (rag_get_process _ _); [|done].
    destruct (rag_get_resource _ _); [|done].
    destruct (_ >? _); [done|]. discriminate.
  - unfold rag_cancel_request.
    destruct (_ || _); [done|]. destruct (_ || _); [done|].
    destruct (_ =? _); [done|]. destruct (_ && _); discriminate.
  - unfold rag_allocate_resource.
    destruct (rag_get_process _ _); [|done].
    destruct (rag_get_resource _ _); [|done].
    destruct (_ <=? _); [done|]. destruct (negb _); discriminate.
  - unfold rag_release_resource.
    destruct (_ || _); [done|]. destruct (_ || _); [done|].
    destruct (_ <=? _); [done|]. destruct (res_active _); discriminate.
Qed.

Lemma failed_mutator_leaves_store_unchanged_witness :
  fst (exec_op rag_init (OpAllocate 0 0)) = false /\
  snd (exec_op rag_init (OpAllocate 0 0)) = rag_init.
Proof.
  split; [reflexivity|].
  apply (failed_mutator_leaves_store_unchanged rag_init (OpAllocate 0 0)).
  reflexivity.
Defined.

(** ** Allocation *)


Lemma has_requests_false rag p :
  has_requests rag p = false <->
  forall r, 0 <= r < MAX_RESOURCES -> request_matrix rag p r <= 0.
Proof.
  unfold has_requests. rewrite <- not_true_iff_false, existsb_exists. split.
  - intros H r Hr. destruct (Z.gtb_spec (request_matrix rag p r) 0); [|done].
    exfalso. apply H. exists r. split.
    + apply list_elem_of_In, elem_of_res_ids. done.
    + by apply Z.gtb_lt.
  - intros H [r [Hin Hr]]. apply list_elem_of_In, elem_of_res_ids in Hin.
    apply Z.gtb_lt in Hr. specialize (H r Hin). lia.
Qed.

(** The effect of [rag_allocate_resource], with the state of the process
    read off the scan of its request row. *)
Lemma allocate_scan (rag : RAG) (p r : Z) :
  store_inv rag ->
  let ok := fst (rag_allocate_resource rag p r) in
  let rag' := snd (rag_allocate_resource rag p r) in
  (ok = false <->
     ~ proc_slot_active rag p \/ ~ res_slot_active rag r
     \/ available_instances (resources rag r) = 0) /\
  (ok = true ->
     available_instances (resources rag' r)
       = available_instances (resources rag r) - 1 /\
     assignment_matrix rag' p r = assignment_matrix rag p r + 1 /\
     request_matrix rag' p r = 0 /\
     (forall a b, (a <> p \/ b <> r) ->
        assignment_matrix rag' a b = assignment_matrix rag a b /\
        request_matrix rag' a b = request_matrix rag a b) /\
     proc_state (processes rag' p)
       = (if has_requests rag' p then proc_state (processes rag p)
          else PROCESS_RUNNING)) /\
  (proc_slot_active rag p -> res_slot_active rag r ->
   0 < available_instances (resources rag r) ->
   request_matrix rag p r = 0 -> ok = true).
Proof.
  intros Hinv ok rag'. subst ok rag'. unfold rag_allocate_resource.
  destruct (rag_get_process rag p) as [x|] eqn:Hp.
  2:{ assert (~ proc_slot_active rag p) as Hn.
      { rewrite <- rag_get_process_Some, Hp. by intros [? [=]]. }
      simpl. split_and!; [tauto|done|tauto]. }
  destruct (rag_get_resource rag r) as [y|] eqn:Hr.
  2:{ assert (~ res_slot_active rag r) as Hn.
      { rewrite <- rag_get_resource_Some, Hr. by intros [? [=]]. }
      simpl. split_and!; [tauto|done|tauto]. }
  assert (proc_slot_active rag p) as Hpa by (apply rag_get_process_Some; eauto).
  assert (res_slot_active rag r) as Hra by (apply rag_get_resource_Some; eauto).
  apply rag_get_resource_val in Hr as ->.
  pose proof (inv_available_nonneg _ Hinv r Hra) as Hav.
  destruct (Z.leb_spec (available_instances (resources rag r)) 0) as [Hle|Hgt].
  { simpl. split_and!; [|done|lia]. split; [intros _; right; right; lia|done]. }
  set (rag3 := with_resources _ _).
  assert (forall a b, request_matrix rag3 a b
                      = upd2 (request_matrix rag) p r 0 a b) as Hreq by done.
  assert (has_requests (store_state rag3 p PROCESS_RUNNING) p = has_requests rag3 p)
    as Hhr by done.
  destruct (has_requests rag3 p) eqn:Hh; cbn [negb fst snd].
  - split_and!; [|intros _|done].
    { split; [done|]. intros [?|[?|?]]; [tauto|tauto|lia]. }
    rewrite Hh. simpl. rewrite !upd_eq, !upd2_eq. simpl.
    split_and!; try done. intros a b Hab. by rewrite !upd2_ne.
  - split_and!; [|intros _|done].
    { split; [done|]. intros [?|[?|?]]; [tauto|tauto|lia]. }
    rewrite Hhr. simpl. rewrite !upd_eq, !upd2_eq. simpl.
    split_and!; try done. intros a b Hab. by rewrite !upd2_ne.
Qed.

(** C5. Contract of [rag_allocate_resource] on a store that satisfies the
    store invariant: it fails exactly when the process or the resource is
    not an active slot or no instance is available; on success one instance
    moves from [available] to the assignment entry, the request bit is
    cleared and every other matrix entry is kept; the process is Running
    afterwards when no entry of its request row is positive any more, and
    keeps its state when some entry still is.  The request bit plays no part
    in the success condition. *)
Theorem allocate_contract (rag : RAG) (p r : Z) :
  store_inv rag ->
  let ok := fst (rag_allocate_resource rag p r) in
  let rag' := snd (rag_allocate_resource rag p r) in
  (ok = false <->
     ~ proc_slot_active rag p \/ ~ res_slot_active rag r
     \/ available_instances (resources rag r) = 0) /\
  (ok = true ->
     available_instances (resources rag' r)
       = available_instances (resources rag r) - 1 /\
     assignment_matrix rag' p r = assignment_matrix rag p r + 1 /\
     request_matrix rag' p r = 0 /\
     (forall a b, (a <> p \/ b <> r) ->
        assignment_matrix rag' a b = assignment_matrix rag a b /\
        request_matrix rag' a b = request_matrix rag a b) /\
     ((forall b, 0 <= b < MAX_RESOURCES -> request_matrix rag' p b <= 0) ->
        proc_state (processes rag' p) = PROCESS_RUNNING) /\
     ((exists b, 0 <= b < MAX_RESOURCES /\ 0 < request_matrix rag' p b) ->
        proc_state (processes rag' p) = proc_state (processes rag p))) /\
  (proc_slot_active rag p -> res_slot_active rag r ->
   0 < available_instances (resources rag r) ->
   request_matrix rag p r = 0 -> ok = true).
Proof.
  intros Hinv. destruct (allocate_scan rag p r Hinv) as (Hfail & Hok & Hfree).
  cbv zeta in Hfail, Hok, Hfree |- *.
  split; [exact Hfail|]. split; [|exact Hfree].
  intros E. destruct (Hok E) as (Hav & Has & Hrq & Hframe & Hstate).
  split; [exact Hav|]. split; [exact Has|]. split; [exact Hrq|].
  split; [exact Hframe|]. split.
  - intros Hnone. apply has_requests_false in Hnone.
    rewrite Hstate, Hnone. reflexivity.
  - intros (b & Hb & Hpos). rewrite Hstate.
    destruct (has_requests (snd (rag_allocate_resource rag p r)) p) eqn:Hh;
      [reflexivity|].
    rewrite has_requests_false in Hh. specialize (Hh b Hb). lia.
Qed.

(** ** Request followed by cancel *)




(** ** Queries on invalid ids *)

(** C10. Queries answer [false] for ids that are out of range or stale:
    [is_process_deadlocked] for a process id that is negative, at least
    [MAX_PROCESSES] or an inactive slot; [rag_is_requesting] and
    [rag_is_holding] for any out-of-range process or resource id. *)
Theorem queries_on_invalid_ids_answer_false (rag : RAG) (p r : Z) :
  (p < 0 \/ MAX_PROCESSES <= p \/ proc_active (processes rag p) = false ->
   is_process_deadlocked rag p = Some false) /\
  (p < 0 \/ MAX_PROCESSES <= p \/ r < 0 \/ MAX_RESOURCES <= r ->
   rag_is_requesting rag p r = false /\ rag_is_holding rag p r = false).
Proof.
  split.
  - intros H. unfold is_process_deadlocked.
    destruct (Z.ltb_spec p 0), (Z.geb_spec p MAX_PROCESSES); simpl; try done.
    destruct H as [?|[?|H]]; [lia|lia|]. by rewrite H.
  - intros H. unfold rag_is_requesting, rag_is_holding.
    destruct (Z.ltb_spec p 0), (Z.geb_spec p MAX_PROCESSES); simpl; try done.
    destruct (Z.ltb_spec r 0), (Z.geb_spec r MAX_RESOURCES); simpl; try done.
    lia.
Qed.

Lemma queries_on_invalid_ids_answer_false_witness :
  is_process_deadlocked rag_init 3 = Some false /\
  rag_is_requesting rag_init (-1) 0 = false /\
  rag_is_holding rag_init 0 64 = false.
Proof.
  split_and!.
  - apply (queries_on_invalid_ids_answer_false rag_init 3 0).
    right; right; reflexivity.
  - apply (queries_on_invalid_ids_answer_false rag_init (-1) 0). left; lia.
  - apply (queries_on_invalid_ids_answer_false rag_init 0 64).
    right; right; right. unfold MAX_RESOURCES. lia.
Defined.


(** ** Instance accounting *)

Lemma zsum_cons f a l : zsum f (a :: l) = f a + zsum f l.
Proof. reflexivity. Qed.

Lemma zsum_ext f g l : (forall i, i ∈ l -> f i = g i) -> zsum f l = zsum g l.
Proof.
  induction l as [|a l IH]; intros H; [done|]. rewrite !zsum_cons.
  rewrite (H a) by apply list_elem_of_here.
  rewrite IH; [done|]. intros i Hi. apply H. by apply list_elem_of_further.
Qed.

Lemma zsum_point f g l i :
  NoDup l -> i ∈ l -> (forall j, j <> i -> g j = f j) ->
  zsum g l = zsum f l - f i + g i.
Proof.
  intros Hnd Hin Hfg. induction l as [|a l IH]; [by inversion Hin|].
  apply NoDup_cons in Hnd as [Ha Hnd]. rewrite !zsum_cons.
  destruct (decide (a = i)) as [->|Hne].
  - rewrite (zsum_ext g f l); [lia|].
    intros j Hj. apply Hfg. intros ->. done.
  - apply elem_of_cons in Hin as [->|Hin]; [done|].
    rewrite IH by done. rewrite (Hfg a) by done. lia.
Qed.

Lemma zsum_zero f l : (forall i, i ∈ l -> f i = 0) -> zsum f l = 0.
Proof.
  induction l as [|a l IH]; intros H; [done|]. rewrite zsum_cons.
  rewrite (H a) by apply list_elem_of_here.
  rewrite IH; [done|]. intros i Hi. apply H. by apply list_elem_of_further.
Qed.

Lemma zsum_nonneg f l : (forall i, i ∈ l -> 0 <= f i) -> 0 <= zsum f l.
Proof.
  induction l as [|a l IH]; intros H; [done|]. rewrite zsum_cons.
  pose proof (H a (list_elem_of_here _ _)).
  assert (0 <= zsum f l); [|lia].
  apply IH. intros i Hi. apply H. by apply list_elem_of_further.
Qed.

Lemma NoDup_proc_ids : NoDup proc_ids.
Proof. apply NoDup_seqZ. Qed.

Lemma NoDup_res_ids : NoDup res_ids.
Proof. apply NoDup_seqZ. Qed.

Lemma store_inv_init : store_inv rag_init.
Proof.
  split; simpl; intros; try lia.
  unfold assigned_units. rewrite zsum_zero; done.
Qed.

Lemma store_inv_store_state rag p s : store_inv rag -> store_inv (store_state rag p s).
Proof.
  intros [I1 I2 I3 I4 I5 I6].
  assert (forall q, proc_slot_active (store_state rag p s) q <-> proc_slot_active rag q)
    as Hact.
  { intros q. unfold proc_slot_active, store_state. simpl. upd_cases; done. }
  split; simpl; try done.
  - intros q r Hq. rewrite Hact. by apply I2.
  - intros q r Hq. rewrite Hact. by apply I4.
Qed.

Lemma store_inv_release rag p r :
  store_inv rag -> store_inv (snd (rag_release_resource rag p r)).
Proof.
  intros Hinv. unfold rag_release_resource.
  destruct (Z.ltb_spec p 0), (Z.geb_spec p MAX_PROCESSES); simpl; try done.
  destruct (Z.ltb_spec r 0), (Z.geb_spec r MAX_RESOURCES); simpl; try done.
  destruct (Z.leb_spec (assignment_matrix rag p r) 0) as [|Hpos]; [done|].
  destruct Hinv as [I1 I2 I3 I4 I5 I6].
  destruct (I2 p r Hpos) as [Hpa Hra]. destruct Hra as [_ Hra]. rewrite Hra. simpl.
  split; simpl.
  - intros a b. specialize (I1 a b). upd_cases; lia.
  - intros a b Hab. unfold proc_slot_active, res_slot_active. simpl.
    assert (0 < assignment_matrix rag a b) as Hab'.
    { revert Hab. upd_cases; lia. }
    destruct (I2 a b Hab') as [? [? ?]]. split; [done|]. split; [done|].
    upd_cases; done.
  - done.
  - intros a b Hab. destruct (I4 a b Hab) as [? [? ?]].
    split; [done|]. split; [done|]. simpl. upd_cases; done.
  - intros b [Hb Hba]. simpl in Hba.
    assert (res_slot_active rag b) as Hb'.
    { split; [done|]. revert Hba. upd_cases; done. }
    specialize (I5 b Hb'). upd_cases; simpl; lia.
  - intros b [Hb Hba]. simpl in Hba.
    assert (res_slot_active rag b) as Hb'.
    { split; [done|]. revert Hba. upd_cases; done. }
    specialize (I6 b Hb'). unfold assigned_units in *. simpl.
    destruct (decide (b = r)) as [->|Hne].
    + rewrite upd_eq. simpl.
      rewrite (zsum_point (fun q => assignment_matrix rag q r) _ proc_ids p).
      * rewrite upd2_eq. lia.
      * apply NoDup_proc_ids.
      * apply elem_of_proc_ids. lia.
      * intros j Hj. rewrite upd2_ne; tauto.
    + rewrite upd_ne by done.
      rewrite (zsum_ext _ (fun q => assignment_matrix rag q b)); [done|].
      intros i _. rewrite upd2_ne; tauto.
Qed.

(** What one release changes. *)
Lemma release_frame rag p r :
  let rag' := snd (rag_release_resource rag p r) in
  processes rag' = processes rag /\
  request_matrix rag' = request_matrix rag /\
  (forall b, res_active (resources rag' b) = res_active (resources rag b)) /\
  (forall a b, (a <> p \/ b <> r) ->
     assignment_matrix rag' a b = assignment_matrix rag a b) /\
  assignment_matrix rag' p r
  = (if fst (rag_release_resource rag p r)
     then assignment_matrix rag p r - 1 else assignment_matrix rag p r).
Proof.
  unfold rag_release_resource.
  destruct (_ || _); [done|]. destruct (_ || _); [done|].
  destruct (_ <=? _); [done|].
  destruct (res_active _) eqn:Hact; cbn [fst snd]; simpl.
  - split_and!; try done.
    + intros b. upd_cases; done.
    + intros a b Hab. by rewrite upd2_ne.
    + by rewrite upd2_eq.
  - split_and!; try done.
    + intros a b Hab. by rewrite upd2_ne.
    + by rewrite upd2_eq.
Qed.

Lemma release_succeeds rag p r :
  0 <= p < MAX_PROCESSES -> 0 <= r < MAX_RESOURCES ->
  0 < assignment_matrix rag p r ->
  fst (rag_release_resource rag p r) = true.
Proof.
  intros Hp Hr Ha. unfold rag_release_resource.
  destruct (Z.ltb_spec p 0), (Z.geb_spec p MAX_PROCESSES); try lia.
  destruct (Z.ltb_spec r 0), (Z.geb_spec r MAX_RESOURCES); try lia.
  destruct (Z.leb_spec (assignment_matrix rag p r) 0); try lia.
  cbn [orb]. by destruct (res_active _).
Qed.

(** The release loop leaves through its own test: with the budget it is
    given, the entry it drains is not positive afterwards. *)
Lemma release_loop_exit n rag p r k :
  0 <= p < MAX_PROCESSES -> 0 <= r < MAX_RESOURCES ->
  (Z.to_nat (assignment_matrix rag p r) <= n)%nat ->
  let rag' := snd (release_loop n rag p r k) in
  assignment_matrix rag' p r = Z.min 0 (assignment_matrix rag p r).
Proof.
  intros Hp Hr. revert rag k.
  induction n as [|n IH]; intros rag k Hn; simpl.
  - lia.
  - destruct (Z.gtb_spec (assignment_matrix rag p r) 0) as [Hpos|]; simpl; [|lia].
    destruct (release_frame rag p r) as (_ & _ & _ & _ & Hpr).
    rewrite release_succeeds in Hpr by done.
    rewrite IH by lia. lia.
Qed.

Lemma release_loop_frame n rag p r k :
  let rag' := snd (release_loop n rag p r k) in
  processes rag' = processes rag /\
  request_matrix rag' = request_matrix rag /\
  (forall b, res_active (resources rag' b) = res_active (resources rag b)) /\
  (forall a b, (a <> p \/ b <> r) ->
     assignment_matrix rag' a b = assignment_matrix rag a b).
Proof.
  revert rag k. induction n as [|n IH]; intros rag k; simpl; [done|].
  destruct (_ >? _); [|done].
  destruct (release_frame rag p r) as (F1 & F2 & F3 & F4 & _).
  destruct (IH (snd (rag_release_resource rag p r)) (k + 1)) as (G1 & G2 & G3 & G4).
  split_and!.
  - by rewrite G1.
  - by rewrite G2.
  - intros b. by rewrite G3.
  - intros a b Hab. rewrite G4 by done. by apply F4.
Qed.

Lemma store_inv_release_loop n rag p r k :
  store_inv rag -> store_inv (snd (release_loop n rag p r k)).
Proof.
  revert rag k. induction n as [|n IH]; intros rag k Hinv; simpl; [done|].
  destruct (_ >? _); [|done]. apply IH. by apply store_inv_release.
Qed.

(** The loop of [rag_release_all_resources] over a list of resource ids. *)
Lemma release_all_fold l rag p k :
  0 <= p < MAX_PROCESSES -> (forall r, r ∈ l -> 0 <= r < MAX_RESOURCES) ->
  NoDup l -> store_inv rag ->
  let rag' :=
    snd (fold_left
           (fun acc r =>
              release_loop (Z.to_nat (assignment_matrix (snd acc) p r))
                           (snd acc) p r (fst acc))
           l (k, rag)) in
  store_inv rag' /\
  processes rag' = processes rag /\
  request_matrix rag' = request_matrix rag /\
  (forall b, res_active (resources rag' b) = res_active (resources rag b)) /\
  (forall a b, (a <> p \/ b ∉ l) ->
     assignment_matrix rag' a b = assignment_matrix rag a b) /\
  (forall b, b ∈ l -> assignment_matrix rag' p b = 0).
Proof.
  intros Hp. revert rag k.
  induction l as [|r l IH]; intros rag k Hl Hnd Hinv; cbn [fold_left snd fst].
  - split_and!; try done. intros b Hb. by inversion Hb.
  - apply NoDup_cons in Hnd as [Hr Hnd].
    assert (0 <= r < MAX_RESOURCES) as Hrr by (apply Hl; apply list_elem_of_here).
    set (n := Z.to_nat (assignment_matrix rag p r)).
    destruct (release_loop n rag p r k) as [k1 rag1] eqn:E.
    assert (rag1 = snd (release_loop n rag p r k)) as Hrag1 by (by rewrite E).
    assert (store_inv rag1) as Hinv1.
    { rewrite Hrag1. by apply store_inv_release_loop. }
    destruct (release_loop_frame n rag p r k) as (F1 & F2 & F3 & F4).
    rewrite <- Hrag1 in F1, F2, F3, F4.
    pose proof (release_loop_exit n rag p r k Hp Hrr (le_n _)) as Hex.
    cbv zeta in Hex. rewrite <- Hrag1 in Hex.
    pose proof (inv_assign_nonneg _ Hinv p r) as Hnn.
    destruct (IH rag1 k1) as (G0 & G1 & G2 & G3 & G4 & G5); try done.
    { intros x Hx. apply Hl. by apply list_elem_of_further. }
    split_and!; try done.
    + by rewrite G1.
    + by rewrite G2.
    + intros b. by rewrite G3.
    + intros a b Hab. rewrite G4.
      * apply F4. destruct Hab as [?|Hb]; [tauto|]. right. intros ->.
        apply Hb, list_elem_of_here.
      * destruct Hab as [?|Hb]; [tauto|]. right. intros Hb'.
        apply Hb. by apply list_elem_of_further.
    + intros b Hb. apply elem_of_cons in Hb as [->|Hb]; [|by apply G5].
      rewrite G4 by tauto. lia.
Qed.

Lemma release_all_spec rag p :
  store_inv rag ->
  let rag' := snd (rag_release_all_resources rag p) in
  store_inv rag' /\
  processes rag' = processes rag /\
  request_matrix rag' = request_matrix rag /\
  (forall b, res_active (resources rag' b) = res_active (resources rag b)) /\
  (forall a b, a <> p -> assignment_matrix rag' a b = assignment_matrix rag a b) /\
  (forall a b, assignment_matrix rag' a b <= assignment_matrix rag a b) /\
  (0 <= p < MAX_PROCESSES -> forall b, assignment_matrix rag' p b = 0).
Proof.
  intros Hinv. unfold rag_release_all_resources.
  destruct (Z.ltb_spec p 0), (Z.geb_spec p MAX_PROCESSES); cbn [orb snd];
    try (split_and!; try done; lia).
  destruct (release_all_fold res_ids rag p 0) as (G0 & G1 & G2 & G3 & G4 & G5);
    try done; try lia.
  { intros r Hr. by apply elem_of_res_ids. }
  { apply NoDup_res_ids. }
  assert (forall b, assignment_matrix
                      (snd (fold_left
                         (fun acc r =>
                            release_loop (Z.to_nat (assignment_matrix (snd acc) p r))
                                         (snd acc) p r (fst acc))
                         res_ids (0, rag))) p b = 0) as Hrow.
  { intros b. destruct (decide (b ∈ res_ids)) as [Hb|Hb]; [by apply G5|].
    rewrite G4 by tauto.
    pose proof (inv_assign_nonneg _ Hinv p b).
    destruct (Z_lt_le_dec 0 (assignment_matrix rag p b)) as [Hpos|]; [|lia].
    apply (inv_assign_active _ Hinv) in Hpos as [_ [Hb' _]].
    exfalso. by apply Hb, elem_of_res_ids. }
  split_and!; try done.
  - intros a b Ha. apply G4. tauto.
  - intros a b. destruct (decide (a = p)) as [->|Ha].
    + rewrite Hrow. apply (inv_assign_nonneg _ Hinv).
    + rewrite G4 by tauto. lia.
Qed.

Lemma store_inv_set_request rag p r v :
  store_inv rag -> 0 <= v <= 1 ->
  (0 < v -> proc_slot_active rag p /\ res_slot_active rag r) ->
  store_inv (with_request rag (upd2 (request_matrix rag) p r v)).
Proof.
  intros [I1 I2 I3 I4 I5 I6] Hv Hact. split; simpl; try done.
  - intros a b. specialize (I3 a b). upd_cases; lia.
  - intros a b. specialize (I4 a b). upd_cases; tauto.
Qed.

Lemma store_inv_request rag p r :
  store_inv rag -> store_inv (snd (rag_request_resource rag p r)).
Proof.
  intros Hinv. unfold rag_request_resource.
  destruct (rag_get_process rag p) eqn:Hp; [|done].
  destruct (rag_get_resource rag r) eqn:Hr; [|done].
  destruct (_ >? _); [done|]. cbn [snd].
  apply store_inv_store_state, store_inv_set_request; [done|lia|].
  intros _. split.
  - apply rag_get_process_Some. by rewrite Hp.
  - apply rag_get_resource_Some. by rewrite Hr.
Qed.

Lemma store_inv_cancel rag p r :
  store_inv rag -> store_inv (snd (rag_cancel_request rag p r)).
Proof.
  intros Hinv. unfold rag_cancel_request.
  destruct (_ || _); [done|]. destruct (_ || _); [done|].
  destruct (_ =? _); [done|].
  destruct (_ && _); cbn [snd].
  - apply store_inv_store_state, store_inv_set_request; [done|lia|lia].
  - apply store_inv_set_request; [done|lia|lia].
Qed.

Lemma store_inv_allocate rag p r :
  store_inv rag -> store_inv (snd (rag_allocate_resource rag p r)).
Proof.
  intros Hinv. unfold rag_allocate_resource.
  destruct (rag_get_process rag p) as [x|] eqn:Hp; [|done].
  destruct (rag_get_resource rag r) as [y|] eqn:Hr; [|done].
  assert (proc_slot_active rag p) as Hpa by (apply rag_get_process_Some; eauto).
  assert (res_slot_active rag r) as Hra by (apply rag_get_resource_Some; eauto).
  apply rag_get_resource_val in Hr as ->.
  destruct (Z.leb_spec (available_instances (resources rag r)) 0) as [|Hav];
    [done|].
  set (rag3 := with_resources _ _).
  assert (store_inv rag3) as Hinv3.
  { destruct Hinv as [I1 I2 I3 I4 I5 I6].
    assert (forall q, res_slot_active rag3 q <-> res_slot_active rag q) as Hact.
    { intros q. unfold res_slot_active. simpl. destruct Hra as [_ Hra].
      upd_cases; simpl; rewrite ?Hra; done. }
    split; simpl.
    - intros a b. specialize (I1 a b). upd_cases; lia.
    - intros a b Hab. rewrite Hact. change (proc_slot_active rag3 a)
        with (proc_slot_active rag a).
      destruct (decide (a = p /\ b = r)) as [[-> ->]|Hne]; [done|].
      apply I2. revert Hab. upd_cases; tauto.
    - intros a b. specialize (I3 a b). upd_cases; lia.
    - intros a b Hab. rewrite Hact. change (proc_slot_active rag3 a)
        with (proc_slot_active rag a).
      apply I4. revert Hab. upd_cases; lia.
    - intros b Hb. apply Hact in Hb. specialize (I5 b Hb).
      upd_cases; simpl; lia.
    - intros b Hb. apply Hact in Hb. specialize (I6 b Hb).
      unfold assigned_units in *. simpl.
      destruct (decide (b = r)) as [->|Hne].
      + rewrite upd_eq. simpl.
        rewrite (zsum_point (fun q => assignment_matrix rag q r) _ proc_ids p).
        * rewrite upd2_eq. lia.
        * apply NoDup_proc_ids.
        * apply elem_of_proc_ids. apply Hpa.
        * intros j Hj. rewrite upd2_ne; tauto.
      + rewrite upd_ne by done.
        rewrite (zsum_ext _ (fun q => assignment_matrix rag q b)); [done|].
        intros i _. rewrite upd2_ne; tauto. }
  destruct (negb _); cbn [snd]; [by apply store_inv_store_state|done].
Qed.

Lemma store_inv_set_process_state rag p s :
  store_inv rag -> store_inv (snd (rag_set_process_state rag p s)).
Proof.
  intros Hinv. unfold rag_set_process_state.
  destruct (rag_get_process rag p); [|done]. by apply store_inv_store_state.
Qed.

Lemma find_free_slot (f : Z -> bool) l slot :
  find f l = Some slot -> slot ∈ l /\ f slot = true.
Proof.
  intros H. apply find_some in H as [H ?]. split; [|done]. by apply list_elem_of_In.
Qed.

Lemma store_inv_add_process rag name priority :
  store_inv rag -> store_inv (snd (rag_add_process rag name priority)).
Proof.
  intros Hinv. unfold rag_add_process. destruct name as [nm|]; [|done].
  destruct (find _ _) as [slot|] eqn:Hf; [|done]. cbn [snd].
  apply find_free_slot in Hf as [Hslot Hfree]. apply elem_of_proc_ids in Hslot.
  apply negb_true_iff in Hfree.
  destruct Hinv as [I1 I2 I3 I4 I5 I6].
  assert (forall b, assignment_matrix rag slot b = 0) as Hrow.
  { intros b. specialize (I1 slot b).
    destruct (Z_lt_le_dec 0 (assignment_matrix rag slot b)) as [Hpos|]; [|lia].
    apply I2 in Hpos as [[_ Hpos] _]. congruence. }
  assert (forall a b, clear_row (assignment_matrix rag) slot a b
                      = assignment_matrix rag a b) as Hsame.
  { intros a b. rewrite clear_row_spec. case_bool_decide as Hc; [|done].
    destruct Hc as [-> _]. by rewrite Hrow. }
  assert (forall q, proc_slot_active rag q ->
                    (0 <= q < MAX_PROCESSES) /\
                    proc_active (upd (processes rag) slot
                       (mkProcess slot (copy_name nm) PROCESS_RUNNING priority true) q)
                    = true) as Hact.
  { intros q [Hq Hqa]. split; [done|]. upd_cases; done. }
  split; simpl.
  - intros a b. by rewrite Hsame.
  - intros a b. rewrite Hsame. intros Hab. apply I2 in Hab as [Ha Hb].
    split; [by apply Hact|done].
  - intros a b. rewrite clear_row_spec. case_bool_decide; [lia|done].
  - intros a b. rewrite clear_row_spec. case_bool_decide; [lia|].
    intros Hab. apply I4 in Hab as [Ha Hb]. split; [by apply Hact|done].
  - done.
  - intros b Hb. rewrite <- (I6 b Hb). unfold assigned_units. simpl.
    f_equal. apply zsum_ext. intros i _. apply Hsame.
Qed.

Lemma store_inv_add_resource rag name instances :
  store_inv rag -> store_inv (snd (rag_add_resource rag name instances)).
Proof.
  intros Hinv. unfold rag_add_resource. destruct name as [nm|]; [|done].
  destruct (Z.leb_spec instances 0) as [|Hpos]; [done|].
  destruct (find _ _) as [slot|] eqn:Hf; [|done]. cbn [snd].
  apply find_free_slot in Hf as [Hslot Hfree]. apply elem_of_res_ids in Hslot.
  apply negb_true_iff in Hfree.
  destruct Hinv as [I1 I2 I3 I4 I5 I6].
  assert (forall a, assignment_matrix rag a slot = 0) as Hcol.
  { intros a. specialize (I1 a slot).
    destruct (Z_lt_le_dec 0 (assignment_matrix rag a slot)) as [Hp|]; [|lia].
    apply I2 in Hp as [_ [_ Hp]]. congruence. }
  assert (forall a b, clear_col (assignment_matrix rag) slot a b
                      = assignment_matrix rag a b) as Hsame.
  { intros a b. rewrite clear_col_spec. case_bool_decide as Hc; [|done].
    destruct Hc as [-> _]. by rewrite Hcol. }
  assert (forall q, res_slot_active rag q ->
                    (0 <= q < MAX_RESOURCES) /\
                    res_active (upd (resources rag) slot
                       (mkResource slot (copy_name nm) instances instances true) q)
                    = true) as Hact.
  { intros q [Hq Hqa]. split; [done|]. upd_cases; done. }
  split; simpl.
  - intros a b. by rewrite Hsame.
  - intros a b. rewrite Hsame. intros Hab. apply I2 in Hab as [Ha Hb].
    split; [done|by apply Hact].
  - intros a b. rewrite clear_col_spec. case_bool_decide; [lia|done].
  - intros a b. rewrite clear_col_spec. case_bool_decide; [lia|].
    intros Hab. apply I4 in Hab as [Ha Hb]. split; [done|by apply Hact].
  - intros b [Hb Hba]. simpl in Hba. revert Hba. unfold upd.
    destruct (Z.eqb_spec b slot) as [->|Hne]; simpl; [lia|].
    intros Hba. by apply I5.
  - intros b [Hb Hba]. simpl in Hba. revert Hba. unfold assigned_units, upd. simpl.
    destruct (Z.eqb_spec b slot) as [->|Hne]; simpl.
    + intros _. rewrite zsum_zero; [lia|]. intros i _. rewrite Hsame. apply Hcol.
    + intros Hba. rewrite <- (I6 b) by done. unfold assigned_units.
      f_equal. apply zsum_ext. intros i _. apply Hsame.
Qed.

Lemma store_inv_remove_resource rag r :
  store_inv rag -> store_inv (snd (rag_remove_resource rag r)).
Proof.
  intros Hinv. unfold rag_remove_resource.
  destruct (Z.ltb_spec r 0), (Z.geb_spec r MAX_RESOURCES); cbn [orb]; try done.
  destruct (negb _); [done|].
  destruct (existsb _ _) eqn:Hex; [done|]. cbn [snd].
  destruct Hinv as [I1 I2 I3 I4 I5 I6].
  assert (forall a, assignment_matrix rag a r = 0) as Hcol.
  { intros a. specialize (I1 a r).
    destruct (Z_lt_le_dec 0 (assignment_matrix rag a r)) as [Hp|]; [|lia].
    exfalso. apply not_true_iff_false in Hex. apply Hex, existsb_exists.
    exists a. split; [|by apply Z.gtb_lt].
    apply list_elem_of_In, elem_of_proc_ids. by apply I2 in Hp as [[? _] _]. }
  assert (forall q, q <> r -> res_slot_active rag q ->
                    (0 <= q < MAX_RESOURCES) /\
                    res_active (upd (resources rag) r
                       (mkResource (-1) (res_name (resources rag r))
                          (total_instances (resources rag r))
                          (available_instances (resources rag r)) false) q)
                    = true) as Hact.
  { intros q Hq [Hqr Hqa]. split; [done|]. by rewrite upd_ne. }
  split; simpl.
  - done.
  - intros a b Hab. assert (b <> r) as Hb.
    { intros ->. rewrite Hcol in Hab. lia. }
    apply I2 in Hab as [Ha Hb']. split; [done|by apply Hact].
  - intros a b. rewrite clear_col_spec. case_bool_decide; [lia|done].
  - intros a b. rewrite clear_col_spec. case_bool_decide as Hc; [lia|].
    intros Hab. apply I4 in Hab as [Ha Hb']. split; [done|].
    apply Hact; [|done]. intros ->. apply Hc. split; [done|]. apply Ha.
  - intros b [Hb Hba]. simpl in Hba. revert Hba. unfold upd.
    destruct (Z.eqb_spec b r) as [->|Hne]; simpl; [done|].
    intros Hba. by apply I5.
  - intros b [Hb Hba]. simpl in Hba. revert Hba. unfold upd.
    destruct (Z.eqb_spec b r) as [->|Hne]; simpl; [done|].
    intros Hba. by apply I6.
Qed.

Lemma fold_cancel_row l m p a b :
  fold_left (fun acc r => if acc p r >? 0 then upd2 acc p r 0 else acc) l m a b
  = if bool_decide (a = p /\ b ∈ l /\ 0 < m a b) then 0 else m a b.
Proof.
  revert m. induction l as [|x l IH]; intros m; cbn [fold_left].
  - rewrite bool_decide_eq_false_2; [done|]. intros (_ & H & _). by inversion H.
  - rewrite IH. clear IH.
    destruct (Z.gtb_spec (m p x) 0) as [Hpos|Hle].
    + unfold upd2.
      destruct (Z.eqb_spec a p) as [->|Ha], (Z.eqb_spec b x) as [->|Hb]; simpl;
        repeat case_bool_decide; try done; try lia; exfalso;
        repeat match goal with
               | H : _ /\ _ |- _ => destruct H
               | H : _ ∈ _ :: _ |- _ => apply elem_of_cons in H as [?|?]
               | H : ¬ (_ /\ _ /\ _) |- _ =>
                 apply H; split; [done|]; split; [|done]
               end; try done; try lia; try (apply elem_of_cons; tauto).
    + repeat case_bool_decide; try done; exfalso;
        repeat match goal with
               | H : _ /\ _ |- _ => destruct H
               | H : _ ∈ _ :: _ |- _ => apply elem_of_cons in H as [?|?]
               | H : ¬ (_ /\ _ /\ _) |- _ =>
                 apply H; split; [done|]; split; [|done]
               end; subst; try done; try lia; try (apply elem_of_cons; tauto).
Qed.

Lemma store_inv_remove_process rag p :
  store_inv rag -> store_inv (snd (rag_remove_process rag p)).
Proof.
  intros Hinv. unfold rag_remove_process.
  destruct (Z.ltb_spec p 0), (Z.geb_spec p MAX_PROCESSES); cbn [orb]; try done.
  destruct (negb _); [done|]. cbn [snd].
  destruct (release_all_spec rag p Hinv) as (Hinv1 & G1 & G2 & G3 & G4 & G5 & G6).
  set (rag1 := snd (rag_release_all_resources rag p)) in *.
  destruct Hinv1 as [I1 I2 I3 I4 I5 I6].
  assert (forall q, q <> p -> proc_slot_active rag1 q ->
                    (0 <= q < MAX_PROCESSES) /\
                    proc_active (upd (processes rag1) p
                       (mkProcess (-1) (proc_name (processes rag1 p))
                          (proc_state (processes rag1 p))
                          (proc_priority (processes rag1 p)) false) q)
                    = true) as Hact.
  { intros q Hq [Hqr Hqa]. split; [done|]. by rewrite upd_ne. }
  split; rsimpl.
  - done.
  - intros a b Hab. assert (a <> p) as Ha.
    { intros ->. rewrite G6 in Hab by lia. lia. }
    apply I2 in Hab as [Ha' Hb]. split; [by apply Hact|done].
  - intros a b. rewrite fold_cancel_row. case_bool_decide; [lia|done].
  - intros a b. rewrite fold_cancel_row. case_bool_decide as Hc; [lia|].
    intros Hab. destruct (I4 a b Hab) as [Ha Hb]. split; [|done].
    apply Hact; [|done]. intros ->. apply Hc. split; [done|]. split; [|done].
    apply elem_of_res_ids, Hb.
  - done.
  - done.
Qed.

Lemma store_inv_exec_op rag op : store_inv rag -> store_inv (snd (exec_op rag op)).
Proof.
  intros Hinv. destruct op; cbn [exec_op snd].
  - apply store_inv_init.
  - pose proof (store_inv_add_process rag name priority Hinv).
    by destruct (rag_add_process rag name priority).
  - by apply store_inv_remove_process.
  - by apply store_inv_set_process_state.
  - pose proof (store_inv_add_resource rag name instances Hinv).
    by destruct (rag_add_resource rag name instances).
  - by apply store_inv_remove_resource.
  - by apply store_inv_request.
  - by apply store_inv_cancel.
  - by apply store_inv_allocate.
  - by apply store_inv_release.
  - by apply release_all_spec.
Qed.

Lemma store_inv_run_ops_from rag ops : store_inv rag -> store_inv (run_ops_from rag ops).
Proof.
  revert rag. induction ops as [|op ops IH]; intros rag Hinv; [done|].
  apply IH. by apply store_inv_exec_op.
Qed.

Lemma store_inv_run_ops ops : store_inv (run_ops ops).
Proof. apply store_inv_run_ops_from, store_inv_init. Qed.

(** C1. After any sequence of public graph-store operations started from
    the initialised empty graph, every active resource [r] satisfies
    [available + (sum of the assignment column over all process slots) =
    total] and [0 <= available <= total]. *)
Theorem instance_accounting (ops : list StoreOp) (r : Z) :
  res_slot_active (run_ops ops) r ->
  let rag := run_ops ops in
  available_instances (resources rag r) + assigned_units rag r
    = total_instances (resources rag r) /\
  0 <= available_instances (resources rag r) <= total_instances (resources rag r).
Proof.
  intros Hr rag. pose proof (store_inv_run_ops ops) as Hinv. fold rag in Hinv, Hr.
  pose proof (inv_accounting _ Hinv r Hr) as Hacc.
  pose proof (inv_available_nonneg _ Hinv r Hr) as Hav.
  split; [done|]. split; [done|].
  assert (0 <= assigned_units rag r); [|lia].
  apply zsum_nonneg. intros i _. apply (inv_assign_nonneg _ Hinv).
Qed.

Lemma instance_accounting_witness :
  let rag := run_ops [OpAddProcess (Some "P"%string) 50;
                      OpAddResource (Some "R"%string) 3;
                      OpAllocate 0 0; OpAllocate 0 0] in
  available_instances (resources rag 0) + assigned_units rag 0
    = total_instances (resources rag 0) /\
  0 <= available_instances (resources rag 0) <= total_instances (resources rag 0).
Proof.
  apply (instance_accounting
           [OpAddProcess (Some "P"%string) 50; OpAddResource (Some "R"%string) 3;
            OpAllocate 0 0; OpAllocate 0 0] 0).
  split; [unfold MAX_RESOURCES; lia | reflexivity].
Defined.

Lemma allocate_contract_witness :
  let rag := run_ops [OpAddProcess (Some "P"%string) 50;
                      OpAddResource (Some "R"%string) 1;
                      OpRequest 0 0] in
  let rag' := snd (rag_allocate_resource rag 0 0) in
  proc_state (processes rag 0) = PROCESS_WAITING /\
  fst (rag_allocate_resource rag 0 0) = true /\
  request_matrix rag' 0 0 = 0 /\
  proc_state (processes rag' 0) = PROCESS_RUNNING /\
  fst (rag_allocate_resource rag' 0 0) = false.
Proof.
  intros rag rag'.
  destruct (allocate_contract rag 0 0 (store_inv_run_ops _)) as (_ & Hok & _).
  assert (fst (rag_allocate_resource rag 0 0) = true) as E by reflexivity.
  destruct (Hok E) as (_ & _ & Hrq & Hframe & Hrun & _).
  split; [reflexivity|]. split; [exact E|]. split; [exact Hrq|]. split.
  - apply Hrun. intros b Hb.
    destruct (Z.eq_dec b 0) as [->|Hne]; [rewrite Hrq; lia|].
    destruct (Hframe 0 b (or_intror Hne)) as [_ ->].
    assert (forallb (fun c => request_matrix rag 0 c <=? 0) (seqZ 1 63) = true)
      as Hall by (vm_compute; reflexivity).
    rewrite forallb_forall in Hall. apply Z.leb_le, Hall, list_elem_of_In.
    apply elem_of_seqZ. unfold MAX_RESOURCES in Hb. lia.
  - apply (allocate_contract rag' 0 0).
    + apply store_inv_allocate, store_inv_run_ops.
    + right; right. reflexivity.
Defined.

(** No counter of the store leaves the range of the instance counts. *)
Lemma zsum_member_le f l i :
  (forall j, j ∈ l -> 0 <= f j) -> i ∈ l -> f i <= zsum f l.
Proof.
  induction l as [|a l IH]; intros Hnn Hin; [by inversion Hin|].
  rewrite zsum_cons.
  assert (0 <= zsum f l) as Hrest.
  { apply zsum_nonneg. intros j Hj. apply Hnn. by apply list_elem_of_further. }
  pose proof (Hnn a (list_elem_of_here _ _)) as Ha.
  apply elem_of_cons in Hin as [->|Hin]; [lia|].
  assert (f i <= zsum f l); [|lia].
  apply IH; [|done]. intros j Hj. apply Hnn. by apply list_elem_of_further.
Qed.

Lemma holdings_bounded rag p r :
  store_inv rag -> res_slot_active rag r ->
  0 <= assignment_matrix rag p r <= total_instances (resources rag r) /\
  0 <= available_instances (resources rag r) <= total_instances (resources rag r).
Proof.
  intros Hinv Hr.
  pose proof (inv_assign_nonneg _ Hinv p r) as Hnn.
  pose proof (inv_available_nonneg _ Hinv r Hr) as Hav.
  pose proof (inv_accounting _ Hinv r Hr) as Hacc.
  assert (0 <= assigned_units rag r) as Hsum.
  { apply zsum_nonneg. intros i _. apply (inv_assign_nonneg _ Hinv). }
  assert (assignment_matrix rag p r <= assigned_units rag r); [|lia].
  destruct (Z_lt_le_dec 0 (assignment_matrix rag p r)) as [Hpos|]; [|lia].
  destruct (inv_assign_active _ Hinv p r Hpos) as [[Hp _] _].
  apply (zsum_member_le (fun q => assignment_matrix rag q r)).
  - intros j _. apply (inv_assign_nonneg _ Hinv).
  - by apply elem_of_proc_ids.
Qed.


(** ** Victim selection *)

(** Candidates that do not reach the score [s] leave no victim reaching it. *)
Lemma victim_fold_below rag criteria l acc s :
  (forall q, q ∈ l -> proc_active (processes rag q) = true ->
             victim_score rag criteria q < s) ->
  (snd acc = true \/ snd (fst acc) < s) ->
  let acc' := fold_left (victim_step rag criteria) l acc in
  snd acc' = true \/ snd (fst acc') < s.
Proof.
  revert acc. induction l as [|x l IH]; intros acc Hl Hacc; [done|].
  cbn [fold_left]. apply IH.
  - intros q Hq. apply Hl. by apply list_elem_of_further.
  - destruct acc as [[victim best] first]. unfold victim_step.
    destruct (proc_active (processes rag x)) eqn:Hx; cbn [negb]; [|done].
    destruct (first || _); [|done]. right. cbn [fst snd].
    apply Hl; [apply list_elem_of_here|done].
Qed.

(** Candidates that do not beat the current best leave it in place. *)
Lemma victim_fold_keep rag criteria l v :
  (forall q, q ∈ l -> proc_active (processes rag q) = true ->
             victim_score rag criteria q <= victim_score rag criteria v) ->
  fold_left (victim_step rag criteria) l (v, victim_score rag criteria v, false)
  = (v, victim_score rag criteria v, false).
Proof.
  induction l as [|x l IH]; intros Hl; [done|]. cbn [fold_left].
  assert (victim_step rag criteria (v, victim_score rag criteria v, false) x
          = (v, victim_score rag criteria v, false)) as ->.
  { unfold victim_step.
    destruct (proc_active (processes rag x)) eqn:Hx; cbn [negb orb]; [|done].
    destruct (Z.gtb_spec (victim_score rag criteria x) (victim_score rag criteria v))
      as [Hgt|]; [|done].
    specialize (Hl x (list_elem_of_here _ _) Hx). lia. }
  apply IH. intros q Hq. apply Hl. by apply list_elem_of_further.
Qed.

(** The loop keeps the first candidate that reaches the highest score. *)
Lemma select_victim_first_best rag criteria (deadlock : DeadlockResult) l1 v l2 :
  deadlocked_processes deadlock = l1 ++ v :: l2 ->
  proc_active (processes rag v) = true ->
  (forall q, q ∈ l1 -> proc_active (processes rag q) = true ->
             victim_score rag criteria q < victim_score rag criteria v) ->
  (forall q, q ∈ l2 -> proc_active (processes rag q) = true ->
             victim_score rag criteria q <= victim_score rag criteria v) ->
  select_victim_process rag deadlock criteria = v.
Proof.
  intros Hdl Hv H1 H2. unfold select_victim_process. rewrite Hdl.
  rewrite length_app. cbn [length].
  destruct (Z.eqb_spec (Z.of_nat (length l1 + S (length l2))) 0); [lia|].
  rewrite fold_left_app. cbn [fold_left].
  pose proof (victim_fold_below rag criteria l1 (-1, 0, true) _ H1
                                (or_introl eq_refl)) as Hb.
  cbv zeta in Hb.
  destruct (fold_left (victim_step rag criteria) l1 (-1, 0, true))
    as [[victim best] first]. cbn [fst snd] in Hb.
  assert (victim_step rag criteria (victim, best, first) v
          = (v, victim_score rag criteria v, false)) as ->.
  { unfold victim_step. rewrite Hv. cbn [negb].
    destruct Hb as [->|Hb]; [done|].
    destruct (Z.gtb_spec (victim_score rag criteria v) best); [|lia].
    by rewrite orb_true_r. }
  by rewrite victim_fold_keep.
Qed.

Lemma elem_of_first_split (l : list Z) v :
  v ∈ l -> exists l1 l2, l = l1 ++ v :: l2 /\ v ∉ l1.
Proof.
  induction l as [|x l IH]; intros H; [by inversion H|].
  destruct (decide (x = v)) as [->|Hne].
  - exists [], l. split; [done|]. by intros H'; inversion H'.
  - apply elem_of_cons in H as [->|H]; [done|].
    destruct (IH H) as (l1 & l2 & -> & Hl1).
    exists (x :: l1), l2. split; [done|].
    apply not_elem_of_cons. split; [congruence|done].
Qed.

(** C8. Victim selection under the lowest-priority criterion
    ([score = 100 - priority]; with priorities in [0, 100] the subtraction
    stays in range).  (a) When exactly one active process of the deadlocked
    list has the strictly smallest priority, it is the victim.  (b) The
    victim is the first-seen candidate among those that reach the highest
    score, so a later candidate with an equal score never replaces it.
    (c) On a list in ascending id order, as detection produces it, the first
    seen is the lowest id among the candidates with the highest score. *)
Theorem lowest_priority_victim (rag : RAG) (deadlock : DeadlockResult) (v : Z) :
  v ∈ deadlocked_processes deadlock ->
  proc_active (processes rag v) = true ->
  let score := victim_score rag SELECT_LOWEST_PRIORITY in
  let candidate q :=
    q ∈ deadlocked_processes deadlock /\ proc_active (processes rag q) = true in
  ((forall q, candidate q -> q <> v ->
      proc_priority (processes rag v) < proc_priority (processes rag q)) ->
   select_victim_process rag deadlock SELECT_LOWEST_PRIORITY = v) /\
  (forall l1 l2,
     deadlocked_processes deadlock = l1 ++ v :: l2 ->
     (forall q, q ∈ l1 -> proc_active (processes rag q) = true -> score q < score v) ->
     (forall q, q ∈ l2 -> proc_active (processes rag q) = true -> score q <= score v) ->
     select_victim_process rag deadlock SELECT_LOWEST_PRIORITY = v) /\
  (StronglySorted Z.lt (deadlocked_processes deadlock) ->
   (forall q, candidate q -> score q <= score v) ->
   (forall q, candidate q -> score q = score v -> v <= q) ->
   select_victim_process rag deadlock SELECT_LOWEST_PRIORITY = v).
Proof.
  intros Hin Hact score candidate. split_and!.
  - intros Hmin. destruct (elem_of_first_split _ _ Hin) as (l1 & l2 & Hdl & Hl1).
    apply (select_victim_first_best _ _ _ l1 v l2 Hdl Hact).
    + intros q Hq Hqa. cbn [victim_score].
      assert (proc_priority (processes rag v) < proc_priority (processes rag q));
        [|lia].
      apply Hmin; [|by intros ->]. split; [|done].
      rewrite Hdl. apply elem_of_app. by left.
    + intros q Hq Hqa. cbn [victim_score].
      destruct (decide (q = v)) as [->|Hne]; [lia|].
      assert (proc_priority (processes rag v) < proc_priority (processes rag q));
        [|lia].
      apply Hmin; [|done]. split; [|done].
      rewrite Hdl. apply elem_of_app. right. by apply list_elem_of_further.
  - intros l1 l2 Hdl H1 H2.
    by apply (select_victim_first_best _ _ _ l1 v l2 Hdl Hact).
  - intros Hsorted Hmax Hlow.
    destruct (elem_of_first_split _ _ Hin) as (l1 & l2 & Hdl & Hl1).
    apply (select_victim_first_best _ _ _ l1 v l2 Hdl Hact).
    + intros q Hq Hqa.
      assert (candidate q) as Hc.
      { split; [|done]. rewrite Hdl. apply elem_of_app. by left. }
      assert (q < v) as Hlt.
      { rewrite Hdl in Hsorted.
        apply (StronglySorted_app_1_elem_of _ _ _ _ _ Hsorted Hq).
        apply list_elem_of_here. }
      pose proof (Hmax q Hc) as Hle.
      destruct (decide (score q = score v)) as [Heq|Hne]; [|fold score; lia].
      specialize (Hlow q Hc Heq). lia.
    + intros q Hq Hqa. apply Hmax. split; [|done].
      rewrite Hdl. apply elem_of_app. right. by apply list_elem_of_further.
Qed.

Lemma lowest_priority_victim_witness :
  let rag := run_ops [OpAddProcess (Some "Process_1"%string) 30;
                      OpAddProcess (Some "Process_2"%string) 70;
                      OpAddResource (Some "Resource_A"%string) 1;
                      OpAddResource (Some "Resource_B"%string) 1;
                      OpAllocate 0 0; OpAllocate 1 1;
                      OpRequest 0 1; OpRequest 1 0] in
  let deadlock := mkDeadlockResult true [] [0; 1] [0; 1] in
  select_victim_process rag deadlock SELECT_LOWEST_PRIORITY = 0.
Proof.
  intros rag deadlock.
  destruct (lowest_priority_victim rag deadlock 0) as (Hmin & _ & _).
  - apply list_elem_of_here.
  - reflexivity.
  - apply Hmin. intros q [Hq _] Hne. change (q ∈ [0; 1]) in Hq.
    apply elem_of_cons in Hq as [->|Hq]; [destruct (Hne eq_refl)|].
    apply elem_of_cons in Hq as [->|Hq]; [|inversion Hq].
    vm_compute. reflexivity.
Defined.

(** The id lists of a detection result are in ascending order. *)
Lemma StronglySorted_seqZ m n : StronglySorted Z.lt (seqZ m n).
Proof.
  remember (Z.to_nat n) as k eqn:Hk. revert m n Hk.
  induction k as [|k IH]; intros m n Hk.
  - rewrite seqZ_nil by lia. constructor.
  - rewrite seqZ_cons by lia. constructor.
    + apply IH. lia.
    + apply Forall_forall. intros x Hx. apply elem_of_seqZ in Hx. lia.
Qed.

Lemma StronglySorted_filter_lt (P : Z -> Prop) `{forall x, Decision (P x)} l :
  StronglySorted Z.lt l -> StronglySorted Z.lt (filter P l).
Proof.
  induction 1 as [|x l Hs IH Hx]; [constructor|].
  rewrite filter_cons. destruct (decide (P x)); [|done].
  constructor; [done|].
  apply Forall_forall. intros y Hy. apply list_elem_of_filter in Hy as [_ Hy].
  rewrite Forall_forall in Hx. by apply Hx.
Qed.

Lemma detect_roots_lists rag alg ps st res res' :
  detect_roots rag alg ps st res = Some res' ->
  deadlocked_processes res' = deadlocked_processes res /\
  deadlocked_resources res' = deadlocked_resources res.
Proof.
  revert st res. induction ps as [|p ps IH]; intros st res; cbn [detect_roots].
  - by intros [= ->].
  - destruct (negb _); [apply IH|].
    destruct (_ && _); [|apply IH].
    destruct (dfs_visit_process _ _ _ _) as [[[] st']|]; [| |done].
    + destruct alg; [by intros [= <-]| |];
        intros H; by apply IH in H.
    + apply IH.
Qed.

Lemma detect_deadlock_ascending rag alg d :
  detect_deadlock_with_algorithm rag alg = Some d ->
  StronglySorted Z.lt (deadlocked_processes d) /\
  StronglySorted Z.lt (deadlocked_resources d).
Proof.
  unfold detect_deadlock_with_algorithm.
  assert (forall res,
            detect_roots rag alg proc_ids (init_dfs_state (mkCycle [] false))
                         deadlock_result_init = Some res ->
            StronglySorted Z.lt (deadlocked_processes (extract_deadlocked res)) /\
            StronglySorted Z.lt (deadlocked_resources (extract_deadlocked res)))
    as Hres.
  { intros res Hr. apply detect_roots_lists in Hr as [Hp Hq].
    unfold extract_deadlocked. destruct (deadlock_detected res).
    - cbn [deadlocked_processes deadlocked_resources].
      split; apply StronglySorted_filter_lt, StronglySorted_seqZ.
    - rewrite Hp, Hq. split; constructor. }
  destruct alg.
  - destruct (detect_roots _ _ _ _ _); [|done]. intros [= <-]. by apply Hres.
  - destruct (detect_roots _ _ _ _ _); [|done]. intros [= <-]. by apply Hres.
  - intros [= <-]. split; constructor.
Qed.

(** ** Concrete scenarios *)

(** C9. The dining-philosophers scenario with five philosophers: every fork
    has one instance, philosopher [i] holds fork [i] and requests fork
    [(i + 1) mod 5]; detection reports a deadlock with one cycle of ten
    nodes in which the five process nodes alternate with the five resource
    nodes. *)
Theorem dining_philosophers_five_cycle (rag0 : RAG) :
  let rag := setup_dining_philosophers rag0 5 in
  Forall (fun i =>
            proc_active (processes rag i) = true /\
            res_active (resources rag i) = true /\
            total_instances (resources rag i) = 1 /\
            assignment_matrix rag i i = 1 /\
            request_matrix rag i (Z.rem (i + 1) 5) = 1)
         (seqZ 0 5) /\
  detect_deadlock rag
  = Some (mkDeadlockResult true
            [mkCycle [PNode 0; RNode 1; PNode 1; RNode 2; PNode 2; RNode 3;
                      PNode 3; RNode 4; PNode 4; RNode 0] true]
            [0; 1; 2; 3; 4] [0; 1; 2; 3; 4]).
Proof.
  split.
  - change (seqZ 0 5) with [0; 1; 2; 3; 4].
    repeat (apply Forall_cons; split; [vm_compute; repeat split; reflexivity|]).
    by apply Forall_nil.
  - vm_compute. reflexivity.
Qed.

(** C2. The store and configuration on which the critical-process switch is
    observed: both deadlocked processes have a priority above the threshold
    of the default configuration, whose [preserve_critical] flag is set, and
    the engine still selects and terminates process 0. *)
Theorem critical_process_selected_as_victim :
  let rag := run_ops [OpAddProcess (Some "P1"%string) 95;
                      OpAddProcess (Some "P2"%string) 99;
                      OpAddResource (Some "A"%string) 1;
                      OpAddResource (Some "B"%string) 1;
                      OpAllocate 0 0; OpAllocate 1 1;
                      OpRequest 0 1; OpRequest 1 0] in
  let config := recovery_config_init in
  exists deadlock,
    detect_deadlock rag = Some deadlock /\
    deadlocked_processes deadlock = [0; 1] /\
    preserve_critical config = true /\
    is_critical_process rag 0 (critical_priority_threshold config) = true /\
    is_critical_process rag 1 (critical_priority_threshold config) = true /\
    select_victim_process rag deadlock (selection config) = 0 /\
    fst (fst (recover_from_deadlock rag deadlock config)) = true /\
    rag_get_process (snd (fst (recover_from_deadlock rag deadlock config))) 0
    = None.
Proof.
  eexists. split; [vm_compute; reflexivity|]. vm_compute. repeat split; reflexivity.
Qed.

(** Used against C3: a process that holds an instance of a two-instance
    resource and requests the same resource.  The bipartite detector reports
    the two-node cycle; the wait-for graph has no edge, because
    [build_wait_for_graph] skips [p1 == p2]. *)
Lemma self_wait_detectors_disagree :
  let rag := run_ops [OpAddProcess (Some "P"%string) 50;
                      OpAddResource (Some "R"%string) 2;
                      OpAllocate 0 0; OpRequest 0 0] in
  deadlock_detected <$> detect_deadlock rag = Some true /\
  fst <$> detect_cycle_in_wait_for (build_wait_for_graph rag) MAX_PROCESSES
  = Some false.
Proof. vm_compute. split; reflexivity. Qed.

(** Used against C4: two disjoint two-process cycles.  Detection stops at
    the first cycle, [recovery_terminate_all] removes its two processes, and
    the second cycle is reported by the fresh detection. *)
Lemma terminate_all_leaves_second_cycle :
  let rag := run_ops [OpAddProcess (Some "Process_1"%string) 50;
                      OpAddProcess (Some "Process_2"%string) 50;
                      OpAddResource (Some "Resource_A"%string) 1;
                      OpAddResource (Some "Resource_B"%string) 1;
                      OpAllocate 0 0; OpAllocate 1 1;
                      OpRequest 0 1; OpRequest 1 0;
                      OpAddProcess (Some "Process_3"%string) 50;
                      OpAddProcess (Some "Process_4"%string) 50;
                      OpAddResource (Some "Resource_C"%string) 1;
                      OpAddResource (Some "Resource_D"%string) 1;
                      OpAllocate 2 2; OpAllocate 3 3;
                      OpRequest 2 3; OpRequest 3 2] in
  exists d,
    detect_deadlock rag = Some d /\
    deadlocked_processes d = [0; 1] /\
    let '(ok, rag', _) := recovery_terminate_all rag d recovery_result_init in
    ok = true /\
    deadlock_detected <$> detect_deadlock rag' = Some true.
Proof.
  eexists. split; [vm_compute; reflexivity|]. vm_compute. repeat split; reflexivity.
Qed.


(** ** The bipartite depth-first search *)

Lemma visit_nodes_ext f g ns st :
  (forall s n, n ∈ ns -> f s n = g s n) -> visit_nodes f ns st = visit_nodes g ns st.
Proof.
  revert st. induction ns as [|n ns IH]; intros st H; [done|].
  cbn [visit_nodes]. rewrite (H st n) by apply list_elem_of_here.
  destruct (g st n) as [[[] st']|]; try done.
  apply IH. intros s m Hm. apply H. by apply list_elem_of_further.
Qed.

Lemma visit_each_pnodes visit edge ids st :
  visit_each visit edge ids st
  = visit_nodes (fun s n => visit s (node_id n)) (PNode <$> List.filter edge ids) st.
Proof.
  revert st. induction ids as [|i ids IH]; intros st; [done|].
  cbn [visit_each List.filter]. destruct (edge i); [|apply IH].
  cbn [fmap list_fmap visit_nodes PNode node_id].
  destruct (visit st i) as [[[] st']|]; done || apply IH.
Qed.

Lemma visit_each_rnodes visit edge ids st :
  visit_each visit edge ids st
  = visit_nodes (fun s n => visit s (node_id n)) (RNode <$> List.filter edge ids) st.
Proof.
  revert st. induction ids as [|i ids IH]; intros st; [done|].
  cbn [visit_each List.filter]. destruct (edge i); [|apply IH].
  cbn [fmap list_fmap visit_nodes RNode node_id].
  destruct (visit st i) as [[[] st']|]; done || apply IH.
Qed.

(** Both visit functions are instances of [visit_body]. *)
Lemma visit_node_unfold fuel rag st n :
  visit_node (S fuel) rag st n = visit_body rag (visit_node fuel rag) st n.
Proof.
  destruct n as [id ty]. unfold visit_node, visit_body, node_slot_ok, node_color,
    set_node_color, successors. cbn [node_type node_id].
  destruct ty; cbn [dfs_visit_process dfs_visit_resource].
  - destruct (cycle_found st); [done|].
    destruct ((id <? 0) || (id >=? MAX_PROCESSES)); cbn [negb andb]; [done|].
    destruct (proc_active (processes rag id)); cbn [negb]; [|done].
    destruct (if color_eqb _ _ then _ else _); [done|].
    destruct (color_eqb _ COLOR_BLACK); [done|].
    rewrite visit_each_rnodes.
    erewrite visit_nodes_ext; [done|].
    intros s n Hn. apply list_elem_of_fmap in Hn as (r & -> & _). done.
  - destruct (cycle_found st); [done|].
    destruct ((id <? 0) || (id >=? MAX_RESOURCES)); cbn [negb andb]; [done|].
    destruct (res_active (resources rag id)); cbn [negb]; [|done].
    destruct (if color_eqb _ _ then _ else _); [done|].
    destruct (color_eqb _ COLOR_BLACK); [done|].
    rewrite visit_each_pnodes.
    erewrite visit_nodes_ext; [done|].
    intros s n Hn. apply list_elem_of_fmap in Hn as (r & -> & _). done.
Qed.

Lemma node_slot_ok_valid rag n : node_slot_ok rag n = true <-> node_valid rag n.
Proof.
  unfold node_slot_ok, node_valid, proc_slot_active, res_slot_active.
  destruct (node_type n).
  - destruct (Z.ltb_spec (node_id n) 0), (Z.geb_spec (node_id n) MAX_PROCESSES);
      cbn [orb negb andb]; split; try done; try lia; intros [? ?]; done || lia.
  - destruct (Z.ltb_spec (node_id n) 0), (Z.geb_spec (node_id n) MAX_RESOURCES);
      cbn [orb negb andb]; split; try done; try lia; intros [? ?]; done || lia.
Qed.

Lemma color_eqb_eq a b : color_eqb a b = true <-> a = b.
Proof. destruct a, b; simpl; split; congruence. Qed.

Lemma node_type_eqb_eq a b : node_type_eqb a b = true <-> a = b.
Proof. destruct a, b; simpl; split; congruence. Qed.

Lemma node_color_set_eq st n c : node_color (set_node_color st n c) n = c.
Proof.
  unfold node_color, set_node_color. destruct (node_type n); simpl; apply upd_eq.
Qed.

Lemma node_color_set_ne st n c m :
  m <> n -> node_color (set_node_color st n c) m = node_color st m.
Proof.
  intros Hne. destruct n as [i ti], m as [j tj].
  unfold node_color, set_node_color. cbn [node_type node_id].
  destruct ti, tj; simpl; try done; apply upd_ne; congruence.
Qed.

Lemma path_set_node_color st n c : path (set_node_color st n c) = path st.
Proof. unfold set_node_color. by destruct (node_type n). Qed.

Lemma cycle_found_set_node_color st n c :
  cycle_found (set_node_color st n c) = cycle_found st.
Proof. unfold set_node_color. by destruct (node_type n). Qed.

Lemma path_index_elem n p :
  n ∈ p -> is_Some (path_index (node_type n) (node_id n) p).
Proof.
  induction p as [|x p IH]; intros H; [by inversion H|].
  cbn [path_index].
  destruct (node_type_eqb (node_type x) (node_type n) && (node_id x =? node_id n))
    eqn:E; [by eexists|].
  apply elem_of_cons in H as [->|H].
  - rewrite Z.eqb_refl, andb_true_r in E.
    by rewrite (proj2 (node_type_eqb_eq _ _) eq_refl) in E.
  - destruct (IH H) as [i ->]. by eexists.
Qed.

(** Edges of the graph are the valid successors of a valid node. *)
Lemma successors_edge rag u v :
  rag_edge rag u v <-> node_valid rag u /\ node_valid rag v /\ v ∈ successors rag u.
Proof.
  destruct u as [i ti], v as [j tj].
  unfold rag_edge, successors, node_valid. cbn [node_type node_id].
  split.
  - intros (Hu & Hv & He). split; [done|]. split; [done|].
    destruct ti, tj; try done.
    + apply list_elem_of_fmap. exists j. split; [done|].
      apply list_elem_of_In, filter_In. split.
      * apply list_elem_of_In, elem_of_res_ids, Hv.
      * by apply Z.gtb_lt.
    + apply list_elem_of_fmap. exists j. split; [done|].
      apply list_elem_of_In, filter_In. split.
      * apply list_elem_of_In, elem_of_proc_ids, Hv.
      * by apply Z.gtb_lt.
  - intros (Hu & Hv & He). split; [done|]. split; [done|].
    destruct ti.
    + apply list_elem_of_fmap in He as (r & [= -> ->] & Hr).
      apply list_elem_of_In, filter_In in Hr as [_ Hr]. by apply Z.gtb_lt.
    + apply list_elem_of_fmap in He as (r & [= -> ->] & Hr).
      apply list_elem_of_In, filter_In in Hr as [_ Hr]. by apply Z.gtb_lt.
Qed.

(** *** Counting white nodes *)

Lemma white_count_le c ids : (white_count c ids <= length ids)%nat.
Proof.
  induction ids as [|i ids IH]; simpl; [done|]. destruct (color_eqb _ _); lia.
Qed.

Lemma white_count_mono c c' ids :
  (forall i, c' i = COLOR_WHITE -> c i = COLOR_WHITE) ->
  (white_count c' ids <= white_count c ids)%nat.
Proof.
  intros H. induction ids as [|i ids IH]; simpl; [done|].
  destruct (color_eqb (c' i) COLOR_WHITE) eqn:E.
  - apply color_eqb_eq, H in E. rewrite (proj2 (color_eqb_eq _ _) E). lia.
  - destruct (color_eqb (c i) COLOR_WHITE); lia.
Qed.

Lemma white_count_upd_lt c ids i col :
  i ∈ ids -> c i = COLOR_WHITE -> col <> COLOR_WHITE ->
  (white_count (upd c i col) ids < white_count c ids)%nat.
Proof.
  intros Hin Hc Hcol. induction ids as [|j ids IH]; [by inversion Hin|].
  cbn [white_count].
  assert (white_count (upd c i col) ids <= white_count c ids)%nat as Hle.
  { apply white_count_mono. intros k. unfold upd.
    destruct (Z.eqb_spec k i) as [->|]; [done|done]. }
  destruct (decide (j = i)) as [->|Hne].
  - rewrite upd_eq, Hc. cbn [color_eqb].
    destruct (color_eqb col COLOR_WHITE) eqn:E; [by apply color_eqb_eq in E|]. lia.
  - apply elem_of_cons in Hin as [->|Hin]; [done|].
    specialize (IH Hin). rewrite upd_ne by done. lia.
Qed.

Lemma white_nodes_bound st :
  (white_nodes st <= Z.to_nat (MAX_PROCESSES + MAX_RESOURCES))%nat.
Proof.
  unfold white_nodes.
  pose proof (white_count_le (process_colors st) proc_ids).
  pose proof (white_count_le (resource_colors st) res_ids).
  unfold proc_ids, res_ids in *. rewrite length_seqZ in *.
  unfold MAX_PROCESSES, MAX_RESOURCES in *.
  change (Z.to_nat (64 + 64)) with 128%nat.
  change (Z.to_nat 64) with 64%nat in *.
  etrans; [apply Nat.add_le_mono; eassumption|]. done.
Qed.

Lemma colors_advance_refl st : colors_advance st st.
Proof. split; done. Qed.

Lemma colors_advance_trans st1 st2 st3 :
  colors_advance st1 st2 -> colors_advance st2 st3 -> colors_advance st1 st3.
Proof.
  intros [A1 A2] [B1 B2]. split.
  - intros m Hm. rewrite B1; [by apply A1|]. by rewrite A1.
  - intros m Hm. by apply A2, B2.
Qed.

Lemma colors_advance_white st st' :
  colors_advance st st' -> (white_nodes st' <= white_nodes st)%nat.
Proof.
  intros [A _]. unfold white_nodes.
  assert (forall i, process_colors st' i = COLOR_WHITE ->
                    process_colors st i = COLOR_WHITE) as Hp.
  { intros i Hi. specialize (A (PNode i)). unfold node_color in A. simpl in A.
    destruct (process_colors st i) eqn:E; [done| |]; rewrite A in Hi; done. }
  assert (forall i, resource_colors st' i = COLOR_WHITE ->
                    resource_colors st i = COLOR_WHITE) as Hr.
  { intros i Hi. specialize (A (RNode i)). unfold node_color in A. simpl in A.
    destruct (resource_colors st i) eqn:E; [done| |]; rewrite A in Hi; done. }
  pose proof (white_count_mono _ _ proc_ids Hp).
  pose proof (white_count_mono _ _ res_ids Hr). lia.
Qed.

Lemma white_nodes_set_gray rag st n :
  node_valid rag n -> node_color st n = COLOR_WHITE ->
  (white_nodes (set_node_color st n COLOR_GRAY) < white_nodes st)%nat.
Proof.
  destruct n as [i t]. unfold node_valid, node_color, set_node_color, white_nodes.
  cbn [node_type node_id]. destruct t; intros [Hi _] Hc;
    cbn [set_process_color set_resource_color process_colors resource_colors].
  - pose proof (white_count_upd_lt (process_colors st) proc_ids i COLOR_GRAY).
    rewrite elem_of_proc_ids in H. specialize (H Hi Hc ltac:(done)). lia.
  - pose proof (white_count_upd_lt (resource_colors st) res_ids i COLOR_GRAY).
    rewrite elem_of_res_ids in H. specialize (H Hi Hc ltac:(done)). lia.
Qed.

(** *** The path never outgrows its array *)

Lemma valid_in_all_nodes rag n : node_valid rag n -> n ∈ all_nodes.
Proof.
  destruct n as [i t]. unfold node_valid, all_nodes. cbn [node_type node_id].
  destruct t; intros [Hi _]; apply elem_of_app.
  - left. apply list_elem_of_fmap. exists i. split; [done|]. by apply elem_of_proc_ids.
  - right. apply list_elem_of_fmap. exists i. split; [done|]. by apply elem_of_res_ids.
Qed.

Lemma length_all_nodes : Z.of_nat (length all_nodes) = MAX_CYCLE_LENGTH.
Proof. reflexivity. Qed.

Lemma path_room rag (p : list GraphNode) :
  NoDup p -> (forall n, n ∈ p -> node_valid rag n) ->
  Z.of_nat (length p) <= MAX_CYCLE_LENGTH.
Proof.
  intros Hnd Hval. rewrite <- length_all_nodes. apply inj_le.
  apply submseteq_length, NoDup_submseteq; [done|].
  intros n Hn. by apply (valid_in_all_nodes rag), Hval.
Qed.

(** *** The successor loop *)

Lemma visit_nodes_ok rag visit fuel :
  visit_ok rag visit fuel ->
  forall ns u st,
    dfs_inv rag st -> last (path st) = Some u ->
    (forall v, v ∈ ns -> node_valid rag v -> rag_edge rag u v) ->
    (white_nodes st < fuel)%nat ->
    exists b st',
      visit_nodes visit ns st = Some (b, st') /\
      if b then has_cycle (rag_edge rag)
      else dfs_inv rag st' /\ path st' = path st /\ colors_advance st st' /\
           forall v, v ∈ ns -> node_valid rag v -> node_color st' v = COLOR_BLACK.
Proof.
  intros Hok ns u. induction ns as [|v ns IH]; intros st Hinv Hlast Hedges Hfuel.
  - exists false, st. split; [done|].
    split_and!; [done|done|apply colors_advance_refl|].
    intros v Hv. by inversion Hv.
  - cbn [visit_nodes].
    destruct (Hok st v Hinv) as (b & st1 & E & Hpost); [|done|].
    { intros Hv top Htop. rewrite Hlast in Htop. injection Htop as <-.
      apply Hedges; [apply list_elem_of_here|done]. }
    rewrite E. destruct b.
    { exists true, st1. done. }
    destruct Hpost as (Hinv1 & Hpath1 & Hadv1 & Hblack1).
    destruct (IH st1) as (b' & st' & E' & Hpost'); try done.
    { by rewrite Hpath1. }
    { intros w Hw. apply Hedges. by apply list_elem_of_further. }
    { pose proof (colors_advance_white _ _ Hadv1). lia. }
    exists b', st'. split; [done|]. destruct b'; [done|].
    destruct Hpost' as (Hinv' & Hpath' & Hadv' & Hblack').
    split_and!; [done| |by apply (colors_advance_trans _ st1)|].
    + by rewrite Hpath'.
    + intros w Hw Hval. apply elem_of_cons in Hw as [->|Hw]; [|by apply Hblack'].
      destruct Hadv' as [A _]. rewrite A; rewrite Hblack1; done.
Qed.

Lemma black_closed_rtc rag st u v :
  dfs_inv rag st -> rtc (rag_edge rag) u v ->
  node_color st u = COLOR_BLACK -> node_color st v = COLOR_BLACK.
Proof.
  intros Hinv. induction 1 as [|x y z Hxy _ IH]; [done|].
  intros Hx. apply IH. by apply (dfs_black_closed _ _ Hinv x).
Qed.

Lemma tc_first_step {A} (R : relation A) x z :
  tc R x z -> exists y, R x y /\ rtc R y z.
Proof.
  destruct 1 as [x z H|x y z H Ht].
  - exists z. split; [done|]. apply rtc_refl.
  - exists y. split; [done|]. by apply tc_rtc.
Qed.

Lemma path_push st n :
  Z.of_nat (length (path st)) < MAX_CYCLE_LENGTH ->
  path (push_path st n) = path st ++ [n] /\
  process_colors (push_path st n) = process_colors st /\
  resource_colors (push_path st n) = resource_colors st /\
  cycle_found (push_path st n) = cycle_found st.
Proof.
  intros H. unfold push_path.
  destruct (Z.ltb_spec (Z.of_nat (length (path st))) MAX_CYCLE_LENGTH); [done|lia].
Qed.

Lemma node_color_same_arrays st st' n :
  process_colors st' = process_colors st ->
  resource_colors st' = resource_colors st ->
  node_color st' n = node_color st n.
Proof. unfold node_color. by intros -> ->. Qed.

Lemma white_nodes_same_arrays st st' :
  process_colors st' = process_colors st ->
  resource_colors st' = resource_colors st ->
  white_nodes st' = white_nodes st.
Proof. unfold white_nodes. by intros -> ->. Qed.

(** *** One visit *)

(** Entering a white node: colour it gray and push it. *)
Lemma enter_node rag st n :
  dfs_inv rag st -> node_valid rag n -> node_color st n = COLOR_WHITE ->
  (forall top, last (path st) = Some top -> rag_edge rag top n) ->
  let st2 := push_path (set_node_color st n COLOR_GRAY) n in
  dfs_inv rag st2 /\ path st2 = path st ++ [n] /\
  (forall m, m <> n -> node_color st2 m = node_color st m) /\
  node_color st2 n = COLOR_GRAY /\
  (white_nodes st2 < white_nodes st)%nat.
Proof.
  intros Hinv Hval Hwhite Hedge st2.
  assert (n ∉ path st) as Hnotin.
  { intros Hin. apply (dfs_path_gray _ _ Hinv) in Hin as [Hg _]. congruence. }
  assert (NoDup (path st ++ [n])) as Hnd.
  { apply NoDup_app. split; [apply (dfs_path_nodup _ _ Hinv)|]. split.
    - intros x Hx Hx'. apply list_elem_of_singleton in Hx' as ->. done.
    - apply NoDup_singleton. }
  assert (Z.of_nat (length (path (set_node_color st n COLOR_GRAY)))
          < MAX_CYCLE_LENGTH) as Hroom.
  { rewrite path_set_node_color.
    pose proof (path_room rag (path st ++ [n]) Hnd) as Hr.
    rewrite length_app in Hr. cbn [length] in Hr.
    assert (Z.of_nat (length (path st) + 1) <= MAX_CYCLE_LENGTH); [|lia].
    apply Hr. intros m Hm. apply elem_of_app in Hm as [Hm|Hm].
    - by apply (dfs_path_gray _ _ Hinv).
    - by apply list_elem_of_singleton in Hm as ->. }
  destruct (path_push _ n Hroom) as (Hp & Hpc & Hrc & Hcf).
  fold st2 in Hp, Hpc, Hrc, Hcf. rewrite path_set_node_color in Hp.
  assert (forall m, node_color st2 m
                    = node_color (set_node_color st n COLOR_GRAY) m) as Hcol.
  { intros m. by apply node_color_same_arrays. }
  assert (forall m, m <> n -> node_color st2 m = node_color st m) as Hother.
  { intros m Hm. rewrite Hcol. by apply node_color_set_ne. }
  assert (node_color st2 n = COLOR_GRAY) as Hgray.
  { rewrite Hcol. apply node_color_set_eq. }
  split_and!; [|done|done|done|].
  - split.
    + rewrite Hcf, cycle_found_set_node_color. apply (dfs_not_found _ _ Hinv).
    + intros m Hm. rewrite Hp. apply elem_of_app.
      destruct (decide (m = n)) as [->|Hne].
      * right. apply list_elem_of_here.
      * left. apply (dfs_gray_path _ _ Hinv). by rewrite <- Hother.
    + intros m Hm. rewrite Hp in Hm. apply elem_of_app in Hm as [Hm|Hm].
      * destruct (dfs_path_gray _ _ Hinv m Hm) as [Hg Hv]. split; [|done].
        rewrite Hother; [done|]. by intros ->.
      * apply list_elem_of_singleton in Hm as ->. done.
    + by rewrite Hp.
    + intros m top Hm. rewrite Hp in Hm. rewrite Hp, last_snoc. intros [= <-].
      apply elem_of_app in Hm as [Hm|Hm].
      * destruct (last (path st)) as [top0|] eqn:Hlast.
        -- apply rtc_r with top0; [|by apply Hedge].
           by apply (dfs_path_chain _ _ Hinv).
        -- apply last_None in Hlast. rewrite Hlast in Hm. by inversion Hm.
      * apply list_elem_of_singleton in Hm as ->. apply rtc_refl.
    + intros u v Hu Huv.
      assert (u <> n) as Hun by (intros ->; congruence).
      rewrite Hother in Hu by done.
      pose proof (dfs_black_closed _ _ Hinv u v Hu Huv) as Hv.
      rewrite Hother; [done|]. intros ->. congruence.
    + intros u Hu.
      assert (u <> n) as Hun by (intros ->; congruence).
      rewrite Hother in Hu by done. by apply (dfs_black_acyclic _ _ Hinv).
  - rewrite (white_nodes_same_arrays (set_node_color st n COLOR_GRAY) st2) by done.
    by apply (white_nodes_set_gray rag).
Qed.

(** Leaving a node whose successors are all black: pop it, colour it black. *)
Lemma leave_node rag st n st3 :
  dfs_inv rag st -> node_valid rag n -> node_color st n = COLOR_WHITE ->
  dfs_inv rag st3 -> path st3 = path st ++ [n] ->
  (forall m, m <> n -> node_color st m <> COLOR_WHITE ->
             node_color st3 m = node_color st m) ->
  (forall m, m <> n -> node_color st3 m = COLOR_GRAY -> node_color st m = COLOR_GRAY) ->
  node_color st3 n = COLOR_GRAY ->
  (forall v, rag_edge rag n v -> node_color st3 v = COLOR_BLACK) ->
  visit_done rag st n (set_node_color (pop_path st3) n COLOR_BLACK).
Proof.
  intros Hinv Hval Hwhite Hinv3 Hpath3 Hkeep Hgray3 Hn3 Hsucc.
  set (st4 := set_node_color (pop_path st3) n COLOR_BLACK).
  assert (path st4 = path st) as Hp4.
  { unfold st4. rewrite path_set_node_color. cbn [pop_path path].
    rewrite Hpath3. apply removelast_last. }
  assert (node_color st4 n = COLOR_BLACK) as Hn4 by apply node_color_set_eq.
  assert (forall m, m <> n -> node_color st4 m = node_color st3 m) as Hother.
  { intros m Hm. unfold st4. rewrite node_color_set_ne by done.
    by apply node_color_same_arrays. }
  assert (n ∉ path st) as Hnotin.
  { intros Hin. apply (dfs_path_gray _ _ Hinv) in Hin as [Hg _]. congruence. }
  split_and!; [|done| |done].
  - split.
    + unfold st4. rewrite cycle_found_set_node_color. apply (dfs_not_found _ _ Hinv3).
    + intros m Hm. rewrite Hp4.
      assert (m <> n) as Hne by (intros ->; congruence).
      rewrite Hother in Hm by done.
      apply (dfs_gray_path _ _ Hinv). by apply Hgray3.
    + intros m Hm. rewrite Hp4 in Hm.
      destruct (dfs_path_gray _ _ Hinv m Hm) as [Hg Hv]. split; [|done].
      assert (m <> n) as Hne by (by intros ->).
      rewrite Hother by done. rewrite Hkeep; [done|done|congruence].
    + rewrite Hp4. apply (dfs_path_nodup _ _ Hinv).
    + intros m top. rewrite Hp4. apply (dfs_path_chain _ _ Hinv).
    + intros u v Hu Huv.
      destruct (decide (v = n)) as [->|Hvn]; [done|].
      rewrite Hother by done.
      destruct (decide (u = n)) as [->|Hun]; [by apply Hsucc|].
      rewrite Hother in Hu by done.
      by apply (dfs_black_closed _ _ Hinv3 u v).
    + intros u Hu Hcyc.
      destruct (decide (u = n)) as [->|Hun].
      * apply tc_first_step in Hcyc as (v & Hnv & Hvn).
        pose proof (black_closed_rtc rag st3 v n Hinv3 Hvn (Hsucc v Hnv)).
        congruence.
      * rewrite Hother in Hu by done.
        by apply (dfs_black_acyclic _ _ Hinv3 u).
  - split.
    + intros m Hm.
      assert (m <> n) as Hne by (intros ->; congruence).
      rewrite Hother by done. by apply Hkeep.
    + intros m Hm.
      assert (m <> n) as Hne by (intros ->; congruence).
      rewrite Hother in Hm by done. by apply Hgray3.
Qed.

Lemma visit_body_ok rag visit fuel :
  visit_ok rag visit fuel -> visit_ok rag (visit_body rag visit) (S fuel).
Proof.
  intros Hok st n Hinv Hedge Hfuel. unfold visit_body.
  rewrite (dfs_not_found _ _ Hinv).
  destruct (node_slot_ok rag n) eqn:Hv; cbn [negb].
  2:{ exists false, st. split; [done|].
      split_and!; [done|done|apply colors_advance_refl|].
      intros Hval. apply node_slot_ok_valid in Hval. congruence. }
  apply node_slot_ok_valid in Hv.
  destruct (node_color st n) eqn:Hc; cbn [color_eqb].
  - (* white: explore *)
    destruct (enter_node rag st n Hinv Hv Hc (Hedge Hv))
      as (Hinv2 & Hp2 & Hother2 & Hgray2 & Hw2).
    set (st2 := push_path (set_node_color st n COLOR_GRAY) n) in *.
    destruct (visit_nodes_ok rag visit fuel Hok (successors rag n) n st2)
      as (b & st3 & E & Hpost); try done.
    { rewrite Hp2. apply last_snoc. }
    { intros v Hin Hval. apply successors_edge. done. }
    { lia. }
    rewrite E. destruct b.
    { exists true, st3. done. }
    destruct Hpost as (Hinv3 & Hp3 & [A1 A2] & Hblack3).
    eexists false, _. split; [done|].
    apply (leave_node rag st n st3); try done.
    + by rewrite Hp3.
    + intros m Hm Hnw. rewrite A1; rewrite Hother2; done.
    + intros m Hm Hg. rewrite <- Hother2 by done. by apply A2.
    + rewrite A1; rewrite Hgray2; done.
    + intros v Hnv. apply successors_edge in Hnv as (_ & Hval & Hin).
      by apply Hblack3.
  - (* gray: the back edge closes a cycle *)
    pose proof (dfs_gray_path _ _ Hinv n Hc) as Hin.
    destruct (path_index_elem n (path st) Hin) as [i ->].
    eexists true, _. split; [done|].
    exists n.
    destruct (last (path st)) as [top|] eqn:Hlast.
    + apply tc_rtc_l with top; [by apply (dfs_path_chain _ _ Hinv)|].
      apply tc_once. by apply Hedge.
    + apply last_None in Hlast. rewrite Hlast in Hin. by inversion Hin.
  - (* black: nothing to do *)
    exists false, st. split; [done|].
    split_and!; [done|done|apply colors_advance_refl|done].
Qed.

Lemma visit_ok_ext rag f g fuel :
  (forall st n, f st n = g st n) -> visit_ok rag g fuel -> visit_ok rag f fuel.
Proof.
  intros Hfg Hok st n Hinv Hedge Hfuel. rewrite Hfg. by apply Hok.
Qed.

(** Total correctness of a visit: with more frames than white nodes it
    returns, and its answer is right. *)
Lemma visit_node_ok rag fuel : visit_ok rag (visit_node fuel rag) fuel.
Proof.
  induction fuel as [|fuel IH].
  - intros st n _ _ H. lia.
  - apply (visit_ok_ext _ _ (visit_body rag (visit_node fuel rag))).
    + intros st n. apply visit_node_unfold.
    + by apply visit_body_ok.
Qed.

(** *** The root loop and the detector *)

Lemma dfs_inv_init rag c : dfs_inv rag (init_dfs_state c).
Proof.
  split; cbn [init_dfs_state path cycle_found].
  - done.
  - intros n. unfold node_color. by destruct (node_type n).
  - intros n Hn. by inversion Hn.
  - apply NoDup_nil_2.
  - intros n top Hn. by inversion Hn.
  - intros u v. unfold node_color. by destruct (node_type u).
  - intros u. unfold node_color. by destruct (node_type u).
Qed.

Lemma detect_roots_ok rag ps :
  forall st res,
    dfs_inv rag st -> path st = [] ->
    exists res',
      detect_roots rag DETECT_DFS ps st res = Some res' /\
      ((deadlock_detected res' = true /\ has_cycle (rag_edge rag)) \/
       (res' = res /\
        exists st',
          dfs_inv rag st' /\ path st' = [] /\ colors_advance st st' /\
          forall p, p ∈ ps -> proc_slot_active rag p -> has_requests rag p = true ->
                    node_color st' (PNode p) = COLOR_BLACK)).
Proof.
  induction ps as [|p ps IH]; intros st res Hinv Hpath; cbn [detect_roots].
  - exists res. split; [done|]. right. split; [done|]. exists st.
    split_and!; [done|done|apply colors_advance_refl|].
    intros p Hp. by inversion Hp.
  - destruct (proc_active (processes rag p)) eqn:Hact; cbn [negb].
    2:{ destruct (IH st res Hinv Hpath) as (res' & E & [Hyes|(-> & st' & Hno)]).
        - exists res'. split; [done|]. by left.
        - exists res. split; [done|]. right. split; [done|]. exists st'.
          destruct Hno as (H1 & H2 & H3 & H4). split_and!; try done.
          intros q Hq Hqa Hqr. apply elem_of_cons in Hq as [->|Hq]; [|by apply H4].
          destruct Hqa as [_ Hqa]. congruence. }
    destruct (has_requests rag p && color_eqb (process_colors st p) COLOR_WHITE)
      eqn:Hroot.
    + change (dfs_visit_process DFS_FUEL rag st p)
        with (visit_node DFS_FUEL rag st (PNode p)).
      destruct (visit_node_ok rag DFS_FUEL st (PNode p) Hinv)
        as (b & st1 & E & Hpost).
      { intros _ top. rewrite Hpath. done. }
      { pose proof (white_nodes_bound st). unfold DFS_FUEL. lia. }
      rewrite E. destruct b.
      { eexists. split; [done|]. left. done. }
      destruct Hpost as (Hinv1 & Hpath1 & Hadv1 & Hblack1).
      destruct (IH st1 res Hinv1) as (res' & E' & [Hyes|(-> & st' & Hno)]).
      { by rewrite Hpath1. }
      * exists res'. split; [done|]. by left.
      * exists res. split; [done|]. right. split; [done|]. exists st'.
        destruct Hno as (H1 & H2 & H3 & H4).
        split_and!; [done|done|by apply (colors_advance_trans _ st1)|].
        intros q Hq Hqa Hqr. apply elem_of_cons in Hq as [->|Hq]; [|by apply H4].
        destruct H3 as [A _]. rewrite A; rewrite Hblack1; done.
    + destruct (IH st res Hinv Hpath) as (res' & E & [Hyes|(-> & st' & Hno)]).
      * exists res'. split; [done|]. by left.
      * exists res. split; [done|]. right. split; [done|]. exists st'.
        destruct Hno as (H1 & H2 & H3 & H4). split_and!; try done.
        intros q Hq Hqa Hqr. apply elem_of_cons in Hq as [->|Hq]; [|by apply H4].
        rewrite Hqr in Hroot. cbn [andb] in Hroot.
        assert (node_color st (PNode p) = COLOR_BLACK) as Hb.
        { unfold node_color. cbn [PNode node_type node_id].
          destruct (process_colors st p) eqn:Hc; [done| |done].
          assert (PNode p ∈ path st) as Hin.
          { apply (dfs_gray_path _ _ Hinv). unfold node_color. done. }
          rewrite Hpath in Hin. by inversion Hin. }
        destruct H3 as [A _]. rewrite A; rewrite Hb; done.
Qed.

(** Every cycle of the bipartite graph passes through a process that has a
    pending request. *)
Lemma cycle_has_requesting_process rag x :
  tc (rag_edge rag) x x ->
  exists p, tc (rag_edge rag) (PNode p) (PNode p)
            /\ proc_slot_active rag p /\ has_requests rag p = true.
Proof.
  intros Hx.
  assert (exists p, tc (rag_edge rag) (PNode p) (PNode p)) as [p Hp].
  { destruct x as [i t]. destruct t; [by exists i|].
    apply tc_first_step in Hx as (y & Hxy & Hyx).
    destruct y as [j t]. destruct t.
    - exists j. apply tc_rtc_l with (mkNode i NODE_RESOURCE); [done|].
      by apply tc_once.
    - by destruct Hxy as (_ & _ & ?). }
  exists p. split; [done|].
  apply tc_first_step in Hp as (y & (Hpv & Hyv & Hreq) & _).
  split; [done|].
  destruct y as [r t]. destruct t; [done|]. cbn [PNode node_type node_id] in Hreq.
  destruct (has_requests rag p) eqn:Hh; [done|].
  rewrite has_requests_false in Hh. specialize (Hh r (proj1 Hyv)). lia.
Qed.

Lemma deadlock_detected_extract res :
  deadlock_detected (extract_deadlocked res) = deadlock_detected res.
Proof.
  unfold extract_deadlocked. destruct (deadlock_detected res) eqn:E; [done|].
  by rewrite E.
Qed.

(** The first-cycle detector returns on every graph, and it reports a
    deadlock exactly when the bipartite graph has a cycle. *)
Lemma detect_deadlock_correct rag :
  exists d,
    detect_deadlock rag = Some d /\
    (deadlock_detected d = true <-> has_cycle (rag_edge rag)).
Proof.
  unfold detect_deadlock, detect_deadlock_with_algorithm.
  destruct (detect_roots_ok rag proc_ids (init_dfs_state (mkCycle [] false))
                            deadlock_result_init (dfs_inv_init _ _) eq_refl)
    as (res & E & Hres).
  rewrite E. eexists. split; [done|]. rewrite deadlock_detected_extract.
  destruct Hres as [[Hd Hc]|(-> & st' & Hinv & _ & _ & Hblack)].
  - by rewrite Hd.
  - cbn [deadlock_result_init deadlock_detected]. split; [done|].
    intros [x Hx]. exfalso.
    apply cycle_has_requesting_process in Hx as (p & Hp & Hact & Hreq).
    apply (dfs_black_acyclic _ _ Hinv (PNode p)); [|done].
    apply Hblack; [|done|done]. apply elem_of_proc_ids, Hact.
Qed.


(** ** Terminating the detected processes *)

Lemma release_all_fold_frame l rag p k :
  let rag' :=
    snd (fold_left
           (fun acc r =>
              release_loop (Z.to_nat (assignment_matrix (snd acc) p r))
                           (snd acc) p r (fst acc))
           l (k, rag)) in
  processes rag' = processes rag /\
  request_matrix rag' = request_matrix rag /\
  (forall b, res_active (resources rag' b) = res_active (resources rag b)) /\
  (forall a b, a <> p -> assignment_matrix rag' a b = assignment_matrix rag a b).
Proof.
  revert rag k.
  induction l as [|r l IH]; intros rag k; cbn [fold_left fst snd]; [done|].
  set (n := Z.to_nat (assignment_matrix rag p r)).
  destruct (release_loop_frame n rag p r k) as (F1 & F2 & F3 & F4).
  destruct (release_loop n rag p r k) as [k1 rag1]. cbn [snd] in *.
  destruct (IH rag1 k1) as (G1 & G2 & G3 & G4).
  split_and!.
  - by rewrite G1.
  - by rewrite G2.
  - intros b. by rewrite G3.
  - intros a b Ha. rewrite G4 by done. apply F4. tauto.
Qed.

Lemma release_all_frame rag p :
  let rag' := snd (rag_release_all_resources rag p) in
  processes rag' = processes rag /\
  request_matrix rag' = request_matrix rag /\
  (forall b, res_active (resources rag' b) = res_active (resources rag b)) /\
  (forall a b, a <> p -> assignment_matrix rag' a b = assignment_matrix rag a b).
Proof.
  unfold rag_release_all_resources. destruct (_ || _); [done|].
  apply release_all_fold_frame.
Qed.

Lemma remove_process_frame rag p :
  proc_slot_active rag p ->
  let rag' := snd (rag_remove_process rag p) in
  proc_active (processes rag' p) = false /\
  (forall q, q <> p -> processes rag' q = processes rag q) /\
  (forall b, res_active (resources rag' b) = res_active (resources rag b)) /\
  (forall a b, a <> p ->
     request_matrix rag' a b = request_matrix rag a b /\
     assignment_matrix rag' a b = assignment_matrix rag a b).
Proof.
  intros [Hp Hact]. unfold rag_remove_process.
  destruct (Z.ltb_spec p 0), (Z.geb_spec p MAX_PROCESSES); try lia.
  rewrite Hact. cbn [orb negb snd].
  destruct (release_all_frame rag p) as (F1 & F2 & F3 & F4).
  set (rag1 := snd (rag_release_all_resources rag p)) in *.
  cbn [processes resources request_matrix assignment_matrix].
  split_and!.
  - by rewrite upd_eq.
  - intros q Hq. rewrite upd_ne by done. by rewrite F1.
  - done.
  - intros a b Ha. split; [|by apply F4].
    rewrite fold_cancel_row. rewrite bool_decide_eq_false_2; [by rewrite F2|].
    intros [? _]. done.
Qed.

Lemma graph_minus_nil rag : graph_minus rag rag [].
Proof.
  split_and!; try done. intros p. split; [|tauto].
  intros H. split; [done|]. intros Hin. by inversion Hin.
Qed.

Lemma graph_minus_app rag rag1 rag2 l1 l2 :
  graph_minus rag rag1 l1 -> graph_minus rag1 rag2 l2 ->
  graph_minus rag rag2 (l1 ++ l2).
Proof.
  intros (A1 & A2 & A3) (B1 & B2 & B3). split_and!.
  - intros p. rewrite B1, A1, not_elem_of_app. tauto.
  - intros r. by rewrite B2.
  - intros p r Hp. apply not_elem_of_app in Hp as [Hp1 Hp2].
    destruct (B3 p r Hp2) as [-> ->]. by apply A3.
Qed.

Lemma terminate_all_step_minus rag result k pid :
  graph_minus rag (fst (fst (terminate_all_step (rag, result, k) pid))) [pid].
Proof.
  unfold terminate_all_step.
  destruct (rag_get_process rag pid) as [x|] eqn:Hget; cbn [fst].
  - assert (proc_slot_active rag pid) as Hact.
    { apply rag_get_process_Some. by rewrite Hget. }
    destruct (release_all_frame rag pid) as (F1 & F2 & F3 & F4).
    set (rag1 := snd (rag_release_all_resources rag pid)) in *.
    assert (proc_slot_active rag1 pid) as Hact1.
    { unfold proc_slot_active. by rewrite F1. }
    destruct (remove_process_frame rag1 pid Hact1) as (G1 & G2 & G3 & G4).
    set (rag2 := snd (rag_remove_process rag1 pid)) in *.
    split_and!.
    + intros p. unfold proc_slot_active. rewrite list_elem_of_singleton.
      destruct (decide (p = pid)) as [->|Hne].
      * rewrite G1. split; [intros [_ [=]] | tauto].
      * rewrite G2, F1 by done. tauto.
    + intros r. by rewrite G3.
    + intros p r Hp. rewrite list_elem_of_singleton in Hp.
      destruct (G4 p r Hp) as [-> ->]. rewrite F2, F4 by done. done.
  - split_and!; try done. intros p. rewrite list_elem_of_singleton.
    split; [|tauto]. intros Hp. split; [done|]. intros ->.
    apply rag_get_process_Some in Hp as [? Hp]. congruence.
Qed.

Lemma terminate_all_fold_minus ps rag result k :
  graph_minus rag (fst (fst (fold_left terminate_all_step ps (rag, result, k)))) ps.
Proof.
  revert rag result k. induction ps as [|pid ps IH]; intros rag result k.
  - apply graph_minus_nil.
  - cbn [fold_left].
    pose proof (terminate_all_step_minus rag result k pid) as Hstep.
    destruct (terminate_all_step (rag, result, k) pid) as [[rag1 result1] k1].
    cbn [fst] in Hstep.
    apply (graph_minus_app _ rag1 _ [pid] ps Hstep), IH.
Qed.

Lemma recovery_terminate_all_minus rag deadlock result :
  graph_minus rag (snd (fst (recovery_terminate_all rag deadlock result)))
              (deadlocked_processes deadlock).
Proof.
  unfold recovery_terminate_all.
  pose proof (terminate_all_fold_minus (deadlocked_processes deadlock) rag result 0)
    as H.
  destruct (fold_left _ _ _) as [[rag' result'] k]. done.
Qed.

(** Edges of the reduced graph are the edges of the original graph that
    avoid the removed processes. *)
Lemma graph_minus_edge rag rag' ps u v :
  graph_minus rag rag' ps ->
  rag_edge rag' u v <-> rag_edge_avoiding rag ps u v.
Proof.
  intros (A1 & A2 & A3).
  assert (forall n, node_valid rag' n <-> node_valid rag n /\ n ∉ PNode <$> ps)
    as Hval.
  { intros [i t]. unfold node_valid, res_slot_active. cbn [node_type node_id].
    destruct t.
    - rewrite A1. split; intros [H1 H2]; (split; [done|]).
      + intros Hin. apply list_elem_of_fmap in Hin as (q & [= ->] & Hq). done.
      + intros Hin. apply H2, list_elem_of_fmap. by exists i.
    - rewrite A2. split; [|tauto]. intros H. split; [done|].
      intros Hin. by apply list_elem_of_fmap in Hin as (q & [=] & _). }
  assert (forall i, mkNode i NODE_PROCESS ∉ PNode <$> ps -> i ∉ ps) as Hnot.
  { intros i Hi Hin. apply Hi, list_elem_of_fmap. by exists i. }
  unfold rag_edge_avoiding, rag_edge. rewrite !Hval.
  destruct u as [i ti], v as [j tj]. cbn [node_type node_id].
  destruct ti, tj; try tauto.
  - split.
    + intros ((Hu & Hu') & (Hv & Hv') & He).
      destruct (A3 i j (Hnot _ Hu')) as [E _]. rewrite E in He. tauto.
    + intros ((Hu & Hv & He) & Hu' & Hv').
      destruct (A3 i j (Hnot _ Hu')) as [E _]. rewrite E. tauto.
  - split.
    + intros ((Hu & Hu') & (Hv & Hv') & He).
      destruct (A3 j i (Hnot _ Hv')) as [_ E]. rewrite E in He. tauto.
    + intros ((Hu & Hv & He) & Hu' & Hv').
      destruct (A3 j i (Hnot _ Hv')) as [_ E]. rewrite E. tauto.
Qed.

Lemma tc_iff {A} (R R' : relation A) x y :
  (forall a b, R a b <-> R' a b) -> tc R x y <-> tc R' x y.
Proof.
  intros H. split; induction 1 as [a b Hab|a b c Hab _ IH].
  - apply tc_once. by apply H.
  - apply tc_l with b; [by apply H|done].
  - apply tc_once. by apply H.
  - apply tc_l with b; [by apply H|done].
Qed.

(** C4 (amended). After [recovery_terminate_all] on a deadlock result, a
    fresh detection returns, and it reports a deadlock exactly when the
    original graph has a cycle that passes through none of the processes of
    the result's deadlocked-process list.  Hence re-detection reports no
    deadlock when every cycle of the graph passes through a listed
    process, in particular when the detected cycle is the only one. *)
Theorem terminate_all_then_redetect (rag : RAG) (deadlock : DeadlockResult)
    (result : RecoveryResult) :
  let rag' := snd (fst (recovery_terminate_all rag deadlock result)) in
  exists d',
    detect_deadlock rag' = Some d' /\
    (deadlock_detected d' = true <->
     has_cycle (rag_edge_avoiding rag (deadlocked_processes deadlock))) /\
    (~ has_cycle (rag_edge_avoiding rag (deadlocked_processes deadlock)) ->
     deadlock_detected d' = false).
Proof.
  intros rag'.
  pose proof (recovery_terminate_all_minus rag deadlock result) as Hminus.
  fold rag' in Hminus.
  destruct (detect_deadlock_correct rag') as (d' & E & Hd).
  exists d'. split; [done|].
  assert (has_cycle (rag_edge rag')
          <-> has_cycle (rag_edge_avoiding rag (deadlocked_processes deadlock)))
    as Hcyc.
  { unfold has_cycle. split; intros [x Hx]; exists x; revert Hx;
      apply tc_iff; intros a b; by rewrite (graph_minus_edge _ _ _ a b Hminus). }
  split; [by rewrite Hd|].
  intros Hno. destruct (deadlock_detected d') eqn:Hdet; [|done].
  exfalso. apply Hno, Hcyc, Hd. done.
Qed.


(** ** The iterative search over the wait-for matrix *)

Lemma wait_for_scan_spec wf colors current nexts :
  match wait_for_scan wf colors current nexts with
  | ScanCycle next =>
    next ∈ nexts /\ wf current next <> 0 /\ colors next = COLOR_GRAY
  | ScanPush next =>
    next ∈ nexts /\ wf current next <> 0 /\ colors next = COLOR_WHITE
  | ScanDone =>
    forall next, next ∈ nexts -> wf current next <> 0 -> colors next = COLOR_BLACK
  end.
Proof.
  induction nexts as [|x nexts IH]; cbn [wait_for_scan].
  - intros next H. by inversion H.
  - destruct (Z.eqb_spec (wf current x) 0) as [Hz|Hnz].
    + destruct (wait_for_scan wf colors current nexts) as [next|next|].
      * destruct IH as (? & ? & ?). split; [by apply list_elem_of_further|done].
      * destruct IH as (? & ? & ?). split; [by apply list_elem_of_further|done].
      * intros next Hin Hne. apply elem_of_cons in Hin as [->|Hin]; [done|].
        by apply IH.
    + destruct (colors x) eqn:Hc; cbn [color_eqb].
      * split; [apply list_elem_of_here|done].
      * split; [apply list_elem_of_here|done].
      * destruct (wait_for_scan wf colors current nexts) as [next|next|].
        -- destruct IH as (? & ? & ?). split; [by apply list_elem_of_further|done].
        -- destruct IH as (? & ? & ?). split; [by apply list_elem_of_further|done].
        -- intros next Hin Hne. apply elem_of_cons in Hin as [->|Hin]; [done|].
           by apply IH.
Qed.

Lemma stack_chain_reaches_top E top below x :
  stack_chain E (top :: below) -> x ∈ top :: below -> rtc E x top.
Proof.
  revert top. induction below as [|y below IH]; intros top Hc Hx.
  - apply list_elem_of_singleton in Hx as ->. apply rtc_refl.
  - apply elem_of_cons in Hx as [->|Hx]; [apply rtc_refl|].
    destruct Hc as [Hyt Hc]. apply rtc_r with y; [|done]. by apply IH.
Qed.

Lemma wf_black_closed_rtc wf n s u v :
  wf_inv wf n s -> rtc (wait_for_edge wf n) u v ->
  wf_colors s u = COLOR_BLACK -> wf_colors s v = COLOR_BLACK.
Proof.
  intros Hinv. induction 1 as [|x y z Hxy _ IH]; [done|].
  intros Hx. apply IH. by apply (wf_black_closed _ _ _ Hinv x).
Qed.

Lemma color_rank_nonneg c : 0 <= color_rank c <= 2.
Proof. destruct c; simpl; lia. Qed.

Lemma zsum_upper f l b :
  (forall i, i ∈ l -> f i <= b) -> zsum f l <= b * Z.of_nat (length l).
Proof.
  induction l as [|a l IH]; intros H; [unfold zsum; simpl; lia|].
  rewrite zsum_cons. cbn [length].
  pose proof (H a (list_elem_of_here _ _)).
  assert (zsum f l <= b * Z.of_nat (length l)); [|lia].
  apply IH. intros i Hi. apply H. by apply list_elem_of_further.
Qed.

Lemma rank_sum_upd colors n i c :
  0 <= i < n ->
  zsum (fun k => color_rank (upd colors i c k)) (seqZ 0 n)
  = zsum (fun k => color_rank (colors k)) (seqZ 0 n)
    - color_rank (colors i) + color_rank c.
Proof.
  intros Hi.
  rewrite (zsum_point (fun k => color_rank (colors k)) _ (seqZ 0 n) i).
  - by rewrite upd_eq.
  - apply NoDup_seqZ.
  - apply elem_of_seqZ. lia.
  - intros j Hj. by rewrite upd_ne.
Qed.

Lemma rank_sum_nonneg colors n :
  0 <= zsum (fun k => color_rank (colors k)) (seqZ 0 n).
Proof. apply zsum_nonneg. intros i _. apply color_rank_nonneg. Qed.

(** Colouring the top of the stack at the start of a round. *)
Lemma color_top wf n s current below :
  wf_inv wf n s -> wf_stack s = current :: below ->
  let colors1 :=
    if color_eqb (wf_colors s current) COLOR_WHITE
    then upd (wf_colors s) current COLOR_GRAY else wf_colors s in
  colors1 current = COLOR_GRAY /\
  (forall x, x <> current -> colors1 x = wf_colors s x) /\
  (forall x, colors1 x = COLOR_BLACK <-> wf_colors s x = COLOR_BLACK) /\
  (forall x, x ∈ current :: below -> colors1 x = COLOR_GRAY) /\
  (forall x, colors1 x = COLOR_GRAY -> x ∈ current :: below) /\
  zsum (fun k => color_rank (colors1 k)) (seqZ 0 n) = wf_measure n s - 1.
Proof.
  intros Hinv Hstack colors1.
  destruct (wf_stack_top _ _ _ Hinv current below Hstack) as [Hnb Hbelow].
  assert (0 <= current < n) as Hrange.
  { apply (wf_stack_range _ _ _ Hinv). rewrite Hstack. apply list_elem_of_here. }
  unfold wf_measure. rewrite Hstack. subst colors1.
  destruct (wf_colors s current) eqn:Hc; cbn [color_eqb]; [|clear Hnb|done].
  - split_and!.
    + apply upd_eq.
    + intros x Hx. by apply upd_ne.
    + intros x. unfold upd. destruct (Z.eqb_spec x current) as [->|]; [|done].
      rewrite Hc. split; done.
    + intros x Hx. apply elem_of_cons in Hx as [->|Hx]; [apply upd_eq|].
      unfold upd. destruct (Z.eqb_spec x current); [done|]. by apply Hbelow.
    + intros x. unfold upd. destruct (Z.eqb_spec x current) as [->|Hne].
      * intros _. apply list_elem_of_here.
      * intros Hx. rewrite <- Hstack. by apply (wf_gray_stack _ _ _ Hinv).
    + rewrite rank_sum_upd by done. rewrite Hc. simpl. lia.
  - split_and!; try done.
    + intros x Hx. apply elem_of_cons in Hx as [->|Hx]; [done|]. by apply Hbelow.
    + intros x Hx. rewrite <- Hstack. by apply (wf_gray_stack _ _ _ Hinv).
    + lia.
Qed.

Lemma wf_measure_nonneg n s : 0 <= wf_measure n s.
Proof.
  unfold wf_measure. pose proof (rank_sum_nonneg (wf_colors s) n).
  destruct (wf_stack s); [lia|]. destruct (color_eqb _ _); lia.
Qed.

(** Total correctness of one run of the while loop. *)
Lemma wait_for_while_ok wf n fuel :
  forall s,
    wf_inv wf n s -> wf_measure n s < Z.of_nat fuel ->
    exists r,
      wait_for_while fuel wf n s = Some r /\
      match r with
      | inl _ => has_cycle (wait_for_edge wf n)
      | inr s' =>
        wf_inv wf n s' /\ wf_stack s' = [] /\
        (forall x, wf_colors s x <> COLOR_WHITE -> wf_colors s' x <> COLOR_WHITE) /\
        (forall x, x ∈ wf_stack s -> wf_colors s' x = COLOR_BLACK)
      end.
Proof.
  induction fuel as [|fuel IH]; intros s Hinv Hfuel.
  { pose proof (wf_measure_nonneg n s). lia. }
  destruct s as [colors parent stack].
  destruct stack as [|current below].
  { eexists. split; [done|]. split_and!; try done. intros x Hx. by inversion Hx. }
  cbn [wait_for_while wf_stack wf_colors wf_parent].
  destruct (color_top wf n _ current below Hinv eq_refl)
    as (F1 & F2 & F3 & F4 & F5 & F6).
  cbn [wf_colors] in F1, F2, F3, F4, F5, F6.
  set (colors1 := if color_eqb (colors current) COLOR_WHITE
                  then upd colors current COLOR_GRAY else colors) in *.
  assert (0 <= current < n) as Hrange.
  { apply (wf_stack_range _ _ _ Hinv). apply list_elem_of_here. }
  assert (forall x, colors x <> COLOR_WHITE -> colors1 x <> COLOR_WHITE) as Hmono1.
  { intros x Hx. destruct (decide (x = current)) as [->|Hne]; [congruence|].
    by rewrite F2. }
  pose proof (wait_for_scan_spec wf colors1 current (seqZ 0 n)) as Hscan.
  destruct (wait_for_scan wf colors1 current (seqZ 0 n)) as [next|next|].
  - (* a gray successor: cycle *)
    destruct Hscan as (Hin & Hnz & Hgray).
    eexists. split; [done|]. exists next.
    apply tc_rtc_l with current.
    + apply (stack_chain_reaches_top _ current below);
        [apply (wf_chain _ _ _ Hinv)|by apply F5].
    + apply tc_once. split; [done|]. split; [|done].
      apply elem_of_seqZ in Hin. lia.
  - (* a white successor: push it *)
    destruct Hscan as (Hin & Hnz & Hwhite).
    apply elem_of_seqZ in Hin.
    assert (next ∉ current :: below) as Hfresh.
    { intros H. apply F4 in H. congruence. }
    set (s1 := mkWF colors1 (upd parent next current) (next :: current :: below)).
    assert (wf_inv wf n s1) as Hinv1.
    { split; cbn [s1 wf_stack wf_colors].
      - intros x Hx. apply elem_of_cons in Hx as [->|Hx]; [lia|].
        by apply (wf_stack_range _ _ _ Hinv).
      - apply NoDup_cons. split; [done|]. apply (wf_stack_nodup _ _ _ Hinv).
      - intros top below' [= <- <-]. split; [congruence|done].
      - intros x Hx. apply list_elem_of_further. by apply F5.
      - split; [|apply (wf_chain _ _ _ Hinv)].
        split; [done|]. split; [lia|done].
      - intros u v Hu Huv. apply F3. apply F3 in Hu.
        by apply (wf_black_closed _ _ _ Hinv u v).
      - intros u Hu. apply F3 in Hu. by apply (wf_black_acyclic _ _ _ Hinv). }
    destruct (IH s1 Hinv1) as (r & E & Hpost).
    { unfold wf_measure. cbn [s1 wf_stack wf_colors]. rewrite F6, Hwhite.
      cbn [color_eqb]. lia. }
    exists r. split; [done|]. destruct r as [cyc|s']; [done|].
    destruct Hpost as (Hinv' & Hst' & Hmono' & Hblack').
    split_and!; [done|done| |].
    + intros x Hx. by apply Hmono', Hmono1.
    + intros x Hx. apply Hblack'. by apply list_elem_of_further.
  - (* no successor left: finish the node *)
    set (colors2 := upd colors1 current COLOR_BLACK).
    set (s1 := mkWF colors2 parent below).
    pose proof (wf_stack_nodup _ _ _ Hinv) as Hnd. cbn [wf_stack] in Hnd.
    apply NoDup_cons in Hnd as [Hcur Hnd].
    assert (forall x, x <> current -> colors2 x = colors1 x) as G2.
    { intros x Hx. by apply upd_ne. }
    assert (colors2 current = COLOR_BLACK) as G1 by apply upd_eq.
    assert (colors current <> COLOR_BLACK) as Hnb.
    { by apply (wf_stack_top _ _ _ Hinv current below). }
    assert (forall v, wait_for_edge wf n current v -> colors1 v = COLOR_BLACK)
      as Hsucc.
    { intros v (_ & Hv & Hnz). apply Hscan; [|done]. apply elem_of_seqZ. lia. }
    assert (wf_inv wf n s1) as Hinv1.
    { split; cbn [s1 wf_stack wf_colors].
      - intros x Hx. apply (wf_stack_range _ _ _ Hinv).
        by apply list_elem_of_further.
      - done.
      - intros top below' ->.
        apply NoDup_cons in Hnd as [Htop _].
        assert (top <> current) as Hne.
        { intros ->. apply Hcur, list_elem_of_here. }
        split.
        + rewrite G2 by done. rewrite F4; [done|].
          apply list_elem_of_further, list_elem_of_here.
        + intros x Hx. rewrite G2.
          * apply F4. by do 2 apply list_elem_of_further.
          * intros ->. apply Hcur. by apply list_elem_of_further.
      - intros x Hx.
        assert (x <> current) as Hne by (intros ->; congruence).
        rewrite G2 in Hx by done. apply F5 in Hx.
        by apply elem_of_cons in Hx as [->|Hx].
      - pose proof (wf_chain _ _ _ Hinv) as Hc. cbn [wf_stack] in Hc.
        destruct below; [done|]. apply Hc.
      - intros u v Hu Huv.
        destruct (decide (v = current)) as [->|Hv]; [done|].
        rewrite G2 by done.
        destruct (decide (u = current)) as [->|Hun]; [by apply Hsucc|].
        rewrite G2 in Hu by done. apply F3. apply F3 in Hu.
        by apply (wf_black_closed _ _ _ Hinv u v).
      - intros u Hu Hcyc.
        destruct (decide (u = current)) as [->|Hun].
        + apply tc_first_step in Hcyc as (v & Hcv & Hvc).
          apply Hsucc, F3 in Hcv.
          by pose proof (wf_black_closed_rtc _ _ _ v current Hinv Hvc Hcv).
        + rewrite G2 in Hu by done. apply F3 in Hu.
          by apply (wf_black_acyclic _ _ _ Hinv u). }
    destruct (IH s1 Hinv1) as (r & E & Hpost).
    { unfold wf_measure. cbn [s1 wf_stack wf_colors].
      unfold colors2. rewrite rank_sum_upd by done. rewrite F6, F1.
      cbn [color_rank]. destruct below; [lia|].
      match goal with |- context [if ?c then 0 else 1] => destruct c end; lia. }
    exists r. split; [done|]. destruct r as [cyc|s']; [done|].
    destruct Hpost as (Hinv' & Hst' & Hmono' & Hblack').
    assert (forall x, wf_colors s1 x <> COLOR_WHITE -> wf_colors s' x = COLOR_BLACK)
      as Hfinal.
    { intros x Hx. apply Hmono' in Hx.
      destruct (wf_colors s' x) eqn:Hc; [done| |done].
      apply (wf_gray_stack _ _ _ Hinv') in Hc. rewrite Hst' in Hc. by inversion Hc. }
    split_and!; [done|done| |].
    + intros x Hx. apply Hmono'. cbn [s1 wf_colors].
      destruct (decide (x = current)) as [->|Hne]; [congruence|].
      rewrite G2 by done. by apply Hmono1.
    + intros x Hx. apply elem_of_cons in Hx as [->|Hx]; [|by apply Hblack'].
      apply Hfinal. cbn [s1 wf_colors]. congruence.
Qed.

Lemma wf_inv_no_gray wf n colors parent x :
  wf_inv wf n (mkWF colors parent []) -> colors x <> COLOR_WHITE ->
  colors x = COLOR_BLACK.
Proof.
  intros Hinv Hx. destruct (colors x) eqn:Hc; [done| |done].
  apply (wf_gray_stack _ _ _ Hinv) in Hc. by inversion Hc.
Qed.

Lemma wf_inv_start wf n colors parent start :
  wf_inv wf n (mkWF colors parent []) -> 0 <= start < n ->
  colors start = COLOR_WHITE ->
  wf_inv wf n (mkWF colors parent [start]).
Proof.
  intros Hinv Hrange Hwhite. split; cbn [wf_stack wf_colors].
  - intros x Hx. by apply list_elem_of_singleton in Hx as ->.
  - apply NoDup_singleton.
  - intros top below [= <- <-]. split; [congruence|]. intros x Hx. by inversion Hx.
  - intros x Hx. apply (wf_gray_stack _ _ _ Hinv) in Hx. by inversion Hx.
  - done.
  - apply (wf_black_closed _ _ _ Hinv).
  - apply (wf_black_acyclic _ _ _ Hinv).
Qed.

Lemma wait_for_starts_ok wf n starts :
  forall colors parent,
    wf_inv wf n (mkWF colors parent []) ->
    (forall x, x ∈ starts -> 0 <= x < n) ->
    exists b cyc,
      wait_for_starts wf n starts colors parent = Some (b, cyc) /\
      if b then has_cycle (wait_for_edge wf n)
      else exists colors' parent',
          wf_inv wf n (mkWF colors' parent' []) /\
          (forall x, colors x <> COLOR_WHITE -> colors' x <> COLOR_WHITE) /\
          (forall x, x ∈ starts -> colors' x = COLOR_BLACK).
Proof.
  induction starts as [|start rest IH]; intros colors parent Hinv Hrange;
    cbn [wait_for_starts].
  - exists false, []. split; [done|]. exists colors, parent.
    split_and!; [done|done|]. intros x Hx. by inversion Hx.
  - assert (forall x, x ∈ rest -> 0 <= x < n) as Hrest.
    { intros x Hx. apply Hrange. by apply list_elem_of_further. }
    destruct (colors start) eqn:Hc; cbn [color_eqb negb].
    + (* white: run the loop from this start *)
      assert (wf_inv wf n (mkWF colors parent [start])) as Hinv0.
      { apply wf_inv_start; [done| |done]. apply Hrange, list_elem_of_here. }
      destruct (wait_for_while_ok wf n (wait_for_fuel n) _ Hinv0) as (r & E & Hpost).
      { unfold wf_measure, wait_for_fuel. cbn [wf_stack wf_colors].
        rewrite Hc. cbn [color_eqb].
        pose proof (zsum_upper (fun i => color_rank (colors i)) (seqZ 0 n) 2) as Hup.
        rewrite length_seqZ in Hup.
        assert (zsum (fun i => color_rank (colors i)) (seqZ 0 n)
                <= 2 * Z.of_nat (Z.to_nat n)); [|lia].
        apply Hup. intros i _. apply color_rank_nonneg. }
      rewrite E. destruct r as [cyc|s'].
      { exists true, cyc. done. }
      destruct Hpost as (Hinv' & Hst' & Hmono' & Hblack').
      destruct s' as [colors1 parent1 stack1]. cbn [wf_stack wf_colors] in *.
      subst stack1.
      destruct (IH colors1 parent1 Hinv' Hrest) as (b & cyc & E' & Hres).
      exists b, cyc. split; [done|]. destruct b; [done|].
      destruct Hres as (colors' & parent' & Hinv'' & Hmono'' & Hblack'').
      exists colors', parent'. split_and!; [done| |].
      * intros x Hx. by apply Hmono'', Hmono'.
      * intros x Hx. apply elem_of_cons in Hx as [->|Hx]; [|by apply Hblack''].
        apply (wf_inv_no_gray wf n colors' parent'); [done|].
        apply Hmono''. rewrite Hblack'; [done|apply list_elem_of_here].
    + (* gray cannot happen between two starts; the start is skipped *)
      destruct (IH colors parent Hinv Hrest) as (b & cyc & E' & Hres).
      exists b, cyc. split; [done|]. destruct b; [done|].
      destruct Hres as (colors' & parent' & Hinv'' & Hmono'' & Hblack'').
      exists colors', parent'. split_and!; [done|done|].
      intros x Hx. apply elem_of_cons in Hx as [->|Hx]; [|by apply Hblack''].
      apply (wf_inv_no_gray wf n colors' parent'); [done|].
      apply Hmono''. congruence.
    + destruct (IH colors parent Hinv Hrest) as (b & cyc & E' & Hres).
      exists b, cyc. split; [done|]. destruct b; [done|].
      destruct Hres as (colors' & parent' & Hinv'' & Hmono'' & Hblack'').
      exists colors', parent'. split_and!; [done|done|].
      intros x Hx. apply elem_of_cons in Hx as [->|Hx]; [|by apply Hblack''].
      apply (wf_inv_no_gray wf n colors' parent'); [done|].
      apply Hmono''. congruence.
Qed.

(** The wait-for detector returns on every matrix and every process count,
    and it reports a cycle exactly when the wait-for graph has one. *)
Lemma detect_cycle_in_wait_for_correct wf n :
  exists b cyc,
    detect_cycle_in_wait_for wf n = Some (b, cyc) /\
    (b = true <-> has_cycle (wait_for_edge wf n)).
Proof.
  unfold detect_cycle_in_wait_for.
  assert (wf_inv wf n (mkWF (fun _ => COLOR_WHITE) (fun _ => -1) [])) as Hinv.
  { split; cbn [wf_stack wf_colors]; try done.
    - intros x Hx. by inversion Hx.
    - apply NoDup_nil_2. }
  destruct (wait_for_starts_ok wf n (seqZ 0 n) _ _ Hinv) as (b & cyc & E & Hres).
  { intros x Hx. apply elem_of_seqZ in Hx. lia. }
  exists b, cyc. split; [done|]. destruct b; [done|].
  destruct Hres as (colors' & parent' & Hinv' & _ & Hblack).
  split; [done|]. intros [x Hx]. exfalso.
  apply (wf_black_acyclic _ _ _ Hinv' x); [|done].
  apply Hblack. apply tc_first_step in Hx as (y & (Hr & _) & _).
  apply elem_of_seqZ. lia.
Qed.


(** ** The wait-for projection *)

(** A loop whose every round either leaves an entry or sets it to one. *)
Lemma fold_set_one {X} (step : (Z -> Z -> Z) -> X -> Z -> Z -> Z)
    (c : X -> Z -> Z -> bool) l wf a b :
  (forall wf x, step wf x a b = if c x a b then 1 else wf a b) ->
  fold_left step l wf a b = if existsb (fun x => c x a b) l then 1 else wf a b.
Proof.
  intros Hstep. revert wf. induction l as [|x l IH]; intros wf; [done|].
  cbn [fold_left existsb]. rewrite IH, Hstep.
  destruct (c x a b); cbn [orb]; [by destruct (existsb _ _)|done].
Qed.

Lemma build_wait_for_graph_spec rag a b :
  build_wait_for_graph rag a b
  = if existsb
         (fun p1 =>
            proc_active (processes rag p1)
            && existsb
                 (fun r =>
                    (request_matrix rag p1 r >? 0)
                    && existsb
                         (fun p2 =>
                            (negb (p1 =? p2) && (assignment_matrix rag p2 r >? 0))
                            && ((a =? p1) && (b =? p2)))
                         proc_ids)
                 res_ids)
         proc_ids
    then 1 else 0.
Proof.
  unfold build_wait_for_graph.
  apply (fold_set_one _
           (fun p1 a b =>
              proc_active (processes rag p1)
              && existsb
                   (fun r =>
                      (request_matrix rag p1 r >? 0)
                      && existsb
                           (fun p2 =>
                              (negb (p1 =? p2) && (assignment_matrix rag p2 r >? 0))
                              && ((a =? p1) && (b =? p2)))
                           proc_ids)
                   res_ids)).
  intros wf p1. destruct (proc_active (processes rag p1)); cbn [negb andb]; [|done].
  apply (fold_set_one _
           (fun r a b =>
              (request_matrix rag p1 r >? 0)
              && existsb
                   (fun p2 =>
                      (negb (p1 =? p2) && (assignment_matrix rag p2 r >? 0))
                      && ((a =? p1) && (b =? p2)))
                   proc_ids)).
  intros wf1 r. destruct (request_matrix rag p1 r >? 0); cbn [andb]; [|done].
  apply (fold_set_one _
           (fun p2 a b =>
              (negb (p1 =? p2) && (assignment_matrix rag p2 r >? 0))
              && ((a =? p1) && (b =? p2)))).
  intros wf2 p2. destruct (negb (p1 =? p2) && _); cbn [andb]; [|done].
  done.
Qed.

(** Edges of the wait-for graph built from a store. *)
Lemma wait_for_edge_build rag p q :
  wait_for_edge (build_wait_for_graph rag) MAX_PROCESSES p q <->
  proc_slot_active rag p /\ (0 <= q < MAX_PROCESSES) /\ p <> q /\
  exists r, (0 <= r < MAX_RESOURCES) /\
            0 < request_matrix rag p r /\ 0 < assignment_matrix rag q r.
Proof.
  unfold wait_for_edge. rewrite build_wait_for_graph_spec.
  destruct (existsb _ proc_ids) eqn:Hex.
  - apply existsb_exists in Hex as (p1 & Hp1 & Hex).
    apply andb_true_iff in Hex as [Hact Hex].
    apply existsb_exists in Hex as (r & Hr & Hex).
    apply andb_true_iff in Hex as [Hreq Hex].
    apply existsb_exists in Hex as (p2 & Hp2 & Hex).
    apply andb_true_iff in Hex as [Hex Hpq].
    apply andb_true_iff in Hex as [Hne Hasg].
    apply andb_true_iff in Hpq as [Hp Hq].
    apply Z.eqb_eq in Hp as <-. apply Z.eqb_eq in Hq as <-.
    apply negb_true_iff, Z.eqb_neq in Hne.
    apply Z.gtb_lt in Hreq. apply Z.gtb_lt in Hasg.
    apply list_elem_of_In, elem_of_proc_ids in Hp1.
    apply list_elem_of_In, elem_of_proc_ids in Hp2.
    apply list_elem_of_In, elem_of_res_ids in Hr.
    split; [|done]. intros _. split; [done|]. split; [done|]. split; [done|].
    by exists r.
  - split; [by intros (_ & _ & ?)|].
    intros ((Hp & Hact) & Hq & Hne & r & Hr & Hreq & Hasg). exfalso.
    apply not_true_iff_false in Hex. apply Hex.
    apply existsb_exists. exists p. split.
    { by apply list_elem_of_In, elem_of_proc_ids. }
    rewrite Hact. cbn [andb].
    apply existsb_exists. exists r. split.
    { by apply list_elem_of_In, elem_of_res_ids. }
    rewrite (proj2 (Z.gtb_lt _ _) Hreq). cbn [andb].
    apply existsb_exists. exists q. split.
    { by apply list_elem_of_In, elem_of_proc_ids. }
    rewrite (proj2 (Z.gtb_lt _ _) Hasg), !Z.eqb_refl.
    apply Z.eqb_neq in Hne. rewrite Hne. done.
Qed.

(** Two steps of the bipartite graph from a process to a process. *)
Lemma two_steps_wait_for rag p q :
  store_inv rag ->
  (exists r, rag_edge rag (PNode p) (RNode r) /\ rag_edge rag (RNode r) (PNode q)) <->
  proc_slot_active rag p /\ (0 <= q < MAX_PROCESSES) /\
  exists r, (0 <= r < MAX_RESOURCES) /\
            0 < request_matrix rag p r /\ 0 < assignment_matrix rag q r.
Proof.
  intros Hinv. unfold rag_edge, node_valid. cbn [PNode RNode node_type node_id].
  split.
  - intros (r & (Hp & Hr & Hreq) & (_ & Hq & Hasg)).
    split; [done|]. split; [apply Hq|]. exists r. split; [apply Hr|done].
  - intros (Hp & Hq & r & Hr & Hreq & Hasg). exists r.
    destruct (inv_request_active _ Hinv p r Hreq) as [_ Hra].
    destruct (inv_assign_active _ Hinv q r Hasg) as [Hqa _].
    done.
Qed.

(** Every walk of the bipartite graph between two processes is a walk of
    two-step moves; each move is a wait-for edge unless it returns to the
    process it left, which then requests a resource it holds. *)
Lemma process_walk_projects rag u v :
  store_inv rag ->
  tc (rag_edge rag) u v ->
  forall q, v = PNode q ->
    (exists p r, 0 < request_matrix rag p r /\ 0 < assignment_matrix rag p r) \/
    match node_type u with
    | NODE_PROCESS =>
      tc (wait_for_edge (build_wait_for_graph rag) MAX_PROCESSES) (node_id u) q
    | NODE_RESOURCE =>
      exists p', rag_edge rag u (PNode p') /\
                 rtc (wait_for_edge (build_wait_for_graph rag) MAX_PROCESSES) p' q
    end.
Proof.
  intros Hinv. induction 1 as [u v Huv|u w v Huw Hwv IH]; intros q ->.
  - right. destruct u as [i t]. destruct t.
    + by destruct Huv as (_ & _ & ?).
    + exists q. split; [done|]. apply rtc_refl.
  - destruct (IH q eq_refl) as [Hself|Hrest]; [by left|].
    destruct u as [i ti], w as [j tj].
    destruct ti, tj; cbn [node_type node_id] in *;
      try (by destruct Huw as (_ & _ & ?)).
    + (* process i to resource j, then on to p' *)
      destruct Hrest as (p' & Hjp & Hrest).
      destruct (decide (i = p')) as [<-|Hne].
      * left. exists i, j. split; [apply Huw|apply Hjp].
      * right. apply tc_rtc_r with p'; [|done]. apply tc_once.
        apply wait_for_edge_build.
        destruct (proj1 (two_steps_wait_for rag i p' Hinv)) as (Hi & Hp' & Hr).
        { exists j. done. }
        done.
    + (* resource i to process j *)
      right. exists j. split; [done|]. by apply tc_rtc.
Qed.

Lemma wait_for_walk_lifts rag p q :
  store_inv rag ->
  tc (wait_for_edge (build_wait_for_graph rag) MAX_PROCESSES) p q ->
  tc (rag_edge rag) (PNode p) (PNode q).
Proof.
  intros Hinv. induction 1 as [p q Hpq|p w q Hpw _ IH].
  - apply wait_for_edge_build in Hpq as (Hp & Hq & _ & Hr).
    destruct (proj2 (two_steps_wait_for rag p q Hinv)) as (r & H1 & H2); [done|].
    apply tc_l with (RNode r); [done|]. by apply tc_once.
  - apply wait_for_edge_build in Hpw as (Hp & Hq & _ & Hr).
    destruct (proj2 (two_steps_wait_for rag p w Hinv)) as (r & H1 & H2); [done|].
    apply tc_l with (RNode r); [done|]. by apply tc_l with (PNode w).
Qed.

(** Cycles of the two graphs. *)
Lemma cycle_projection rag :
  store_inv rag ->
  has_cycle (rag_edge rag) <->
  has_cycle (wait_for_edge (build_wait_for_graph rag) MAX_PROCESSES) \/
  exists p r, 0 < request_matrix rag p r /\ 0 < assignment_matrix rag p r.
Proof.
  intros Hinv. split.
  - intros [x Hx].
    apply cycle_has_requesting_process in Hx as (p & Hp & _ & _).
    destruct (process_walk_projects rag _ _ Hinv Hp p eq_refl) as [Hself|Hwf].
    + by right.
    + left. by exists p.
  - intros [[p Hp]|(p & r & Hreq & Hasg)].
    + exists (PNode p). by apply wait_for_walk_lifts.
    + exists (PNode p).
      destruct (inv_request_active _ Hinv p r Hreq) as [Hpa Hra].
      apply tc_l with (RNode r); [|apply tc_once]; done.
Qed.

Lemma no_self_wait_iff rag :
  no_self_wait rag <->
  ~ exists p r, 0 < request_matrix rag p r /\ 0 < assignment_matrix rag p r.
Proof.
  unfold no_self_wait. split.
  - intros H (p & r & Hreq & Hasg). specialize (H p r Hreq). lia.
  - intros H p r Hreq.
    destruct (Z_lt_le_dec 0 (assignment_matrix rag p r)); [|done].
    exfalso. apply H. by exists p, r.
Qed.

(** C3 (amended). On a store that satisfies the store invariant (every
    store reached through the public operations does), both detectors
    return, and the bipartite detector reports a deadlock exactly when the
    wait-for detector, run on the wait-for graph over all process slots,
    reports a cycle or some process requests a resource of which it holds an
    instance.  The two detectors therefore agree on every such store in
    which no process requests a resource it holds. *)
Theorem detectors_agree_without_self_wait (rag : RAG) :
  store_inv rag ->
  exists d b cyc,
    detect_deadlock rag = Some d /\
    detect_cycle_in_wait_for (build_wait_for_graph rag) MAX_PROCESSES
    = Some (b, cyc) /\
    (deadlock_detected d = true <->
     b = true \/
     exists p r, 0 < request_matrix rag p r /\ 0 < assignment_matrix rag p r) /\
    (no_self_wait rag -> (deadlock_detected d = true <-> b = true)).
Proof.
  intros Hinv.
  destruct (detect_deadlock_correct rag) as (d & Ed & Hd).
  destruct (detect_cycle_in_wait_for_correct (build_wait_for_graph rag)
                                             MAX_PROCESSES)
    as (b & cyc & Eb & Hb).
  exists d, b, cyc. split; [done|]. split; [done|].
  pose proof (cycle_projection rag Hinv) as Hproj.
  split.
  - rewrite Hd, Hproj, Hb. done.
  - intros Hno. apply no_self_wait_iff in Hno.
    rewrite Hd, Hproj, Hb. tauto.
Qed.

(** The same statement for the stores the public operations reach. *)
Lemma detectors_agree_on_reached_stores (ops : list StoreOp) :
  no_self_wait (run_ops ops) ->
  exists d b cyc,
    detect_deadlock (run_ops ops) = Some d /\
    detect_cycle_in_wait_for (build_wait_for_graph (run_ops ops)) MAX_PROCESSES
    = Some (b, cyc) /\
    (deadlock_detected d = true <-> b = true).
Proof.
  intros Hno.
  destruct (detect_deadlock_correct (run_ops ops)) as (d & Ed & Hd).
  destruct (detect_cycle_in_wait_for_correct (build_wait_for_graph (run_ops ops))
                                             MAX_PROCESSES)
    as (b & cyc & Eb & Hb).
  exists d, b, cyc. split; [done|]. split; [done|].
  pose proof (cycle_projection _ (store_inv_run_ops ops)) as Hproj.
  apply no_self_wait_iff in Hno. rewrite Hd, Hproj, Hb. tauto.
Qed.

Lemma detectors_agree_without_self_wait_witness :
  let rag := run_ops [OpAddProcess (Some "Process_1"%string) 50;
                      OpAddProcess (Some "Process_2"%string) 50;
                      OpAddResource (Some "Resource_A"%string) 1;
                      OpAddResource (Some "Resource_B"%string) 1;
                      OpAllocate 0 0; OpAllocate 1 1;
                      OpRequest 0 1; OpRequest 1 0] in
  exists d b cyc,
    detect_deadlock rag = Some d /\
    detect_cycle_in_wait_for (build_wait_for_graph rag) MAX_PROCESSES
    = Some (b, cyc) /\
    (deadlock_detected d = true <->
     b = true \/
     exists p r, 0 < request_matrix rag p r /\ 0 < assignment_matrix rag p r) /\
    (no_self_wait rag -> (deadlock_detected d = true <-> b = true)).
Proof.
  intros rag.
  apply (detectors_agree_without_self_wait rag), store_inv_run_ops.
Defined.

(** The two-process deadlock of the test suite has no cycle that avoids
    both of its processes. *)
Lemma simple_deadlock_single_cycle :
  let rag := run_ops [OpAddProcess (Some "Process_1"%string) 50;
                      OpAddProcess (Some "Process_2"%string) 50;
                      OpAddResource (Some "Resource_A"%string) 1;
                      OpAddResource (Some "Resource_B"%string) 1;
                      OpAllocate 0 0; OpAllocate 1 1;
                      OpRequest 0 1; OpRequest 1 0] in
  ~ has_cycle (rag_edge_avoiding rag [0; 1]).
Proof.
  intros rag [x Hx].
  assert (forallb (fun p => negb (proc_active (processes rag p))
                            || (p =? 0) || (p =? 1)) proc_ids = true) as Hall.
  { vm_compute. reflexivity. }
  clearbody rag.
  assert (forall p, proc_slot_active rag p -> PNode p ∈ PNode <$> [0; 1]) as Hp.
  { intros p [Hr Ha]. rewrite forallb_forall in Hall.
    assert (In p proc_ids) as Hin by (by apply list_elem_of_In, elem_of_proc_ids).
    specialize (Hall p Hin). rewrite Ha in Hall. cbn [negb orb] in Hall.
    apply list_elem_of_fmap. exists p. split; [done|].
    destruct (Z.eqb_spec p 0) as [E0|N0].
    { rewrite E0. apply list_elem_of_here. }
    destruct (Z.eqb_spec p 1) as [E1|N1].
    { rewrite E1. apply list_elem_of_further, list_elem_of_here. }
    discriminate Hall. }
  apply tc_first_step in Hx as (y & ((Hu & Hv & He) & Hxn & Hyn) & _).
  destruct x as [i ti], y as [j tj]. unfold node_valid in Hu, Hv.
  cbn [node_type node_id] in *. destruct ti, tj.
  - destruct He.
  - apply Hxn, Hp, Hu.
  - apply Hyn, Hp, Hv.
  - destruct He.
Qed.

Lemma terminate_all_then_redetect_witness :
  let rag := run_ops [OpAddProcess (Some "Process_1"%string) 50;
                      OpAddProcess (Some "Process_2"%string) 50;
                      OpAddResource (Some "Resource_A"%string) 1;
                      OpAddResource (Some "Resource_B"%string) 1;
                      OpAllocate 0 0; OpAllocate 1 1;
                      OpRequest 0 1; OpRequest 1 0] in
  let deadlock := mkDeadlockResult true [] [0; 1] [0; 1] in
  let rag' :=
    snd (fst (recovery_terminate_all rag deadlock recovery_result_init)) in
  exists d', detect_deadlock rag' = Some d' /\ deadlock_detected d' = false.
Proof.
  intros rag deadlock rag'.
  destruct (terminate_all_then_redetect rag deadlock recovery_result_init)
    as (d' & E & _ & Hno).
  exists d'. split; [exact E|]. apply Hno. apply simple_deadlock_single_cycle.
Defined.


(** ** Slot allocation *)

Lemma find_split {A} (f : A -> bool) l s :
  find f l = Some s ->
  exists l1 l2, l = l1 ++ s :: l2 /\ f s = true /\ forall y, y ∈ l1 -> f y = false.
Proof.
  induction l as [|x l IH]; simpl; [done|].
  destruct (f x) eqn:Hx.
  - intros [= ->]. exists [], l. split_and!; [done|done|].
    intros y Hy. by inversion Hy.
  - intros Hf. destruct (IH Hf) as (l1 & l2 & -> & Hs & Hl1).
    exists (x :: l1), l2. split_and!; [done|done|].
    intros y Hy. apply elem_of_cons in Hy as [->|Hy]; [done|by apply Hl1].
Qed.

Lemma find_none_iff {A} (f : A -> bool) l :
  find f l = None <-> forall y, y ∈ l -> f y = false.
Proof.
  induction l as [|x l IH]; simpl.
  - split; [|done]. intros _ y Hy. by inversion Hy.
  - destruct (f x) eqn:Hx.
    + split; [done|]. intros H. rewrite H in Hx; [done|apply list_elem_of_here].
    + rewrite IH. split.
      * intros H y Hy. apply elem_of_cons in Hy as [->|Hy]; [done|by apply H].
      * intros H y Hy. apply H. by apply list_elem_of_further.
Qed.

(** The first-fit scan over a slot array returns the least free index. *)
Lemma find_least_slot (f : Z -> bool) n s :
  find f (seqZ 0 n) = Some s ->
  (0 <= s < n) /\ f s = true /\ forall i, 0 <= i < s -> f i = false.
Proof.
  intros Hf. destruct (find_split f _ s Hf) as (l1 & l2 & Hl & Hs & Hl1).
  assert (s ∈ seqZ 0 n) as Hin.
  { rewrite Hl. apply elem_of_app. right. apply list_elem_of_here. }
  apply elem_of_seqZ in Hin. split; [lia|]. split; [done|].
  intros i Hi. apply Hl1.
  assert (i ∈ seqZ 0 n) as Hi' by (apply elem_of_seqZ; lia).
  rewrite Hl in Hi'. apply elem_of_app in Hi' as [?|Hi']; [done|].
  apply elem_of_cons in Hi' as [->|Hi']; [lia|].
  pose proof (StronglySorted_seqZ 0 n) as Hs'. rewrite Hl in Hs'.
  apply StronglySorted_app_1_r in Hs'.
  apply StronglySorted_inv in Hs' as [_ Hall].
  rewrite Forall_forall in Hall. specialize (Hall i Hi'). lia.
Qed.

Lemma add_process_effect (rag : RAG) (nm : string) (priority : Z) :
  let id := fst (rag_add_process rag (Some nm) priority) in
  let rag' := snd (rag_add_process rag (Some nm) priority) in
  (id = -1 <->
   forall i, 0 <= i < MAX_PROCESSES -> proc_active (processes rag i) = true) /\
  (id <> -1 ->
   (0 <= id < MAX_PROCESSES) /\
   proc_active (processes rag id) = false /\
   (forall i, 0 <= i < id -> proc_active (processes rag i) = true) /\
   processes rag' id = mkProcess id (copy_name nm) PROCESS_RUNNING priority true /\
   (forall q, q <> id -> processes rag' q = processes rag q) /\
   (forall r, 0 <= r < MAX_RESOURCES ->
      request_matrix rag' id r = 0 /\ assignment_matrix rag' id r = 0) /\
   (forall q r, q <> id ->
      request_matrix rag' q r = request_matrix rag q r /\
      assignment_matrix rag' q r = assignment_matrix rag q r) /\
   resources rag' = resources rag /\
   process_count rag' = process_count rag + 1 /\
   resource_count rag' = resource_count rag).
Proof.
  unfold rag_add_process.
  destruct (find _ proc_ids) as [slot|] eqn:Hf; cbn [fst snd].
  - apply find_least_slot in Hf as (Hs & Hfree & Hleast).
    apply negb_true_iff in Hfree. split.
    + split; [lia|]. intros H. rewrite H in Hfree; done.
    + intros _. rsimpl.
      split; [done|]. split; [done|]. split.
      { intros i Hi. apply negb_false_iff, Hleast, Hi. }
      split; [by rewrite upd_eq|]. split.
      { intros q Hq. by rewrite upd_ne. }
      split.
      { intros r Hr. rewrite !clear_row_spec.
        rewrite !bool_decide_eq_true_2; done. }
      split; [|done].
      intros q r Hq.
      split; (rewrite clear_row_spec, bool_decide_eq_false_2; [done|]);
        intros [? _]; done.
  - split; [|done]. split; [|done]. intros _ i Hi.
    rewrite find_none_iff in Hf. apply negb_false_iff, Hf, elem_of_proc_ids, Hi.
Qed.

(** X1. [rag_add_process] with a name fails (returns -1) exactly when all 64
    process slots are active; otherwise it returns the least inactive slot
    index, writes there a Running, active record with the given priority and
    the truncated name, clears the two matrix rows of that slot, adds one to
    the process counter and leaves every other slot, row and resource as it
    was. *)
Theorem add_process_takes_lowest_free_slot (rag : RAG) (nm : string) (priority : Z) :
  let id := fst (rag_add_process rag (Some nm) priority) in
  let rag' := snd (rag_add_process rag (Some nm) priority) in
  (id = -1 <->
   forall i, 0 <= i < MAX_PROCESSES -> proc_active (processes rag i) = true) /\
  (id <> -1 ->
   (0 <= id < MAX_PROCESSES) /\
   proc_active (processes rag id) = false /\
   (forall i, 0 <= i < id -> proc_active (processes rag i) = true) /\
   processes rag' id = mkProcess id (copy_name nm) PROCESS_RUNNING priority true /\
   (forall q, q <> id -> processes rag' q = processes rag q) /\
   (forall r, 0 <= r < MAX_RESOURCES ->
      request_matrix rag' id r = 0 /\ assignment_matrix rag' id r = 0) /\
   (forall q r, q <> id ->
      request_matrix rag' q r = request_matrix rag q r /\
      assignment_matrix rag' q r = assignment_matrix rag q r) /\
   resources rag' = resources rag /\
   process_count rag' = process_count rag + 1 /\
   resource_count rag' = resource_count rag).
Proof. exact (add_process_effect rag nm priority). Qed.

Lemma add_resource_effect (rag : RAG) (nm : string) (instances : Z) :
  let id := fst (rag_add_resource rag (Some nm) instances) in
  let rag' := snd (rag_add_resource rag (Some nm) instances) in
  (id = -1 <->
   instances <= 0 \/
   forall i, 0 <= i < MAX_RESOURCES -> res_active (resources rag i) = true) /\
  (id <> -1 ->
   (0 <= id < MAX_RESOURCES) /\
   res_active (resources rag id) = false /\
   (forall i, 0 <= i < id -> res_active (resources rag i) = true) /\
   resources rag' id = mkResource id (copy_name nm) instances instances true /\
   (forall q, q <> id -> resources rag' q = resources rag q) /\
   (forall p, 0 <= p < MAX_PROCESSES ->
      request_matrix rag' p id = 0 /\ assignment_matrix rag' p id = 0) /\
   (forall p q, q <> id ->
      request_matrix rag' p q = request_matrix rag p q /\
      assignment_matrix rag' p q = assignment_matrix rag p q) /\
   processes rag' = processes rag /\
   process_count rag' = process_count rag /\
   resource_count rag' = resource_count rag + 1).
Proof.
  unfold rag_add_resource.
  destruct (Z.leb_spec instances 0) as [Hle|Hpos]; cbn [fst snd].
  { split; [|done]. split; [tauto|done]. }
  destruct (find _ res_ids) as [slot|] eqn:Hf; cbn [fst snd].
  - apply find_least_slot in Hf as (Hs & Hfree & Hleast).
    apply negb_true_iff in Hfree. split.
    + split; [lia|]. intros [?|H]; [lia|]. rewrite H in Hfree; done.
    + intros _. rsimpl.
      split; [done|]. split; [done|]. split.
      { intros i Hi. apply negb_false_iff, Hleast, Hi. }
      split; [by rewrite upd_eq|]. split.
      { intros q Hq. by rewrite upd_ne. }
      split.
      { intros p Hp. rewrite !clear_col_spec.
        rewrite !bool_decide_eq_true_2; done. }
      split; [|done].
      intros p q Hq.
      split; (rewrite clear_col_spec, bool_decide_eq_false_2; [done|]);
        intros [? _]; done.
  - split; [|done]. split; [|done]. intros _. right. intros i Hi.
    rewrite find_none_iff in Hf. apply negb_false_iff, Hf, elem_of_res_ids, Hi.
Qed.

(** X2. [rag_add_resource] with a name fails exactly when the instance
    count is not positive or all 64 resource slots are active; otherwise it
    returns the least inactive slot index and writes there an active record
    whose total and available counts are both the given instance count,
    clears the two matrix columns of that slot, adds one to the resource
    counter and leaves every other slot and column as it was. *)
Theorem add_resource_takes_lowest_free_slot (rag : RAG) (nm : string) (instances : Z) :
  let id := fst (rag_add_resource rag (Some nm) instances) in
  let rag' := snd (rag_add_resource rag (Some nm) instances) in
  (id = -1 <->
   instances <= 0 \/
   forall i, 0 <= i < MAX_RESOURCES -> res_active (resources rag i) = true) /\
  (id <> -1 ->
   (0 <= id < MAX_RESOURCES) /\
   res_active (resources rag id) = false /\
   (forall i, 0 <= i < id -> res_active (resources rag i) = true) /\
   resources rag' id = mkResource id (copy_name nm) instances instances true /\
   (forall q, q <> id -> resources rag' q = resources rag q) /\
   (forall p, 0 <= p < MAX_PROCESSES ->
      request_matrix rag' p id = 0 /\ assignment_matrix rag' p id = 0) /\
   (forall p q, q <> id ->
      request_matrix rag' p q = request_matrix rag p q /\
      assignment_matrix rag' p q = assignment_matrix rag p q) /\
   processes rag' = processes rag /\
   process_count rag' = process_count rag /\
   resource_count rag' = resource_count rag + 1).
Proof. exact (add_resource_effect rag nm instances). Qed.

(** ** Releasing *)

Lemma same_slots_refl rag : same_slots rag rag.
Proof. by split_and!. Qed.

Lemma same_slots_trans rag1 rag2 rag3 :
  same_slots rag1 rag2 -> same_slots rag2 rag3 -> same_slots rag1 rag3.
Proof.
  intros (A1 & A2 & A3 & A4 & A5) (B1 & B2 & B3 & B4 & B5).
  split_and!; [congruence|congruence|congruence|congruence|].
  intros b. by rewrite B5.
Qed.

Lemma same_slots_fields rag rag' b :
  same_slots rag rag' ->
  res_active (resources rag' b) = res_active (resources rag b) /\
  total_instances (resources rag' b) = total_instances (resources rag b) /\
  res_id (resources rag' b) = res_id (resources rag b) /\
  res_name (resources rag' b) = res_name (resources rag b).
Proof.
  intros (_ & _ & _ & _ & H). specialize (H b).
  destruct (resources rag' b), (resources rag b). unfold set_available in H.
  simpl in *. by inversion H.
Qed.

Lemma release_same_slots rag p r :
  same_slots rag (snd (rag_release_resource rag p r)).
Proof.
  unfold rag_release_resource.
  destruct (_ || _); [apply same_slots_refl|].
  destruct (_ || _); [apply same_slots_refl|].
  destruct (_ <=? _); [apply same_slots_refl|]. cbn [resources with_assignment].
  destruct (res_active _); cbn [snd]; [|by split_and!].
  split_and!; try done. intros b. cbn [resources with_resources with_assignment].
  unfold upd. destruct (Z.eqb_spec b r) as [->|]; [|done].
  by destruct (resources rag r).
Qed.

Lemma release_loop_same_slots n rag p r k :
  same_slots rag (snd (release_loop n rag p r k)).
Proof.
  revert rag k. induction n as [|n IH]; intros rag k; simpl.
  - apply same_slots_refl.
  - destruct (_ >? _); [|apply same_slots_refl].
    eapply same_slots_trans; [apply release_same_slots|apply IH].
Qed.

Lemma release_all_fold_same_slots l rag p k :
  same_slots rag
    (snd (fold_left
            (fun acc r =>
               release_loop (Z.to_nat (assignment_matrix (snd acc) p r))
                            (snd acc) p r (fst acc))
            l (k, rag))).
Proof.
  revert rag k. induction l as [|r l IH]; intros rag k; cbn [fold_left fst snd].
  - apply same_slots_refl.
  - set (n := Z.to_nat (assignment_matrix rag p r)).
    pose proof (release_loop_same_slots n rag p r k) as H.
    destruct (release_loop n rag p r k) as [k1 rag1]. cbn [snd] in *.
    eapply same_slots_trans; [apply H|apply IH].
Qed.

Lemma release_all_same_slots rag p :
  same_slots rag (snd (rag_release_all_resources rag p)).
Proof.
  unfold rag_release_all_resources.
  destruct (_ || _); [apply same_slots_refl|]. apply release_all_fold_same_slots.
Qed.

(** The loop counts one released instance per round. *)
Lemma release_loop_count n rag p r k :
  0 <= p < MAX_PROCESSES -> 0 <= r < MAX_RESOURCES ->
  0 <= assignment_matrix rag p r ->
  (Z.to_nat (assignment_matrix rag p r) <= n)%nat ->
  fst (release_loop n rag p r k) = k + assignment_matrix rag p r.
Proof.
  intros Hp Hr. revert rag k.
  induction n as [|n IH]; intros rag k Hnn Hn; simpl.
  - lia.
  - destruct (Z.gtb_spec (assignment_matrix rag p r) 0) as [Hpos|]; simpl; [|lia].
    destruct (release_frame rag p r) as (_ & _ & _ & _ & Hpr).
    rewrite release_succeeds in Hpr by done.
    rewrite IH; lia.
Qed.

Lemma release_all_fold_count l rag p k :
  0 <= p < MAX_PROCESSES -> (forall r, r ∈ l -> 0 <= r < MAX_RESOURCES) ->
  NoDup l -> (forall r, 0 <= assignment_matrix rag p r) ->
  fst (fold_left
         (fun acc r =>
            release_loop (Z.to_nat (assignment_matrix (snd acc) p r))
                         (snd acc) p r (fst acc))
         l (k, rag))
  = k + zsum (fun r => assignment_matrix rag p r) l.
Proof.
  intros Hp. revert rag k.
  induction l as [|r l IH]; intros rag k Hl Hnd Hnn; cbn [fold_left snd fst].
  - unfold zsum. simpl. lia.
  - apply NoDup_cons in Hnd as [Hr Hnd].
    assert (0 <= r < MAX_RESOURCES) as Hrr by (apply Hl; apply list_elem_of_here).
    set (n := Z.to_nat (assignment_matrix rag p r)).
    pose proof (release_loop_count n rag p r k Hp Hrr (Hnn r) (le_n _)) as Hc.
    destruct (release_loop_frame n rag p r k) as (F1 & F2 & F3 & F4).
    pose proof (release_loop_exit n rag p r k Hp Hrr (le_n _)) as Hex.
    cbv zeta in Hex.
    destruct (release_loop n rag p r k) as [k1 rag1]. cbn [fst snd] in *.
    rewrite IH; try done.
    + rewrite zsum_cons, Hc.
      rewrite (zsum_ext (fun r0 => assignment_matrix rag1 p r0)
                        (fun r0 => assignment_matrix rag p r0)); [lia|].
      intros i Hi. apply F4. right. intros ->. done.
    + intros x Hx. apply Hl. by apply list_elem_of_further.
    + intros b. destruct (decide (b = r)) as [->|Hb].
      * rewrite Hex. specialize (Hnn r). lia.
      * rewrite F4 by tauto. apply Hnn.
Qed.

Lemma assigned_units_point rag rag' p r :
  0 <= p < MAX_PROCESSES ->
  (forall a, a <> p -> assignment_matrix rag' a r = assignment_matrix rag a r) ->
  assigned_units rag' r
  = assigned_units rag r - assignment_matrix rag p r + assignment_matrix rag' p r.
Proof.
  intros Hp H. unfold assigned_units.
  apply (zsum_point (fun a => assignment_matrix rag a r)
                    (fun a => assignment_matrix rag' a r) proc_ids p).
  - apply NoDup_proc_ids.
  - by apply elem_of_proc_ids.
  - done.
Qed.

Lemma release_all_effect (rag : RAG) (p : Z) :
  store_inv rag -> 0 <= p < MAX_PROCESSES ->
  let released := fst (rag_release_all_resources rag p) in
  let rag' := snd (rag_release_all_resources rag p) in
  released = held_units rag p /\
  (forall r, assignment_matrix rag' p r = 0) /\
  (forall r, res_slot_active rag r ->
     available_instances (resources rag' r)
     = available_instances (resources rag r) + assignment_matrix rag p r) /\
  (forall q r, q <> p -> assignment_matrix rag' q r = assignment_matrix rag q r) /\
  same_slots rag rag'.
Proof.
  intros Hinv Hp.
  destruct (release_all_spec rag p Hinv) as (Hinv' & G1 & G2 & G3 & G4 & G5 & G6).
  pose proof (release_all_same_slots rag p) as Hss.
  cbv zeta. split_and!; try done.
  - unfold rag_release_all_resources, held_units.
    destruct (Z.ltb_spec p 0), (Z.geb_spec p MAX_PROCESSES); try lia. cbn [orb].
    rewrite release_all_fold_count; try done.
    + intros r Hr. by apply elem_of_res_ids.
    + apply NoDup_res_ids.
    + intros r. apply (inv_assign_nonneg _ Hinv).
  - by apply G6.
  - intros r Hr.
    assert (res_slot_active (snd (rag_release_all_resources rag p)) r) as Hr'.
    { destruct Hr as [Hr Ha]. split; [done|]. by rewrite G3. }
    pose proof (inv_accounting _ Hinv r Hr) as A.
    pose proof (inv_accounting _ Hinv' r Hr') as A'.
    destruct (same_slots_fields _ _ r Hss) as (_ & Ht & _).
    rewrite (assigned_units_point rag _ p r Hp) in A'.
    + rewrite G6 in A' by done. lia.
    + intros a Ha. by apply G4.
Qed.




(** ** Removing slots *)


Lemma remove_process_effect (rag : RAG) (p : Z) :
  store_inv rag -> proc_slot_active rag p ->
  let rag' := snd (rag_remove_process rag p) in
  fst (rag_remove_process rag p) = true /\
  rag_get_process rag' p = None /\
  (forall r, request_matrix rag' p r = 0 /\ assignment_matrix rag' p r = 0) /\
  (forall r, res_slot_active rag r ->
     res_slot_active rag' r /\
     total_instances (resources rag' r) = total_instances (resources rag r) /\
     available_instances (resources rag' r)
     = available_instances (resources rag r) + assignment_matrix rag p r) /\
  (forall q, q <> p ->
     processes rag' q = processes rag q /\
     forall r, request_matrix rag' q r = request_matrix rag q r /\
               assignment_matrix rag' q r = assignment_matrix rag q r) /\
  process_count rag' = process_count rag - 1 /\
  resource_count rag' = resource_count rag.
Proof.
  intros Hinv [Hp Hact].
  destruct (release_all_effect rag p Hinv Hp)
    as (_ & R2 & R3 & R4 & R5).
  destruct (release_all_spec rag p Hinv) as (_ & G1 & G2 & G3 & _).
  pose proof (remove_process_frame rag p (conj Hp Hact)) as (F1 & F2 & F3 & F4).
  revert F1 F2 F3 F4. unfold rag_remove_process, rag_get_process.
  destruct (Z.ltb_spec p 0), (Z.geb_spec p MAX_PROCESSES); try lia.
  rewrite Hact. cbn [orb negb fst snd].
  set (rag1 := snd (rag_release_all_resources rag p)) in *.
  cbn [processes resources request_matrix assignment_matrix process_count
       resource_count].
  intros F1 F2 F3 F4.
  split; [done|]. split; [by rewrite F1|]. split.
  { intros r. split; [|apply R2].
    rewrite fold_cancel_row. case_bool_decide as Hc; [done|].
    rewrite G2.
    destruct (Z_lt_le_dec 0 (request_matrix rag p r)) as [Hpos|Hle].
    - exfalso. apply Hc. split; [done|]. rewrite G2. split; [|done].
      apply elem_of_res_ids.
      by apply (inv_request_active _ Hinv) in Hpos as [_ [? _]].
    - pose proof (inv_request_bit _ Hinv p r). lia. }
  split.
  { intros r Hr. destruct (same_slots_fields _ _ r R5) as (Ha & Ht & _).
    split; [|split; [done|by apply R3]].
    destruct Hr as [Hr Hra]. split; [done|]. cbn [resources]. by rewrite Ha. }
  split.
  { intros q Hq. split; [by apply F2|]. intros r. by apply F4. }
  destruct R5 as (_ & _ & C1 & C2 & _). by rewrite C1, C2.
Qed.

(** X4. On a store that satisfies the invariant, [rag_remove_process] of an
    active process succeeds: the slot is inactive afterwards (so
    [rag_get_process] finds nothing), both matrix rows of the slot are zero,
    every active resource gets back exactly the instances the process held,
    the process counter drops by one, and no other process record or row
    changes: a process that was waiting for the removed one stays as it
    was. *)
Theorem remove_process_returns_holdings (rag : RAG) (p : Z) :
  store_inv rag -> proc_slot_active rag p ->
  let rag' := snd (rag_remove_process rag p) in
  fst (rag_remove_process rag p) = true /\
  rag_get_process rag' p = None /\
  (forall r, request_matrix rag' p r = 0 /\ assignment_matrix rag' p r = 0) /\
  (forall r, res_slot_active rag r ->
     res_slot_active rag' r /\
     total_instances (resources rag' r) = total_instances (resources rag r) /\
     available_instances (resources rag' r)
     = available_instances (resources rag r) + assignment_matrix rag p r) /\
  (forall q, q <> p ->
     processes rag' q = processes rag q /\
     forall r, request_matrix rag' q r = request_matrix rag q r /\
               assignment_matrix rag' q r = assignment_matrix rag q r) /\
  process_count rag' = process_count rag - 1 /\
  resource_count rag' = resource_count rag.
Proof. exact (remove_process_effect rag p). Qed.

Lemma remove_process_returns_holdings_witness :
  let rag := run_ops [OpAddProcess (Some "P"%string) 50;
                      OpAddResource (Some "R"%string) 3;
                      OpAllocate 0 0; OpAllocate 0 0] in
  let rag' := snd (rag_remove_process rag 0) in
  rag_get_process rag' 0 = None /\
  available_instances (resources rag' 0) = 3.
Proof.
  intros rag rag'.
  assert (proc_slot_active rag 0) as Hp.
  { split; [unfold MAX_PROCESSES; lia | reflexivity]. }
  destruct (remove_process_returns_holdings rag 0 (store_inv_run_ops _) Hp)
    as (_ & H2 & _ & H4 & _).
  split; [exact H2|].
  destruct (H4 0) as (_ & _ & H).
  - split; [unfold MAX_RESOURCES; lia | reflexivity].
  - fold rag' in H. rewrite H. vm_compute. reflexivity.
Defined.

(** X5. A slot freed by [rag_remove_process] is found again by the next
    [rag_add_process]: the add cannot fail for lack of a slot, it returns an
    index no larger than the removed one, and it returns exactly the removed
    index when every lower slot is active. *)
Theorem removed_slot_is_reused (rag : RAG) (p : Z) (nm : string) (priority : Z) :
  proc_slot_active rag p ->
  let rag1 := snd (rag_remove_process rag p) in
  let id := fst (rag_add_process rag1 (Some nm) priority) in
  (0 <= id <= p) /\
  (id = p <-> forall i, 0 <= i < p -> proc_active (processes rag i) = true) /\
  proc_slot_active (snd (rag_add_process rag1 (Some nm) priority)) id.
Proof.
  intros Hp. cbv zeta.
  destruct (remove_process_frame rag p Hp) as (F1 & F2 & _).
  set (rag1 := snd (rag_remove_process rag p)) in *.
  destruct (add_process_effect rag1 nm priority) as [Hfail Hok].
  cbv zeta in Hfail, Hok.
  set (id := fst (rag_add_process rag1 (Some nm) priority)) in *.
  assert (id <> -1) as Hid.
  { intros E. destruct Hfail as [Hf1 _]. specialize (Hf1 E).
    rewrite (Hf1 p) in F1; [done|apply Hp]. }
  destruct (Hok Hid) as (Hr & Hfree & Hleast & Hrec & _).
  assert (id <= p) as Hle.
  { destruct (Z_le_gt_dec id p) as [|Hgt]; [done|].
    rewrite (Hleast p) in F1; [done|]. destruct Hp. lia. }
  split; [lia|]. split.
  - split.
    + intros E i Hi. rewrite <- (F2 i) by lia. apply Hleast. lia.
    + intros H. destruct (Z.eq_dec id p) as [|Hne]; [done|].
      rewrite F2 in Hfree by done. rewrite H in Hfree; [done|lia].
  - split; [done|]. by rewrite Hrec.
Qed.

Lemma removed_slot_is_reused_witness :
  let rag := run_ops [OpAddProcess (Some "A"%string) 1;
                      OpAddProcess (Some "B"%string) 2;
                      OpAddProcess (Some "C"%string) 3] in
  fst (rag_add_process (snd (rag_remove_process rag 1)) (Some "D"%string) 4) = 1.
Proof.
  intros rag.
  assert (proc_slot_active rag 1) as Hp.
  { split; [unfold MAX_PROCESSES; lia | reflexivity]. }
  destruct (removed_slot_is_reused rag 1 "D"%string 4 Hp) as (_ & H & _).
  apply H. intros i Hi. assert (i = 0) as -> by lia. reflexivity.
Defined.

(** X6. [rag_remove_resource] succeeds exactly when the resource is active
    and no process slot holds an instance of it.  On success the slot is
    inactive, no process requests the resource any more, the resource
    counter drops by one, and nothing else changes; in particular the
    process records are untouched, so a process whose only request was for
    the removed resource keeps its Waiting state. *)
Theorem remove_resource_only_when_unheld (rag : RAG) (r : Z) :
  let ok := fst (rag_remove_resource rag r) in
  let rag' := snd (rag_remove_resource rag r) in
  (ok = true <->
   res_slot_active rag r /\
   forall p, 0 <= p < MAX_PROCESSES -> rag_is_holding rag p r = false) /\
  (ok = true ->
   rag_get_resource rag' r = None /\
   (forall p, rag_is_requesting rag' p r = false) /\
   (forall p b, b <> r -> request_matrix rag' p b = request_matrix rag p b) /\
   (forall b, b <> r -> resources rag' b = resources rag b) /\
   processes rag' = processes rag /\
   assignment_matrix rag' = assignment_matrix rag /\
   process_count rag' = process_count rag /\
   resource_count rag' = resource_count rag - 1).
Proof.
  cbv zeta. unfold rag_remove_resource, res_slot_active.
  destruct (Z.ltb_spec r 0); cbn [orb fst snd].
  { split; [|done]. split; [done|]. intros [[? _] _]. lia. }
  destruct (Z.geb_spec r MAX_RESOURCES); cbn [fst snd].
  { split; [|done]. split; [done|]. intros [[? _] _]. lia. }
  destruct (res_active (resources rag r)) eqn:Hact; cbn [negb fst snd].
  2: { split; [|done]. split; [done|]. intros [[_ ?] _]. done. }
  destruct (existsb _ proc_ids) eqn:Hex; cbn [fst snd].
  - split; [|done]. split; [done|]. intros [_ Hno].
    apply existsb_exists in Hex as (p & Hp & Hpos).
    apply list_elem_of_In, elem_of_proc_ids in Hp.
    specialize (Hno p Hp). unfold rag_is_holding in Hno.
    destruct (Z.ltb_spec p 0), (Z.geb_spec p MAX_PROCESSES); try lia.
    destruct (Z.ltb_spec r 0), (Z.geb_spec r MAX_RESOURCES); try lia.
    cbn [orb] in Hno. congruence.
  - split.
    + split; [|done]. intros _. split; [split; [lia|done]|].
      intros p Hp. unfold rag_is_holding.
      destruct (Z.ltb_spec p 0), (Z.geb_spec p MAX_PROCESSES); try lia.
      destruct (Z.ltb_spec r 0), (Z.geb_spec r MAX_RESOURCES); try lia.
      cbn [orb]. apply not_true_iff_false. intros Hpos.
      apply not_true_iff_false in Hex. apply Hex, existsb_exists.
      exists p. split; [|done]. by apply list_elem_of_In, elem_of_proc_ids.
    + intros _. unfold rag_get_resource, rag_is_requesting. rsimpl.
      destruct (Z.ltb_spec r 0), (Z.geb_spec r MAX_RESOURCES); try lia.
      cbn [orb]. rewrite upd_eq. cbn [res_active negb].
      split; [done|]. split.
      { intros p.
        destruct (Z.ltb_spec p 0); [done|].
        destruct (Z.geb_spec p MAX_PROCESSES); [done|]. cbn [orb].
        rewrite clear_col_spec. rewrite bool_decide_eq_true_2; [done|].
        split; [done|lia]. }
      split.
      { intros p b Hb. rewrite clear_col_spec.
        rewrite bool_decide_eq_false_2; [done|]. intros [? _]. done. }
      split; [|done]. intros b Hb. by rewrite upd_ne.
Qed.

(** ** Round trips *)

Lemma allocate_resources rag p r b :
  resources (snd (rag_allocate_resource rag p r)) b
  = if fst (rag_allocate_resource rag p r) && (b =? r)
    then set_available (resources rag r)
                       (available_instances (resources rag r) - 1)
    else resources rag b.
Proof.
  unfold rag_allocate_resource.
  destruct (rag_get_process rag p); [|done].
  destruct (rag_get_resource rag r) as [y|] eqn:Hy; [|done].
  apply rag_get_resource_val in Hy as ->.
  destruct (_ <=? _); [done|].
  destruct (negb _); cbn [fst snd andb store_state with_processes with_resources
                          with_assignment with_request resources];
    unfold upd; by destruct (b =? r).
Qed.

Lemma release_resources rag p r b :
  resources (snd (rag_release_resource rag p r)) b
  = if fst (rag_release_resource rag p r) && (b =? r)
       && res_active (resources rag r)
    then set_available (resources rag r)
                       (available_instances (resources rag r) + 1)
    else resources rag b.
Proof.
  unfold rag_release_resource.
  destruct (_ || _); [done|]. destruct (_ || _); [done|].
  destruct (_ <=? _); [done|].
  cbn [with_assignment resources].
  destruct (res_active (resources rag r)); cbn [fst snd andb with_resources resources].
  - unfold upd. by destruct (b =? r).
  - by rewrite andb_false_r.
Qed.

Lemma allocate_succeeds rag p r :
  proc_slot_active rag p -> res_slot_active rag r ->
  0 < available_instances (resources rag r) ->
  fst (rag_allocate_resource rag p r) = true.
Proof.
  intros Hp Hr Hav. unfold rag_allocate_resource.
  assert (is_Some (rag_get_process rag p)) as [x ->]
    by (by apply rag_get_process_Some).
  assert (is_Some (rag_get_resource rag r)) as [y Hy]
    by (by apply rag_get_resource_Some).
  rewrite Hy. apply rag_get_resource_val in Hy as ->.
  destruct (Z.leb_spec (available_instances (resources rag r)) 0); [lia|].
  by destruct (negb _).
Qed.

(** What a successful allocation writes. *)
Lemma allocate_effect rag p r :
  fst (rag_allocate_resource rag p r) = true ->
  let rag' := snd (rag_allocate_resource rag p r) in
  proc_slot_active rag p /\ res_slot_active rag r /\
  0 < available_instances (resources rag r) /\
  request_matrix rag' = upd2 (request_matrix rag) p r 0 /\
  assignment_matrix rag'
  = upd2 (assignment_matrix rag) p r (assignment_matrix rag p r + 1) /\
  (forall q, q <> p -> processes rag' q = processes rag q) /\
  proc_active (processes rag' p) = true /\
  process_count rag' = process_count rag /\
  resource_count rag' = resource_count rag.
Proof.
  cbv zeta. unfold rag_allocate_resource.
  destruct (rag_get_process rag p) as [x|] eqn:Hx; [|done].
  destruct (rag_get_resource rag r) as [y|] eqn:Hy; [|done].
  assert (proc_slot_active rag p) as Hp
    by (apply rag_get_process_Some; by rewrite Hx).
  assert (res_slot_active rag r) as Hr
    by (apply rag_get_resource_Some; by rewrite Hy).
  apply rag_get_resource_val in Hy as ->.
  destruct (Z.leb_spec (available_instances (resources rag r)) 0); [done|].
  intros _. split; [done|]. split; [done|]. split; [done|].
  destruct (negb (has_requests _ p)) eqn:Hh; cbn [snd].
  - cbn [store_state with_processes with_resources with_assignment with_request
         processes resources request_matrix assignment_matrix process_count
         resource_count].
    split; [done|]. split; [done|]. split; [intros q Hq; by rewrite upd_ne|].
    rewrite upd_eq. cbn [set_state proc_active proc_state].
    split; [apply Hp|done].
  - cbn [with_processes with_resources with_assignment with_request
         processes resources request_matrix assignment_matrix process_count
         resource_count].
    split; [done|]. split; [done|]. split; [done|].
    split; [apply Hp|done].
Qed.

(** X7. On a store that satisfies the invariant, a successful
    [rag_allocate_resource] followed by [rag_release_resource] of the same
    pair succeeds and restores the assignment matrix and every resource
    record (the available count included); the release itself touches no
    request edge and no process record, so what remains of the pair of
    calls is what the allocation did to them: the request edge of the pair
    is cleared. *)
Theorem allocate_release_roundtrip (rag : RAG) (p r : Z) :
  store_inv rag ->
  fst (rag_allocate_resource rag p r) = true ->
  let rag1 := snd (rag_allocate_resource rag p r) in
  let rag2 := snd (rag_release_resource rag1 p r) in
  fst (rag_release_resource rag1 p r) = true /\
  (forall a b, assignment_matrix rag2 a b = assignment_matrix rag a b) /\
  (forall b, resources rag2 b = resources rag b) /\
  request_matrix rag2 = request_matrix rag1 /\
  processes rag2 = processes rag1 /\
  request_matrix rag2 p r = 0.
Proof.
  intros Hinv Hok. cbv zeta.
  destruct (allocate_effect rag p r Hok) as (Hp & Hr & _ & Hrq & Has & _).
  cbv zeta in Hrq, Has.
  set (rag1 := snd (rag_allocate_resource rag p r)) in *.
  pose proof (inv_assign_nonneg _ Hinv p r) as Hnn.
  destruct (release_frame rag1 p r) as (F1 & F2 & F3 & F4 & F5).
  assert (fst (rag_release_resource rag1 p r) = true) as Hrel.
  { apply release_succeeds; [apply Hp|apply Hr|]. rewrite Has, upd2_eq. lia. }
  rewrite Hrel in F5.
  split; [done|]. split.
  { intros a b. destruct (decide (a = p /\ b = r)) as [[-> ->]|Hne].
    - rewrite F5, Has, upd2_eq. lia.
    - assert (a <> p \/ b <> r) as Hne' by (destruct (decide (a = p)); tauto).
      rewrite F4 by done. rewrite Has. by apply upd2_ne. }
  split.
  { intros b. rewrite release_resources, Hrel. subst rag1.
    rewrite !allocate_resources, Hok. cbn [andb].
    destruct (Z.eqb_spec b r) as [->|Hb]; [|done].
    rewrite Z.eqb_refl. cbn [set_available res_active available_instances
                             res_id res_name total_instances].
    destruct Hr as [_ Hra]. rewrite Hra.
    destruct (resources rag r). unfold set_available. cbn. f_equal. lia. }
  split; [done|]. split; [done|]. by rewrite F2, Hrq, upd2_eq.
Qed.

Lemma allocate_release_roundtrip_witness :
  let rag := run_ops [OpAddProcess (Some "P"%string) 50;
                      OpAddResource (Some "R"%string) 1] in
  let rag2 :=
    snd (rag_release_resource (snd (rag_allocate_resource rag 0 0)) 0 0) in
  resources rag2 0 = resources rag 0 /\
  assignment_matrix rag2 0 0 = assignment_matrix rag 0 0.
Proof.
  intros rag rag2.
  assert (fst (rag_allocate_resource rag 0 0) = true) as Hok by reflexivity.
  destruct (allocate_release_roundtrip rag 0 0 (store_inv_run_ops _) Hok)
    as (_ & H2 & H3 & _).
  split; [apply H3|apply H2].
Defined.

(** X8. [rag_request_resource] is idempotent: asking twice for the same
    pair gives the result and the store of asking once. *)
Theorem request_is_idempotent (rag : RAG) (p r : Z) :
  rag_request_resource (snd (rag_request_resource rag p r)) p r
  = rag_request_resource rag p r.
Proof.
  unfold rag_request_resource at 2 3.
  destruct (rag_get_process rag p) as [x|] eqn:Hx; [|cbn [snd];
    unfold rag_request_resource; by rewrite Hx].
  destruct (rag_get_resource rag r) as [y|] eqn:Hy; [|cbn [snd];
    unfold rag_request_resource; by rewrite Hx, Hy].
  destruct (request_matrix rag p r >? 0) eqn:Hb; cbn [snd].
  - unfold rag_request_resource. by rewrite Hx, Hy, Hb.
  - unfold rag_request_resource.
    assert (is_Some (rag_get_process rag p)) as Hp by (by rewrite Hx).
    apply rag_get_process_Some in Hp as [Hp Hpa].
    assert (rag_get_process
              (store_state
                 (with_request rag (upd2 (request_matrix rag) p r 1)) p
                 PROCESS_WAITING) p
            = Some (set_state (processes rag p) PROCESS_WAITING)) as ->.
    { unfold rag_get_process.
      destruct (Z.ltb_spec p 0), (Z.geb_spec p MAX_PROCESSES); try lia.
      cbn [orb store_state with_processes with_request processes].
      rewrite upd_eq. cbn [set_state proc_active]. by rewrite Hpa. }
    assert (rag_get_resource
              (store_state
                 (with_request rag (upd2 (request_matrix rag) p r 1)) p
                 PROCESS_WAITING) r
            = Some y) as ->.
    { rewrite <- Hy. done. }
    cbn [store_state with_processes with_request request_matrix].
    by rewrite upd2_eq.
Qed.


(** ** Counters *)



Lemma length_filter_zsum (f : Z -> bool) l :
  Z.of_nat (length (filter (fun i => Is_true (f i)) l))
  = zsum (fun i => if f i then 1 else 0) l.
Proof.
  induction l as [|x l IH]; [done|]. rewrite filter_cons, zsum_cons.
  destruct (f x); simpl; rewrite <- IH; [|done].
  rewrite Nat2Z.inj_succ. lia.
Qed.


Lemma counts_inv_same_active rag rag' :
  (forall p, proc_active (processes rag' p) = proc_active (processes rag p)) ->
  (forall r, res_active (resources rag' r) = res_active (resources rag r)) ->
  process_count rag' = process_count rag ->
  resource_count rag' = resource_count rag ->
  counts_inv rag -> counts_inv rag'.
Proof.
  intros Hp Hr Hcp Hcr [H1 H2]. unfold counts_inv.
  rewrite Hcp, Hcr, H1, H2. unfold active_process_ids, active_resource_ids.
  rewrite !length_filter_zsum. split; apply zsum_ext; intros i _.
  - by rewrite Hp.
  - by rewrite Hr.
Qed.

Lemma counts_inv_same_slots rag rag' :
  same_slots rag rag' -> counts_inv rag -> counts_inv rag'.
Proof.
  intros Hss. pose proof Hss as (A1 & _ & A3 & A4 & _).
  apply counts_inv_same_active; try done.
  - intros p. by rewrite A1.
  - intros r. by destruct (same_slots_fields _ _ r Hss) as [-> _].
Qed.

Lemma counts_inv_store_state rag p s :
  counts_inv rag -> counts_inv (store_state rag p s).
Proof.
  apply counts_inv_same_active; try done. intros q.
  cbn [store_state with_processes processes]. unfold upd.
  by destruct (Z.eqb_spec q p) as [->|].
Qed.

Lemma counts_inv_with_request rag m :
  counts_inv rag -> counts_inv (with_request rag m).
Proof. by apply counts_inv_same_active. Qed.

Lemma counts_inv_request rag p r :
  counts_inv rag -> counts_inv (snd (rag_request_resource rag p r)).
Proof.
  intros H. unfold rag_request_resource.
  destruct (rag_get_process rag p); [|done].
  destruct (rag_get_resource rag r); [|done].
  destruct (_ >? _); [done|]. cbn [snd].
  by apply counts_inv_store_state, counts_inv_with_request.
Qed.

Lemma counts_inv_cancel rag p r :
  counts_inv rag -> counts_inv (snd (rag_cancel_request rag p r)).
Proof.
  intros H. unfold rag_cancel_request.
  destruct (_ || _); [done|]. destruct (_ || _); [done|].
  destruct (_ =? _); [done|].
  destruct (_ && _); cbn [snd].
  - by apply counts_inv_store_state, counts_inv_with_request.
  - by apply counts_inv_with_request.
Qed.

Lemma counts_inv_allocate rag p r :
  counts_inv rag -> counts_inv (snd (rag_allocate_resource rag p r)).
Proof.
  intros H.
  apply (counts_inv_same_active rag); [| | | |done].
  - intros q. unfold rag_allocate_resource.
    destruct (rag_get_process rag p); [|done].
    destruct (rag_get_resource rag r); [|done].
    destruct (_ <=? _); [done|].
    destruct (negb _); cbn [snd store_state with_processes with_resources
                            with_assignment with_request processes]; [|done].
    unfold upd. by destruct (Z.eqb_spec q p) as [->|].
  - intros b. rewrite allocate_resources.
    destruct (fst _ && (b =? r)) eqn:E; [|done].
    apply andb_true_iff in E as [_ E]. apply Z.eqb_eq in E as ->. done.
  - unfold rag_allocate_resource.
    destruct (rag_get_process rag p); [|done].
    destruct (rag_get_resource rag r); [|done].
    destruct (_ <=? _); [done|]. by destruct (negb _).
  - unfold rag_allocate_resource.
    destruct (rag_get_process rag p); [|done].
    destruct (rag_get_resource rag r); [|done].
    destruct (_ <=? _); [done|]. by destruct (negb _).
Qed.

Lemma active_process_count rag :
  Z.of_nat (length (active_process_ids rag))
  = zsum (fun p => if proc_active (processes rag p) then 1 else 0) proc_ids.
Proof. apply length_filter_zsum. Qed.

Lemma active_resource_count rag :
  Z.of_nat (length (active_resource_ids rag))
  = zsum (fun r => if res_active (resources rag r) then 1 else 0) res_ids.
Proof. apply length_filter_zsum. Qed.

Lemma counts_inv_add_process rag name priority :
  counts_inv rag -> counts_inv (snd (rag_add_process rag name priority)).
Proof.
  intros [H1 H2]. destruct name as [nm|]; [|done].
  destruct (add_process_effect rag nm priority) as [_ Hok]. cbv zeta in Hok.
  destruct (Z.eq_dec (fst (rag_add_process rag (Some nm) priority)) (-1)) as [E|E].
  { revert E. unfold rag_add_process.
    destruct (find _ _) as [slot|] eqn:Hf; [|done].
    cbn [fst]. intros ->. apply find_least_slot in Hf. lia. }
  destruct (Hok E) as (Hr & Hfree & _ & Hrec & Hoth & _ & _ & Hres & Hc1 & Hc2).
  set (id := fst (rag_add_process rag (Some nm) priority)) in *.
  set (rag' := snd (rag_add_process rag (Some nm) priority)) in *.
  unfold counts_inv. rewrite Hc1, Hc2, H1, H2.
  rewrite !active_process_count, !active_resource_count, Hres. split; [|done].
  rewrite (zsum_point
             (fun p => if proc_active (processes rag p) then 1 else 0)
             (fun p => if proc_active (processes rag' p) then 1 else 0)
             proc_ids id).
  - rewrite Hfree, Hrec. simpl. lia.
  - apply NoDup_proc_ids.
  - by apply elem_of_proc_ids.
  - intros j Hj. by rewrite Hoth.
Qed.

Lemma counts_inv_add_resource rag name instances :
  counts_inv rag -> counts_inv (snd (rag_add_resource rag name instances)).
Proof.
  intros [H1 H2]. destruct name as [nm|]; [|done].
  destruct (add_resource_effect rag nm instances) as [_ Hok]. cbv zeta in Hok.
  destruct (Z.eq_dec (fst (rag_add_resource rag (Some nm) instances)) (-1)) as [E|E].
  { revert E. unfold rag_add_resource. destruct (_ <=? _); [done|].
    destruct (find _ _) as [slot|] eqn:Hf; [|done].
    cbn [fst]. intros ->. apply find_least_slot in Hf. lia. }
  destruct (Hok E) as (Hr & Hfree & _ & Hrec & Hoth & _ & _ & Hps & Hc1 & Hc2).
  set (id := fst (rag_add_resource rag (Some nm) instances)) in *.
  set (rag' := snd (rag_add_resource rag (Some nm) instances)) in *.
  unfold counts_inv. rewrite Hc1, Hc2, H1, H2.
  rewrite !active_process_count, !active_resource_count, Hps. split; [done|].
  rewrite (zsum_point
             (fun r => if res_active (resources rag r) then 1 else 0)
             (fun r => if res_active (resources rag' r) then 1 else 0)
             res_ids id).
  - rewrite Hfree, Hrec. simpl. lia.
  - apply NoDup_res_ids.
  - by apply elem_of_res_ids.
  - intros j Hj. by rewrite Hoth.
Qed.

Lemma counts_inv_remove_process rag p :
  counts_inv rag -> counts_inv (snd (rag_remove_process rag p)).
Proof.
  intros H. unfold rag_remove_process.
  destruct (Z.ltb_spec p 0) as [|Hlo]; [done|].
  destruct (Z.geb_spec p MAX_PROCESSES) as [|Hhi]; [done|]. cbn [orb].
  destruct (proc_active (processes rag p)) eqn:Hact; [|done]. cbn [negb snd].
  pose proof (release_all_same_slots rag p) as Hss.
  apply (counts_inv_same_slots _ _ Hss) in H as [H1 H2].
  set (rag1 := snd (rag_release_all_resources rag p)) in *.
  assert (proc_active (processes rag1 p) = true) as Hact1.
  { destruct Hss as (-> & _). done. }
  unfold counts_inv. rsimpl. rewrite H1, H2.
  rewrite !active_process_count, !active_resource_count. rsimpl.
  split; [|done].
  rewrite (zsum_point
             (fun q => if proc_active (processes rag1 q) then 1 else 0)
             (fun q =>
                if proc_active
                     (upd (processes rag1) p
                        (mkProcess (-1) (proc_name (processes rag1 p))
                           (proc_state (processes rag1 p))
                           (proc_priority (processes rag1 p)) false) q)
                then 1 else 0)
             proc_ids p).
  - rewrite Hact1, upd_eq. simpl. lia.
  - apply NoDup_proc_ids.
  - apply elem_of_proc_ids. lia.
  - intros j Hj. by rewrite upd_ne.
Qed.

Lemma counts_inv_remove_resource rag r :
  counts_inv rag -> counts_inv (snd (rag_remove_resource rag r)).
Proof.
  intros [H1 H2]. unfold rag_remove_resource.
  destruct (Z.ltb_spec r 0) as [|Hlo]; [done|].
  destruct (Z.geb_spec r MAX_RESOURCES) as [|Hhi]; [done|]. cbn [orb].
  destruct (res_active (resources rag r)) eqn:Hact; [|done]. cbn [negb].
  destruct (existsb _ _); [done|]. cbn [snd].
  unfold counts_inv. rsimpl. rewrite H1, H2.
  rewrite !active_process_count, !active_resource_count. rsimpl.
  split; [done|].
  rewrite (zsum_point
             (fun q => if res_active (resources rag q) then 1 else 0)
             (fun q =>
                if res_active
                     (upd (resources rag) r
                        (mkResource (-1) (res_name (resources rag r))
                           (total_instances (resources rag r))
                           (available_instances (resources rag r)) false) q)
                then 1 else 0)
             res_ids r).
  - rewrite Hact, upd_eq. simpl. lia.
  - apply NoDup_res_ids.
  - apply elem_of_res_ids. lia.
  - intros j Hj. by rewrite upd_ne.
Qed.

Lemma counts_inv_init : counts_inv rag_init.
Proof.
  unfold counts_inv. rewrite active_process_count, active_resource_count.
  cbn [rag_init processes resources process_count resource_count proc_active
       res_active].
  split; symmetry; by apply zsum_zero.
Qed.

Lemma counts_inv_exec_op rag op :
  counts_inv rag -> counts_inv (snd (exec_op rag op)).
Proof.
  intros H. destruct op; cbn [exec_op].
  - apply counts_inv_init.
  - pose proof (counts_inv_add_process rag name priority H).
    by destruct (rag_add_process rag name priority).
  - by apply counts_inv_remove_process.
  - unfold rag_set_process_state. destruct (rag_get_process _ _); [|done].
    by apply counts_inv_store_state.
  - pose proof (counts_inv_add_resource rag name instances H).
    by destruct (rag_add_resource rag name instances).
  - by apply counts_inv_remove_resource.
  - by apply counts_inv_request.
  - by apply counts_inv_cancel.
  - by apply counts_inv_allocate.
  - apply (counts_inv_same_slots rag); [apply release_same_slots|done].
  - apply (counts_inv_same_slots rag); [apply release_all_same_slots|done].
Qed.

Lemma counts_inv_run_ops ops : counts_inv (run_ops ops).
Proof.
  unfold run_ops, run_ops_from. generalize counts_inv_init.
  generalize rag_init. induction ops as [|op ops IH]; intros rag H; [done|].
  cbn [fold_left]. by apply IH, counts_inv_exec_op.
Qed.

(** X9. In every store reached from [rag_init] through the public
    operations, the two counters [process_count] and [resource_count] (the
    first two outputs of [rag_get_stats]) are the numbers of active process
    and resource slots, and so lie between 0 and 64. *)
Theorem counters_count_active_slots (ops : list StoreOp) :
  let rag := run_ops ops in
  let '(total_processes, total_resources, _, _) := rag_get_stats rag in
  total_processes = process_count rag /\
  total_resources = resource_count rag /\
  process_count rag = Z.of_nat (length (active_process_ids rag)) /\
  resource_count rag = Z.of_nat (length (active_resource_ids rag)) /\
  (0 <= process_count rag <= MAX_PROCESSES) /\
  (0 <= resource_count rag <= MAX_RESOURCES).
Proof.
  cbv zeta. destruct (counts_inv_run_ops ops) as [H1 H2].
  unfold rag_get_stats. destruct (fold_left _ proc_ids _) as [rq asg].
  split; [done|]. split; [done|]. split; [done|]. split; [done|].
  rewrite H1, H2. unfold active_process_ids, active_resource_ids.
  pose proof (length_filter (fun p => Is_true (proc_active (processes (run_ops ops) p)))
                         proc_ids) as L1.
  pose proof (length_filter (fun r => Is_true (res_active (resources (run_ops ops) r)))
                         res_ids) as L2.
  unfold proc_ids, res_ids in L1, L2 |- *. rewrite length_seqZ in L1, L2.
  unfold MAX_PROCESSES, MAX_RESOURCES in *. lia.
Qed.

(** ** Totals *)



(** ** Listings *)

Lemma collect_upto_spec {A} (keep : A -> option Z) items max_size out :
  collect_upto keep items max_size out
  = out ++ take (Z.to_nat max_size - length out) (omap keep items).
Proof.
  revert out. induction items as [|x items IH]; intros out; cbn [collect_upto].
  - change (omap keep []) with (@nil Z). by rewrite take_nil, app_nil_r.
  - change (omap keep (x :: items))
      with (match keep x with Some v => v :: omap keep items | None => omap keep items end).
    destruct (Z.ltb_spec (Z.of_nat (length out)) max_size) as [Hlt|Hge].
    + rewrite IH. destruct (keep x) as [v|]; [|done].
      rewrite length_app. cbn [length].
      replace (Z.to_nat max_size - length out)%nat
        with (S (Z.to_nat max_size - (length out + 1)))%nat by lia.
      cbn [take]. by rewrite <- app_assoc.
    + replace (Z.to_nat max_size - length out)%nat with O by lia.
      by rewrite take_0, app_nil_r.
Qed.

Lemma omap_keep_if test (l : list Z) :
  omap (keep_if test) l = filter (fun i => Is_true (test i)) l.
Proof.
  induction l as [|x l IH]; [done|].
  change (omap (keep_if test) (x :: l))
    with (match keep_if test x with
          | Some v => v :: omap (keep_if test) l
          | None => omap (keep_if test) l
          end).
  rewrite filter_cons.
  unfold keep_if at 1. destruct (test x); simpl; by rewrite IH.
Qed.

Lemma filter_ext_in (f g : Z -> bool) (l : list Z) :
  (forall i, i ∈ l -> f i = g i) ->
  filter (fun i => Is_true (f i)) l = filter (fun i => Is_true (g i)) l.
Proof.
  induction l as [|x l IH]; intros H; [done|]. rewrite !filter_cons.
  rewrite (H x) by apply list_elem_of_here.
  rewrite IH; [done|]. intros i Hi. apply H. by apply list_elem_of_further.
Qed.

Lemma filter_all_false (f : Z -> bool) (l : list Z) :
  (forall i, i ∈ l -> f i = false) -> filter (fun i => Is_true (f i)) l = [].
Proof.
  induction l as [|x l IH]; intros H; [done|]. rewrite filter_cons.
  rewrite (H x) by apply list_elem_of_here. simpl.
  apply IH. intros i Hi. apply H. by apply list_elem_of_further.
Qed.

Lemma listing_spec (test query : Z -> bool) (ids : list Z) max_size :
  (forall i, i ∈ ids -> test i = query i) ->
  let out := collect_upto (keep_if test) ids max_size [] in
  out = take (Z.to_nat max_size) (filter (fun i => Is_true (query i)) ids).
Proof.
  intros H. cbv zeta. rewrite collect_upto_spec, omap_keep_if. cbn [app length].
  rewrite Nat.sub_0_r. by rewrite (filter_ext_in test query).
Qed.

Lemma listings_spec_holders rag r max_size :
  let holders := filter (fun p => Is_true (rag_is_holding rag p r)) proc_ids in
  rag_get_holding_processes rag r max_size
  = (Z.of_nat (length (take (Z.to_nat max_size) holders)),
     take (Z.to_nat max_size) holders) /\
  forall p, p ∈ take (Z.to_nat max_size) holders -> p ∈ holders.
Proof.
  cbv zeta. split.
  2: { intros p Hp. apply elem_of_take in Hp as (i & Hi & _).
       by apply list_elem_of_lookup_2 in Hi. }
  unfold rag_get_holding_processes.
  destruct (Z.leb_spec max_size 0) as [Hm|Hm].
  { replace (Z.to_nat max_size) with O by lia. by rewrite !take_0. }
  destruct (Z.ltb_spec r 0) as [Hlo|Hlo]; cbn [orb].
  { rewrite !filter_all_false, !take_nil; [done|]. intros i _.
    unfold rag_is_holding. destruct (Z.ltb_spec r 0); try lia.
    by destruct (_ || _). }
  destruct (Z.geb_spec r MAX_RESOURCES) as [Hhi|Hhi].
  { rewrite !filter_all_false, !take_nil; [done|]. intros i _.
    unfold rag_is_holding. destruct (Z.geb_spec r MAX_RESOURCES); try lia.
    rewrite orb_true_r. by destruct (_ || _). }
  rewrite (listing_spec _ (fun p => rag_is_holding rag p r) proc_ids); [done|].
  intros i Hi. apply elem_of_proc_ids in Hi. unfold rag_is_holding.
  destruct (Z.ltb_spec r 0), (Z.geb_spec r MAX_RESOURCES); try lia.
  destruct (Z.ltb_spec i 0), (Z.geb_spec i MAX_PROCESSES); try lia. done.
Qed.

Lemma length_take_bound (n : nat) (l : list Z) :
  (length (take n l) <= length l)%nat.
Proof. rewrite length_take. lia. Qed.

(** X10. The three listing functions agree with the two edge queries: each
    returns, in ascending order of id, the first [max_size] ids for which
    the query holds, and the count of the ids it wrote.  So with
    [max_size >= 64] the list is exactly the set the query describes, and a
    non-positive [max_size] or an out-of-range id gives the empty list. *)
Theorem listings_agree_with_queries (rag : RAG) (id max_size : Z) :
  let upto (l : list Z) := take (Z.to_nat max_size) l in
  let held := filter (fun r => Is_true (rag_is_holding rag id r)) res_ids in
  let requested := filter (fun r => Is_true (rag_is_requesting rag id r)) res_ids in
  let holders := filter (fun p => Is_true (rag_is_holding rag p id)) proc_ids in
  rag_get_held_resources rag id max_size
  = (Z.of_nat (length (upto held)), upto held) /\
  rag_get_requested_resources rag id max_size
  = (Z.of_nat (length (upto requested)), upto requested) /\
  rag_get_holding_processes rag id max_size
  = (Z.of_nat (length (upto holders)), upto holders).
Proof.
  cbv zeta.
  unfold rag_get_held_resources, rag_get_requested_resources,
    rag_get_holding_processes.
  destruct (Z.leb_spec max_size 0) as [Hm|Hm].
  { replace (Z.to_nat max_size) with O by lia. by rewrite !take_0. }
  assert (MAX_PROCESSES = MAX_RESOURCES) as Heq by done.
  destruct (Z.ltb_spec id 0) as [Hlo|Hlo]; cbn [orb].
  { rewrite !filter_all_false, !take_nil; [done| | |]; intros i _;
      unfold rag_is_holding, rag_is_requesting;
      destruct (Z.ltb_spec id 0); try lia; cbn [orb]; try done;
      by destruct (_ || _). }
  destruct (Z.geb_spec id MAX_PROCESSES) as [Hhi|Hhi].
  { destruct (Z.geb_spec id MAX_RESOURCES); [|lia].
    rewrite !filter_all_false, !take_nil; [done| | |]; intros i _;
      unfold rag_is_holding, rag_is_requesting;
      destruct (Z.geb_spec id MAX_PROCESSES); try lia;
      destruct (Z.geb_spec id MAX_RESOURCES); try lia;
      rewrite ?orb_true_r; try done; by destruct (_ || _). }
  destruct (Z.geb_spec id MAX_RESOURCES); [lia|].
  rewrite (listing_spec _ (fun r => rag_is_holding rag id r) res_ids).
  2: { intros i Hi. apply elem_of_res_ids in Hi. unfold rag_is_holding.
       destruct (Z.ltb_spec id 0), (Z.geb_spec id MAX_PROCESSES); try lia.
       destruct (Z.ltb_spec i 0), (Z.geb_spec i MAX_RESOURCES); try lia. done. }
  rewrite (listing_spec _ (fun r => rag_is_requesting rag id r) res_ids).
  2: { intros i Hi. apply elem_of_res_ids in Hi. unfold rag_is_requesting.
       destruct (Z.ltb_spec id 0), (Z.geb_spec id MAX_PROCESSES); try lia.
       destruct (Z.ltb_spec i 0), (Z.geb_spec i MAX_RESOURCES); try lia. done. }
  rewrite (listing_spec _ (fun p => rag_is_holding rag p id) proc_ids).
  2: { intros i Hi. apply elem_of_proc_ids in Hi. unfold rag_is_holding.
       destruct (Z.ltb_spec id 0), (Z.geb_spec id MAX_RESOURCES); try lia.
       destruct (Z.ltb_spec i 0), (Z.geb_spec i MAX_PROCESSES); try lia. done. }
  done.
Qed.

Lemma zsum_le f g l : (forall i, i ∈ l -> f i <= g i) -> zsum f l <= zsum g l.
Proof.
  induction l as [|x l IH]; intros H; [done|]. rewrite !zsum_cons.
  pose proof (H x (list_elem_of_here _ _)).
  assert (zsum f l <= zsum g l); [|lia].
  apply IH. intros i Hi. apply H. by apply list_elem_of_further.
Qed.



(** X12. On a store that satisfies the invariant,
    [rag_get_holding_processes] of an active resource lists only active
    processes that hold the resource, and never more of them than the
    resource has instances in use (total minus available). *)
Theorem holders_bounded_by_units_in_use (rag : RAG) (r max_size : Z) :
  store_inv rag -> res_slot_active rag r ->
  let '(count, holders) := rag_get_holding_processes rag r max_size in
  (0 <= count
   <= total_instances (resources rag r) - available_instances (resources rag r)) /\
  forall p, p ∈ holders -> proc_slot_active rag p /\ rag_is_holding rag p r = true.
Proof.
  intros Hinv Hr.
  destruct (listings_spec_holders rag r max_size) as [E Hl]. rewrite E.
  set (holders := filter (fun p => Is_true (rag_is_holding rag p r)) proc_ids) in *.
  split.
  - split; [lia|].
    pose proof (inv_accounting _ Hinv r Hr) as Hacc.
    assert (Z.of_nat (length (take (Z.to_nat max_size) holders))
            <= assigned_units rag r); [|lia].
    etrans; [apply inj_le, (length_take_bound _ _)|].
    unfold holders. rewrite length_filter_zsum. unfold assigned_units.
    apply zsum_le. intros p Hp. apply elem_of_proc_ids in Hp.
    pose proof (inv_assign_nonneg _ Hinv p r).
    unfold rag_is_holding.
    destruct (_ || _); [done|]. destruct (_ || _); [done|].
    destruct (Z.gtb_spec (assignment_matrix rag p r) 0); lia.
  - intros p Hp. apply Hl in Hp.
    apply list_elem_of_filter in Hp as [Hh Hp]. apply Is_true_true in Hh.
    split; [|done]. revert Hh. unfold rag_is_holding.
    destruct (_ || _); [done|]. destruct (_ || _); [done|].
    intros Hpos. apply Z.gtb_lt in Hpos.
    by apply (inv_assign_active _ Hinv) in Hpos as [? _].
Qed.

Lemma holders_bounded_by_units_in_use_witness :
  let rag := run_ops [OpAddProcess (Some "P"%string) 50;
                      OpAddProcess (Some "Q"%string) 50;
                      OpAddResource (Some "R"%string) 3;
                      OpAllocate 0 0; OpAllocate 0 0; OpAllocate 1 0] in
  let '(count, holders) := rag_get_holding_processes rag 0 MAX_PROCESSES in
  (0 <= count
   <= total_instances (resources rag 0) - available_instances (resources rag 0)) /\
  forall p, p ∈ holders -> proc_slot_active rag p /\ rag_is_holding rag p 0 = true.
Proof.
  intros rag.
  apply (holders_bounded_by_units_in_use rag 0 MAX_PROCESSES (store_inv_run_ops _)).
  split; [unfold MAX_RESOURCES; lia | reflexivity].
Defined.

(** X13. No store reached from [rag_init] through the public operations
    has a dangling edge: a request edge joins an active process to an active
    resource and its matrix entry is exactly 1; an assignment edge joins an
    active process to an active resource and carries between 1 and the
    resource's total number of instances; and both entries are zero when
    either slot is inactive or out of range. *)
Theorem reachable_edges_join_active_slots (ops : list StoreOp) (p r : Z) :
  let rag := run_ops ops in
  (rag_is_requesting rag p r = true ->
     proc_slot_active rag p /\ res_slot_active rag r /\
     request_matrix rag p r = 1) /\
  (rag_is_holding rag p r = true ->
     proc_slot_active rag p /\ res_slot_active rag r /\
     1 <= assignment_matrix rag p r <= total_instances (resources rag r)) /\
  (~ proc_slot_active rag p \/ ~ res_slot_active rag r ->
     request_matrix rag p r = 0 /\ assignment_matrix rag p r = 0).
Proof.
  cbv zeta. pose proof (store_inv_run_ops ops) as Hinv.
  generalize dependent (run_ops ops). intros rag Hinv.
  pose proof (inv_request_bit _ Hinv p r) as Hbit.
  pose proof (inv_assign_nonneg _ Hinv p r) as Hnn.
  split; [|split].
  - unfold rag_is_requesting.
    destruct (_ || _); [done|]. destruct (_ || _); [done|].
    intros Hpos. apply Z.gtb_lt in Hpos.
    destruct (inv_request_active _ Hinv p r Hpos) as [Hp Hr].
    split; [done|]. split; [done|]. lia.
  - unfold rag_is_holding.
    destruct (_ || _); [done|]. destruct (_ || _); [done|].
    intros Hpos. apply Z.gtb_lt in Hpos.
    destruct (inv_assign_active _ Hinv p r Hpos) as [Hp Hr].
    split; [done|]. split; [done|].
    pose proof (holdings_bounded rag p r Hinv Hr). lia.
  - intros Hno. split.
    + destruct (Z_lt_le_dec 0 (request_matrix rag p r)) as [Hpos|]; [|lia].
      destruct (inv_request_active _ Hinv p r Hpos). tauto.
    + destruct (Z_lt_le_dec 0 (assignment_matrix rag p r)) as [Hpos|]; [|lia].
      destruct (inv_assign_active _ Hinv p r Hpos). tauto.
Qed.


(** ** The reported cycle *)

Lemma linked_snoc {A} (E : relation A) l x :
  linked E l -> (forall top, last l = Some top -> E top x) -> linked E (l ++ [x]).
Proof.
  induction l as [|a l IH]; intros Hl Hx; [done|].
  destruct l as [|b l].
  - cbn. split; [|done]. by apply Hx.
  - destruct Hl as [Hab Hl]. cbn. split; [done|]. apply IH; [done|].
    intros top Htop. apply Hx. done.
Qed.

Lemma linked_tail {A} (E : relation A) a l : linked E (a :: l) -> linked E l.
Proof. destruct l; [done|]. by intros [_ H]. Qed.

Lemma linked_drop {A} (E : relation A) i l : linked E l -> linked E (drop i l).
Proof.
  revert l. induction i as [|i IH]; intros l Hl; [by rewrite drop_0|].
  destruct l as [|a l]; [done|]. cbn [drop]. apply IH. by apply linked_tail in Hl.
Qed.

Lemma linked_head_reaches {A} (E : relation A) a l x :
  linked E (a :: l) -> x ∈ a :: l -> rtc E a x.
Proof.
  revert a. induction l as [|b l IH]; intros a Hl Hx.
  - apply elem_of_cons in Hx as [->|Hx]; [done|by inversion Hx].
  - apply elem_of_cons in Hx as [->|Hx]; [done|].
    destruct Hl as [Hab Hl]. apply rtc_l with b; [done|]. by apply IH.
Qed.

Lemma linked_reaches_last {A} (E : relation A) l x z :
  linked E l -> x ∈ l -> last l = Some z -> rtc E x z.
Proof.
  revert x. induction l as [|a l IH]; intros x Hl Hx Hz; [by inversion Hx|].
  destruct l as [|b l].
  - apply elem_of_cons in Hx as [->|Hx]; [|by inversion Hx].
    cbn in Hz. by injection Hz as ->.
  - apply elem_of_cons in Hx as [->|Hx].
    + destruct Hl as [Hab Hl]. apply rtc_l with b; [done|].
      apply IH; [done|apply list_elem_of_here|done].
    + apply IH; [by destruct Hl|done|done].
Qed.

(** Every node of a closed walk lies on a cycle. *)
Lemma simple_cycle_tc {A} (E : relation A) c m :
  simple_cycle E c -> m ∈ c -> tc E m m.
Proof.
  intros (_ & Hl & first & final & Hh & Hf & Hback) Hm.
  destruct c as [|a c]; [by inversion Hm|]. cbn in Hh. injection Hh as ->.
  apply tc_rtc_r with first; [|by apply (linked_head_reaches E first c)].
  apply tc_rtc_l with final; [|by apply tc_once].
  by apply (linked_reaches_last E (first :: c)).
Qed.

Lemma path_index_lookup n p i :
  path_index (node_type n) (node_id n) p = Some i -> p !! i = Some n.
Proof.
  revert i. induction p as [|x p IH]; intros i; cbn [path_index]; [done|].
  destruct (node_type_eqb (node_type x) (node_type n) && (node_id x =? node_id n))
    eqn:E.
  - intros [= <-]. apply andb_true_iff in E as [E1 E2].
    apply node_type_eqb_eq in E1. apply Z.eqb_eq in E2.
    destruct x, n. simpl in *. by subst.
  - destruct (path_index _ _ p) as [j|]; [|done]. cbn. intros [= <-].
    by apply IH.
Qed.

Lemma drop_lookup_head {A} (l : list A) i x :
  l !! i = Some x -> exists rest, drop i l = x :: rest /\ last (drop i l) = last l.
Proof.
  revert i. induction l as [|a l IH]; intros i Hi; [done|].
  destruct i as [|i].
  - cbn in Hi. injection Hi as ->. exists l. by rewrite drop_0.
  - cbn in Hi. destruct (IH i Hi) as (rest & E & Hlast). exists rest.
    cbn [drop]. split; [done|]. rewrite Hlast.
    destruct l as [|b l]; [done|]. done.
Qed.

Lemma sublist_drop_elem {A} (l : list A) i x : x ∈ drop i l -> x ∈ l.
Proof.
  intros H. apply list_elem_of_lookup in H as [j Hj].
  rewrite lookup_drop in Hj. by apply list_elem_of_lookup_2 in Hj.
Qed.

Lemma NoDup_drop {A} (l : list A) i : NoDup l -> NoDup (drop i l).
Proof.
  intros H. rewrite <- (take_drop i l) in H. by apply NoDup_app in H as (_ & _ & ?).
Qed.

(** The cycle a back edge closes. *)
Lemma back_edge_cycle rag st n i :
  dfs_inv rag st -> linked (rag_edge rag) (path st) ->
  node_valid rag n ->
  (forall top, last (path st) = Some top -> rag_edge rag top n) ->
  path_index (node_type n) (node_id n) (path st) = Some i ->
  exists c,
    output_cycle (set_found (extract_cycle st i)) = mkCycle c true /\
    simple_cycle (rag_edge rag) c /\
    forall m, m ∈ c -> m ∈ path st.
Proof.
  intros Hinv Hl Hv Hedge Hi. apply path_index_lookup in Hi.
  destruct (drop_lookup_head _ _ _ Hi) as (rest & Hd & Hlast).
  exists (drop i (path st)). split; [|split].
  - cbn [set_found extract_cycle output_cycle]. f_equal.
    apply take_ge. rewrite length_drop.
    pose proof (path_room rag (path st) (dfs_path_nodup _ _ Hinv)) as Hroom.
    unfold MAX_CYCLE_LENGTH in *.
    assert (Z.of_nat (length (path st)) <= 128); [|lia].
    apply Hroom. intros m Hm. by apply (dfs_path_gray _ _ Hinv).
  - split; [by apply NoDup_drop, (dfs_path_nodup _ _ Hinv)|].
    split; [by apply linked_drop|].
    destruct (last (path st)) as [top|] eqn:Htop.
    + exists n, top. rewrite Hd at 1. split; [done|]. split; [done|].
      by apply Hedge.
    + apply last_None in Htop. by rewrite Htop in Hi.
  - intros m. apply sublist_drop_elem.
Qed.

Lemma visit_nodes_reports rag visit fuel :
  visit_ok rag visit fuel -> visit_reports rag visit fuel ->
  forall ns u st b st',
    dfs_inv rag st -> linked (rag_edge rag) (path st) ->
    last (path st) = Some u ->
    (forall v, v ∈ ns -> node_valid rag v -> rag_edge rag u v) ->
    (white_nodes st < fuel)%nat ->
    visit_nodes visit ns st = Some (b, st') ->
    if b then
      cycle_found st' = true /\
      exists c, output_cycle st' = mkCycle c true /\
                simple_cycle (rag_edge rag) c /\
                forall m, m ∈ c -> m ∈ path st \/ rtc (rag_edge rag) u m
    else output_cycle st' = output_cycle st.
Proof.
  intros Hok Hrep ns u.
  induction ns as [|v ns IH]; intros st b st' Hinv Hl Hlast Hedges Hfuel;
    cbn [visit_nodes].
  - by intros [= <- <-].
  - assert (node_valid rag v -> forall top, last (path st) = Some top ->
            rag_edge rag top v) as Hedge.
    { intros Hv top Htop. rewrite Hlast in Htop. injection Htop as <-.
      apply Hedges; [apply list_elem_of_here|done]. }
    destruct (Hok st v Hinv Hedge Hfuel) as (b1 & st1 & E & Hpost).
    pose proof (Hrep st v b1 st1 Hinv Hl Hedge Hfuel E) as Hr.
    rewrite E. destruct b1.
    + intros [= <- <-]. destruct Hr as (Hv & Hfound & c & Hc & Hsc & Hreach).
      split; [done|]. exists c. split; [done|]. split; [done|].
      intros m Hm. destruct (Hreach m Hm) as [?|Hvm]; [by left|]. right.
      apply rtc_l with v; [|done]. apply Hedges; [apply list_elem_of_here|done].
    + destruct Hpost as (Hinv1 & Hpath1 & Hadv1 & _). intros Hrest.
      pose proof (IH st1 b st' Hinv1) as H. rewrite Hpath1 in H.
      specialize (H Hl Hlast).
      assert (if b
              then cycle_found st' = true /\
                   exists c, output_cycle st' = mkCycle c true /\
                             simple_cycle (rag_edge rag) c /\
                             forall m, m ∈ c ->
                                       m ∈ path st \/ rtc (rag_edge rag) u m
              else output_cycle st' = output_cycle st1) as H'.
      { apply H; [|..|done].
        - intros w Hw. apply Hedges. by apply list_elem_of_further.
        - pose proof (colors_advance_white _ _ Hadv1). lia. }
      destruct b; [done|]. by rewrite H'.
Qed.

Lemma output_cycle_set_node_color st n c :
  output_cycle (set_node_color st n c) = output_cycle st.
Proof. unfold set_node_color. by destruct (node_type n). Qed.

Lemma output_cycle_push_path st n : output_cycle (push_path st n) = output_cycle st.
Proof. unfold push_path. by destruct (_ <? _). Qed.

Lemma visit_body_reports rag visit fuel :
  visit_ok rag visit fuel -> visit_reports rag visit fuel ->
  visit_reports rag (visit_body rag visit) (S fuel).
Proof.
  intros Hok Hrep st n b st' Hinv Hl Hedge Hfuel. unfold visit_body.
  rewrite (dfs_not_found _ _ Hinv).
  destruct (node_slot_ok rag n) eqn:Hv; cbn [negb]; [|by intros [= <- <-]].
  apply node_slot_ok_valid in Hv.
  destruct (node_color st n) eqn:Hc; cbn [color_eqb].
  - (* white *)
    destruct (enter_node rag st n Hinv Hv Hc (Hedge Hv))
      as (Hinv2 & Hp2 & Hother2 & Hgray2 & Hw2).
    set (st2 := push_path (set_node_color st n COLOR_GRAY) n) in *.
    assert (linked (rag_edge rag) (path st2)) as Hl2.
    { rewrite Hp2. apply linked_snoc; [done|]. by apply Hedge. }
    assert (last (path st2) = Some n) as Hlast2.
    { rewrite Hp2. apply last_snoc. }
    assert (forall v, v ∈ successors rag n -> node_valid rag v -> rag_edge rag n v)
      as Hsucc.
    { intros v Hin Hval. by apply successors_edge. }
    assert (white_nodes st2 < fuel)%nat as Hfuel2 by lia.
    destruct (visit_nodes visit (successors rag n) st2) as [[b3 st3]|] eqn:E;
      [|done].
    pose proof (visit_nodes_reports rag visit fuel Hok Hrep (successors rag n) n
                  st2 b3 st3 Hinv2 Hl2 Hlast2 Hsucc Hfuel2 E) as H.
    destruct b3.
    + intros [= <- <-]. destruct H as (Hfound & c & Hcyc & Hsc & Hreach).
      split; [done|]. split; [done|]. exists c. split; [done|]. split; [done|].
      intros m Hm. destruct (Hreach m Hm) as [Hin|?]; [|by right].
      rewrite Hp2 in Hin. apply elem_of_app in Hin as [?|Hin]; [by left|].
      apply list_elem_of_singleton in Hin as ->. by right.
    + intros [= <- <-]. rewrite output_cycle_set_node_color.
      cbn [pop_path output_cycle]. rewrite H. unfold st2.
      by rewrite output_cycle_push_path, output_cycle_set_node_color.
  - (* gray *)
    pose proof (dfs_gray_path _ _ Hinv n Hc) as Hin.
    destruct (path_index_elem n (path st) Hin) as [i Hi]. rewrite Hi.
    intros [= <- <-].
    destruct (back_edge_cycle rag st n i Hinv Hl Hv (Hedge Hv) Hi)
      as (c & Hcyc & Hsc & Hsub).
    split; [done|]. split; [done|]. exists c. split; [done|]. split; [done|].
    intros m Hm. left. by apply Hsub.
  - (* black *)
    by intros [= <- <-].
Qed.

Lemma visit_reports_ext rag f g fuel :
  (forall st n, f st n = g st n) -> visit_reports rag g fuel ->
  visit_reports rag f fuel.
Proof.
  intros Hfg Hrep st n b st' Hinv Hl Hedge Hfuel. rewrite Hfg. by apply Hrep.
Qed.

Lemma visit_node_reports rag fuel : visit_reports rag (visit_node fuel rag) fuel.
Proof.
  induction fuel as [|fuel IH].
  - intros st n b st' _ _ _ H. lia.
  - apply (visit_reports_ext _ _ (visit_body rag (visit_node fuel rag))).
    + intros st n. apply visit_node_unfold.
    + apply visit_body_reports; [apply visit_node_ok|done].
Qed.

(** *** The root loop *)

Lemma detect_roots_reports rag ps :
  forall st res res',
    dfs_inv rag st -> path st = [] ->
    detect_roots rag DETECT_DFS ps st res = Some res' ->
    res' = res \/
    exists p c,
      p ∈ ps /\ proc_slot_active rag p /\
      res' = record_cycle res (mkCycle c true) /\
      simple_cycle (rag_edge rag) c /\
      forall m, m ∈ c -> rtc (rag_edge rag) (PNode p) m.
Proof.
  induction ps as [|p ps IH]; intros st res res' Hinv Hpath; cbn [detect_roots].
  - intros [= <-]. by left.
  - assert (forall st1, dfs_inv rag st1 -> path st1 = [] ->
              detect_roots rag DETECT_DFS ps st1 res = Some res' ->
              res' = res \/
              exists q c,
                q ∈ p :: ps /\ proc_slot_active rag q /\
                res' = record_cycle res (mkCycle c true) /\
                simple_cycle (rag_edge rag) c /\
                forall m, m ∈ c -> rtc (rag_edge rag) (PNode q) m) as Hrest.
    { intros st1 Hinv1 Hpath1 E.
      destruct (IH st1 res res' Hinv1 Hpath1 E) as [?|(q & c & Hq & H)];
        [by left|].
      right. exists q, c. split; [by apply list_elem_of_further|done]. }
    destruct (proc_active (processes rag p)) eqn:Hact; cbn [negb];
      [|by apply Hrest].
    destruct (has_requests rag p && color_eqb (process_colors st p) COLOR_WHITE);
      [|by apply Hrest].
    change (dfs_visit_process DFS_FUEL rag st p)
      with (visit_node DFS_FUEL rag st (PNode p)).
    assert (node_valid rag (PNode p) -> forall top, last (path st) = Some top ->
            rag_edge rag top (PNode p)) as Hedge.
    { intros _ top. rewrite Hpath. done. }
    assert (white_nodes st < DFS_FUEL)%nat as Hfuel.
    { pose proof (white_nodes_bound st). unfold DFS_FUEL. lia. }
    destruct (visit_node_ok rag DFS_FUEL st (PNode p) Hinv Hedge Hfuel)
      as (b & st1 & E & Hpost).
    assert (linked (rag_edge rag) (path st)) as Hl by (by rewrite Hpath).
    pose proof (visit_node_reports rag DFS_FUEL st (PNode p) b st1 Hinv Hl Hedge
                  Hfuel E) as Hrep.
    rewrite E. destruct b.
    + intros [= <-]. right.
      destruct Hrep as (Hv & _ & c & Hc & Hsc & Hreach).
      exists p, c. split; [apply list_elem_of_here|]. split; [done|].
      split; [by rewrite Hc|]. split; [done|].
      intros m Hm. destruct (Hreach m Hm) as [Hin|?]; [|done].
      rewrite Hpath in Hin. by inversion Hin.
    + destruct Hpost as (Hinv1 & Hpath1 & _). apply Hrest; [done|].
      by rewrite Hpath1.
Qed.

Lemma mark_nodes_spec l acc :
  (forall p, fst (fold_left mark_node l acc) p = true
             <-> fst acc p = true \/ PNode p ∈ l) /\
  (forall r, snd (fold_left mark_node l acc) r = true
             <-> snd acc r = true \/ RNode r ∈ l).
Proof.
  revert acc. induction l as [|n l IH]; intros acc; cbn [fold_left].
  - split; intros i; (split; [by left|]); intros [?|H]; [done|by inversion H|done|
      by inversion H].
  - destruct (IH (mark_node acc n)) as [IHp IHr].
    split; intros i; [rewrite IHp|rewrite IHr]; rewrite elem_of_cons;
      unfold mark_node; destruct n as [j t]; destruct t;
      cbn [node_type node_id fst snd]; unfold upd, PNode, RNode;
      destruct (Z.eqb_spec i j) as [->|Hne]; split; intros H;
      try tauto; try (destruct H as [H|[H|H]]; try tauto; try done;
                      injection H; intros; done).
Qed.

Lemma simple_cycle_valid rag c m :
  simple_cycle (rag_edge rag) c -> m ∈ c -> node_valid rag m.
Proof.
  intros Hsc Hm. apply (simple_cycle_tc _ _ _ Hsc) in Hm.
  by apply tc_first_step in Hm as (y & (? & _) & _).
Qed.

(** What the first-cycle detector writes when it detects a deadlock. *)
Lemma detect_deadlock_report rag d :
  detect_deadlock rag = Some d -> deadlock_detected d = true ->
  exists c p0,
    cycles d = [mkCycle c true] /\
    simple_cycle (rag_edge rag) c /\
    proc_slot_active rag p0 /\
    (forall m, m ∈ c -> rtc (rag_edge rag) (PNode p0) m) /\
    (forall p, p ∈ deadlocked_processes d <-> PNode p ∈ c) /\
    (forall r, r ∈ deadlocked_resources d <-> RNode r ∈ c).
Proof.
  unfold detect_deadlock, detect_deadlock_with_algorithm.
  destruct (detect_roots _ _ _ _ _) as [res|] eqn:E; [|done].
  intros [= <-]. rewrite deadlock_detected_extract. intros Hd.
  apply detect_roots_reports in E; [|apply dfs_inv_init|done].
  destruct E as [->|(p0 & c & _ & Hp0 & -> & Hsc & Hreach)]; [done|].
  exists c, p0. unfold extract_deadlocked.
  cbn [record_cycle deadlock_result_init deadlock_detected cycles length
       deadlocked_processes deadlocked_resources app].
  change (Z.of_nat 0 <? MAX_CYCLES) with true. cbn [app].
  split; [done|]. split; [done|]. split; [done|]. split; [done|].
  unfold mark_cycles. cbn [fold_left cyc_nodes].
  destruct (mark_nodes_spec c (fun _ => false, fun _ => false)) as [Mp Mr].
  split; intros i; rewrite list_elem_of_filter.
  - rewrite Is_true_true, Mp. cbn [fst]. split.
    + intros [[?|?] _]; done.
    + intros Hi. split; [by right|].
      apply elem_of_proc_ids. by apply (simple_cycle_valid rag c (PNode i)).
  - rewrite Is_true_true, Mr. cbn [snd]. split.
    + intros [[?|?] _]; done.
    + intros Hi. split; [by right|].
      apply elem_of_res_ids. by apply (simple_cycle_valid rag c (RNode i)).
Qed.

(** *** Alternation *)

Lemma omap_cons {A} (f : A -> option Z) x l :
  omap f (x :: l) = match f x with Some v => v :: omap f l | None => omap f l end.
Proof. done. Qed.

Lemma keep_type_Some ty n v :
  keep_type ty n = Some v <-> n = mkNode v ty.
Proof.
  unfold keep_type. destruct n as [j t]. cbn [node_type node_id].
  destruct (node_type_eqb t ty) eqn:E.
  - apply node_type_eqb_eq in E as ->. split; [by intros [= ->]|by intros [= ->]].
  - split; [done|]. intros [= -> ->]. by destruct ty.
Qed.

Lemma keep_type_same ty j : keep_type ty (mkNode j ty) = Some j.
Proof. by destruct ty. Qed.

Lemma keep_type_other ty ty' j : ty' <> ty -> keep_type ty (mkNode j ty') = None.
Proof. by destruct ty, ty'. Qed.

Lemma count_types_length c :
  (length (omap (keep_type NODE_PROCESS) c)
   + length (omap (keep_type NODE_RESOURCE) c) = length c)%nat.
Proof.
  induction c as [|n c IH]; [done|]. rewrite !omap_cons.
  destruct n as [j t]. destruct t;
    rewrite keep_type_same, keep_type_other by done; cbn [length]; lia.
Qed.

(** Processes and resources alternate along a walk of the bipartite
    graph. *)
Lemma linked_alternates rag c first final :
  linked (rag_edge rag) c -> head c = Some first -> last c = Some final ->
  (length (omap (keep_type NODE_PROCESS) c)
   + (if node_type_eqb (node_type final) NODE_RESOURCE then 1 else 0)
   = length (omap (keep_type NODE_RESOURCE) c)
     + (if node_type_eqb (node_type first) NODE_PROCESS then 1 else 0))%nat.
Proof.
  revert first. induction c as [|a c IH]; intros first Hl Hh Hf; [done|].
  cbn in Hh. assert (first = a) as -> by congruence. clear Hh.
  destruct c as [|b c].
  - cbn in Hf. assert (final = a) as -> by congruence. rewrite !omap_cons.
    destruct a as [j t]. destruct t;
      rewrite keep_type_same, keep_type_other by done; done.
  - destruct Hl as [Hab Hl].
    specialize (IH b Hl eq_refl Hf). rewrite (omap_cons _ a), (omap_cons _ a).
    destruct Hab as (_ & _ & Hab).
    destruct a as [j t], b as [k u]. destruct t, u; try done;
      rewrite keep_type_same, keep_type_other by done;
      cbn [node_type node_type_eqb length] in *; lia.
Qed.

Lemma simple_cycle_balanced rag c :
  simple_cycle (rag_edge rag) c ->
  length (omap (keep_type NODE_PROCESS) c)
  = length (omap (keep_type NODE_RESOURCE) c) /\
  (length c = 2 * length (omap (keep_type NODE_PROCESS) c))%nat /\
  (1 <= length (omap (keep_type NODE_PROCESS) c))%nat.
Proof.
  intros (_ & Hl & first & final & Hh & Hf & Hback).
  pose proof (linked_alternates rag c first final Hl Hh Hf) as Ha.
  pose proof (count_types_length c) as Hc.
  assert (length c <> 0)%nat as Hne by (by destruct c).
  destruct Hback as (_ & _ & Hback).
  destruct first as [j t], final as [k u]. destruct t, u; try done;
    cbn [node_type node_type_eqb] in Ha; lia.
Qed.

Lemma NoDup_omap_keep_type ty c : NoDup c -> NoDup (omap (keep_type ty) c).
Proof.
  induction c as [|n c IH]; intros Hnd; [apply NoDup_nil_2|].
  apply NoDup_cons in Hnd as [Hn Hnd]. rewrite omap_cons.
  destruct (keep_type ty n) as [v|] eqn:E; [|by apply IH].
  apply NoDup_cons. split; [|by apply IH].
  intros Hv. apply list_elem_of_omap in Hv as (x & Hx & Hk).
  apply keep_type_Some in E, Hk. by subst.
Qed.

Lemma length_marked_ids ty (c : list GraphNode) (ids l : list Z) :
  NoDup c -> NoDup l ->
  (forall i, i ∈ l <-> mkNode i ty ∈ c) ->
  length l = length (omap (keep_type ty) c).
Proof.
  intros Hc Hl H. apply Permutation_length, NoDup_Permutation; [done| |].
  - by apply NoDup_omap_keep_type.
  - intros i. rewrite H, list_elem_of_omap. split.
    + intros Hi. exists (mkNode i ty). split; [done|]. by apply keep_type_Some.
    + intros (x & Hx & Hk). apply keep_type_Some in Hk. by subst.
Qed.


(** ** The first-cycle detector *)

Lemma detect_deadlock_quiet rag d :
  detect_deadlock rag = Some d -> deadlock_detected d = false ->
  d = deadlock_result_init.
Proof.
  unfold detect_deadlock, detect_deadlock_with_algorithm.
  destruct (detect_roots _ _ _ _ _) as [res|] eqn:E; [|done].
  intros [= <-]. rewrite deadlock_detected_extract. intros Hd.
  apply detect_roots_reports in E; [|apply dfs_inv_init|done].
  destruct E as [->|(p0 & c & _ & _ & -> & _)]; [done|]. done.
Qed.

(** X14. [detect_deadlock] returns on every graph (the recursion never
    runs deeper than the 128 nodes), and it sets [deadlock_detected]
    exactly when the bipartite graph of active processes and resources,
    with request edges from process to resource and assignment edges from
    resource to holder, has a cycle.  When it reports no deadlock the result
    is the initial result: no cycle and no deadlocked id. *)
Theorem detect_deadlock_sound_and_complete (rag : RAG) :
  exists d,
    detect_deadlock rag = Some d /\
    (deadlock_detected d = true <-> has_cycle (rag_edge rag)) /\
    (deadlock_detected d = false -> d = deadlock_result_init).
Proof.
  destruct (detect_deadlock_correct rag) as (d & E & H).
  exists d. split; [done|]. split; [done|]. by apply (detect_deadlock_quiet rag).
Qed.

Lemma cycle_length_bound rag c :
  simple_cycle (rag_edge rag) c -> (2 <= length c <= 128)%nat.
Proof.
  intros Hsc. destruct (simple_cycle_balanced rag c Hsc) as (_ & H2 & H1).
  split; [lia|].
  pose proof (path_room rag c) as Hroom. unfold MAX_CYCLE_LENGTH in Hroom.
  assert (Z.of_nat (length c) <= 128); [|lia].
  apply Hroom; [by destruct Hsc|]. intros m. by apply simple_cycle_valid.
Qed.

(** X15. The cycle [detect_deadlock] reports is a cycle of the graph: the
    result holds exactly one cycle, marked valid; its nodes are distinct
    active nodes, each joined to the next by an edge of the graph and the
    last joined to the first, so every node on it reaches itself; it has an
    even number of nodes, between 2 and 128. *)
Theorem reported_cycle_is_a_cycle (rag : RAG) (d : DeadlockResult) :
  detect_deadlock rag = Some d -> deadlock_detected d = true ->
  exists c,
    cycles d = [mkCycle c true] /\
    NoDup c /\
    linked (rag_edge rag) c /\
    (exists first final,
       head c = Some first /\ last c = Some final /\ rag_edge rag final first) /\
    (forall m, m ∈ c -> node_valid rag m /\ tc (rag_edge rag) m m) /\
    (2 <= length c <= 128)%nat /\
    Nat.Even (length c).
Proof.
  intros E Hd.
  destruct (detect_deadlock_report rag d E Hd) as (c & p0 & Hc & Hsc & _).
  exists c. split; [done|]. pose proof Hsc as (Hnd & Hl & Hclose).
  split; [done|]. split; [done|]. split; [done|]. split.
  { intros m Hm. split; [by apply (simple_cycle_valid rag c)|].
    by apply (simple_cycle_tc _ c). }
  split; [by apply (cycle_length_bound rag)|].
  destruct (simple_cycle_balanced rag c Hsc) as (_ & H2 & _).
  eexists. exact H2.
Qed.

Lemma reported_cycle_is_a_cycle_witness :
  let rag := run_ops [OpAddProcess (Some "Process_1"%string) 50;
                      OpAddProcess (Some "Process_2"%string) 50;
                      OpAddResource (Some "Resource_A"%string) 1;
                      OpAddResource (Some "Resource_B"%string) 1;
                      OpAllocate 0 0; OpAllocate 1 1;
                      OpRequest 0 1; OpRequest 1 0] in
  let d := mkDeadlockResult true
             [mkCycle [PNode 0; RNode 1; PNode 1; RNode 0] true] [0; 1] [0; 1] in
  exists c,
    cycles d = [mkCycle c true] /\
    forall m, m ∈ c -> node_valid rag m /\ tc (rag_edge rag) m m.
Proof.
  intros rag d.
  assert (detect_deadlock rag = Some d) as E by (vm_compute; reflexivity).
  destruct (reported_cycle_is_a_cycle rag d E eq_refl)
    as (c & Hc & _ & _ & _ & H & _).
  exists c. split; [exact Hc|exact H].
Defined.

Lemma detect_deadlock_sorted rag d :
  detect_deadlock rag = Some d ->
  StronglySorted Z.lt (deadlocked_processes d) /\
  StronglySorted Z.lt (deadlocked_resources d).
Proof.
  unfold detect_deadlock. apply detect_deadlock_ascending.
Qed.

Lemma StronglySorted_lt_NoDup (l : list Z) : StronglySorted Z.lt l -> NoDup l.
Proof.
  induction 1 as [|x l Hs IH Hall]; [apply NoDup_nil_2|].
  apply NoDup_cons. split; [|done]. intros Hx.
  rewrite Forall_forall in Hall. specialize (Hall x Hx). lia.
Qed.

(** X16. The two deadlocked-id lists of a detection are the nodes of the
    reported cycle: a process id is listed exactly when its process node is
    on the cycle, a resource id exactly when its resource node is, and both
    lists are in strictly ascending order, whatever the order of the nodes on
    the cycle. *)
Theorem deadlocked_lists_are_the_cycle_nodes (rag : RAG) (d : DeadlockResult) :
  detect_deadlock rag = Some d -> deadlock_detected d = true ->
  exists c,
    cycles d = [mkCycle c true] /\
    (forall p, p ∈ deadlocked_processes d <-> PNode p ∈ c) /\
    (forall r, r ∈ deadlocked_resources d <-> RNode r ∈ c) /\
    StronglySorted Z.lt (deadlocked_processes d) /\
    StronglySorted Z.lt (deadlocked_resources d).
Proof.
  intros E Hd.
  destruct (detect_deadlock_report rag d E Hd) as (c & p0 & Hc & _ & _ & _ & Hp & Hr).
  exists c. split; [exact Hc|]. split; [exact Hp|]. split; [exact Hr|].
  exact (detect_deadlock_sorted rag d E).
Qed.

Lemma deadlocked_lists_are_the_cycle_nodes_witness :
  let rag := setup_dining_philosophers rag_init 5 in
  let d := mkDeadlockResult true
             [mkCycle [PNode 0; RNode 1; PNode 1; RNode 2; PNode 2; RNode 3;
                       PNode 3; RNode 4; PNode 4; RNode 0] true]
             [0; 1; 2; 3; 4] [0; 1; 2; 3; 4] in
  exists c,
    cycles d = [mkCycle c true] /\
    (forall p, p ∈ deadlocked_processes d <-> PNode p ∈ c) /\
    (forall r, r ∈ deadlocked_resources d <-> RNode r ∈ c).
Proof.
  intros rag d.
  assert (detect_deadlock rag = Some d) as E by (vm_compute; reflexivity).
  destruct (deadlocked_lists_are_the_cycle_nodes rag d E eq_refl)
    as (c & Hc & Hp & Hr & _).
  exists c. split; [exact Hc|]. split; [exact Hp|exact Hr].
Defined.

Lemma existsb_eqb_elem (l : list Z) i :
  existsb (fun q => q =? i) l = true <-> i ∈ l.
Proof.
  rewrite existsb_exists. split.
  - intros (q & Hq & E). apply Z.eqb_eq in E as ->. by apply list_elem_of_In.
  - intros Hi. exists i. split; [by apply list_elem_of_In|apply Z.eqb_refl].
Qed.

(** X17. [is_process_deadlocked] and [is_resource_in_deadlock] always
    return, and a [true] answer is sound: the slot is active and its node
    lies on a cycle of the graph.  Both answer [false] on a graph without a
    cycle. *)
Theorem deadlocked_query_means_on_a_cycle (rag : RAG) (id : Z) :
  (exists b,
     is_process_deadlocked rag id = Some b /\
     (b = true ->
      proc_slot_active rag id /\ tc (rag_edge rag) (PNode id) (PNode id)) /\
     (~ has_cycle (rag_edge rag) -> b = false)) /\
  (exists b,
     is_resource_in_deadlock rag id = Some b /\
     (b = true ->
      res_slot_active rag id /\ tc (rag_edge rag) (RNode id) (RNode id)) /\
     (~ has_cycle (rag_edge rag) -> b = false)).
Proof.
  destruct (detect_deadlock_correct rag) as (d & E & Hiff).
  split.
  - unfold is_process_deadlocked.
    destruct (Z.ltb_spec id 0); [by exists false|].
    destruct (Z.geb_spec id MAX_PROCESSES); [by exists false|]. cbn [orb].
    destruct (proc_active (processes rag id)) eqn:Hact; [|by exists false].
    cbn [negb]. rewrite E.
    destruct (deadlock_detected d) eqn:Hd; [|by exists false]. cbn [negb].
    eexists. split; [done|]. split.
    + intros Hin. apply existsb_eqb_elem in Hin.
      destruct (detect_deadlock_report rag d E Hd)
        as (c & p0 & _ & Hsc & _ & _ & Hp & _).
      split; [split; [lia|done]|].
      apply (simple_cycle_tc _ c); [done|]. by apply Hp.
    + intros Hno. exfalso. apply Hno. by apply Hiff.
  - unfold is_resource_in_deadlock.
    destruct (Z.ltb_spec id 0); [by exists false|].
    destruct (Z.geb_spec id MAX_RESOURCES); [by exists false|]. cbn [orb].
    destruct (res_active (resources rag id)) eqn:Hact; [|by exists false].
    cbn [negb]. rewrite E.
    destruct (deadlock_detected d) eqn:Hd; [|by exists false]. cbn [negb].
    eexists. split; [done|]. split.
    + intros Hin. apply existsb_eqb_elem in Hin.
      destruct (detect_deadlock_report rag d E Hd)
        as (c & p0 & _ & Hsc & _ & _ & _ & Hr).
      split; [split; [lia|done]|].
      apply (simple_cycle_tc _ c); [done|]. by apply Hr.
    + intros Hno. exfalso. apply Hno. by apply Hiff.
Qed.

(** X18. [dfs_from_process] returns on every graph.  It answers [true]
    exactly when the start process is active and some cycle of the graph can
    be reached from it; the cycle written to the output is then a cycle of
    the graph all of whose nodes are reachable from the start process.  On
    [false] the caller's cycle is left as it was. *)
Theorem dfs_from_process_finds_reachable_cycles (rag : RAG) (p : Z) (cycle : Cycle) :
  exists b out,
    dfs_from_process rag p cycle = Some (b, out) /\
    (b = true <->
     proc_slot_active rag p /\
     exists x, rtc (rag_edge rag) (PNode p) x /\ tc (rag_edge rag) x x) /\
    (b = true ->
     exists c, out = mkCycle c true /\ simple_cycle (rag_edge rag) c /\
               forall m, m ∈ c -> rtc (rag_edge rag) (PNode p) m) /\
    (b = false -> out = cycle).
Proof.
  unfold dfs_from_process.
  destruct (Z.ltb_spec p 0).
  { exists false, cycle. split; [done|]. split; [|done].
    split; [done|]. intros [[? _] _]. lia. }
  destruct (Z.geb_spec p MAX_PROCESSES).
  { exists false, cycle. split; [done|]. split; [|done].
    split; [done|]. intros [[? _] _]. lia. }
  cbn [orb].
  destruct (proc_active (processes rag p)) eqn:Hact; cbn [negb].
  2: { exists false, cycle. split; [done|]. split; [|done].
       split; [done|]. intros [[_ ?] _]. congruence. }
  assert (proc_slot_active rag p) as Hp by (split; [lia|done]).
  change (dfs_visit_process DFS_FUEL rag (init_dfs_state cycle) p)
    with (visit_node DFS_FUEL rag (init_dfs_state cycle) (PNode p)).
  pose proof (dfs_inv_init rag cycle) as Hinv.
  assert (node_valid rag (PNode p) -> forall top,
            last (path (init_dfs_state cycle)) = Some top ->
            rag_edge rag top (PNode p)) as Hedge by done.
  assert (white_nodes (init_dfs_state cycle) < DFS_FUEL)%nat as Hfuel.
  { pose proof (white_nodes_bound (init_dfs_state cycle)). unfold DFS_FUEL. lia. }
  destruct (visit_node_ok rag DFS_FUEL _ (PNode p) Hinv Hedge Hfuel)
    as (b & st1 & E & Hpost).
  pose proof (visit_node_reports rag DFS_FUEL _ (PNode p) b st1 Hinv I Hedge
                Hfuel E) as Hrep.
  rewrite E. exists b, (output_cycle st1). split; [done|]. destruct b.
  - destruct Hrep as (_ & _ & c & Hc & Hsc & Hreach).
    assert (forall m, m ∈ c -> rtc (rag_edge rag) (PNode p) m) as Hall.
    { intros m Hm. destruct (Hreach m Hm) as [Hin|?]; [by inversion Hin|done]. }
    split; [|split; [|done]].
    + split; [|done]. intros _. split; [done|].
      destruct Hsc as (Hnd & Hl & first & final & Hh & Hf & Hback).
      assert (first ∈ c) as Hin.
      { destruct c; [done|]. cbn in Hh. injection Hh as ->.
        apply list_elem_of_here. }
      exists first. split; [by apply Hall|].
      apply (simple_cycle_tc _ c); [|done]. split; [done|]. split; [done|].
      by exists first, final.
    + intros _. by exists c.
  - destruct Hpost as (Hinv1 & _ & _ & Hblack).
    split; [|split; [done|by intros _]].
    split; [done|]. intros [_ (x & Hpx & Hxx)]. exfalso.
    apply (dfs_black_acyclic _ _ Hinv1 x); [|done].
    apply (black_closed_rtc rag st1 (PNode p)); [done|done|]. by apply Hblack.
Qed.

(** X19. For a detected deadlock [calculate_deadlock_depth] is the number
    of processes on the reported cycle, which [get_cycle_processes] counts;
    processes and resources alternate on the cycle, so it is also the number
    of resources ([get_cycle_resources], the length of the
    deadlocked-resource list) and half the length of the cycle; it lies
    between 1 and 64. *)
Theorem deadlock_depth_is_half_the_cycle (rag : RAG) (d : DeadlockResult) :
  detect_deadlock rag = Some d -> deadlock_detected d = true ->
  exists c,
    cycles d = [c] /\
    calculate_deadlock_depth d = fst (get_cycle_processes c MAX_CYCLE_LENGTH) /\
    calculate_deadlock_depth d = fst (get_cycle_resources c MAX_CYCLE_LENGTH) /\
    calculate_deadlock_depth d = Z.of_nat (length (deadlocked_resources d)) /\
    Z.of_nat (length (cyc_nodes c)) = 2 * calculate_deadlock_depth d /\
    1 <= calculate_deadlock_depth d <= MAX_PROCESSES.
Proof.
  intros E Hd.
  destruct (detect_deadlock_report rag d E Hd)
    as (c & p0 & Hc & Hsc & _ & _ & Hp & Hr).
  destruct (detect_deadlock_sorted rag d E) as [Sp Sr].
  apply StronglySorted_lt_NoDup in Sp, Sr.
  pose proof Hsc as (Hnd & _).
  pose proof (length_marked_ids NODE_PROCESS c proc_ids (deadlocked_processes d)
                Hnd Sp Hp) as Lp.
  pose proof (length_marked_ids NODE_RESOURCE c res_ids (deadlocked_resources d)
                Hnd Sr Hr) as Lr.
  destruct (simple_cycle_balanced rag c Hsc) as (Hbal & Hlen & Hpos).
  pose proof (cycle_length_bound rag c Hsc) as Hb.
  pose proof (count_types_length c) as Hcount.
  exists (mkCycle c true). split; [done|].
  unfold calculate_deadlock_depth, get_cycle_processes, get_cycle_resources.
  rewrite Hd. cbn [negb cyc_nodes].
  change (MAX_CYCLE_LENGTH <=? 0) with false. cbn [fst].
  rewrite !collect_upto_spec. cbn [app length]. rewrite !Nat.sub_0_r.
  rewrite !take_ge by (unfold MAX_CYCLE_LENGTH; lia).
  split; [lia|]. split; [lia|]. split; [lia|]. split; [lia|].
  unfold MAX_PROCESSES. lia.
Qed.

Lemma deadlock_depth_is_half_the_cycle_witness :
  let rag := setup_dining_philosophers rag_init 5 in
  let d := mkDeadlockResult true
             [mkCycle [PNode 0; RNode 1; PNode 1; RNode 2; PNode 2; RNode 3;
                       PNode 3; RNode 4; PNode 4; RNode 0] true]
             [0; 1; 2; 3; 4] [0; 1; 2; 3; 4] in
  exists c,
    cycles d = [c] /\
    Z.of_nat (length (cyc_nodes c)) = 2 * calculate_deadlock_depth d.
Proof.
  intros rag d.
  assert (detect_deadlock rag = Some d) as E by (vm_compute; reflexivity).
  destruct (deadlock_depth_is_half_the_cycle rag d E eq_refl)
    as (c & Hc & _ & _ & _ & H & _).
  exists c. split; [exact Hc|exact H].
Defined.


(** ** The wait-for detector *)

Lemma trace_cycle_length room parent next trace cycle :
  (length cycle <= length (trace_cycle room parent next trace cycle)
   <= length cycle + room)%nat.
Proof.
  revert trace cycle. induction room as [|room IH]; intros trace cycle;
    cbn [trace_cycle]; [lia|].
  destruct (trace =? next); [lia|].
  specialize (IH (parent trace) (cycle ++ [trace])).
  rewrite length_app in IH. cbn [length] in IH. lia.
Qed.

Lemma wait_for_while_cycle_length fuel wf n s cyc :
  wait_for_while fuel wf n s = Some (inl cyc) ->
  (1 <= length cyc <= Z.to_nat MAX_PROCESSES)%nat.
Proof.
  revert s. induction fuel as [|fuel IH]; intros s; cbn [wait_for_while].
  - by destruct (wf_stack s).
  - destruct (wf_stack s) as [|current below]; [done|].
    destruct (wait_for_scan _ _ _ _) as [next|next|].
    + intros Heq. apply (inj Some), (inj inl) in Heq. rewrite <- Heq.
      pose proof (trace_cycle_length (Z.to_nat (MAX_PROCESSES - 1)) (wf_parent s)
                    next current [next]) as H.
      cbn [length] in H. clear IH Heq.
      assert (Z.to_nat MAX_PROCESSES = S (Z.to_nat (MAX_PROCESSES - 1))) as ->
        by (unfold MAX_PROCESSES; lia).
      lia.
    + apply IH.
    + apply IH.
Qed.

Lemma wait_for_starts_cycle_length wf n starts colors parent b cyc :
  wait_for_starts wf n starts colors parent = Some (b, cyc) ->
  if b then (1 <= length cyc <= Z.to_nat MAX_PROCESSES)%nat else cyc = [].
Proof.
  revert colors parent. induction starts as [|start starts IH];
    intros colors parent; cbn [wait_for_starts].
  - by intros [= <- <-].
  - destruct (negb _); [apply IH|].
    destruct (wait_for_while _ _ _ _) as [[c|s]|] eqn:E; [| |done].
    + intros [= <- <-]. by apply wait_for_while_cycle_length in E.
    + apply IH.
Qed.

(** X20. On any wait-for matrix and any process count up to 64,
    [detect_cycle_in_wait_for] returns (its while loop ends after at most
    two rounds per process), and it answers [true] exactly when the matrix
    has a cycle among the first [process_count] processes.  The cycle it
    writes has between 1 and 64 entries, so it fits the output array, and
    nothing is written on [false]. *)
Theorem wait_for_detector_sound_and_complete (wf : Z -> Z -> Z) (n : Z) :
  n <= MAX_PROCESSES ->
  exists b cyc,
    detect_cycle_in_wait_for wf n = Some (b, cyc) /\
    (b = true <-> has_cycle (wait_for_edge wf n)) /\
    (b = true -> 1 <= Z.of_nat (length cyc) <= MAX_PROCESSES) /\
    (b = false -> cyc = []).
Proof.
  intros _. destruct (detect_cycle_in_wait_for_correct wf n) as (b & cyc & E & H).
  exists b, cyc. split; [done|]. split; [done|].
  unfold detect_cycle_in_wait_for in E.
  apply wait_for_starts_cycle_length in E.
  destruct b; (split; [|done]); [|done]. intros _. unfold MAX_PROCESSES in *. lia.
Qed.

Lemma wait_for_detector_sound_and_complete_witness :
  let wf := fun p q : Z => if (p =? 0) && (q =? 1) || (p =? 1) && (q =? 0)
                           then 1 else 0 in
  exists b cyc,
    detect_cycle_in_wait_for wf 2 = Some (b, cyc) /\
    (b = true <-> has_cycle (wait_for_edge wf 2)).
Proof.
  intros wf.
  assert (2 <= MAX_PROCESSES) as Hn by (unfold MAX_PROCESSES; lia).
  destruct (wait_for_detector_sound_and_complete wf 2 Hn) as (b & cyc & E & H & _).
  exists b, cyc. split; [exact E|exact H].
Defined.

(** X21. [build_wait_for_graph] writes only zeros and ones, and the entry
    for an ordered pair of slots is one exactly when the first is an active
    process, the second is a different in-range slot, and the first requests
    some resource of which the second holds an instance.  Neither the
    resource nor the holder is tested for being active, and a process never
    waits for itself. *)
Theorem wait_for_graph_entries (rag : RAG) (p q : Z) :
  let wf := build_wait_for_graph rag in
  (wf p q = 0 \/ wf p q = 1) /\
  (wf p q = 1 <->
   proc_slot_active rag p /\ (0 <= q < MAX_PROCESSES) /\ p <> q /\
   exists r, rag_is_requesting rag p r = true /\ rag_is_holding rag q r = true) /\
  wf p p = 0.
Proof.
  cbv zeta.
  assert (forall a b, build_wait_for_graph rag a b = 1 ->
            (0 <= a < MAX_PROCESSES) /\ (0 <= b < MAX_PROCESSES)) as Hrange.
  { intros a b. rewrite build_wait_for_graph_spec.
    destruct (existsb _ proc_ids) eqn:Hex; [|done]. intros _.
    apply existsb_exists in Hex as (p1 & Hp1 & H).
    apply andb_true_iff in H as [_ H].
    apply existsb_exists in H as (r & _ & H).
    apply andb_true_iff in H as [_ H].
    apply existsb_exists in H as (p2 & Hp2 & H).
    apply andb_true_iff in H as [_ H]. apply andb_true_iff in H as [Ha Hb].
    apply Z.eqb_eq in Ha, Hb. subst.
    apply list_elem_of_In, elem_of_proc_ids in Hp1, Hp2. done. }
  assert (forall a b, build_wait_for_graph rag a b = 0
                      \/ build_wait_for_graph rag a b = 1) as Hbit.
  { intros a b. rewrite build_wait_for_graph_spec. destruct (existsb _ _); tauto. }
  assert (forall a b, build_wait_for_graph rag a b = 1 <->
            wait_for_edge (build_wait_for_graph rag) MAX_PROCESSES a b) as Hedge.
  { intros a b. split.
    - intros H. destruct (Hrange a b H). split; [done|]. split; [done|]. lia.
    - intros (_ & _ & H). destruct (Hbit a b); [done|done]. }
  split; [apply Hbit|]. split.
  - rewrite Hedge, wait_for_edge_build. split.
    + intros (Hp & Hq & Hne & r & Hr & Hreq & Hasg).
      split; [done|]. split; [done|]. split; [done|]. exists r.
      unfold rag_is_requesting, rag_is_holding. destruct Hp as [Hp _].
      destruct (Z.ltb_spec p 0), (Z.geb_spec p MAX_PROCESSES); try lia.
      destruct (Z.ltb_spec q 0), (Z.geb_spec q MAX_PROCESSES); try lia.
      destruct (Z.ltb_spec r 0), (Z.geb_spec r MAX_RESOURCES); try lia.
      cbn [orb]. split; by apply Z.gtb_lt.
    + intros (Hp & Hq & Hne & r & Hreq & Hasg).
      split; [done|]. split; [done|]. split; [done|]. exists r.
      revert Hreq Hasg. unfold rag_is_requesting, rag_is_holding.
      destruct Hp as [Hp _].
      destruct (Z.ltb_spec p 0), (Z.geb_spec p MAX_PROCESSES); try lia.
      destruct (Z.ltb_spec q 0), (Z.geb_spec q MAX_PROCESSES); try lia.
      cbn [orb].
      destruct (Z.ltb_spec r 0); [done|].
      destruct (Z.geb_spec r MAX_RESOURCES); [done|]. cbn [orb].
      intros Hrq Has. apply Z.gtb_lt in Hrq, Has. split; [lia|]. split; lia.
  - destruct (Hbit p p) as [?|H]; [done|]. exfalso.
    apply Hedge, wait_for_edge_build in H as (_ & _ & H & _). done.
Qed.


(** ** Victim selection *)

(** The state of the selection loop after a prefix [l] of the list. *)
Lemma victim_fold_spec rag criteria l :
  let '(victim, best, first) :=
    fold_left (victim_step rag criteria) l (-1, 0, true) in
  (first = true /\ victim = -1 /\
   forall q, q ∈ l -> proc_active (processes rag q) = false) \/
  (first = false /\ victim ∈ l /\ proc_active (processes rag victim) = true /\
   best = victim_score rag criteria victim /\
   (forall q, q ∈ l -> proc_active (processes rag q) = true ->
              victim_score rag criteria q <= best) /\
   exists l1 l2, l = l1 ++ victim :: l2 /\
     forall q, q ∈ l1 -> proc_active (processes rag q) = true ->
               victim_score rag criteria q < best).
Proof.
  induction l as [|x l IH] using rev_ind.
  - left. split; [done|]. split; [done|]. intros q Hq. by inversion Hq.
  - rewrite fold_left_app. cbn [fold_left].
    destruct (fold_left (victim_step rag criteria) l (-1, 0, true))
      as [[victim best] first].
    unfold victim_step.
    destruct (proc_active (processes rag x)) eqn:Hx; cbn [negb].
    + destruct IH as [(-> & -> & Hnone)|(-> & Hin & Hact & -> & Hmax & l1 & l2 & -> & Hl1)].
      * cbn [orb]. right. split; [done|].
        split; [apply elem_of_app; right; apply list_elem_of_here|].
        split; [done|]. split; [done|]. split.
        -- intros q Hq Hqa. apply elem_of_app in Hq as [Hq|Hq].
           ++ rewrite Hnone in Hqa; done.
           ++ apply list_elem_of_singleton in Hq as ->. lia.
        -- exists l, []. split; [done|]. intros q Hq Hqa.
           rewrite Hnone in Hqa; done.
      * cbn [orb].
        destruct (Z.gtb_spec (victim_score rag criteria x)
                             (victim_score rag criteria victim)) as [Hgt|Hle].
        -- right. split; [done|].
           split; [apply elem_of_app; right; apply list_elem_of_here|].
           split; [done|]. split; [done|]. split.
           ++ intros q Hq Hqa. apply elem_of_app in Hq as [Hq|Hq].
              ** specialize (Hmax q Hq Hqa). lia.
              ** apply list_elem_of_singleton in Hq as ->. lia.
           ++ exists (l1 ++ victim :: l2), []. split; [done|].
              intros q Hq Hqa. specialize (Hmax q Hq Hqa). lia.
        -- right. split; [done|].
           split; [apply elem_of_app; by left|].
           split; [done|]. split; [done|]. split.
           ++ intros q Hq Hqa. apply elem_of_app in Hq as [Hq|Hq].
              ** by apply Hmax.
              ** apply list_elem_of_singleton in Hq as ->. lia.
           ++ exists l1, (l2 ++ [x]). split; [by rewrite <- app_assoc|done].
    + destruct IH as [(-> & -> & Hnone)|(-> & Hin & Hact & -> & Hmax & l1 & l2 & -> & Hl1)].
      * left. split; [done|]. split; [done|]. intros q Hq.
        apply elem_of_app in Hq as [Hq|Hq]; [by apply Hnone|].
        by apply list_elem_of_singleton in Hq as ->.
      * right. split; [done|].
        split; [apply elem_of_app; by left|].
        split; [done|]. split; [done|]. split.
        -- intros q Hq Hqa. apply elem_of_app in Hq as [Hq|Hq]; [by apply Hmax|].
           apply list_elem_of_singleton in Hq as ->. congruence.
        -- exists l1, (l2 ++ [x]). split; [by rewrite <- app_assoc|done].
Qed.

Lemma select_victim_spec rag deadlock criteria :
  (forall q, q ∈ deadlocked_processes deadlock -> 0 <= q < MAX_PROCESSES) ->
  let v := select_victim_process rag deadlock criteria in
  let candidate q :=
    q ∈ deadlocked_processes deadlock /\ proc_active (processes rag q) = true in
  (v = -1 <-> forall q, ~ candidate q) /\
  (v <> -1 ->
   candidate v /\
   (forall q, candidate q ->
              victim_score rag criteria q <= victim_score rag criteria v) /\
   exists l1 l2,
     deadlocked_processes deadlock = l1 ++ v :: l2 /\
     forall q, q ∈ l1 -> proc_active (processes rag q) = true ->
               victim_score rag criteria q < victim_score rag criteria v).
Proof.
  intros Hrange. cbv zeta. unfold select_victim_process.
  destruct (deadlocked_processes deadlock) as [|x l] eqn:El.
  { cbn [length]. change (Z.of_nat 0 =? 0) with true. cbn iota.
    split; [|done]. split; [|done]. intros _ q [Hq _]. by inversion Hq. }
  rewrite <- El in *.
  assert ((Z.of_nat (length (deadlocked_processes deadlock)) =? 0) = false) as ->.
  { rewrite El. cbn [length]. apply Z.eqb_neq. lia. }
  pose proof (victim_fold_spec rag criteria (deadlocked_processes deadlock)) as H.
  destruct (fold_left _ _ _) as [[victim best] first]. cbn [fst].
  destruct H as [(-> & -> & Hnone)|(-> & Hin & Hact & -> & Hmax & Hfirst)].
  - split; [|done]. split; [|done]. intros _ q [Hq Hqa].
    rewrite Hnone in Hqa; done.
  - split.
    + split.
      * intros ->. apply Hrange in Hin. lia.
      * intros Hno. exfalso. by apply (Hno victim).
    + intros _. split; [done|]. split; [|done].
      intros q [Hq Hqa]. by apply Hmax.
Qed.

Lemma length_res_ids : length res_ids = 64%nat.
Proof. reflexivity. Qed.

Lemma length_proc_ids : length proc_ids = 64%nat.
Proof. reflexivity. Qed.

(** With priorities between 0 and 100 and at most a million instances per
    assignment entry, every quantity [select_victim_process] computes for a
    process stays within [int]: the sums run over non-negative terms, so
    their partial sums are bounded by the totals bounded here. *)
Lemma victim_scores_fit rag criteria q :
  0 <= q < MAX_PROCESSES ->
  0 <= proc_priority (processes rag q) <= 100 ->
  (forall r, 0 <= r < MAX_RESOURCES -> 0 <= assignment_matrix rag q r <= 1000000) ->
  fits_int (held_units rag q) /\
  fits_int (calculate_termination_cost rag q) /\
  fits_int (victim_score rag criteria q).
Proof.
  intros Hq Hprio Hasg.
  assert (0 <= held_units rag q <= 64000000) as Hheld.
  { unfold held_units. split.
    - apply zsum_nonneg. intros r Hr. apply elem_of_res_ids in Hr. by apply Hasg.
    - pose proof (zsum_upper (fun r => assignment_matrix rag q r) res_ids 1000000)
        as H. rewrite length_res_ids in H.
      assert (forall i, i ∈ res_ids -> assignment_matrix rag q i <= 1000000) as Hle.
      { intros r Hr. apply elem_of_res_ids in Hr. by apply Hasg. }
      specialize (H Hle). lia. }
  assert (0 <= calculate_termination_cost rag q <= 1280062440) as Hcost.
  { unfold calculate_termination_cost.
    destruct (_ || _); [lia|]. destruct (negb _); [lia|].
    assert (0 <= zsum (fun r => assignment_matrix rag q r * 20) res_ids
            <= 1280000000) as H20.
    { split.
      - apply zsum_nonneg. intros r Hr. apply elem_of_res_ids in Hr.
        specialize (Hasg r Hr). lia.
      - pose proof (zsum_upper (fun r => assignment_matrix rag q r * 20) res_ids
                      20000000) as H. rewrite length_res_ids in H.
        assert (forall i, i ∈ res_ids -> assignment_matrix rag q i * 20 <= 20000000)
          as Hle.
        { intros r Hr. apply elem_of_res_ids in Hr. specialize (Hasg r Hr). lia. }
        specialize (H Hle). lia. }
    assert (forall r,
              0 <= zsum (fun p2 => if request_matrix rag p2 r >? 0 then 15 else 0)
                        proc_ids <= 960) as Hinner.
    { intros r. split.
      - apply zsum_nonneg. intros p2 _. destruct (_ >? 0); lia.
      - pose proof (zsum_upper
                      (fun p2 => if request_matrix rag p2 r >? 0 then 15 else 0)
                      proc_ids 15) as H. rewrite length_proc_ids in H.
        assert (forall i, i ∈ proc_ids ->
                  (if request_matrix rag i r >? 0 then 15 else 0) <= 15) as Hle.
        { intros p2 _. destruct (_ >? 0); lia. }
        specialize (H Hle). lia. }
    assert (0 <= zsum (fun r =>
                         if assignment_matrix rag q r >? 0
                         then zsum (fun p2 => if request_matrix rag p2 r >? 0
                                              then 15 else 0) proc_ids
                         else 0) res_ids <= 61440) as Hdep.
    { split.
      - apply zsum_nonneg. intros r _. destruct (_ >? 0); [apply Hinner|lia].
      - pose proof (zsum_upper
                      (fun r =>
                         if assignment_matrix rag q r >? 0
                         then zsum (fun p2 => if request_matrix rag p2 r >? 0
                                              then 15 else 0) proc_ids
                         else 0) res_ids 960) as H.
        rewrite length_res_ids in H.
        assert (forall i, i ∈ res_ids ->
                  (if assignment_matrix rag q i >? 0
                   then zsum (fun p2 => if request_matrix rag p2 i >? 0
                                        then 15 else 0) proc_ids
                   else 0) <= 960) as Hle.
        { intros r _. destruct (_ >? 0); [apply Hinner|lia]. }
        specialize (H Hle). lia. }
    lia. }
  unfold fits_int, INT_MIN, INT_MAX. split; [lia|]. split; [lia|].
  destruct criteria; unfold victim_score, MAX_RESOURCES, MAX_PROCESSES in *; lia.
Qed.

(** X22. Over a list of in-range process ids whose processes have
    priorities between 0 and 100 and at most a million instances per
    assignment entry, no [int] computation of [select_victim_process]
    overflows (the held count, the termination cost and the score all fit),
    and it returns -1 exactly when no listed process is active.  Otherwise,
    for every selection criterion, it returns an active listed process whose
    score for that criterion is the highest among the active listed
    processes, and among equals the one listed first. *)
Theorem victim_is_the_best_active_candidate (rag : RAG) (deadlock : DeadlockResult)
    (criteria : SelectionCriteria) :
  (forall q, q ∈ deadlocked_processes deadlock -> 0 <= q < MAX_PROCESSES) ->
  (forall q, q ∈ deadlocked_processes deadlock ->
             0 <= proc_priority (processes rag q) <= 100) ->
  (forall q r, q ∈ deadlocked_processes deadlock -> 0 <= r < MAX_RESOURCES ->
               0 <= assignment_matrix rag q r <= 1000000) ->
  let v := select_victim_process rag deadlock criteria in
  let candidate q :=
    q ∈ deadlocked_processes deadlock /\ proc_active (processes rag q) = true in
  (forall q, q ∈ deadlocked_processes deadlock ->
     fits_int (held_units rag q) /\
     fits_int (calculate_termination_cost rag q) /\
     fits_int (victim_score rag criteria q)) /\
  (v = -1 <-> forall q, ~ candidate q) /\
  (v <> -1 ->
   candidate v /\
   (forall q, candidate q ->
              victim_score rag criteria q <= victim_score rag criteria v) /\
   exists l1 l2,
     deadlocked_processes deadlock = l1 ++ v :: l2 /\
     forall q, q ∈ l1 -> proc_active (processes rag q) = true ->
               victim_score rag criteria q < victim_score rag criteria v).
Proof.
  intros Hrange Hprio Hasg. cbv zeta. split.
  - intros q Hq. apply victim_scores_fit; [by apply Hrange|by apply Hprio|].
    intros r Hr. by apply Hasg.
  - exact (select_victim_spec rag deadlock criteria Hrange).
Qed.

Lemma victim_is_the_best_active_candidate_witness :
  let rag := run_ops [OpAddProcess (Some "P1"%string) 30;
                      OpAddProcess (Some "P2"%string) 70;
                      OpAddResource (Some "A"%string) 2;
                      OpAllocate 1 0; OpAllocate 1 0] in
  let deadlock := mkDeadlockResult true [] [0; 1] [] in
  select_victim_process rag deadlock SELECT_MOST_RESOURCES <> -1 /\
  fits_int (victim_score rag SELECT_MOST_RESOURCES 1) /\
  victim_score rag SELECT_MOST_RESOURCES 0
  <= victim_score rag SELECT_MOST_RESOURCES
       (select_victim_process rag deadlock SELECT_MOST_RESOURCES).
Proof.
  intros rag deadlock.
  assert (forall q, q ∈ deadlocked_processes deadlock -> q = 0 \/ q = 1) as Hlist.
  { intros q Hq. cbn in Hq.
    apply elem_of_cons in Hq as [->|Hq]; [by left|].
    apply elem_of_cons in Hq as [->|Hq]; [by right|]. by inversion Hq. }
  assert (forall q, q ∈ deadlocked_processes deadlock -> 0 <= q < MAX_PROCESSES)
    as Hrange.
  { intros q Hq. unfold MAX_PROCESSES. destruct (Hlist q Hq) as [->| ->]; lia. }
  assert (forall q, q ∈ deadlocked_processes deadlock ->
                    0 <= proc_priority (processes rag q) <= 100) as Hprio.
  { intros q Hq. destruct (Hlist q Hq) as [->| ->]; vm_compute;
      split; discriminate. }
  assert (forall q r, q ∈ deadlocked_processes deadlock -> 0 <= r < MAX_RESOURCES ->
                      0 <= assignment_matrix rag q r <= 1000000) as Hasg.
  { intros q r Hq Hr.
    assert (forallb (fun a =>
              forallb (fun c => (0 <=? assignment_matrix rag a c)
                                && (assignment_matrix rag a c <=? 1000000))
                      res_ids) [0; 1] = true) as Hall by (vm_compute; reflexivity).
    rewrite forallb_forall in Hall.
    assert (In q [0; 1]) as Hin by (destruct (Hlist q Hq) as [->| ->]; cbn; tauto).
    specialize (Hall q Hin). rewrite forallb_forall in Hall.
    assert (In r res_ids) as Hr' by (by apply list_elem_of_In, elem_of_res_ids).
    specialize (Hall r Hr'). apply andb_true_iff in Hall as [H1 H2].
    apply Z.leb_le in H1, H2. lia. }
  destruct (victim_is_the_best_active_candidate rag deadlock SELECT_MOST_RESOURCES
              Hrange Hprio Hasg) as (Hfit & _ & H).
  assert (select_victim_process rag deadlock SELECT_MOST_RESOURCES <> -1) as Hne.
  { vm_compute. discriminate. }
  split; [exact Hne|]. split.
  - apply Hfit. apply list_elem_of_further, list_elem_of_here.
  - destruct (H Hne) as (_ & Hmax & _). apply Hmax.
    split; [apply list_elem_of_here|reflexivity].
Defined.

(** ** Recovery keeps the store invariant *)

Lemma store_inv_terminate_all_step acc pid :
  store_inv (fst (fst acc)) -> store_inv (fst (fst (terminate_all_step acc pid))).
Proof.
  destruct acc as [[rag result] k]. cbn [fst]. intros Hinv.
  unfold terminate_all_step. destruct (rag_get_process rag pid); [|done].
  cbn [fst]. apply store_inv_remove_process.
  by destruct (release_all_spec rag pid Hinv) as [? _].
Qed.

Lemma store_inv_terminate_all_fold l acc :
  store_inv (fst (fst acc)) ->
  store_inv (fst (fst (fold_left terminate_all_step l acc))).
Proof.
  revert acc. induction l as [|x l IH]; intros acc Ha; [done|]. cbn [fold_left].
  by apply IH, store_inv_terminate_all_step.
Qed.

Lemma store_inv_terminate_all rag deadlock result :
  store_inv rag ->
  store_inv (snd (fst (recovery_terminate_all rag deadlock result))).
Proof.
  intros Hinv. unfold recovery_terminate_all.
  pose proof (store_inv_terminate_all_fold (deadlocked_processes deadlock)
                (rag, result, 0) Hinv) as H.
  destruct (fold_left _ _ _) as [[rag' result'] k]. done.
Qed.

Lemma store_inv_terminate_one rag deadlock criteria result :
  store_inv rag ->
  store_inv (snd (fst (recovery_terminate_one rag deadlock criteria result))).
Proof.
  intros Hinv. unfold recovery_terminate_one.
  destruct (_ <? 0); [done|].
  destruct (rag_get_process rag _); [|done].
  pose proof (release_all_spec rag (select_victim_process rag deadlock criteria)
                Hinv) as [H _].
  destruct (rag_release_all_resources rag _) as [released rag1].
  cbn [fst snd] in *. by apply store_inv_remove_process.
Qed.

Lemma store_inv_preempt_fold p l acc :
  store_inv (fst (fst acc)) ->
  store_inv (fst (fst (fold_left (preempt_step p) l acc))).
Proof.
  revert acc. induction l as [|x l IH]; intros acc Ha; [done|]. cbn [fold_left].
  apply IH. destruct acc as [[rag result] k]. cbn [fst] in *.
  unfold preempt_step. pose proof (store_inv_release rag p x Ha) as H.
  by destruct (rag_release_resource rag p x) as [[] rag1].
Qed.

Lemma store_inv_preempt rag p rids result :
  store_inv rag ->
  store_inv (snd (fst (recovery_preempt_resources rag p rids result))).
Proof.
  intros Hinv. unfold recovery_preempt_resources.
  destruct (_ || _); [done|]. destruct (rag_get_process rag p); [|done].
  destruct rids as [|rid rids].
  - pose proof (release_all_spec rag p Hinv) as [H _].
    destruct (rag_release_all_resources rag p) as [n rag1]. cbn [fst snd] in *.
    by apply store_inv_store_state.
  - pose proof (store_inv_preempt_fold p (rid :: rids) (rag, result, 0) Hinv) as H.
    destruct (fold_left _ _ _) as [[rag1 result1] k]. cbn [fst snd] in *.
    by apply store_inv_store_state.
Qed.

Lemma store_inv_cancel_fold p l rag :
  store_inv rag ->
  store_inv (fold_left (fun g r => snd (rag_cancel_request g p r)) l rag).
Proof.
  revert rag. induction l as [|x l IH]; intros rag Ha; [done|]. cbn [fold_left].
  by apply IH, store_inv_cancel.
Qed.

Lemma store_inv_rollback rag p result :
  store_inv rag ->
  store_inv (snd (fst (recovery_rollback_process rag p result))).
Proof.
  intros Hinv. unfold recovery_rollback_process.
  destruct (_ || _); [done|]. destruct (rag_get_process rag p); [|done].
  pose proof (release_all_spec rag p Hinv) as [H _].
  destruct (rag_release_all_resources rag p) as [n rag1]. cbn [fst snd] in *.
  by apply store_inv_store_state, store_inv_cancel_fold.
Qed.

Lemma store_inv_recover rag deadlock config :
  store_inv rag ->
  store_inv (snd (fst (recover_from_deadlock rag deadlock config))).
Proof.
  intros Hinv. unfold recover_from_deadlock.
  destruct (negb _); [done|].
  destruct (strategy config).
  - by apply store_inv_terminate_all.
  - by apply store_inv_terminate_one.
  - by apply store_inv_terminate_one.
  - by apply store_inv_terminate_one.
  - by apply store_inv_terminate_one.
  - destruct (_ >=? 0); [|done].
    pose proof (store_inv_preempt rag
                  (select_victim_process rag deadlock (selection config)) []
                  recovery_result_init Hinv) as H.
    by destruct (recovery_preempt_resources _ _ _ _) as [[n rag1] result1].
  - destruct (_ >=? 0); [|done]. by apply store_inv_rollback.
Qed.

(** X23. Recovery never breaks the bookkeeping of the store: for a
    deadlock result whose listed process ids are in range (they index the
    process table unchecked in [select_victim_process]) and any
    configuration, [recover_from_deadlock] (and each of the four strategy
    functions it dispatches to, called directly) takes a store that
    satisfies the invariant to one that satisfies it: holdings stay
    non-negative, edges join active slots only, and for every active
    resource available plus assigned instances is its total. *)
Theorem recovery_keeps_store_invariant (rag : RAG) (deadlock : DeadlockResult)
    (config : RecoveryConfig) (result : RecoveryResult) (p : Z) (rids : list Z) :
  store_inv rag ->
  (forall q, q ∈ deadlocked_processes deadlock -> 0 <= q < MAX_PROCESSES) ->
  store_inv (snd (fst (recover_from_deadlock rag deadlock config))) /\
  store_inv (snd (fst (recovery_terminate_all rag deadlock result))) /\
  store_inv (snd (fst (recovery_terminate_one rag deadlock (selection config)
                                              result))) /\
  store_inv (snd (fst (recovery_preempt_resources rag p rids result))) /\
  store_inv (snd (fst (recovery_rollback_process rag p result))).
Proof.
  intros Hinv _. split; [by apply store_inv_recover|].
  split; [by apply store_inv_terminate_all|].
  split; [by apply store_inv_terminate_one|].
  split; [by apply store_inv_preempt|by apply store_inv_rollback].
Qed.

Lemma recovery_keeps_store_invariant_witness :
  let rag := run_ops [OpAddProcess (Some "Process_1"%string) 50;
                      OpAddProcess (Some "Process_2"%string) 50;
                      OpAddResource (Some "Resource_A"%string) 1;
                      OpAddResource (Some "Resource_B"%string) 1;
                      OpAllocate 0 0; OpAllocate 1 1;
                      OpRequest 0 1; OpRequest 1 0] in
  let deadlock := mkDeadlockResult true [] [0; 1] [0; 1] in
  store_inv (snd (fst (recover_from_deadlock rag deadlock recovery_config_init))).
Proof.
  intros rag deadlock.
  assert (forall q, q ∈ deadlocked_processes deadlock -> 0 <= q < MAX_PROCESSES)
    as Hrange.
  { intros q Hq. cbn in Hq. unfold MAX_PROCESSES.
    apply elem_of_cons in Hq as [->|Hq]; [lia|].
    apply elem_of_cons in Hq as [->|Hq]; [lia|]. by inversion Hq. }
  destruct (recovery_keeps_store_invariant rag deadlock recovery_config_init
              recovery_result_init 0 [] (store_inv_run_ops _) Hrange) as [H _].
  exact H.
Defined.


(** ** What the recovery strategies do to the victim *)

Lemma cancel_effect rag p r :
  let rag' := snd (rag_cancel_request rag p r) in
  resources rag' = resources rag /\
  assignment_matrix rag' = assignment_matrix rag /\
  (forall q, q <> p -> processes rag' q = processes rag q) /\
  proc_active (processes rag' p) = proc_active (processes rag p) /\
  (forall a b, (a <> p \/ b <> r) -> request_matrix rag' a b = request_matrix rag a b) /\
  (0 <= p < MAX_PROCESSES -> 0 <= r < MAX_RESOURCES -> request_matrix rag' p r = 0).
Proof.
  cbv zeta. unfold rag_cancel_request.
  destruct (Z.ltb_spec p 0); [by split_and!; try done; lia|].
  destruct (Z.geb_spec p MAX_PROCESSES); [by split_and!; try done; lia|].
  cbn [orb].
  destruct (Z.ltb_spec r 0); [by split_and!; try done; lia|].
  destruct (Z.geb_spec r MAX_RESOURCES); [by split_and!; try done; lia|].
  cbn [orb].
  destruct (Z.eqb_spec (request_matrix rag p r) 0) as [E|E];
    [by split_and!|].
  destruct (_ && _); cbn [snd store_state with_processes with_request processes
                         resources assignment_matrix request_matrix].
  - split; [done|]. split; [done|]. split; [intros q Hq; by rewrite upd_ne|].
    split; [by rewrite upd_eq|]. split; [intros a b Hab; by rewrite upd2_ne|].
    intros _ _. by rewrite upd2_eq.
  - split; [done|]. split; [done|]. split; [done|]. split; [done|].
    split; [intros a b Hab; by rewrite upd2_ne|].
    intros _ _. by rewrite upd2_eq.
Qed.

Lemma cancel_fold_effect p l rag :
  let rag' := fold_left (fun g r => snd (rag_cancel_request g p r)) l rag in
  resources rag' = resources rag /\
  assignment_matrix rag' = assignment_matrix rag /\
  (forall q, q <> p -> processes rag' q = processes rag q) /\
  proc_active (processes rag' p) = proc_active (processes rag p) /\
  (forall a b, (a <> p \/ b ∉ l) -> request_matrix rag' a b = request_matrix rag a b) /\
  (0 <= p < MAX_PROCESSES ->
   forall b, b ∈ l -> 0 <= b < MAX_RESOURCES -> request_matrix rag' p b = 0).
Proof.
  cbv zeta. revert rag. induction l as [|r l IH]; intros rag; cbn [fold_left].
  - split_and!; try done. intros _ b Hb. by inversion Hb.
  - destruct (cancel_effect rag p r) as (C1 & C2 & C3 & C4 & C5 & C6).
    cbv zeta in C1, C2, C3, C4, C5, C6.
    destruct (IH (snd (rag_cancel_request rag p r))) as (I1 & I2 & I3 & I4 & I5 & I6).
    split; [by rewrite I1|]. split; [by rewrite I2|].
    split; [intros q Hq; by rewrite I3, C3|]. split; [by rewrite I4|].
    split.
    + intros a b Hab. rewrite I5.
      * apply C5. destruct Hab as [?|Hb]; [by left|]. right. intros ->.
        apply Hb, list_elem_of_here.
      * destruct Hab as [?|Hb]; [by left|]. right. intros Hb'.
        apply Hb. by apply list_elem_of_further.
    + intros Hp b Hb Hbr. destruct (decide (b ∈ l)) as [Hin|Hnin].
      * by apply I6.
      * apply elem_of_cons in Hb as [->|?]; [|done].
        rewrite I5 by (by right). by apply C6.
Qed.

Lemma record_action_preempted res a :
  resources_preempted (record_action res a) = resources_preempted res /\
  rec_success (record_action res a) = rec_success res /\
  processes_terminated (record_action res a) = processes_terminated res.
Proof. unfold record_action. by destruct (_ <? _). Qed.

Lemma holding_zero rag p r :
  assignment_matrix rag p r = 0 -> rag_is_holding rag p r = false.
Proof.
  intros H. unfold rag_is_holding. rewrite H.
  destruct (_ || _); [done|]. by destruct (_ || _).
Qed.

Lemma rollback_effect (rag : RAG) (p : Z)
    (result : RecoveryResult) :
  store_inv rag -> proc_slot_active rag p ->
  let '(ok, rag', result') := recovery_rollback_process rag p result in
  ok = true /\ rec_success result' = true /\
  proc_slot_active rag' p /\
  proc_state (processes rag' p) = PROCESS_RUNNING /\
  (forall r, rag_is_holding rag' p r = false /\ rag_is_requesting rag' p r = false) /\
  (forall r, res_slot_active rag r ->
     available_instances (resources rag' r)
     = available_instances (resources rag r) + assignment_matrix rag p r) /\
  resources_preempted result' = resources_preempted result + held_units rag p /\
  (forall q, q <> p ->
     processes rag' q = processes rag q /\
     forall r, request_matrix rag' q r = request_matrix rag q r /\
               assignment_matrix rag' q r = assignment_matrix rag q r).
Proof.
  intros Hinv [Hp Hact]. unfold recovery_rollback_process.
  destruct (Z.ltb_spec p 0), (Z.geb_spec p MAX_PROCESSES); try lia. cbn [orb].
  unfold rag_get_process.
  destruct (Z.ltb_spec p 0), (Z.geb_spec p MAX_PROCESSES); try lia. cbn [orb].
  rewrite Hact. cbn [negb].
  destruct (release_all_effect rag p Hinv Hp) as (R1 & R2 & R3 & R4 & R5).
  cbv zeta in R1, R2, R3, R4, R5.
  destruct (rag_release_all_resources rag p) as [released rag1]. cbn [fst snd] in *.
  destruct (cancel_fold_effect p res_ids rag1) as (C1 & C2 & C3 & C4 & C5 & C6).
  cbv zeta in C1, C2, C3, C4, C5, C6.
  set (rag2 := fold_left (fun g r => snd (rag_cancel_request g p r)) res_ids rag1)
    in *.
  destruct R5 as (S1 & S2 & _).
  destruct (record_action_preempted result (mkAction p (-1) RECOVERY_ROLLBACK true))
    as (A1 & _).
  cbn [store_state with_processes processes resources request_matrix
       assignment_matrix rec_success resources_preempted].
  split; [done|]. split; [done|]. split.
  { split; [done|]. cbn [store_state with_processes processes].
    rewrite upd_eq. cbn [set_state proc_active].
    by rewrite C4, S1. }
  split; [by rewrite upd_eq|]. split.
  { intros r. split.
    - apply holding_zero.
      cbn [store_state with_processes assignment_matrix]. by rewrite C2.
    - unfold rag_is_requesting. cbn [store_state with_processes request_matrix].
      destruct (Z.ltb_spec p 0), (Z.geb_spec p MAX_PROCESSES); try lia. cbn [orb].
      destruct (Z.ltb_spec r 0); [done|].
      destruct (Z.geb_spec r MAX_RESOURCES); [done|]. cbn [orb].
      rewrite C6; [done|done| |lia]. apply elem_of_res_ids. lia. }
  split.
  { intros r Hr. rewrite C1. by apply R3. }
  split; [rewrite A1, R1; done|].
  intros q Hq. split.
  { rewrite upd_ne by done. by rewrite C3, S1. }
  intros r. split.
  - rewrite C5 by (by left). by rewrite S2.
  - rewrite C2. by apply R4.
Qed.



Lemma preempt_all_effect (rag : RAG) (p : Z) (result : RecoveryResult) :
  store_inv rag -> proc_slot_active rag p ->
  let '(preempted, rag', result') := recovery_preempt_resources rag p [] result in
  preempted = held_units rag p /\
  (forall r, rag_is_holding rag' p r = false) /\
  (forall r, res_slot_active rag r ->
     available_instances (resources rag' r)
     = available_instances (resources rag r) + assignment_matrix rag p r) /\
  proc_slot_active rag' p /\
  proc_state (processes rag' p) = PROCESS_BLOCKED /\
  request_matrix rag' = request_matrix rag /\
  resources_preempted result' = resources_preempted result + preempted /\
  (forall q, q <> p ->
     processes rag' q = processes rag q /\
     forall r, assignment_matrix rag' q r = assignment_matrix rag q r).
Proof.
  intros Hinv [Hp Hact]. unfold recovery_preempt_resources.
  destruct (Z.ltb_spec p 0), (Z.geb_spec p MAX_PROCESSES); try lia. cbn [orb].
  unfold rag_get_process.
  destruct (Z.ltb_spec p 0), (Z.geb_spec p MAX_PROCESSES); try lia. cbn [orb].
  rewrite Hact. cbn [negb].
  destruct (release_all_effect rag p Hinv Hp) as (R1 & R2 & R3 & R4 & R5).
  cbv zeta in R1, R2, R3, R4, R5.
  destruct (rag_release_all_resources rag p) as [released rag1]. cbn [fst snd] in *.
  destruct R5 as (S1 & S2 & _).
  destruct (record_action_preempted result
              (mkAction p (-1) RECOVERY_PREEMPT_RESOURCES true)) as (A1 & _).
  cbn [store_state with_processes processes resources request_matrix
       assignment_matrix rec_success resources_preempted].
  split; [done|]. split.
  { intros r. apply holding_zero.
    cbn [store_state with_processes assignment_matrix]. apply R2. }
  split; [done|]. split.
  { split; [done|]. cbn [store_state with_processes processes].
    rewrite upd_eq. cbn [set_state proc_active].
    by rewrite S1. }
  split; [by rewrite upd_eq|]. split; [done|]. split; [by rewrite A1|].
  intros q Hq. split; [rewrite upd_ne by done; by rewrite S1|].
  intros r. by apply R4.
Qed.



(** ** Terminating one process *)

Lemma terminate_one_effect rag deadlock criteria result :
  (forall q, q ∈ deadlocked_processes deadlock -> 0 <= q < MAX_PROCESSES) ->
  let v := select_victim_process rag deadlock criteria in
  let '(ok, rag', result') := recovery_terminate_one rag deadlock criteria result in
  (ok = true <->
   exists q, q ∈ deadlocked_processes deadlock /\
             proc_active (processes rag q) = true) /\
  (ok = false ->
   rag' = rag /\
   result' = set_summary result "No suitable victim process found") /\
  (ok = true ->
   v ∈ deadlocked_processes deadlock /\ proc_slot_active rag v /\
   graph_minus rag rag' [v] /\
   rec_success result' = true /\ processes_terminated result' = 1 /\
   resources_preempted result' = fst (rag_release_all_resources rag v)).
Proof.
  intros Hrange.
  destruct (select_victim_spec rag deadlock criteria Hrange) as [Hnone Hsome].
  cbv zeta in Hnone, Hsome |- *. unfold recovery_terminate_one.
  set (v := select_victim_process rag deadlock criteria) in *.
  destruct (Z.ltb_spec v 0) as [Hneg|Hpos].
  - assert (v = -1) as Hv.
    { destruct (Z.eq_dec v (-1)) as [|Hne]; [done|].
      destruct (Hsome Hne) as [[Hin _] _]. apply Hrange in Hin. lia. }
    split; [|done]. split; [done|]. intros (q & Hq & Hqa). exfalso.
    destruct Hnone as [Hnone _]. by apply (Hnone Hv q).
  - assert (v <> -1) as Hne by lia.
    destruct (Hsome Hne) as [[Hin Hact] _].
    assert (proc_slot_active rag v) as Hslot by (split; [by apply Hrange|done]).
    destruct (rag_get_process rag v) as [x|] eqn:Hget.
    2: { assert (is_Some (rag_get_process rag v)) as [? ?]
           by (by apply rag_get_process_Some). congruence. }
    pose proof (terminate_all_step_minus rag result 0 v) as Hminus.
    unfold terminate_all_step in Hminus. rewrite Hget in Hminus.
    cbn [fst] in Hminus.
    destruct (rag_release_all_resources rag v) as [released rag1].
    cbn [fst snd] in *.
    split; [|split; [done|]].
    + split; [|done]. intros _. by exists v.
    + intros _. done.
Qed.





(** ** Recovery from a detected deadlock *)

Lemma tc_last_step {A} (R : relation A) x z :
  tc R x z -> exists y, rtc R x y /\ R y z.
Proof.
  induction 1 as [x z Hxz|x y z Hxy _ (y' & Hy & Hz)].
  - by exists x.
  - exists y'. split; [|done]. by apply rtc_l with y.
Qed.

(** A process on a cycle holds an instance of the resource before it. *)
Lemma process_on_cycle_holds rag p :
  store_inv rag -> tc (rag_edge rag) (PNode p) (PNode p) -> 1 <= held_units rag p.
Proof.
  intros Hinv Hp. apply tc_last_step in Hp as (y & _ & (Hy & _ & Hedge)).
  destruct y as [r t]. destruct t; [done|]. cbn [PNode node_type node_id] in Hedge.
  assert (assignment_matrix rag p r <= held_units rag p); [|lia].
  unfold held_units.
  apply (zsum_member_le (fun r => assignment_matrix rag p r)).
  - intros j _. apply (inv_assign_nonneg _ Hinv).
  - apply elem_of_res_ids. apply Hy.
Qed.

(** The deadlocked processes of a detection are distinct active processes
    on a cycle, and there is at least one. *)
Lemma detected_processes rag d :
  detect_deadlock rag = Some d -> deadlock_detected d = true ->
  NoDup (deadlocked_processes d) /\
  deadlocked_processes d <> [] /\
  forall p, p ∈ deadlocked_processes d ->
            proc_slot_active rag p /\ tc (rag_edge rag) (PNode p) (PNode p).
Proof.
  intros E Hd.
  destruct (detect_deadlock_report rag d E Hd)
    as (c & p0 & Hc & Hsc & _ & _ & Hp & Hr).
  destruct (detect_deadlock_sorted rag d E) as [Sp _].
  split; [by apply StronglySorted_lt_NoDup|]. split.
  - destruct (simple_cycle_balanced rag c Hsc) as (_ & _ & Hpos).
    destruct (omap (keep_type NODE_PROCESS) c) as [|v l] eqn:Eo;
      [cbn in Hpos; lia|].
    assert (v ∈ omap (keep_type NODE_PROCESS) c) as Hv
      by (rewrite Eo; apply list_elem_of_here).
    apply list_elem_of_omap in Hv as (x & Hx & Hk). apply keep_type_Some in Hk.
    subst x. apply Hp in Hx. intros Hnil. rewrite Hnil in Hx. by inversion Hx.
  - intros p Hin. apply Hp in Hin. split.
    + by apply (simple_cycle_valid rag c (PNode p)).
    + by apply (simple_cycle_tc _ c).
Qed.

Lemma terminate_all_fold_count ps rag result k :
  NoDup ps -> (forall q, q ∈ ps -> proc_slot_active rag q) ->
  snd (fold_left terminate_all_step ps (rag, result, k))
  = k + Z.of_nat (length ps).
Proof.
  revert rag result k. induction ps as [|p ps IH]; intros rag result k Hnd Hact.
  - cbn. lia.
  - apply NoDup_cons in Hnd as [Hp Hnd]. cbn [fold_left].
    pose proof (terminate_all_step_minus rag result k p) as Hminus.
    assert (is_Some (rag_get_process rag p)) as [x Hget].
    { apply rag_get_process_Some, Hact, list_elem_of_here. }
    assert (snd (terminate_all_step (rag, result, k) p) = k + 1) as Hk.
    { unfold terminate_all_step. by rewrite Hget. }
    destruct (terminate_all_step (rag, result, k) p) as [[rag1 result1] k1].
    cbn [fst snd] in *. rewrite IH; [|done|].
    + cbn [length]. lia.
    + intros q Hq. destruct Hminus as (Hm & _). apply Hm. split.
      * apply Hact. by apply list_elem_of_further.
      * intros Hq'. apply list_elem_of_singleton in Hq' as ->. done.
Qed.

Lemma preempt_all_keeps_terminated rag p result :
  processes_terminated (snd (recovery_preempt_resources rag p [] result))
  = processes_terminated result.
Proof.
  unfold recovery_preempt_resources. destruct (_ || _); [done|].
  destruct (rag_get_process rag p); [|done].
  destruct (rag_release_all_resources rag p) as [n rag1].
  cbn [snd processes_terminated]. apply record_action_preempted.
Qed.

Lemma rollback_keeps_terminated rag p result :
  processes_terminated (snd (recovery_rollback_process rag p result))
  = processes_terminated result.
Proof.
  unfold recovery_rollback_process. destruct (_ || _); [done|].
  destruct (rag_get_process rag p); [|done].
  destruct (rag_release_all_resources rag p) as [n rag1].
  cbn [snd processes_terminated]. apply record_action_preempted.
Qed.

Lemma detected_recovery_effect (rag : RAG) (d : DeadlockResult)
    (config : RecoveryConfig) :
  store_inv rag -> detect_deadlock rag = Some d -> deadlock_detected d = true ->
  let '(ok, rag', result) := recover_from_deadlock rag d config in
  ok = true /\ rec_success result = true /\ store_inv rag' /\
  match strategy config with
  | RECOVERY_TERMINATE_ALL =>
    processes_terminated result = calculate_deadlock_depth d /\
    forall p, p ∈ deadlocked_processes d -> rag_get_process rag' p = None
  | RECOVERY_PREEMPT_RESOURCES | RECOVERY_ROLLBACK =>
    processes_terminated result = 0 /\ 1 <= resources_preempted result /\
    exists v, v ∈ deadlocked_processes d /\ proc_slot_active rag' v /\
              forall r, rag_is_holding rag' v r = false
  | _ =>
    processes_terminated result = 1 /\
    exists v, v ∈ deadlocked_processes d /\ rag_get_process rag' v = None
  end.
Proof.
  intros Hinv E Hd.
  destruct (detected_processes rag d E Hd) as (Hnd & Hne & Hall).
  assert (forall q, q ∈ deadlocked_processes d -> 0 <= q < MAX_PROCESSES) as Hrange.
  { intros q Hq. by destruct (Hall q Hq) as [[? _] _]. }
  assert (exists q, q ∈ deadlocked_processes d /\
                    proc_active (processes rag q) = true) as Hcand.
  { destruct (deadlocked_processes d) as [|q l] eqn:El; [done|].
    exists q. split; [apply list_elem_of_here|].
    apply (Hall q), list_elem_of_here. }
  pose proof (store_inv_recover rag d config Hinv) as Hinv'.
  revert Hinv'. unfold recover_from_deadlock. rewrite Hd. cbn [negb].
  (* the single-termination strategies *)
  assert (let '(ok, rag', result) :=
            recovery_terminate_one rag d (selection config) recovery_result_init in
          store_inv rag' ->
          ok = true /\ rec_success result = true /\ store_inv rag' /\
          processes_terminated result = 1 /\
          exists v, v ∈ deadlocked_processes d /\ rag_get_process rag' v = None)
    as Hone.
  { pose proof (terminate_one_effect rag d (selection config) recovery_result_init
                  Hrange) as H. cbv zeta in H.
    destruct (recovery_terminate_one _ _ _ _) as [[ok rag'] result].
    destruct H as (Hiff & _ & Hok). intros Hi.
    assert (ok = true) as -> by (by apply Hiff).
    destruct (Hok eq_refl) as (Hin & Hslot & (Hm & _) & Hs & Ht & _).
    split; [done|]. split; [done|]. split; [done|]. split; [done|].
    exists (select_victim_process rag d (selection config)). split; [done|].
    destruct (rag_get_process rag' _) as [x|] eqn:Hget; [|done]. exfalso.
    assert (proc_slot_active rag' (select_victim_process rag d (selection config)))
      as Hact by (apply rag_get_process_Some; by rewrite Hget).
    apply Hm in Hact as [_ Hnot]. apply Hnot, list_elem_of_here. }
  (* the victim of the two strategies that keep the process *)
  assert (let v := select_victim_process rag d (selection config) in
          (v >=? 0) = true /\ v ∈ deadlocked_processes d /\
          proc_slot_active rag v /\ 1 <= held_units rag v) as Hvic.
  { cbv zeta.
    destruct (select_victim_spec rag d (selection config) Hrange) as [Hnone Hsome].
    cbv zeta in Hnone, Hsome.
    assert (select_victim_process rag d (selection config) <> -1) as Hv.
    { intros Hv. destruct Hnone as [Hnone _].
      destruct Hcand as (q & Hq & Hqa). by apply (Hnone Hv q). }
    destruct (Hsome Hv) as [[Hin Hact] _].
    destruct (Hall _ Hin) as [Hslot Hcyc].
    split; [apply Z.geb_le; apply Hslot|]. split; [done|]. split; [done|].
    by apply process_on_cycle_holds. }
  destruct (strategy config).
  - (* terminate all *)
    pose proof (recovery_terminate_all_minus rag d recovery_result_init) as (Hm & _).
    revert Hm. unfold recovery_terminate_all.
    pose proof (terminate_all_fold_count (deadlocked_processes d) rag
                  recovery_result_init 0 Hnd) as Hcount.
    destruct (fold_left _ _ _) as [[rag' result'] k]. cbn [fst snd] in *.
    rewrite Hcount by (intros q Hq; by apply Hall).
    intros Hm Hi.
    assert (0 < Z.of_nat (length (deadlocked_processes d))) as Hlen.
    { destruct (deadlocked_processes d); [done|]. cbn [length]. lia. }
    rewrite Z.add_0_l.
    assert ((Z.of_nat (length (deadlocked_processes d)) >? 0) = true) as ->
      by (by apply Z.gtb_lt).
    split; [done|]. split; [done|]. split; [done|]. split.
    + unfold calculate_deadlock_depth. by rewrite Hd.
    + intros p Hp. destruct (rag_get_process rag' p) as [x|] eqn:Hget; [|done].
      exfalso.
      assert (proc_slot_active rag' p) as Hact
        by (apply rag_get_process_Some; by rewrite Hget).
      by apply Hm in Hact as [_ Hnot].
  - revert Hone. destruct (recovery_terminate_one _ _ _ _) as [[ok rag'] result].
    cbn [fst snd]. intros H Hi. by apply H.
  - revert Hone. destruct (recovery_terminate_one _ _ _ _) as [[ok rag'] result].
    cbn [fst snd]. intros H Hi. by apply H.
  - revert Hone. destruct (recovery_terminate_one _ _ _ _) as [[ok rag'] result].
    cbn [fst snd]. intros H Hi. by apply H.
  - revert Hone. destruct (recovery_terminate_one _ _ _ _) as [[ok rag'] result].
    cbn [fst snd]. intros H Hi. by apply H.
  - (* preempt *)
    cbv zeta in Hvic. destruct Hvic as (-> & Hin & Hslot & Hheld).
    pose proof (preempt_all_effect rag _ recovery_result_init Hinv Hslot) as H.
    pose proof (preempt_all_keeps_terminated rag
                  (select_victim_process rag d (selection config))
                  recovery_result_init) as Hterm.
    destruct (recovery_preempt_resources _ _ _ _) as [[n rag'] result].
    destruct H as (-> & Hnh & _ & Hact' & _ & _ & Hpre & _).
    cbn [fst snd set_rec_success rec_success processes_terminated
         resources_preempted] in *.
    intros Hi.
    assert ((held_units rag (select_victim_process rag d (selection config)) >? 0)
            = true) as -> by (apply Z.gtb_lt; lia).
    split; [done|]. split; [done|]. split; [done|].
    split; [|split; [rewrite Hpre; cbn; lia|]].
    + exact Hterm.
    + by exists (select_victim_process rag d (selection config)).
  - (* rollback *)
    cbv zeta in Hvic. destruct Hvic as (-> & Hin & Hslot & Hheld).
    pose proof (rollback_effect rag _ recovery_result_init Hinv Hslot) as H.
    pose proof (rollback_keeps_terminated rag
                  (select_victim_process rag d (selection config))
                  recovery_result_init) as Hterm.
    destruct (recovery_rollback_process _ _ _) as [[ok rag'] result].
    destruct H as (-> & Hs & Hact' & _ & Hedges & _ & Hpre & _).
    cbn [fst snd] in *. intros Hi.
    split; [done|]. split; [done|]. split; [done|].
    split; [|split; [rewrite Hpre; cbn; lia|]].
    + exact Hterm.
    + exists (select_victim_process rag d (selection config)).
      split; [done|]. split; [done|]. intros r. apply Hedges.
Qed.




(** ** Ring scenarios *)

(** *** Building the ring *)

Lemma least_free_is (f : Z -> bool) (N k id : Z) :
  (forall i, 0 <= i < N -> f i = bool_decide (i < k)) ->
  0 <= k < N -> 0 <= id < N -> f id = false ->
  (forall i, 0 <= i < id -> f i = true) -> id = k.
Proof.
  intros Hf Hk Hid Hfree Hleast.
  rewrite Hf in Hfree by done. apply bool_decide_eq_false in Hfree.
  destruct (Z_lt_le_dec k id) as [Hlt|]; [|lia].
  specialize (Hleast k ltac:(lia)). rewrite Hf in Hleast by done.
  apply bool_decide_eq_true in Hleast. lia.
Qed.

Lemma create_step np nr rag k :
  created k rag -> 0 <= k < MAX_PROCESSES ->
  let '(p, rag1) := rag_add_process rag (Some np) 50 in
  let '(r, rag2) := rag_add_resource rag1 (Some nr) 1 in
  p = k /\ r = k /\ created (k + 1) rag2.
Proof.
  intros (Hpa & Hra & Hav & Hzero) Hk.
  destruct (add_process_effect rag np 50) as [Hfail Hok]. cbv zeta in Hfail, Hok.
  destruct (rag_add_process rag (Some np) 50) as [p rag1]. cbn [fst snd] in *.
  assert (p <> -1) as Hp.
  { intros Hp. destruct Hfail as [Hfail _]. specialize (Hfail Hp k Hk).
    rewrite Hpa in Hfail by done. apply bool_decide_eq_true in Hfail. lia. }
  destruct (Hok Hp) as (P1 & P2 & P3 & P4 & P5 & P6 & P7 & P8 & _).
  assert (p = k) as ->.
  { by apply (least_free_is (fun i => proc_active (processes rag i))
                           MAX_PROCESSES). }
  clear Hfail Hok.
  destruct (add_resource_effect rag1 nr 1) as [Hfail Hok]. cbv zeta in Hfail, Hok.
  destruct (rag_add_resource rag1 (Some nr) 1) as [r rag2]. cbn [fst snd] in *.
  assert (MAX_RESOURCES = MAX_PROCESSES) as HM by done.
  assert (r <> -1) as Hr.
  { intros Hr. destruct Hfail as [Hfail _]. destruct (Hfail Hr) as [?|Hall]; [lia|].
    specialize (Hall k ltac:(lia)). rewrite P8, Hra in Hall by lia.
    apply bool_decide_eq_true in Hall. lia. }
  destruct (Hok Hr) as (R1 & R2 & R3 & R4 & R5 & R6 & R7 & R8 & _).
  assert (r = k) as ->.
  { apply (least_free_is (fun i => res_active (resources rag1 i)) MAX_RESOURCES);
      [|lia|done|done|done].
    intros i Hi. rewrite P8. by apply Hra. }
  split; [done|]. split; [done|]. split; [|split; [|split]].
  - intros i Hi. rewrite R8. destruct (decide (i = k)) as [->|Hne].
    + rewrite P4. cbn. symmetry. apply bool_decide_eq_true. lia.
    + rewrite P5, Hpa by done. apply bool_decide_ext. lia.
  - intros i Hi. destruct (decide (i = k)) as [->|Hne].
    + rewrite R4. cbn. symmetry. apply bool_decide_eq_true. lia.
    + rewrite R5, P8, Hra by done. apply bool_decide_ext. lia.
  - intros i Hi. destruct (decide (i = k)) as [->|Hne].
    + by rewrite R4.
    + rewrite R5, P8 by done. apply Hav. lia.
  - intros a b Ha Hb.
    assert (request_matrix rag1 a b = 0 /\ assignment_matrix rag1 a b = 0) as [Q1 Q2].
    { destruct (decide (a = k)) as [->|Hne]; [by apply P6|].
      destruct (P7 a b Hne) as [-> ->]. by apply Hzero. }
    destruct (decide (b = k)) as [->|Hne]; [by apply R6|].
    destruct (R7 a b Hne) as [-> ->]. done.
Qed.

Lemma created_init : created 0 rag_init.
Proof.
  split; [|split; [|split]]; cbn [rag_init processes resources proc_active
                                  res_active request_matrix assignment_matrix].
  - intros i Hi. symmetry. apply bool_decide_eq_false. lia.
  - intros i Hi. symmetry. apply bool_decide_eq_false. lia.
  - intros i Hi. lia.
  - done.
Qed.

(** The first loop of a ring scenario, whatever the names it gives. *)
Lemma create_fold
    (step : RAG * (Z -> Z) * (Z -> Z) -> Z -> RAG * (Z -> Z) * (Z -> Z))
    (np nr : Z -> string) :
  (forall rag ps rs i,
     step (rag, ps, rs) i
     = let '(p, rag1) := rag_add_process rag (Some (np i)) 50 in
       let '(r, rag2) := rag_add_resource rag1 (Some (nr i)) 1 in
       (rag2, upd ps i p, upd rs i r)) ->
  forall j : nat,
    Z.of_nat j <= MAX_PROCESSES ->
    let '(rag, ps, rs) :=
      fold_left step (seqZ 0 (Z.of_nat j)) (rag_init, (fun _ => 0), (fun _ => 0)) in
    created (Z.of_nat j) rag /\
    forall i, 0 <= i < Z.of_nat j -> ps i = i /\ rs i = i.
Proof.
  intros Hstep. induction j as [|j IH]; intros Hj.
  - cbn. split; [apply created_init|]. intros i Hi. lia.
  - rewrite seqZ_S, fold_left_app. cbn [fold_left]. rewrite Z.add_0_l.
    specialize (IH ltac:(lia)).
    destruct (fold_left step (seqZ 0 (Z.of_nat j)) _) as [[rag ps] rs].
    destruct IH as [Hc Hids]. rewrite Hstep.
    pose proof (create_step (np (Z.of_nat j)) (nr (Z.of_nat j)) rag (Z.of_nat j) Hc
                  ltac:(lia)) as H.
    destruct (rag_add_process rag _ 50) as [p rag1].
    destruct (rag_add_resource rag1 _ 1) as [r rag2].
    destruct H as (-> & -> & Hc').
    split; [by rewrite Nat2Z.inj_succ|].
    intros i Hi. unfold upd. destruct (Z.eqb_spec i (Z.of_nat j)) as [->|Hne]; [done|].
    apply Hids. lia.
Qed.

Lemma request_effect rag p r :
  proc_slot_active rag p -> res_slot_active rag r ->
  let rag' := snd (rag_request_resource rag p r) in
  resources rag' = resources rag /\
  assignment_matrix rag' = assignment_matrix rag /\
  (forall q, proc_active (processes rag' q) = proc_active (processes rag q)) /\
  (forall a b, (a <> p \/ b <> r) -> request_matrix rag' a b = request_matrix rag a b) /\
  request_matrix rag' p r
  = (if request_matrix rag p r >? 0 then request_matrix rag p r else 1).
Proof.
  intros Hp Hr. cbv zeta. unfold rag_request_resource.
  assert (is_Some (rag_get_process rag p)) as [x ->]
    by (by apply rag_get_process_Some).
  assert (is_Some (rag_get_resource rag r)) as [y ->]
    by (by apply rag_get_resource_Some).
  destruct (request_matrix rag p r >? 0); [done|].
  cbn [snd store_state with_processes with_request processes resources
       request_matrix assignment_matrix].
  split; [done|]. split; [done|]. split.
  { intros q. unfold upd. by destruct (Z.eqb_spec q p) as [->|]. }
  split; [intros a b Hab; by apply upd2_ne|apply upd2_eq].
Qed.

(** One round of the second loop. *)
Lemma hold_step n k procs ress rag :
  2 <= n <= MAX_PROCESSES -> 0 <= k < n ->
  (forall i, 0 <= i < n -> procs i = i /\ ress i = i) ->
  ring_held n k rag -> ring_held n (k + 1) (circular_hold n procs ress rag k).
Proof.
  intros Hn Hk Hids (Hpa & Hra & Hav & Hasg & Hreq).
  assert (MAX_RESOURCES = MAX_PROCESSES) as HM by done.
  pose proof (Z.rem_bound_pos (k + 1) n ltac:(lia) ltac:(lia)) as Hrem.
  unfold circular_hold.
  destruct (Hids k Hk) as [-> ->].
  destruct (Hids (Z.rem (k + 1) n) Hrem) as [_ ->].
  set (r' := Z.rem (k + 1) n) in *.
  assert (proc_slot_active rag k) as Hpk.
  { split; [lia|]. rewrite Hpa by lia. apply bool_decide_eq_true. lia. }
  assert (res_slot_active rag k) as Hrk.
  { split; [lia|]. rewrite Hra by lia. apply bool_decide_eq_true. lia. }
  assert (fst (rag_allocate_resource rag k k) = true) as Hok.
  { apply allocate_succeeds; [done|done|]. rewrite Hav; lia. }
  destruct (allocate_effect rag k k Hok) as (_ & _ & _ & A1 & A2 & A3 & A4 & _).
  cbv zeta in A1, A2, A3, A4.
  pose proof (fun b => allocate_resources rag k k b) as A5.
  set (rag1 := snd (rag_allocate_resource rag k k)) in *.
  assert (forall q, 0 <= q < MAX_PROCESSES ->
                    proc_active (processes rag1 q) = bool_decide (q < n)) as Hpa1.
  { intros q Hq. destruct (decide (q = k)) as [->|Hne].
    - rewrite A4. symmetry. apply bool_decide_eq_true. lia.
    - rewrite A3 by done. by apply Hpa. }
  assert (forall b, res_active (resources rag1 b) = res_active (resources rag b))
    as Hra1.
  { intros b. rewrite A5, Hok. cbn [andb].
    destruct (Z.eqb_spec b k) as [->|]; done. }
  assert (proc_slot_active rag1 k) as Hpk1.
  { split; [lia|]. rewrite Hpa1 by lia. apply bool_decide_eq_true. lia. }
  assert (res_slot_active rag1 r') as Hrr1.
  { split; [lia|]. rewrite Hra1, Hra by lia. apply bool_decide_eq_true. lia. }
  destruct (request_effect rag1 k r' Hpk1 Hrr1) as (Q1 & Q2 & Q3 & Q4 & Q5).
  cbv zeta in Q1, Q2, Q3, Q4, Q5.
  set (rag2 := snd (rag_request_resource rag1 k r')) in *.
  split; [|split; [|split; [|split]]].
  - intros q Hq. rewrite Q3. by apply Hpa1.
  - intros b Hb. rewrite Q1, Hra1. by apply Hra.
  - intros i Hi. rewrite Q1, A5, Hok. cbn [andb].
    destruct (Z.eqb_spec i k) as [->|]; [lia|]. apply Hav. lia.
  - intros a b Ha Hb. rewrite Q2, A2. unfold upd2.
    destruct (Z.eqb_spec a k) as [->|Hne]; cbn [andb].
    + destruct (Z.eqb_spec b k) as [->|Hne].
      * rewrite Hasg by lia. rewrite bool_decide_eq_false_2 by lia.
        rewrite bool_decide_eq_true_2 by lia. done.
      * rewrite Hasg by lia. rewrite !bool_decide_eq_false_2 by lia. done.
    + rewrite Hasg by lia. apply (f_equal (fun c : bool => if c then 1 else 0)).
      apply bool_decide_ext. lia.
  - intros a b Ha Hb.
    assert (forall x y, 0 <= x < MAX_PROCESSES -> 0 <= y < MAX_RESOURCES ->
              request_matrix rag1 x y = request_matrix rag x y) as Hsame.
    { intros x y Hx Hy. rewrite A1. unfold upd2.
      destruct (Z.eqb_spec x k) as [->|]; [|done].
      destruct (Z.eqb_spec y k) as [->|]; [|done]. cbn [andb].
      rewrite Hreq by lia. rewrite bool_decide_eq_false_2; [done|lia]. }
    destruct (decide (a = k /\ b = r')) as [[-> ->]|Hne].
    + rewrite Q5, Hsame, Hreq by lia.
      rewrite bool_decide_eq_false_2 by lia. cbn.
      rewrite bool_decide_eq_true_2; [done|]. split; [lia|done].
    + rewrite Q4 by (destruct (decide (a = k)); [right|left]; tauto).
      rewrite Hsame, Hreq by lia.
      apply (f_equal (fun c : bool => if c then 1 else 0)).
      apply bool_decide_ext. split.
      * intros [? ->]. split; [lia|done].
      * intros [Hlt ->]. split; [|done].
        destruct (decide (a = k)) as [->|]; [|lia]. exfalso. by apply Hne.
Qed.

Lemma created_ring_held n rag : created n rag -> ring_held n 0 rag.
Proof.
  intros (Hpa & Hra & Hav & Hzero).
  split; [done|]. split; [done|]. split; [intros i Hi; apply Hav; lia|].
  split; intros p r Hp Hr; destruct (Hzero p r Hp Hr) as [Z1 Z2];
    rewrite ?Z1, ?Z2; rewrite bool_decide_eq_false_2; (done || lia).
Qed.

Lemma hold_fold n procs ress rag :
  2 <= n <= MAX_PROCESSES ->
  (forall i, 0 <= i < n -> procs i = i /\ ress i = i) ->
  ring_held n 0 rag ->
  forall j : nat,
    Z.of_nat j <= n ->
    ring_held n (Z.of_nat j)
              (fold_left (circular_hold n procs ress) (seqZ 0 (Z.of_nat j)) rag).
Proof.
  intros Hn Hids H0. induction j as [|j IH]; intros Hj; [done|].
  rewrite seqZ_S, fold_left_app. cbn [fold_left]. rewrite Z.add_0_l.
  rewrite Nat2Z.inj_succ. apply hold_step; [done|lia|done|]. apply IH. lia.
Qed.

(** Both ring scenarios build the ring of [min n 64]. *)
Lemma ring_scenarios_build_the_ring rag0 n :
  2 <= n ->
  ring_graph (Z.min n MAX_PROCESSES) (setup_circular_wait rag0 n) /\
  ring_graph (Z.min n MAX_PROCESSES) (setup_dining_philosophers rag0 n).
Proof.
  intros Hn. unfold setup_circular_wait, setup_dining_philosophers.
  destruct (Z.ltb_spec n 2); [lia|].
  set (m := if n >? MAX_PROCESSES then MAX_PROCESSES else n).
  assert (m = Z.min n MAX_PROCESSES) as Hm.
  { unfold m. destruct (Z.gtb_spec n MAX_PROCESSES); lia. }
  rewrite <- Hm.
  assert (2 <= m <= MAX_PROCESSES) as Hmr by (unfold MAX_PROCESSES in *; lia).
  assert (m = Z.of_nat (Z.to_nat m)) as Hnat by lia.
  unfold rag_reset. split.
  - pose proof (create_fold circular_create
                  (fun i => ("Process_" ++ decimal (i + 1))%string)
                  (fun i => ("Resource_" ++ resource_letter i)%string)
                  ltac:(done) (Z.to_nat m) ltac:(lia)) as Hfold.
    rewrite <- Hnat in Hfold.
    destruct (fold_left circular_create _ _) as [[rag1 procs] ress].
    destruct Hfold as [Hc Hids]. unfold ring_graph.
    pose proof (hold_fold m procs ress rag1 Hmr Hids (created_ring_held _ _ Hc)
                  (Z.to_nat m) ltac:(lia)) as Hr.
    by rewrite <- Hnat in Hr.
  - pose proof (create_fold dining_create
                  (fun i => ("Philosopher_" ++ decimal (i + 1))%string)
                  (fun i => ("Fork_" ++ decimal (i + 1))%string)
                  ltac:(done) (Z.to_nat m) ltac:(lia)) as Hfold.
    rewrite <- Hnat in Hfold.
    destruct (fold_left dining_create _ _) as [[rag1 philosophers] forks].
    destruct Hfold as [Hc Hids]. unfold ring_graph.
    change (dining_pickup m philosophers forks)
      with (circular_hold m philosophers forks).
    pose proof (hold_fold m philosophers forks rag1 Hmr Hids
                  (created_ring_held _ _ Hc) (Z.to_nat m) ltac:(lia)) as Hr.
    by rewrite <- Hnat in Hr.
Qed.

(** *** The cycles of a ring *)

Lemma ring_valid m rag n :
  ring_graph m rag -> 2 <= m <= MAX_PROCESSES ->
  node_valid rag n <-> 0 <= node_id n < m.
Proof.
  intros (Hpa & Hra & _) Hm. assert (MAX_RESOURCES = MAX_PROCESSES) as HM by done.
  destruct n as [i t]. unfold node_valid, proc_slot_active, res_slot_active.
  cbn [node_type node_id]. destruct t; split.
  - intros [Hi Ha]. rewrite Hpa in Ha by done. apply bool_decide_eq_true in Ha. lia.
  - intros Hi. split; [lia|]. rewrite Hpa by lia. apply bool_decide_eq_true. lia.
  - intros [Hi Ha]. rewrite Hra in Ha by done. apply bool_decide_eq_true in Ha. lia.
  - intros Hi. split; [lia|]. rewrite Hra by lia. apply bool_decide_eq_true. lia.
Qed.

Lemma ring_edge m rag u v :
  ring_graph m rag -> 2 <= m <= MAX_PROCESSES ->
  rag_edge rag u v <->
  (0 <= node_id u < m) /\
  ((node_type u = NODE_PROCESS /\ v = RNode (Z.rem (node_id u + 1) m)) \/
   (node_type u = NODE_RESOURCE /\ v = PNode (node_id u))).
Proof.
  intros Hring Hm. pose proof Hring as (_ & _ & _ & Hasg & Hreq).
  assert (MAX_RESOURCES = MAX_PROCESSES) as HM by done.
  unfold rag_edge. rewrite !(ring_valid m rag) by done.
  destruct u as [i t], v as [j s]. cbn [node_type node_id].
  assert (0 <= i < m -> 0 <= Z.rem (i + 1) m < m) as Hrem.
  { intros Hi. apply Z.rem_bound_pos; lia. }
  destruct t, s; split.
  - intros (_ & _ & []).
  - intros (_ & [[_ [=]]|[[=] _]]).
  - intros (Hi & Hj & Hpos). split; [done|]. left. split; [done|].
    rewrite Hreq in Hpos by lia. case_bool_decide as Hc; [|lia].
    destruct Hc as [_ ->]. done.
  - intros (Hi & [[_ [= ->]]|[[=] _]]). split; [done|]. split; [by apply Hrem|].
    rewrite Hreq by (specialize (Hrem Hi); lia).
    rewrite bool_decide_eq_true_2; [lia|]. split; [lia|done].
  - intros (Hi & Hj & Hpos). split; [done|]. right. split; [done|].
    rewrite Hasg in Hpos by lia. case_bool_decide as Hc; [|lia].
    destruct Hc as [_ ->]. done.
  - intros (Hi & [[[=] _]|[_ [= ->]]]). split; [done|]. split; [done|].
    rewrite Hasg by lia. rewrite bool_decide_eq_true_2; [lia|]. split; [lia|done].
  - intros (_ & _ & []).
  - intros (_ & [[[=] _]|[_ [=]]]).
Qed.

Lemma ring_functional m rag u v v' :
  ring_graph m rag -> 2 <= m <= MAX_PROCESSES ->
  rag_edge rag u v -> rag_edge rag u v' -> v = v'.
Proof.
  intros Hring Hm Hv Hv'.
  apply (ring_edge m rag) in Hv as (_ & Hv); [|done|done].
  apply (ring_edge m rag) in Hv' as (_ & Hv'); [|done|done].
  destruct Hv as [[Ht ->]|[Ht ->]], Hv' as [[Ht' ->]|[Ht' ->]]; congruence.
Qed.

Lemma ring_step m rag i :
  ring_graph m rag -> 2 <= m <= MAX_PROCESSES -> 0 <= i < m ->
  rag_edge rag (RNode i) (PNode i) /\
  rag_edge rag (PNode i) (RNode (Z.rem (i + 1) m)).
Proof.
  intros Hring Hm Hi. split; apply (ring_edge m rag); try done;
    cbn [RNode PNode node_id node_type]; (split; [done|]); [by right|by left].
Qed.

Lemma ring_forward m rag i (j : nat) :
  ring_graph m rag -> 2 <= m <= MAX_PROCESSES ->
  0 <= i -> i + Z.of_nat j < m ->
  rtc (rag_edge rag) (RNode i) (RNode (i + Z.of_nat j)).
Proof.
  intros Hring Hm Hi. induction j as [|j IH]; intros Hj.
  - rewrite Z.add_0_r. done.
  - eapply rtc_trans; [apply IH; lia|].
    destruct (ring_step m rag (i + Z.of_nat j) Hring Hm ltac:(lia)) as [E1 E2].
    rewrite Z.rem_small in E2 by lia.
    replace (i + Z.of_nat (S j)) with (i + Z.of_nat j + 1) by lia.
    apply rtc_l with (PNode (i + Z.of_nat j)); [done|]. by apply rtc_once.
Qed.

Lemma ring_resources_connected m rag i j :
  ring_graph m rag -> 2 <= m <= MAX_PROCESSES ->
  0 <= i < m -> 0 <= j < m ->
  rtc (rag_edge rag) (RNode i) (RNode j).
Proof.
  intros Hring Hm Hi Hj.
  assert (forall a b, 0 <= a <= b -> b < m ->
            rtc (rag_edge rag) (RNode a) (RNode b)) as Hup.
  { intros a b Hab Hb.
    replace b with (a + Z.of_nat (Z.to_nat (b - a))) by lia.
    apply (ring_forward m); try done; lia. }
  destruct (Z_le_gt_dec i j) as [Hle|Hgt]; [apply Hup; lia|].
  eapply rtc_trans; [apply (Hup i (m - 1)); lia|].
  destruct (ring_step m rag (m - 1) Hring Hm ltac:(lia)) as [E1 E2].
  replace (m - 1 + 1) with m in E2 by lia. rewrite Z.rem_same in E2 by lia.
  apply rtc_l with (PNode (m - 1)); [done|].
  apply rtc_l with (RNode 0); [done|]. apply Hup; lia.
Qed.

Lemma ring_connected m rag u v :
  ring_graph m rag -> 2 <= m <= MAX_PROCESSES ->
  node_valid rag u -> node_valid rag v -> rtc (rag_edge rag) u v.
Proof.
  intros Hring Hm Hu Hv.
  apply (ring_valid m rag) in Hu, Hv; try done.
  assert (forall i, 0 <= i < m -> 0 <= Z.rem (i + 1) m < m) as Hrem.
  { intros i Hi. apply Z.rem_bound_pos; lia. }
  assert (forall i, 0 <= i < m -> rtc (rag_edge rag) (RNode i) v) as Hfrom.
  { intros i Hi. destruct v as [j s]. cbn [node_id] in Hv. destruct s.
    - eapply rtc_trans; [apply (ring_resources_connected m rag i j); done|].
      apply rtc_once. by apply (ring_step m rag j).
    - by apply (ring_resources_connected m rag i j). }
  destruct u as [i t]. cbn [node_id] in Hu. destruct t.
  - apply rtc_l with (RNode (Z.rem (i + 1) m)); [by apply (ring_step m rag i)|].
    by apply Hfrom, Hrem.
  - by apply Hfrom.
Qed.

(** On a closed walk every node has its successor on the walk. *)
Lemma linked_next {A} (E : relation A) l x :
  linked E l -> x ∈ l -> (exists y, y ∈ l /\ E x y) \/ last l = Some x.
Proof.
  induction l as [|a l IH]; intros Hl Hx; [by inversion Hx|].
  destruct l as [|b l].
  - right. apply elem_of_cons in Hx as [->|Hx]; [done|by inversion Hx].
  - destruct Hl as [Hab Hl]. apply elem_of_cons in Hx as [->|Hx].
    + left. exists b. split; [|done]. apply list_elem_of_further, list_elem_of_here.
    + destruct (IH Hl Hx) as [(y & Hy & Hxy)|Hlast].
      * left. exists y. split; [by apply list_elem_of_further|done].
      * right. done.
Qed.

Lemma simple_cycle_next {A} (E : relation A) c x :
  simple_cycle E c -> x ∈ c -> exists y, y ∈ c /\ E x y.
Proof.
  intros (_ & Hl & first & final & Hh & Hf & Hback) Hx.
  destruct (linked_next E c x Hl Hx) as [?|Hlast]; [done|].
  exists first. split.
  - destruct c; [done|]. cbn in Hh. injection Hh as ->. apply list_elem_of_here.
  - rewrite Hlast in Hf. by injection Hf as ->.
Qed.

(** A cycle of a ring passes through every node of the ring. *)
Lemma ring_cycle_covers m rag c v :
  ring_graph m rag -> 2 <= m <= MAX_PROCESSES ->
  simple_cycle (rag_edge rag) c -> node_valid rag v -> v ∈ c.
Proof.
  intros Hring Hm Hsc Hv.
  assert (forall x y, rtc (rag_edge rag) x y -> x ∈ c -> y ∈ c) as Hclosed.
  { intros x y Hxy. induction Hxy as [x|x y z Hxy _ IH]; [done|].
    intros Hx. apply IH.
    destruct (simple_cycle_next _ c x Hsc Hx) as (y' & Hy' & Hxy').
    by rewrite (ring_functional m rag x y y'). }
  pose proof Hsc as (_ & _ & first & _ & Hh & _).
  assert (first ∈ c) as Hfirst.
  { destruct c; [done|]. cbn in Hh. injection Hh as ->. apply list_elem_of_here. }
  apply (Hclosed first); [|done].
  apply (ring_connected m rag); [done|done| |done].
  by apply (simple_cycle_valid rag c).
Qed.

Lemma sorted_range (l : list Z) m :
  StronglySorted Z.lt l -> (forall i, i ∈ l <-> 0 <= i < m) -> l = seqZ 0 m.
Proof.
  intros Hs Hl. apply (StronglySorted_unique_strong Z.lt).
  - intros x1 x2 _ _ H1 H2. lia.
  - done.
  - apply StronglySorted_seqZ.
  - apply NoDup_Permutation.
    + by apply StronglySorted_lt_NoDup.
    + apply NoDup_seqZ.
    + intros i. rewrite Hl, elem_of_seqZ. lia.
Qed.

Lemma ring_detection m rag :
  ring_graph m rag -> 2 <= m <= MAX_PROCESSES ->
  exists d,
    detect_deadlock rag = Some d /\ deadlock_detected d = true /\
    deadlocked_processes d = seqZ 0 m /\ deadlocked_resources d = seqZ 0 m /\
    calculate_deadlock_depth d = m.
Proof.
  intros Hring Hm.
  destruct (detect_deadlock_correct rag) as (d & E & Hiff).
  assert (deadlock_detected d = true) as Hd.
  { apply Hiff. exists (RNode 0).
    destruct (ring_step m rag 0 Hring Hm ltac:(lia)) as [E1 E2].
    apply tc_rtc_r with (PNode 0); [by apply tc_once|].
    apply (ring_connected m rag); [done|done| |];
      apply (ring_valid m rag); (done || cbn; lia). }
  exists d. split; [done|]. split; [done|].
  destruct (detect_deadlock_report rag d E Hd)
    as (c & p0 & Hc & Hsc & _ & _ & Hp & Hr).
  destruct (detect_deadlock_sorted rag d E) as [Sp Sr].
  assert (deadlocked_processes d = seqZ 0 m) as Ep.
  { apply sorted_range; [done|]. intros i. rewrite Hp. split.
    - intros Hi. apply (simple_cycle_valid rag c) in Hi; [|done].
      by apply (ring_valid m rag) in Hi.
    - intros Hi. apply (ring_cycle_covers m rag); [done|done|done|].
      by apply (ring_valid m rag). }
  assert (deadlocked_resources d = seqZ 0 m) as Er.
  { apply sorted_range; [done|]. intros i. rewrite Hr. split.
    - intros Hi. apply (simple_cycle_valid rag c) in Hi; [|done].
      by apply (ring_valid m rag) in Hi.
    - intros Hi. apply (ring_cycle_covers m rag); [done|done|done|].
      by apply (ring_valid m rag). }
  split; [done|]. split; [done|].
  unfold calculate_deadlock_depth. rewrite Hd, Ep. cbn [negb].
  rewrite length_seqZ. lia.
Qed.

(** X28. For every [n >= 2], [setup_circular_wait] and
    [setup_dining_philosophers] build, from whatever state they are given,
    the ring of [m = min n 64] processes and [m] single-instance resources
    in which process [i] holds resource [i] and requests resource
    [(i + 1) % m]; on it [detect_deadlock] reports a deadlock whose
    deadlocked processes and resources are all of [0 .. m-1] and whose depth
    is [m]. *)
Theorem ring_scenarios_deadlock_every_process (rag0 : RAG) (n : Z) :
  2 <= n ->
  let m := Z.min n MAX_PROCESSES in
  forall rag,
    rag = setup_circular_wait rag0 n \/ rag = setup_dining_philosophers rag0 n ->
    (forall i, 0 <= i < m ->
       proc_slot_active rag i /\ res_slot_active rag i /\
       assignment_matrix rag i i = 1 /\
       request_matrix rag i (Z.rem (i + 1) m) = 1) /\
    (forall i, m <= i < MAX_PROCESSES ->
       rag_get_process rag i = None /\ rag_get_resource rag i = None) /\
    exists d,
      detect_deadlock rag = Some d /\ deadlock_detected d = true /\
      deadlocked_processes d = seqZ 0 m /\ deadlocked_resources d = seqZ 0 m /\
      calculate_deadlock_depth d = m.
Proof.
  intros Hn m rag Hrag.
  assert (2 <= m <= MAX_PROCESSES) as Hm by (unfold m, MAX_PROCESSES in *; lia).
  assert (ring_graph m rag) as Hring.
  { destruct (ring_scenarios_build_the_ring rag0 n Hn) as [H1 H2].
    by destruct Hrag as [->| ->]. }
  assert (MAX_RESOURCES = MAX_PROCESSES) as HM by done.
  pose proof Hring as (Hpa & Hra & _ & Hasg & Hreq).
  split; [|split; [|by apply ring_detection]].
  - intros i Hi.
    pose proof (Z.rem_bound_pos (i + 1) m ltac:(lia) ltac:(lia)) as Hrem.
    split; [apply (ring_valid m rag (PNode i)); done|].
    split; [apply (ring_valid m rag (RNode i)); done|].
    rewrite Hasg, Hreq by lia. rewrite !bool_decide_eq_true_2; [done| |]; split;
      (done || lia).
  - intros i Hi. split.
    + destruct (rag_get_process rag i) as [x|] eqn:Hget; [|done]. exfalso.
      assert (proc_slot_active rag i) as Hact
        by (apply rag_get_process_Some; by rewrite Hget).
      apply (ring_valid m rag (PNode i)) in Hact; [|done|done]. cbn in Hact. lia.
    + destruct (rag_get_resource rag i) as [x|] eqn:Hget; [|done]. exfalso.
      assert (res_slot_active rag i) as Hact
        by (apply rag_get_resource_Some; by rewrite Hget).
      apply (ring_valid m rag (RNode i)) in Hact; [|done|done]. cbn in Hact. lia.
Qed.

Lemma ring_scenarios_deadlock_every_process_witness :
  let rag := setup_circular_wait rag_init 4 in
  exists d,
    detect_deadlock rag = Some d /\ deadlock_detected d = true /\
    deadlocked_processes d = seqZ 0 4 /\ deadlocked_resources d = seqZ 0 4 /\
    calculate_deadlock_depth d = 4.
Proof.
  intros rag.
  assert (2 <= 4) as Hn by lia.
  destruct (ring_scenarios_deadlock_every_process rag_init 4 Hn rag
              (or_introl eq_refl)) as (_ & _ & H).
  exact H.
Defined.


(** ** Detection after recovery *)

Lemma tc_mono {A} (R R' : relation A) x y :
  (forall a b, R a b -> R' a b) -> tc R x y -> tc R' x y.
Proof.
  intros H. induction 1 as [a b Hab|a b c Hab _ IH].
  - apply tc_once. by apply H.
  - apply tc_l with b; [by apply H|done].
Qed.

(** A walk whose edges never enter [n] and that does not start at [n]
    avoids [n]. *)
Lemma tc_never_entered {A} (R R' : relation A) (n x y : A) :
  (forall a b, R a b -> b <> n /\ (a <> n -> R' a b)) ->
  x <> n -> tc R x y -> tc R' x y.
Proof.
  intros H Hx Ht. induction Ht as [a b Hab|a b c Hab _ IH].
  - apply tc_once. by apply H.
  - destruct (H a b Hab) as [Hb Hab']. apply tc_l with b; [by apply Hab'|].
    by apply IH.
Qed.

(** Taking every instance away from process [v] (and possibly cancelling
    its requests) removes from the graph exactly the walks through [v]. *)
Lemma relieved_process_cycles rag rag' v :
  (forall p, proc_active (processes rag' p) = proc_active (processes rag p)) ->
  (forall r, res_active (resources rag' r) = res_active (resources rag r)) ->
  (forall q r, q <> v ->
     request_matrix rag' q r = request_matrix rag q r /\
     assignment_matrix rag' q r = assignment_matrix rag q r) ->
  (forall r, 0 <= r < MAX_RESOURCES -> assignment_matrix rag' v r = 0) ->
  (forall r, 0 <= r < MAX_RESOURCES ->
     request_matrix rag' v r = 0 \/ request_matrix rag' v r = request_matrix rag v r) ->
  has_cycle (rag_edge rag') <-> has_cycle (rag_edge_avoiding rag [v]).
Proof.
  intros Hp Hr Hother Hasg Hreq.
  assert (forall n, node_valid rag' n <-> node_valid rag n) as Hval.
  { intros [i t]. unfold node_valid, proc_slot_active, res_slot_active.
    cbn [node_type node_id]. destruct t; by rewrite ?Hp, ?Hr. }
  assert (forall i, mkNode i NODE_PROCESS ∉ PNode <$> [v] <-> i <> v) as Hnot.
  { intros i. split.
    - intros Hi ->. apply Hi, list_elem_of_fmap. exists v.
      split; [done|apply list_elem_of_here].
    - intros Hi Hin. apply list_elem_of_fmap in Hin as (q & [= ->] & Hq).
      by apply list_elem_of_singleton in Hq. }
  assert (forall i, mkNode i NODE_RESOURCE ∉ PNode <$> [v]) as Hres.
  { intros i Hin. by apply list_elem_of_fmap in Hin as (q & [=] & _). }
  assert (forall u w, rag_edge rag' u w ->
            w <> PNode v /\ (u <> PNode v -> rag_edge_avoiding rag [v] u w)) as Hin.
  { intros [i ti] [j tj] (Hu & Hw & He). cbn [node_type node_id] in He.
    destruct ti, tj; try done.
    - split; [done|]. intros Hne.
      assert (i <> v) as Hi by (intros ->; by apply Hne).
      destruct (Hother i j Hi) as [E _]. rewrite E in He.
      split; [|split; [by apply Hnot|apply Hres]].
      split; [by apply Hval|]. split; [by apply Hval|done].
    - assert (j <> v) as Hj.
      { intros ->. rewrite Hasg in He; [lia|]. apply Hu. }
      split; [intros [= ?]; done|]. intros _.
      destruct (Hother j i Hj) as [_ E]. rewrite E in He.
      split; [|split; [apply Hres|by apply Hnot]].
      split; [by apply Hval|]. split; [by apply Hval|done]. }
  assert (forall u w, rag_edge_avoiding rag [v] u w -> rag_edge rag' u w) as Hout.
  { intros [i ti] [j tj] ((Hu & Hw & He) & Hnu & Hnw).
    cbn [node_type node_id] in He.
    split; [by apply Hval|]. split; [by apply Hval|]. cbn [node_type node_id].
    destruct ti, tj; try done.
    - apply Hnot in Hnu. by destruct (Hother i j Hnu) as [-> _].
    - apply Hnot in Hnw. by destruct (Hother j i Hnw) as [_ ->]. }
  split; intros [x Hx]; exists x.
  - apply (tc_never_entered (rag_edge rag') _ (PNode v)); [done| |done].
    apply tc_last_step in Hx as (y & _ & Hy). by apply Hin in Hy as [? _].
  - revert Hx. by apply tc_mono.
Qed.

Lemma preempt_all_graph rag v result :
  store_inv rag -> proc_slot_active rag v ->
  let rag' := snd (fst (recovery_preempt_resources rag v [] result)) in
  (forall p, proc_active (processes rag' p) = proc_active (processes rag p)) /\
  (forall r, res_active (resources rag' r) = res_active (resources rag r)) /\
  request_matrix rag' = request_matrix rag /\
  (forall q r, q <> v -> assignment_matrix rag' q r = assignment_matrix rag q r) /\
  (forall r, assignment_matrix rag' v r = 0).
Proof.
  intros Hinv [Hv Hact]. cbv zeta. unfold recovery_preempt_resources.
  destruct (Z.ltb_spec v 0), (Z.geb_spec v MAX_PROCESSES); try lia. cbn [orb].
  unfold rag_get_process.
  destruct (Z.ltb_spec v 0), (Z.geb_spec v MAX_PROCESSES); try lia. cbn [orb].
  rewrite Hact. cbn [negb].
  destruct (release_all_effect rag v Hinv Hv) as (_ & R2 & _ & R4 & _).
  destruct (release_all_frame rag v) as (F1 & F2 & F3 & _).
  cbv zeta in R2, R4, F1, F2, F3.
  destruct (rag_release_all_resources rag v) as [released rag1]. cbn [fst snd] in *.
  cbn [store_state with_processes processes resources request_matrix
       assignment_matrix].
  split; [|done]. intros p. rewrite F1. unfold upd.
  destruct (Z.eqb_spec p v) as [->|]; [|done]. by destruct (processes rag v).
Qed.

Lemma rollback_graph rag v result :
  store_inv rag -> proc_slot_active rag v ->
  let rag' := snd (fst (recovery_rollback_process rag v result)) in
  (forall p, proc_active (processes rag' p) = proc_active (processes rag p)) /\
  (forall r, res_active (resources rag' r) = res_active (resources rag r)) /\
  (forall q r, q <> v ->
     request_matrix rag' q r = request_matrix rag q r /\
     assignment_matrix rag' q r = assignment_matrix rag q r) /\
  (forall r, assignment_matrix rag' v r = 0) /\
  (forall r, 0 <= r < MAX_RESOURCES -> request_matrix rag' v r = 0).
Proof.
  intros Hinv [Hv Hact]. cbv zeta. unfold recovery_rollback_process.
  destruct (Z.ltb_spec v 0), (Z.geb_spec v MAX_PROCESSES); try lia. cbn [orb].
  unfold rag_get_process.
  destruct (Z.ltb_spec v 0), (Z.geb_spec v MAX_PROCESSES); try lia. cbn [orb].
  rewrite Hact. cbn [negb].
  destruct (release_all_effect rag v Hinv Hv) as (_ & R2 & _ & R4 & _).
  destruct (release_all_frame rag v) as (F1 & F2 & F3 & _).
  cbv zeta in R2, R4, F1, F2, F3.
  destruct (rag_release_all_resources rag v) as [released rag1]. cbn [fst snd] in *.
  destruct (cancel_fold_effect v res_ids rag1) as (C1 & C2 & C3 & C4 & C5 & C6).
  cbv zeta in C1, C2, C3, C4, C5, C6.
  set (rag2 := fold_left (fun g r => snd (rag_cancel_request g v r)) res_ids rag1)
    in *.
  cbn [store_state with_processes processes resources request_matrix
       assignment_matrix].
  split; [|split; [|split; [|split]]].
  - intros p. unfold upd. destruct (Z.eqb_spec p v) as [->|Hne].
    + rewrite <- F1, <- C4. by destruct (processes rag2 v).
    + by rewrite C3, F1.
  - intros r. by rewrite C1.
  - intros q r Hq. rewrite C5 by (by left). rewrite C2, F2. split; [done|].
    by apply R4.
  - intros r. by rewrite C2.
  - intros r Hr. apply C6; [done| |done]. by apply elem_of_res_ids.
Qed.

(** The processes a strategy relieves: all the listed ones for
    terminate-all, the selected victim for every other strategy. *)
Lemma recover_then_cycles (rag : RAG) (d : DeadlockResult) (config : RecoveryConfig) :
  store_inv rag -> detect_deadlock rag = Some d -> deadlock_detected d = true ->
  let rag' := snd (fst (recover_from_deadlock rag d config)) in
  let relieved :=
    match strategy config with
    | RECOVERY_TERMINATE_ALL => deadlocked_processes d
    | _ => [select_victim_process rag d (selection config)]
    end in
  relieved <> [] /\
  (forall p, p ∈ relieved -> p ∈ deadlocked_processes d) /\
  (has_cycle (rag_edge rag') <-> has_cycle (rag_edge_avoiding rag relieved)).
Proof.
  intros Hinv E Hd.
  destruct (detected_processes rag d E Hd) as (Hnd & Hne & Hall).
  assert (forall q, q ∈ deadlocked_processes d -> 0 <= q < MAX_PROCESSES) as Hrange.
  { intros q Hq. by destruct (Hall q Hq) as [[? _] _]. }
  assert (exists q, q ∈ deadlocked_processes d /\
                    proc_active (processes rag q) = true) as Hcand.
  { destruct (deadlocked_processes d) as [|q l] eqn:El; [done|].
    exists q. split; [apply list_elem_of_here|].
    apply (Hall q), list_elem_of_here. }
  assert (forall rag1 ps, graph_minus rag rag1 ps ->
            has_cycle (rag_edge rag1) <-> has_cycle (rag_edge_avoiding rag ps))
    as Hminus.
  { intros rag1 ps Hm. unfold has_cycle. split; intros [x Hx]; exists x; revert Hx;
      apply tc_iff; intros a b; by rewrite (graph_minus_edge _ _ _ a b Hm). }
  set (v := select_victim_process rag d (selection config)).
  assert ((v >=? 0) = true /\ v ∈ deadlocked_processes d /\ proc_slot_active rag v)
    as (Hge & Hvin & Hvact).
  { destruct (select_victim_spec rag d (selection config) Hrange) as [Hnone Hsome].
    cbv zeta in Hnone, Hsome. fold v in Hnone, Hsome.
    assert (v <> -1) as Hv.
    { intros Hv. destruct Hnone as [Hnone _].
      destruct Hcand as (q & Hq & Hqa). by apply (Hnone Hv q). }
    destruct (Hsome Hv) as [[Hin Hact] _].
    destruct (Hall _ Hin) as [Hslot _].
    split; [apply Z.geb_le; apply Hslot|]. done. }
  assert (forall p, p ∈ [v] -> p ∈ deadlocked_processes d) as Hsingle.
  { intros p Hp. by apply list_elem_of_singleton in Hp as ->. }
  assert (has_cycle
            (rag_edge (snd (fst (recovery_terminate_one rag d (selection config)
                                   recovery_result_init))))
          <-> has_cycle (rag_edge_avoiding rag [v])) as Hone.
  { pose proof (terminate_one_effect rag d (selection config) recovery_result_init
                  Hrange) as H. cbv zeta in H. fold v in H.
    destruct (recovery_terminate_one _ _ _ _) as [[ok rag'] result].
    destruct H as (Hiff & _ & Hok). cbn [fst snd].
    assert (ok = true) as -> by (by apply Hiff).
    destruct (Hok eq_refl) as (_ & _ & Hm & _). by apply Hminus. }
  cbv zeta. unfold recover_from_deadlock. rewrite Hd. cbn [negb]. fold v.
  destruct (strategy config).
  - split; [done|]. split; [done|].
    apply Hminus, recovery_terminate_all_minus.
  - done.
  - done.
  - done.
  - done.
  - split; [done|]. split; [done|]. rewrite Hge.
    destruct (preempt_all_graph rag v recovery_result_init Hinv Hvact)
      as (G1 & G2 & G3 & G4 & G5). cbv zeta in G1, G2, G3, G4, G5.
    destruct (recovery_preempt_resources _ _ _ _) as [[n rag'] result].
    cbn [fst snd] in *. apply relieved_process_cycles; try done.
    + intros q r Hq. rewrite G3. split; [done|]. by apply G4.
    + intros r _. right. by rewrite G3.
  - split; [done|]. split; [done|]. rewrite Hge.
    destruct (rollback_graph rag v recovery_result_init Hinv Hvact)
      as (G1 & G2 & G3 & G4 & G5). cbv zeta in G1, G2, G3, G4, G5.
    destruct (recovery_rollback_process _ _ _) as [[ok rag'] result].
    cbn [fst snd] in *. apply relieved_process_cycles; try done.
    intros r Hr. left. by apply G5.
Qed.



(** *** Recovery on the ring scenarios *)

Lemma store_inv_fold {S} (graph : S -> RAG) (step : S -> Z -> S) l acc :
  (forall s i, store_inv (graph s) -> store_inv (graph (step s i))) ->
  store_inv (graph acc) -> store_inv (graph (fold_left step l acc)).
Proof.
  intros Hstep. revert acc. induction l as [|i l IH]; intros acc Hacc; [done|].
  cbn [fold_left]. by apply IH, Hstep.
Qed.

Lemma store_inv_circular_create acc i :
  store_inv (fst (fst acc)) -> store_inv (fst (fst (circular_create acc i))).
Proof.
  destruct acc as [[rag procs] ress]. cbn [fst]. intros Hinv.
  unfold circular_create.
  pose proof (store_inv_add_process rag
                (Some ("Process_" ++ decimal (i + 1))%string) 50 Hinv) as H1.
  destruct (rag_add_process rag _ 50) as [p rag1]. cbn [snd] in H1.
  pose proof (store_inv_add_resource rag1
                (Some ("Resource_" ++ resource_letter i)%string) 1 H1) as H2.
  destruct (rag_add_resource rag1 _ 1) as [r rag2]. done.
Qed.

Lemma store_inv_dining_create acc i :
  store_inv (fst (fst acc)) -> store_inv (fst (fst (dining_create acc i))).
Proof.
  destruct acc as [[rag procs] ress]. cbn [fst]. intros Hinv.
  unfold dining_create.
  pose proof (store_inv_add_process rag
                (Some ("Philosopher_" ++ decimal (i + 1))%string) 50 Hinv) as H1.
  destruct (rag_add_process rag _ 50) as [p rag1]. cbn [snd] in H1.
  pose proof (store_inv_add_resource rag1
                (Some ("Fork_" ++ decimal (i + 1))%string) 1 H1) as H2.
  destruct (rag_add_resource rag1 _ 1) as [r rag2]. done.
Qed.

Lemma store_inv_circular_hold n procs ress rag i :
  store_inv rag -> store_inv (circular_hold n procs ress rag i).
Proof.
  intros Hinv. unfold circular_hold. by apply store_inv_request, store_inv_allocate.
Qed.

Lemma store_inv_ring_scenarios rag0 n :
  2 <= n ->
  store_inv (setup_circular_wait rag0 n) /\
  store_inv (setup_dining_philosophers rag0 n).
Proof.
  intros Hn. unfold setup_circular_wait, setup_dining_philosophers.
  destruct (Z.ltb_spec n 2); [lia|].
  set (m := if n >? MAX_PROCESSES then MAX_PROCESSES else n). split.
  - pose proof (store_inv_fold (fun s => fst (fst s)) circular_create (seqZ 0 m)
                  (rag_reset rag0, (fun _ => 0), (fun _ => 0))
                  store_inv_circular_create store_inv_init) as H1.
    destruct (fold_left circular_create _ _) as [[rag1 procs] ress]. cbn [fst] in H1.
    apply (store_inv_fold (fun s => s)); [|done].
    intros s i. apply store_inv_circular_hold.
  - pose proof (store_inv_fold (fun s => fst (fst s)) dining_create (seqZ 0 m)
                  (rag_reset rag0, (fun _ => 0), (fun _ => 0))
                  store_inv_dining_create store_inv_init) as H1.
    destruct (fold_left dining_create _ _) as [[rag1 philosophers] forks].
    cbn [fst] in H1.
    apply (store_inv_fold (fun s => s)); [|done].
    intros s i. apply (store_inv_circular_hold m philosophers forks).
Qed.

(** A ring without the hold edge into one of its processes has no cycle:
    every remaining edge goes one step further from that process. *)
Lemma ring_broken m rag v (E : relation GraphNode) :
  ring_graph m rag -> 2 <= m <= MAX_PROCESSES -> 0 <= v < m ->
  (forall u w, E u w -> rag_edge rag u w) ->
  ~ E (RNode v) (PNode v) ->
  ~ has_cycle E.
Proof.
  intros Hring Hm Hv Hsub Hcut.
  set (rank := fun n : GraphNode =>
         match node_type n with
         | NODE_PROCESS =>
           2 * (if node_id n <? v then node_id n - v + m else node_id n - v)
         | NODE_RESOURCE =>
           2 * (if node_id n <=? v then node_id n - v + m else node_id n - v) - 1
         end).
  assert (forall u w, E u w -> rank u < rank w) as Hstep.
  { intros u w Huw. pose proof (Hsub u w Huw) as Hedge.
    apply (ring_edge m rag) in Hedge as (Hi & Hcase); [|done|done].
    destruct u as [i t]. cbn [node_id node_type] in Hi, Hcase.
    destruct Hcase as [[-> ->]|[-> ->]]; unfold rank;
      cbn [node_type node_id RNode PNode].
    - destruct (Z.eq_dec (i + 1) m) as [Heq|Hne].
      + rewrite Heq, Z.rem_same by lia.
        destruct (Z.ltb_spec i v), (Z.leb_spec 0 v); lia.
      + rewrite Z.rem_small by lia.
        destruct (Z.ltb_spec i v), (Z.leb_spec (i + 1) v); lia.
    - assert (i <> v) as Hne by (intros ->; by apply Hcut).
      destruct (Z.ltb_spec i v), (Z.leb_spec i v); lia. }
  assert (forall x y, tc E x y -> rank x < rank y) as Htc.
  { intros x y Ht. induction Ht as [a b Hab|a b c Hab _ IH].
    - by apply Hstep.
    - apply Hstep in Hab. lia. }
  intros [x Hx]. apply Htc in Hx. lia.
Qed.

Lemma ring_recovery rag m config :
  ring_graph m rag -> 2 <= m <= MAX_PROCESSES -> store_inv rag ->
  exists d,
    detect_deadlock rag = Some d /\ deadlock_detected d = true /\
    deadlocked_processes d = seqZ 0 m /\
    fst (fst (recover_from_deadlock rag d config)) = true /\
    exists d',
      detect_deadlock (snd (fst (recover_from_deadlock rag d config))) = Some d' /\
      deadlock_detected d' = false.
Proof.
  intros Hring Hm Hinv.
  destruct (ring_detection m rag Hring Hm) as (d & E & Hd & Hp & _).
  exists d. split; [done|]. split; [done|]. split; [done|]. split.
  { pose proof (detected_recovery_effect rag d config Hinv E Hd) as H.
    destruct (recover_from_deadlock rag d config) as [[ok rag'] result].
    by destruct H as [-> _]. }
  destruct (recover_then_cycles rag d config Hinv E Hd) as (Hne & Hsub & Hcyc).
  cbv zeta in Hne, Hsub, Hcyc.
  destruct (detect_deadlock_correct (snd (fst (recover_from_deadlock rag d config))))
    as (d' & E' & Hd').
  exists d'. split; [done|].
  destruct (deadlock_detected d') eqn:Hdet; [|done]. exfalso.
  assert (has_cycle (rag_edge (snd (fst (recover_from_deadlock rag d config)))))
    as Hhas by (by apply Hd').
  apply Hcyc in Hhas. revert Hhas.
  set (relieved := match strategy config with
                   | RECOVERY_TERMINATE_ALL => deadlocked_processes d
                   | _ => [select_victim_process rag d (selection config)]
                   end) in *.
  destruct relieved as [|v rest] eqn:Hrel; [done|].
  assert (0 <= v < m) as Hv.
  { assert (v ∈ deadlocked_processes d) as Hin
      by (apply Hsub, list_elem_of_here).
    rewrite Hp in Hin. apply elem_of_seqZ in Hin. lia. }
  apply (ring_broken m rag v); [done|done|done| |].
  - by intros u w [Huw _].
  - intros (_ & _ & Hnot). apply Hnot, list_elem_of_fmap. exists v.
    split; [done|apply list_elem_of_here].
Qed.

(** X30. On the ring built by [setup_circular_wait] or
    [setup_dining_philosophers] for any [n >= 2], detection reports a
    deadlock, [recover_from_deadlock] succeeds on it under every strategy
    and selection criterion, and a fresh [detect_deadlock] on the recovered
    graph reports no deadlock: relieving a single process of the ring is
    enough. *)
Theorem ring_deadlock_is_resolved_by_recovery (rag0 : RAG) (n : Z)
    (config : RecoveryConfig) :
  2 <= n ->
  forall rag,
    rag = setup_circular_wait rag0 n \/ rag = setup_dining_philosophers rag0 n ->
    exists d,
      detect_deadlock rag = Some d /\ deadlock_detected d = true /\
      let '(ok, rag', _) := recover_from_deadlock rag d config in
      ok = true /\
      exists d', detect_deadlock rag' = Some d' /\ deadlock_detected d' = false.
Proof.
  intros Hn rag Hrag.
  assert (2 <= Z.min n MAX_PROCESSES <= MAX_PROCESSES) as Hm
    by (unfold MAX_PROCESSES in *; lia).
  assert (ring_graph (Z.min n MAX_PROCESSES) rag /\ store_inv rag) as [Hring Hinv].
  { destruct (ring_scenarios_build_the_ring rag0 n Hn) as [R1 R2].
    destruct (store_inv_ring_scenarios rag0 n Hn) as [I1 I2].
    by destruct Hrag as [->| ->]. }
  destruct (ring_recovery rag _ config Hring Hm Hinv) as (d & E & Hd & _ & Hok & H').
  exists d. split; [exact E|]. split; [exact Hd|].
  destruct (recover_from_deadlock rag d config) as [[ok rag'] result].
  cbn [fst snd] in Hok, H'. split; [exact Hok|exact H'].
Qed.

Lemma ring_deadlock_is_resolved_by_recovery_witness :
  let rag := setup_dining_philosophers rag_init 5 in
  exists d,
    detect_deadlock rag = Some d /\ deadlock_detected d = true /\
    let '(ok, rag', _) := recover_from_deadlock rag d recovery_config_init in
    ok = true /\
    exists d', detect_deadlock rag' = Some d' /\ deadlock_detected d' = false.
Proof.
  intros rag.
  assert (2 <= 5) as Hn by lia.
  exact (ring_deadlock_is_resolved_by_recovery rag_init 5 recovery_config_init Hn
           rag (or_intror eq_refl)).
Defined.
